(** * Linear-space Myers difference algorithm (src/diff.hh)

    A shallow embedding of Kakoune's [diff.hh] and the properties of the
    edit scripts it produces.

    Conventions of the embedding
    - C++ [int] values are [Z] and the arithmetic of the code is that of
      [Z]: what the code does once one of its operations has overflowed is
      not modelled.  Every theorem about what the code returns therefore
      carries, as a hypothesis, a bound under which no operation of the
      code overflows; for [find_diff] it is that [2 * (2 * (N + M) + 1)],
      the size of its block and the largest number the code computes, is
      an [int].
    - An iterator is a partial indexing function; reading outside of the
      underlying sequence is the failure [OutOfBounds].
    - [Vector<int> data] is a block of [size] cells and an [int*] into it is
      the index of the cell it points to; reading or writing a cell outside
      of the block is the failure [OutOfBounds].
    - Loops are folds over the exact list of values their counter takes, or
      recursions on a fuel that the caller supplies. *)

From Stdlib Require Import ZArith List Bool Lia.
Import ListNotations.
Open Scope Z_scope.

(** ** Outcomes of a computation *)

Inductive outcome (A : Type) : Type :=
| Done (a : A)
| OutOfBounds
| AssertFailed
| OutOfFuel
| LengthError.

Arguments Done {A} a.
Arguments OutOfBounds {A}.
Arguments AssertFailed {A}.
Arguments OutOfFuel {A}.
Arguments LengthError {A}.

Definition bind {A B : Type} (c : outcome A) (k : A -> outcome B) : outcome B :=
  match c with
  | Done a => k a
  | OutOfBounds => OutOfBounds
  | AssertFailed => AssertFailed
  | OutOfFuel => OutOfFuel
  | LengthError => LengthError
  end.

Notation "x <- c ;; k" := (bind c (fun x => k))
  (at level 61, c at next level, right associativity).
Notation "' pat <- c ;; k" := (bind c (fun x => match x with pat => k end))
  (at level 61, pat pattern, c at next level, right associativity).

(** Modelled from the spec: [kak_assert] is a macro of the repository that
    is declared outside of diff.hh; a violated assertion is "a fatal
    internal-consistency failure (abort/panic)". *)
Definition kak_assert (c : bool) : outcome unit :=
  if c then Done tt else AssertFailed.

(** ** Loops *)

(** The values taken by [for (int k = lo; k <= hi; k += step)]. *)
Definition range (lo hi step : Z) : list Z :=
  if lo <=? hi
  then map (fun i => lo + step * Z.of_nat i)
           (seq 0 (S (Z.to_nat ((hi - lo) / step))))
  else [].

(** A [for] loop whose body may [return] a value: the state is threaded
    through the iterations and the loop stops at the first returned value. *)
Fixpoint for_each {S R : Type} (ks : list Z)
    (body : Z -> S -> outcome (S * option R)) (s : S)
    : outcome (S * option R) :=
  match ks with
  | [] => Done (s, None)
  | k :: ks' =>
      '(s', r) <- body k s ;;
      match r with
      | Some x => Done (s', Some x)
      | None => for_each ks' body s'
      end
  end.

(** ** Data model *)

(** The values of an [int]. *)
Definition int_min : Z := -2147483648.
Definition int_max : Z := 2147483647.

Definition in_int (z : Z) : Prop := int_min <= z <= int_max.

Module Snake.

Record t : Type := mk { x : Z; y : Z; u : Z; v : Z; add : bool }.

End Snake.

(** [struct SnakeLen : Snake]: the fields of the base are reached through
    [snake]. *)
Module SnakeLen.

Record t : Type := mk { snake : Snake.t; reverse : bool; d : Z }.

Definition x (s : t) : Z := Snake.x (snake s).
Definition y (s : t) : Z := Snake.y (snake s).
Definition u (s : t) : Z := Snake.u (snake s).
Definition v (s : t) : Z := Snake.v (snake s).
Definition add (s : t) : bool := Snake.add (snake s).

End SnakeLen.

Inductive Mode : Type := Keep | Add | Remove.

Definition Mode_eqb (m1 m2 : Mode) : bool :=
  match m1, m2 with
  | Keep, Keep | Add, Add | Remove, Remove => true
  | _, _ => false
  end.

Record Diff : Type := mkDiff { mode : Mode; len : Z; posB : Z }.

(** [Vector<int>]: [size] cells of contents [cell]. *)
Record Storage : Type := mkStorage { size : Z; cell : Z -> Z }.

(** [Vector<int> data(n)]: [n] cells, all zero. *)
Definition allocate (n : Z) : Storage := mkStorage n (fun _ => 0).

Definition in_storage (d : Storage) (i : Z) : bool := (0 <=? i) && (i <? size d).

(** [data[i]] *)
Definition load (d : Storage) (i : Z) : outcome Z :=
  if in_storage d i then Done (cell d i) else OutOfBounds.

(** [data[i] = x] *)
Definition store (d : Storage) (i x : Z) : outcome Storage :=
  if in_storage d i
  then Done (mkStorage (size d) (fun j => if j =? i then x else cell d j))
  else OutOfBounds.

(** A random-access iterator: [it i] is [it[i]]. *)
Definition Iterator (T : Type) : Type := Z -> outcome T.

Section WithElements.

Context {T : Type}.

Definition begin (l : list T) : Iterator T :=
  fun i =>
    if i <? 0 then OutOfBounds
    else match nth_error l (Z.to_nat i) with
         | Some e => Done e
         | None => OutOfBounds
         end.

(** [a + n] *)
Definition advance (a : Iterator T) (n : Z) : Iterator T :=
  fun i => a (n + i).

(** [std::reverse_iterator<Iterator>{a}]: its [i]-th element is [a[-i-1]]. *)
Definition reverse_iterator (a : Iterator T) : Iterator T :=
  fun i => a (- i - 1).

Variable eq : T -> T -> bool.

(** ** Snake Finder *)

(** [while (u < N and v < M and eq(a[u], b[v])) ++u, ++v;] *)
Fixpoint follow_snake (fuel : nat) (a : Iterator T) (N : Z) (b : Iterator T) (M : Z)
    (u v : Z) : outcome (Z * Z) :=
  if (u <? N) && (v <? M) then
    au <- a u ;;
    bv <- b v ;;
    if eq au bv then
      match fuel with
      | O => OutOfFuel
      | S fuel' => follow_snake fuel' a N b M (u + 1) (v + 1)
      end
    else Done (u, v)
  else Done (u, v).

(** [V] points into [data]: [V[k]] is [data[V + k]].  The operators [or]
    and [and] read [V[k-1]] and [V[k+1]] only when [k] is neither [-D] nor
    [D]. *)
Definition find_end_snake_of_further_reaching_dpath
    (a : Iterator T) (N : Z) (b : Iterator T) (M : Z)
    (data : Storage) (V : Z) (D k : Z) : outcome Snake.t :=
  add <- (if k =? - D then Done true
          else if negb (k =? D) then
            l <- load data (V + (k - 1)) ;;
            r <- load data (V + (k + 1)) ;;
            Done (l <? r)
          else Done false) ;;
  x <- (if add : bool then load data (V + (k + 1))
        else l <- load data (V + (k - 1)) ;; Done (l + 1)) ;;
  let y := x - k in
  '(u, v) <- follow_snake (Z.to_nat (N - x)) a N b M x y ;;
  Done (Snake.mk x y u v add).

(** ** Middle Snake Search *)

(** The body of the loop over the forward diagonals [k1]. *)
Definition forward_step (a : Iterator T) (N : Z) (b : Iterator T) (M : Z)
    (delta D : Z) (V1 V2 : Z) (k1 : Z) (data : Storage)
    : outcome (Storage * option SnakeLen.t) :=
  p <- find_end_snake_of_further_reaching_dpath a N b M data V1 D k1 ;;
  data <- store data (V1 + k1) (Snake.u p) ;;
  let k2 := - (k1 - delta) in
  if negb (Z.rem delta 2 =? 0) && (- (D - 1) <=? k2) && (k2 <=? D - 1) then
    x1 <- load data (V1 + k1) ;;
    x2 <- load data (V2 + k2) ;;
    if x1 + x2 >=? N
    then Done (data, Some (SnakeLen.mk p false (2 * D - 1)))
    else Done (data, None)
  else Done (data, None).

(** The body of the loop over the reverse diagonals [k2]. *)
Definition reverse_step (ra : Iterator T) (N : Z) (rb : Iterator T) (M : Z)
    (delta D : Z) (V1 V2 : Z) (k2 : Z) (data : Storage)
    : outcome (Storage * option SnakeLen.t) :=
  p <- find_end_snake_of_further_reaching_dpath ra N rb M data V2 D k2 ;;
  data <- store data (V2 + k2) (Snake.u p) ;;
  let k1 := - (k2 - delta) in
  if (Z.rem delta 2 =? 0) && (- D <=? k1) && (k1 <=? D) then
    x1 <- load data (V1 + k1) ;;
    x2 <- load data (V2 + k2) ;;
    if x1 + x2 >=? N
    then Done (data, Some (SnakeLen.mk
                 (Snake.mk (N - Snake.u p) (M - Snake.v p)
                           (N - Snake.x p) (M - Snake.y p) (Snake.add p))
                 true (2 * D)))
    else Done (data, None)
  else Done (data, None).

(** The body of the loop over the distances [D]. *)
Definition distance_step (a : Iterator T) (N : Z) (b : Iterator T) (M : Z)
    (V1 V2 : Z) (D : Z) (data : Storage)
    : outcome (Storage * option SnakeLen.t) :=
  let delta := N - M in
  let ra := reverse_iterator (advance a N) in
  let rb := reverse_iterator (advance b M) in
  '(data, r) <- for_each (range (- D) D 2)
                         (forward_step a N b M delta D V1 V2) data ;;
  match r with
  | Some s => Done (data, Some s)
  | None => for_each (range (- D) D 2) (reverse_step ra N rb M delta D V1 V2) data
  end.

Definition find_middle_snake (a : Iterator T) (N : Z) (b : Iterator T) (M : Z)
    (V1 V2 : Z) (data : Storage) : outcome (Storage * SnakeLen.t) :=
  data <- store data (V1 + 1) 0 ;;
  data <- store data (V2 + 1) 0 ;;
  '(data, r) <- for_each (range 0 (Z.quot (M + N + 1) 2) 1)
                         (distance_step a N b M V1 V2) data ;;
  match r with
  | Some s => Done (data, s)
  | None => _ <- kak_assert false ;;
            Done (data, SnakeLen.mk (Snake.mk 0 0 0 0 false) false 0)
  end.

(** ** Edit-Script Accumulator *)

Definition append_diff (diffs : list Diff) (diff : Diff) : list Diff :=
  if len diff =? 0 then diffs
  else
    match rev diffs with
    | back :: front =>
        if Mode_eqb (mode back) (mode diff)
           && (negb (Mode_eqb (mode diff) Add)
               || (posB back + len back =? posB diff))
        then rev front ++ [mkDiff (mode back) (len back + len diff) (posB back)]
        else diffs ++ [diff]
    | [] => diffs ++ [diff]
    end.

(** ** Diff Recursion *)

(** [while (begA != endA and begB != endB and eq(a[begA], b[begB]))
       ++begA, ++begB, ++prefix_len;] *)
Fixpoint strip_prefix (fuel : nat) (a b : Iterator T) (begA endA begB endB prefix_len : Z)
    : outcome (Z * Z * Z) :=
  if negb (begA =? endA) && negb (begB =? endB) then
    x <- a begA ;;
    y <- b begB ;;
    if eq x y then
      match fuel with
      | O => OutOfFuel
      | S fuel' => strip_prefix fuel' a b (begA + 1) endA (begB + 1) endB (prefix_len + 1)
      end
    else Done (begA, begB, prefix_len)
  else Done (begA, begB, prefix_len).

(** [while (begA != endA and begB != endB and eq(a[endA-1], b[endB-1]))
       --endA, --endB, ++suffix_len;] *)
Fixpoint strip_suffix (fuel : nat) (a b : Iterator T) (begA endA begB endB suffix_len : Z)
    : outcome (Z * Z * Z) :=
  if negb (begA =? endA) && negb (begB =? endB) then
    x <- a (endA - 1) ;;
    y <- b (endB - 1) ;;
    if eq x y then
      match fuel with
      | O => OutOfFuel
      | S fuel' => strip_suffix fuel' a b begA (endA - 1) begB (endB - 1) (suffix_len + 1)
      end
    else Done (endA, endB, suffix_len)
  else Done (endA, endB, suffix_len).

(** The mutable state shared by the recursion: the working storage and the
    script under construction. *)
Record State : Type := mkState { st_data : Storage; st_diffs : list Diff }.

Fixpoint find_diff_rec (fuel : nat) (a : Iterator T) (begA endA : Z)
    (b : Iterator T) (begB endB : Z) (V1 V2 : Z) (st : State) : outcome State :=
  match fuel with
  | O => OutOfFuel
  | S fuel' =>
      '(begA, begB, prefix_len) <- strip_prefix fuel' a b begA endA begB endB 0 ;;
      '(endA, endB, suffix_len) <- strip_suffix fuel' a b begA endA begB endB 0 ;;
      let diffs := append_diff (st_diffs st) (mkDiff Keep prefix_len 0) in
      let lenA := endA - begA in
      let lenB := endB - begB in
      st <-
        (if lenA =? 0 then
           Done (mkState (st_data st) (append_diff diffs (mkDiff Add lenB begB)))
         else if lenB =? 0 then
           Done (mkState (st_data st) (append_diff diffs (mkDiff Remove lenA 0)))
         else
           '(data, snake) <- find_middle_snake (advance a begA) lenA (advance b begB) lenB
                                               V1 V2 (st_data st) ;;
           let '(SnakeLen.mk (Snake.mk x y u v add) reverse d) := snake in
           _ <- kak_assert ((d >? 0) && (u <=? lenA) && (v <=? lenB)) ;;
           let recurse := d >? 1 in
           st <- (if recurse then
                    find_diff_rec fuel' a begA
                      (begA + x - (if reverse then 0 else if add then 0 else 1))
                      b begB
                      (begB + y - (if reverse then 0 else if add then 1 else 0))
                      V1 V2 (mkState data diffs)
                  else Done (mkState data diffs)) ;;
           let '(mkState data diffs) := st in
           let diffs :=
             if negb reverse
             then append_diff diffs (if add then mkDiff Add 1 (begB + y - 1)
                                     else mkDiff Remove 1 0)
             else diffs in
           let diffs := append_diff diffs (mkDiff Keep (u - x) 0) in
           let diffs :=
             if reverse
             then append_diff diffs (if add then mkDiff Add 1 (begB + v)
                                     else mkDiff Remove 1 0)
             else diffs in
           if recurse then
             find_diff_rec fuel' a
               (begA + u + (if reverse then if add then 0 else 1 else 0)) endA
               b
               (begB + v + (if reverse then if add then 1 else 0 else 0)) endB
               V1 V2 (mkState data diffs)
           else Done (mkState data diffs)) ;;
      Done (mkState (st_data st) (append_diff (st_diffs st) (mkDiff Keep suffix_len 0)))
  end.

End WithElements.

(** ** Top-level Driver *)

Section Driver.

Context {T : Type}.
Variable eq : T -> T -> bool.

(** [a] and [b] stand for the iterators at the start of two sequences of
    [N] and [M] elements; [V1] is [&data[N+M]] and [V2] is
    [&data[max + N+M]]. *)
Definition find_diff (a : list T) (b : list T) : outcome (list Diff) :=
  let N := Z.of_nat (length a) in
  let M := Z.of_nat (length b) in
  let max := 2 * (N + M) + 1 in
  let data := allocate (2 * max) in
  st <- find_diff_rec eq (S (Z.to_nat (N + M))) (begin a) 0 N (begin b) 0 M
                      (N + M) (max + (N + M)) (mkState data []) ;;
  Done (st_diffs st).

End Driver.

(** * The code with 32-bit integers

    The same functions, with the arithmetic of a 32-bit [int]: the result
    of every operation on [int]s is the value that two's complement
    hardware gives, [wrap] of the mathematical result.  (C++ leaves signed
    overflow undefined; as long as no operation overflows, [wrap] changes
    nothing and the choice does not matter.)  Pointer arithmetic, as in
    [V[k-1]] and [a + begA], is not subject to it: only the [int] that is
    added to the pointer is.  The counters of the [for] loops stay below
    [2^30 + 2], so that [++D] and [k += 2] are exact. *)

Module Int32.

Definition wrap (z : Z) : Z := (z + 2147483648) mod 4294967296 - 2147483648.

(** [Vector<int> data(n)] with an [int] [n]: the size is a [size_t], so a
    negative [n] asks for more cells than a vector can have, which throws
    [std::length_error]. *)
Definition allocate (n : Z) : outcome Storage :=
  if n <? 0 then LengthError else Done (mkStorage n (fun _ => 0)).

Section WithElements.

Context {T : Type}.
Variable eq : T -> T -> bool.

(** ** Snake Finder *)

Fixpoint follow_snake (fuel : nat) (a : Iterator T) (N : Z) (b : Iterator T) (M : Z)
    (u v : Z) : outcome (Z * Z) :=
  if (u <? N) && (v <? M) then
    au <- a u ;;
    bv <- b v ;;
    if eq au bv then
      match fuel with
      | O => OutOfFuel
      | S fuel' => follow_snake fuel' a N b M (wrap (u + 1)) (wrap (v + 1))
      end
    else Done (u, v)
  else Done (u, v).

Definition find_end_snake_of_further_reaching_dpath
    (a : Iterator T) (N : Z) (b : Iterator T) (M : Z)
    (data : Storage) (V : Z) (D k : Z) : outcome Snake.t :=
  add <- (if k =? wrap (- D) then Done true
          else if negb (k =? D) then
            l <- load data (V + wrap (k - 1)) ;;
            r <- load data (V + wrap (k + 1)) ;;
            Done (l <? r)
          else Done false) ;;
  x <- (if add : bool then load data (V + wrap (k + 1))
        else l <- load data (V + wrap (k - 1)) ;; Done (wrap (l + 1))) ;;
  let y := wrap (x - k) in
  '(u, v) <- follow_snake (Z.to_nat (N - x)) a N b M x y ;;
  Done (Snake.mk x y u v add).

(** ** Middle Snake Search *)

Definition forward_step (a : Iterator T) (N : Z) (b : Iterator T) (M : Z)
    (delta D : Z) (V1 V2 : Z) (k1 : Z) (data : Storage)
    : outcome (Storage * option SnakeLen.t) :=
  p <- find_end_snake_of_further_reaching_dpath a N b M data V1 D k1 ;;
  data <- store data (V1 + k1) (Snake.u p) ;;
  let k2 := wrap (- wrap (k1 - delta)) in
  if negb (Z.rem delta 2 =? 0) && (wrap (- wrap (D - 1)) <=? k2)
     && (k2 <=? wrap (D - 1)) then
    x1 <- load data (V1 + k1) ;;
    x2 <- load data (V2 + k2) ;;
    if wrap (x1 + x2) >=? N
    then Done (data, Some (SnakeLen.mk p false (wrap (wrap (2 * D) - 1))))
    else Done (data, None)
  else Done (data, None).

Definition reverse_step (ra : Iterator T) (N : Z) (rb : Iterator T) (M : Z)
    (delta D : Z) (V1 V2 : Z) (k2 : Z) (data : Storage)
    : outcome (Storage * option SnakeLen.t) :=
  p <- find_end_snake_of_further_reaching_dpath ra N rb M data V2 D k2 ;;
  data <- store data (V2 + k2) (Snake.u p) ;;
  let k1 := wrap (- wrap (k2 - delta)) in
  if (Z.rem delta 2 =? 0) && (wrap (- D) <=? k1) && (k1 <=? D) then
    x1 <- load data (V1 + k1) ;;
    x2 <- load data (V2 + k2) ;;
    if wrap (x1 + x2) >=? N
    then Done (data, Some (SnakeLen.mk
                 (Snake.mk (wrap (N - Snake.u p)) (wrap (M - Snake.v p))
                           (wrap (N - Snake.x p)) (wrap (M - Snake.y p))
                           (Snake.add p))
                 true (wrap (2 * D))))
    else Done (data, None)
  else Done (data, None).

Definition distance_step (a : Iterator T) (N : Z) (b : Iterator T) (M : Z)
    (V1 V2 : Z) (D : Z) (data : Storage)
    : outcome (Storage * option SnakeLen.t) :=
  let delta := wrap (N - M) in
  let ra := reverse_iterator (advance a N) in
  let rb := reverse_iterator (advance b M) in
  '(data, r) <- for_each (range (wrap (- D)) D 2)
                         (forward_step a N b M delta D V1 V2) data ;;
  match r with
  | Some s => Done (data, Some s)
  | None => for_each (range (wrap (- D)) D 2)
                     (reverse_step ra N rb M delta D V1 V2) data
  end.

Definition find_middle_snake (a : Iterator T) (N : Z) (b : Iterator T) (M : Z)
    (V1 V2 : Z) (data : Storage) : outcome (Storage * SnakeLen.t) :=
  data <- store data (V1 + 1) 0 ;;
  data <- store data (V2 + 1) 0 ;;
  '(data, r) <- for_each (range 0 (Z.quot (wrap (wrap (M + N) + 1)) 2) 1)
                         (distance_step a N b M V1 V2) data ;;
  match r with
  | Some s => Done (data, s)
  | None => _ <- kak_assert false ;;
            Done (data, SnakeLen.mk (Snake.mk 0 0 0 0 false) false 0)
  end.

(** ** Edit-Script Accumulator *)

Definition append_diff (diffs : list Diff) (diff : Diff) : list Diff :=
  if len diff =? 0 then diffs
  else
    match rev diffs with
    | back :: front =>
        if Mode_eqb (mode back) (mode diff)
           && (negb (Mode_eqb (mode diff) Add)
               || (wrap (posB back + len back) =? posB diff))
        then rev front
             ++ [mkDiff (mode back) (wrap (len back + len diff)) (posB back)]
        else diffs ++ [diff]
    | [] => diffs ++ [diff]
    end.

(** ** Diff Recursion *)

Fixpoint strip_prefix (fuel : nat) (a b : Iterator T) (begA endA begB endB prefix_len : Z)
    : outcome (Z * Z * Z) :=
  if negb (begA =? endA) && negb (begB =? endB) then
    x <- a begA ;;
    y <- b begB ;;
    if eq x y then
      match fuel with
      | O => OutOfFuel
      | S fuel' => strip_prefix fuel' a b (wrap (begA + 1)) endA (wrap (begB + 1)) endB
                                (wrap (prefix_len + 1))
      end
    else Done (begA, begB, prefix_len)
  else Done (begA, begB, prefix_len).

Fixpoint strip_suffix (fuel : nat) (a b : Iterator T) (begA endA begB endB suffix_len : Z)
    : outcome (Z * Z * Z) :=
  if negb (begA =? endA) && negb (begB =? endB) then
    x <- a (wrap (endA - 1)) ;;
    y <- b (wrap (endB - 1)) ;;
    if eq x y then
      match fuel with
      | O => OutOfFuel
      | S fuel' => strip_suffix fuel' a b begA (wrap (endA - 1)) begB (wrap (endB - 1))
                                (wrap (suffix_len + 1))
      end
    else Done (endA, endB, suffix_len)
  else Done (endA, endB, suffix_len).

Fixpoint find_diff_rec (fuel : nat) (a : Iterator T) (begA endA : Z)
    (b : Iterator T) (begB endB : Z) (V1 V2 : Z) (st : State) : outcome State :=
  match fuel with
  | O => OutOfFuel
  | S fuel' =>
      '(begA, begB, prefix_len) <- strip_prefix fuel' a b begA endA begB endB 0 ;;
      '(endA, endB, suffix_len) <- strip_suffix fuel' a b begA endA begB endB 0 ;;
      let diffs := append_diff (st_diffs st) (mkDiff Keep prefix_len 0) in
      let lenA := wrap (endA - begA) in
      let lenB := wrap (endB - begB) in
      st <-
        (if lenA =? 0 then
           Done (mkState (st_data st) (append_diff diffs (mkDiff Add lenB begB)))
         else if lenB =? 0 then
           Done (mkState (st_data st) (append_diff diffs (mkDiff Remove lenA 0)))
         else
           '(data, snake) <- find_middle_snake (advance a begA) lenA (advance b begB) lenB
                                               V1 V2 (st_data st) ;;
           let '(SnakeLen.mk (Snake.mk x y u v add) reverse d) := snake in
           _ <- kak_assert ((d >? 0) && (u <=? lenA) && (v <=? lenB)) ;;
           let recurse := d >? 1 in
           st <- (if recurse then
                    find_diff_rec fuel' a begA
                      (wrap (wrap (begA + x)
                             - (if reverse then 0 else if add then 0 else 1)))
                      b begB
                      (wrap (wrap (begB + y)
                             - (if reverse then 0 else if add then 1 else 0)))
                      V1 V2 (mkState data diffs)
                  else Done (mkState data diffs)) ;;
           let '(mkState data diffs) := st in
           let diffs :=
             if negb reverse
             then append_diff diffs (if add then mkDiff Add 1 (wrap (wrap (begB + y) - 1))
                                     else mkDiff Remove 1 0)
             else diffs in
           let diffs := append_diff diffs (mkDiff Keep (wrap (u - x)) 0) in
           let diffs :=
             if reverse
             then append_diff diffs (if add then mkDiff Add 1 (wrap (begB + v))
                                     else mkDiff Remove 1 0)
             else diffs in
           if recurse then
             find_diff_rec fuel' a
               (wrap (wrap (begA + u)
                      + (if reverse then if add then 0 else 1 else 0))) endA
               b
               (wrap (wrap (begB + v)
                      + (if reverse then if add then 1 else 0 else 0))) endB
               V1 V2 (mkState data diffs)
           else Done (mkState data diffs)) ;;
      Done (mkState (st_data st) (append_diff (st_diffs st) (mkDiff Keep suffix_len 0)))
  end.

(** ** Top-level Driver *)

(** The caller passes the lengths of the two sequences as [int]s. *)
Definition find_diff (a : list T) (b : list T) : outcome (list Diff) :=
  let N := Z.of_nat (length a) in
  let M := Z.of_nat (length b) in
  let max := wrap (wrap (2 * wrap (N + M)) + 1) in
  data <- allocate (wrap (2 * max)) ;;
  st <- find_diff_rec (S (Z.to_nat (N + M))) (begin a) 0 N (begin b) 0 M
                      (wrap (N + M)) (wrap (wrap (max + N) + M)) (mkState data []) ;;
  Done (st_diffs st).

End WithElements.

End Int32.

(** * Specification vocabulary *)

(** ** Edit scripts: application and measures *)

Section Scripts.

Context {T : Type}.

(** Runs a script over the remaining part [a] of A: [Keep] copies and
    [Remove] skips the next [len] elements of [a], [Add] copies
    [b[posB, posB+len)].  The result is the produced sequence and what is
    left of [a]; a record that does not fit makes the run fail. *)
Fixpoint run_script (s : list Diff) (a b : list T) : option (list T * list T) :=
  match s with
  | [] => Some ([], a)
  | r :: s' =>
      let n := Z.to_nat (len r) in
      match mode r with
      | Keep =>
          if (0 <=? len r) && (len r <=? Z.of_nat (length a)) then
            match run_script s' (skipn n a) b with
            | Some (out, rest) => Some (firstn n a ++ out, rest)
            | None => None
            end
          else None
      | Remove =>
          if (0 <=? len r) && (len r <=? Z.of_nat (length a)) then
            run_script s' (skipn n a) b
          else None
      | Add =>
          if (0 <=? len r) && (0 <=? posB r)
             && (posB r + len r <=? Z.of_nat (length b)) then
            match run_script s' a b with
            | Some (out, rest) =>
                Some (firstn n (skipn (Z.to_nat (posB r)) b) ++ out, rest)
            | None => None
            end
          else None
      end
  end.

Definition apply_script (s : list Diff) (a b : list T) : option (list T) :=
  option_map fst (run_script s a b).

End Scripts.

(** ** Sizes that the code can handle *)

(** Sequences of [N] and [M] elements are short enough for [find_diff] when
    the size of the block that it allocates for them, the largest number
    that the code computes, is an [int]. *)
Definition short_enough (N M : Z) : Prop := 2 * (2 * (N + M) + 1) <= int_max.

(** The two sums that [append_diff] may compute from the last record of
    the script and the new record are [int]s: it computes them only when
    the two records have the same mode, and the first one only for [Add]
    records. *)
Definition sums_fit (s : list Diff) (r : Diff) : Prop :=
  match rev s with
  | back :: _ =>
      mode back = mode r ->
      (mode r = Add -> in_int (posB back + len back))
      /\ in_int (len back + len r)
  | [] => True
  end.

(** For each element that a script produces, in order, whether a [Keep]
    record copies it from A ([true]) or an [Add] record from B ([false]). *)
Fixpoint kept (s : list Diff) : list bool :=
  match s with
  | [] => []
  | r :: s' =>
      match mode r with
      | Keep => repeat true (Z.to_nat (len r)) ++ kept s'
      | Add => repeat false (Z.to_nat (len r)) ++ kept s'
      | Remove => kept s'
      end
  end.

(** Sum of [len] over the records whose mode satisfies [p]. *)
Definition sum_len (p : Mode -> bool) (s : list Diff) : Z :=
  fold_right (fun r acc => if p (mode r) then len r + acc else acc) 0 s.

Definition is_Keep (m : Mode) : bool := Mode_eqb m Keep.
Definition is_Add (m : Mode) : bool := Mode_eqb m Add.
Definition is_Remove (m : Mode) : bool := Mode_eqb m Remove.

(** Elements of A consumed, elements of B produced, and number of edits. *)
Definition consumed (s : list Diff) : Z := sum_len (fun m => is_Keep m || is_Remove m) s.
Definition produced (s : list Diff) : Z := sum_len (fun m => is_Keep m || is_Add m) s.
Definition cost (s : list Diff) : Z := sum_len (fun m => is_Add m || is_Remove m) s.

(** No two adjacent records share their mode. *)
Fixpoint compact (s : list Diff) : Prop :=
  match s with
  | r1 :: ((r2 :: _) as s') => mode r1 <> mode r2 /\ compact s'
  | _ => True
  end.

(** The mode of [diffs.back()], when there is one. *)
Definition back_mode (s : list Diff) : option Mode :=
  match rev s with
  | back :: _ => Some (mode back)
  | [] => None
  end.

(** ** Reference edit distance *)

Section Reference.

Context {T : Type}.
Variable eq : T -> T -> bool.

(** The textbook recurrence for the least number of insertions and
    deletions turning [a] into [b]. *)
Fixpoint edit_distance (a b : list T) : Z :=
  match a with
  | [] => Z.of_nat (length b)
  | x :: a' =>
      (fix against (b : list T) : Z :=
         match b with
         | [] => Z.of_nat (length a)
         | y :: b' =>
             let del := 1 + edit_distance a' b in
             let ins := 1 + against b' in
             if eq x y
             then Z.min (edit_distance a' b') (Z.min del ins)
             else Z.min del ins
         end) b
  end.

(** The length of a longest common subsequence of [a] and [b], where two
    elements are common when the predicate accepts them: pairing the two
    heads is one of the three ways to go on. *)
Fixpoint lcs (a b : list T) : Z :=
  match a with
  | [] => 0
  | x :: a' =>
      (fix against (b : list T) : Z :=
         match b with
         | [] => 0
         | y :: b' =>
             let skip_a := lcs a' b in
             let skip_b := against b' in
             if eq x y
             then Z.max (1 + lcs a' b') (Z.max skip_a skip_b)
             else Z.max skip_a skip_b
         end) b
  end.

(** The number of leading positions at which [a] and [b] hold elements
    that the predicate accepts. *)
Fixpoint common_prefix (a b : list T) : nat :=
  match a, b with
  | x :: a', y :: b' => if eq x y then S (common_prefix a' b') else O
  | _, _ => O
  end.

End Reference.

(** [l[i, j)] *)
Definition slice {T : Type} (l : list T) (i j : Z) : list T :=
  firstn (Z.to_nat (j - i)) (skipn (Z.to_nat i) l).

(** ** Edit graph *)

(** [path m x0 y0 x1 y1 c]: the edit graph whose diagonal edges are given
    by [m] has a path from [(x0,y0)] to [(x1,y1)] with [c] horizontal or
    vertical edges. *)
Inductive path (m : Z -> Z -> Prop) (x0 y0 : Z) : Z -> Z -> Z -> Prop :=
| path_nil : path m x0 y0 x0 y0 0
| path_right x y c : path m x0 y0 x y c -> path m x0 y0 (x + 1) y (c + 1)
| path_down x y c : path m x0 y0 x y c -> path m x0 y0 x (y + 1) (c + 1)
| path_diag x y c : path m x0 y0 x y c -> m x y -> path m x0 y0 (x + 1) (y + 1) c.

Definition is_dist (m : Z -> Z -> Prop) (x0 y0 x1 y1 c : Z) : Prop :=
  path m x0 y0 x1 y1 c /\ forall c', path m x0 y0 x1 y1 c' -> c <= c'.

(** The edit graph seen from its far corner [(N,M)]. *)
Definition flip (m : Z -> Z -> Prop) (N M : Z) : Z -> Z -> Prop :=
  fun i j => m (N - 1 - i) (M - 1 - j).

Definition shift (m : Z -> Z -> Prop) (dx dy : Z) : Z -> Z -> Prop :=
  fun i j => m (dx + i) (dy + j).

Definition within (m : Z -> Z -> Prop) (x0 y0 x1 y1 : Z) : Z -> Z -> Prop :=
  fun i j => x0 <= i < x1 /\ y0 <= j < y1 /\ m i j.

(** ** The working arrays *)

(** The contents of an array of furthest points, by diagonal. *)
Definition Array : Type := Z -> Z.

(** The array that the pointer [V] into [d] designates. *)
Definition view (d : Storage) (V : Z) : Array := fun k => cell d (V + k).

(** In a block of [sz] cells the two arrays at [V1] and [V2] have room for
    the diagonals [-R .. R], without overlap. *)
Definition room (sz V1 V2 R : Z) : Prop :=
  0 <= V1 - R /\ V1 + R < V2 - R /\ V2 + R < sz.

(** [d'] is [d] but for the cells whose index satisfies [P]. *)
Definition differs_only_at (P : Z -> Prop) (d d' : Storage) : Prop :=
  size d' = size d /\ forall i, ~ P i -> cell d' i = cell d i.

(** The cells of the diagonals [-R .. R] of the arrays at [V1] and [V2]. *)
Definition in_arrays (V1 V2 R : Z) (i : Z) : Prop :=
  V1 - R <= i <= V1 + R \/ V2 - R <= i <= V2 + R.

(** ** Furthest reaching paths *)

(** Diagonal [k] is visited at distance [D]. *)
Definition on_front (D k : Z) : Prop := exists i, 0 <= i <= D /\ k = 2 * i - D.

Definition furthest (m : Z -> Z -> Prop) (D k x : Z) : Prop :=
  path m 0 0 x (x - k) D /\ forall x', path m 0 0 x' (x' - k) D -> x' <= x.

Definition front (m : Z -> Z -> Prop) (D : Z) (V : Array) : Prop :=
  forall k, on_front D k -> furthest m D k (V k).

(** What the search at distance [D] expects of its array. *)
Definition primed (m : Z -> Z -> Prop) (D : Z) (V : Array) : Prop :=
  (D = 0 /\ V 1 = 0) \/ (0 < D /\ front m (D - 1) V).

(** The cells of the diagonals of distance [D] hold numbers between 0 and
    [B]; and what the search at distance [D] over a sequence of [N]
    elements needs of its array for its sums to stay small. *)
Definition front_within (B D : Z) (V : Array) : Prop :=
  forall j, on_front D j -> 0 <= V j <= B.

Definition primed_within (N D : Z) (V : Array) : Prop :=
  (D = 0 /\ V 1 = 0) \/ (0 < D /\ front_within (N + (D - 1)) (D - 1) V).

(** The choice between the two neighbouring diagonals, and the point it
    leads to on diagonal [k]. *)
Definition takes_vertical (V : Array) (D k : Z) : bool :=
  (k =? - D) || (negb (k =? D) && (V (k - 1) <? V (k + 1))).

Definition snake_start (V : Array) (D k : Z) : Z :=
  if takes_vertical V D k then V (k + 1) else V (k - 1) + 1.

(** Every path from [(0,0)] to [(N,M)] costs at least [c]. *)
Definition lower_bound (m : Z -> Z -> Prop) (N M c : Z) : Prop :=
  forall c', path m 0 0 N M c' -> c <= c'.

(** What the recursion needs of the snake it is handed: it lies on a
    shortest path, between two parts whose costs add up to the distance
    less the one edit next to the snake. *)
Definition middle_snake (m : Z -> Z -> Prop) (N M : Z) (s : SnakeLen.t) : Prop :=
  let x := SnakeLen.x s in
  let y := SnakeLen.y s in
  let u := SnakeLen.u s in
  let v := SnakeLen.v s in
  let add := SnakeLen.add s in
  is_dist m 0 0 N M (SnakeLen.d s)
  /\ 0 < SnakeLen.d s
  /\ 0 <= x <= u /\ u <= N
  /\ 0 <= y <= v /\ v <= M
  /\ u - x = v - y
  /\ (forall i, 0 <= i < u - x -> m (x + i) (y + i))
  /\ exists c1 c2,
       c1 + 1 + c2 = SnakeLen.d s
       /\ if SnakeLen.reverse s
          then 1 < SnakeLen.d s
               /\ path m 0 0 x y c1
               /\ path m (if add then u else u + 1) (if add then v + 1 else v) N M c2
          else path m 0 0 (if add then x else x - 1) (if add then y - 1 else y) c1
               /\ path m u v N M c2
               /\ ~ m u v.

(** The two sub-problems that [find_diff_rec] derives from a snake, in the
    coordinates of the snake: the first one ends at [before_snake], the
    second one starts at [after_snake]. *)
Definition before_snake (s : SnakeLen.t) : Z * Z :=
  (SnakeLen.x s
   - (if SnakeLen.reverse s then 0 else if SnakeLen.add s then 0 else 1),
   SnakeLen.y s
   - (if SnakeLen.reverse s then 0 else if SnakeLen.add s then 1 else 0)).

Definition after_snake (s : SnakeLen.t) : Z * Z :=
  (SnakeLen.u s
   + (if SnakeLen.reverse s then if SnakeLen.add s then 0 else 1 else 0),
   SnakeLen.v s
   + (if SnakeLen.reverse s then if SnakeLen.add s then 1 else 0 else 0)).

(** The records that [find_diff_rec] appends for a snake: the edit next to
    it and the run of kept elements, in the order of the path. *)
Definition snake_diffs (begB : Z) (s : SnakeLen.t) (diffs : list Diff) : list Diff :=
  let diffs :=
    if negb (SnakeLen.reverse s)
    then append_diff diffs (if SnakeLen.add s
                            then mkDiff Add 1 (begB + SnakeLen.y s - 1)
                            else mkDiff Remove 1 0)
    else diffs in
  let diffs := append_diff diffs (mkDiff Keep (SnakeLen.u s - SnakeLen.x s) 0) in
  if SnakeLen.reverse s
  then append_diff diffs (if SnakeLen.add s
                          then mkDiff Add 1 (begB + SnakeLen.v s)
                          else mkDiff Remove 1 0)
  else diffs.

Section Matching.

Context {T : Type}.
Variable eq : T -> T -> bool.

Definition readable (a : Iterator T) (N : Z) : Prop :=
  forall i, 0 <= i < N -> exists e, a i = Done e.

Definition matches (a b : Iterator T) (i j : Z) : Prop :=
  exists p q, a i = Done p /\ b j = Done q /\ eq p q = true.

(** The diagonal edges of the sub-problem [a[0,N)], [b[0,M)]. *)
Definition grid (a : Iterator T) (N : Z) (b : Iterator T) (M : Z) : Z -> Z -> Prop :=
  within (matches a b) 0 0 N M.

(** [a[i]] and [b[j]] exist and are not equal under the predicate. *)
Definition differs (a b : Iterator T) (i j : Z) : Prop :=
  exists p q, a i = Done p /\ b j = Done q /\ eq p q = false.

(** The first, respectively last, elements of two non-empty sequences
    differ. *)
Definition first_differ (A B : list T) : bool :=
  match A, B with
  | x :: _, y :: _ => negb (eq x y)
  | _, _ => false
  end.

Definition last_differ (A B : list T) : bool :=
  first_differ (rev A) (rev B).

(** What the spec asks of an equality predicate. *)
Definition consistent : Prop :=
  (forall x, eq x x = true)
  /\ (forall x y, eq x y = true -> eq y x = true)
  /\ (forall x y z, eq x y = true -> eq y z = true -> eq x z = true).

(** An element produced by a script and the element of B it stands for:
    the same element, or one that the predicate accepts for it. *)
Definition stands_for (o e : T) : Prop := o = e \/ eq o e = true.

(** An element [o] produced by a script, with its origin, against the
    element [e] of B at its place: copied from A by a [Keep] record, it is
    one that the predicate accepts for [e]; copied from B by an [Add]
    record, it is [e]. *)
Definition faithful (ok : T * bool) (e : T) : Prop :=
  if snd ok then eq (fst ok) e = true else fst ok = e.

(** ** The crossing of the two fronts *)

(** At distance [D] the forward front, on its diagonal [k], has reached the
    reverse front of distance [D - 1]; [m'] is the edit graph read from
    the far corner. *)
Definition crosses_forward (m m' : Z -> Z -> Prop) (N M D k : Z) : Prop :=
  on_front D k /\ - (D - 1) <= N - M - k <= D - 1
  /\ exists x x', furthest m D k x /\ furthest m' (D - 1) (N - M - k) x'
                  /\ N <= x + x'.

(** At distance [D] the reverse front, on its diagonal [k], has reached the
    forward front of the same distance. *)
Definition crosses_reverse (m m' : Z -> Z -> Prop) (N M D k : Z) : Prop :=
  on_front D k /\ - D <= N - M - k <= D
  /\ exists x x', furthest m' D k x /\ furthest m D (N - M - k) x'
                  /\ N <= x' + x.

(** The result of the search when [N - M] is odd: the snake that the Snake
    Finder returns at the first crossing of the forward front, from an array
    [V1] that holds the furthest points of the distance before; it ends on
    the furthest point of its diagonal, which is what [V1[k]] is set to. *)
Definition forward_result (a : Iterator T) (N : Z) (b : Iterator T) (M : Z)
    (V1 : Z) (s : SnakeLen.t) : Prop :=
  let m := grid a N b M in
  let m' := grid (reverse_iterator (advance a N)) N
                 (reverse_iterator (advance b M)) M in
  Z.rem (N - M) 2 <> 0
  /\ SnakeLen.reverse s = false
  /\ exists D k data,
       SnakeLen.d s = 2 * D - 1
       /\ primed m D (view data V1)
       /\ find_end_snake_of_further_reaching_dpath eq a N b M data V1 D k
          = Done (SnakeLen.snake s)
       /\ furthest m D k (SnakeLen.u s)
       /\ crosses_forward m m' N M D k
       /\ forall D' k', crosses_forward m m' N M D' k' ->
                        D < D' \/ (D' = D /\ k <= k').

(** The result of the search when [N - M] is even: the snake [p] that the
    Snake Finder returns on the reversed sequences at the first crossing of
    the reverse front, mapped to forward coordinates. *)
Definition reverse_result (a : Iterator T) (N : Z) (b : Iterator T) (M : Z)
    (V2 : Z) (s : SnakeLen.t) : Prop :=
  let ra := reverse_iterator (advance a N) in
  let rb := reverse_iterator (advance b M) in
  let m := grid a N b M in
  let m' := grid ra N rb M in
  Z.rem (N - M) 2 = 0
  /\ SnakeLen.reverse s = true
  /\ exists D k data p,
       SnakeLen.d s = 2 * D
       /\ primed m' D (view data V2)
       /\ find_end_snake_of_further_reaching_dpath eq ra N rb M data V2 D k = Done p
       /\ furthest m' D k (Snake.u p)
       /\ SnakeLen.snake s
          = Snake.mk (N - Snake.u p) (M - Snake.v p)
                     (N - Snake.x p) (M - Snake.y p) (Snake.add p)
       /\ crosses_reverse m m' N M D k
       /\ forall D' k', crosses_reverse m m' N M D' k' ->
                        D < D' \/ (D' = D /\ k <= k').

(** ** Well-formed scripts *)

(** Record [r], met at position [(pa,pb)] of A and B, leads to [(pa',pb')]. *)
Definition record_ok (a b : Iterator T) (r : Diff) (pa pb pa' pb' : Z) : Prop :=
  match mode r with
  | Keep => pa' = pa + len r /\ pb' = pb + len r
            /\ forall i, 0 <= i < len r -> matches a b (pa + i) (pb + i)
  | Add => pa' = pa /\ pb' = pb + len r /\ posB r = pb
  | Remove => pa' = pa + len r /\ pb' = pb
  end.

(** [script_ok a b s pa pb]: [s] is a compact script without empty records
    that transforms [a[0,pa)] into [b[0,pb)]. *)
Inductive script_ok (a b : Iterator T) : list Diff -> Z -> Z -> Prop :=
| script_ok_nil : script_ok a b [] 0 0
| script_ok_snoc s r pa pb pa' pb' :
    script_ok a b s pa pb ->
    0 < len r ->
    back_mode s <> Some (mode r) ->
    record_ok a b r pa pb pa' pb' ->
    script_ok a b (s ++ [r]) pa' pb'.

End Matching.

(** * Paths in the edit graph *)

Lemma path_cast (m : Z -> Z -> Prop) x0 y0 x1 y1 c x0' y0' x1' y1' c' :
  path m x0 y0 x1 y1 c ->
  x0' = x0 -> y0' = y0 -> x1' = x1 -> y1' = y1 -> c' = c ->
  path m x0' y0' x1' y1' c'.
Proof. now intros H -> -> -> -> ->. Qed.

Ltac path_from H :=
  eapply path_cast; [exact H | first [reflexivity | lia] ..].

Section PathFacts.

Variable m : Z -> Z -> Prop.

Lemma path_right' x0 y0 x y c x' c' :
  path m x0 y0 x y c -> x' = x + 1 -> c' = c + 1 -> path m x0 y0 x' y c'.
Proof. intros H -> ->. now apply path_right. Qed.

Lemma path_down' x0 y0 x y c y' c' :
  path m x0 y0 x y c -> y' = y + 1 -> c' = c + 1 -> path m x0 y0 x y' c'.
Proof. intros H -> ->. now apply path_down. Qed.

Lemma path_diag' x0 y0 x y c x' y' :
  path m x0 y0 x y c -> m x y -> x' = x + 1 -> y' = y + 1 -> path m x0 y0 x' y' c.
Proof. intros H Hm -> ->. now apply path_diag. Qed.

Lemma path_eq x0 y0 x y c x' y' c' :
  path m x0 y0 x y c -> x' = x -> y' = y -> c' = c -> path m x0 y0 x' y' c'.
Proof. now intros H -> -> ->. Qed.

(** A path is made of [h] horizontal, [v] vertical and [j] diagonal edges. *)
Lemma path_bounds x0 y0 x1 y1 c :
  path m x0 y0 x1 y1 c ->
  exists h v j, 0 <= h /\ 0 <= v /\ 0 <= j
                /\ x1 = x0 + h + j /\ y1 = y0 + v + j /\ c = h + v.
Proof.
  induction 1 as [|x y c _ (h & v & j & ?)|x y c _ (h & v & j & ?)
                  |x y c _ (h & v & j & ?) _].
  - exists 0, 0, 0. lia.
  - exists (h + 1), v, j. lia.
  - exists h, (v + 1), j. lia.
  - exists h, v, (j + 1). lia.
Qed.

Lemma path_trans x0 y0 x1 y1 x2 y2 c1 c2 :
  path m x0 y0 x1 y1 c1 -> path m x1 y1 x2 y2 c2 -> path m x0 y0 x2 y2 (c1 + c2).
Proof.
  intros H1 H2. induction H2.
  - now rewrite Z.add_0_r.
  - eapply path_right'; [eassumption | lia | lia].
  - eapply path_down'; [eassumption | lia | lia].
  - eapply path_diag'; [eassumption | assumption | lia | lia].
Qed.

Lemma path_hline x y n : 0 <= n -> path m x y (x + n) y n.
Proof.
  intros Hn. pattern n. apply natlike_ind; [| |exact Hn].
  - eapply path_eq; [apply path_nil | lia | lia | lia].
  - intros k Hk IH. eapply path_right'; [exact IH | lia | lia].
Qed.

Lemma path_vline x y n : 0 <= n -> path m x y x (y + n) n.
Proof.
  intros Hn. pattern n. apply natlike_ind; [| |exact Hn].
  - eapply path_eq; [apply path_nil | lia | lia | lia].
  - intros k Hk IH. eapply path_down'; [exact IH | lia | lia].
Qed.

Lemma path_snake x y n :
  0 <= n -> (forall i, 0 <= i < n -> m (x + i) (y + i)) ->
  path m x y (x + n) (y + n) 0.
Proof.
  intros Hn. pattern n. apply natlike_ind; [| |exact Hn].
  - intros _. eapply path_eq; [apply path_nil | lia | lia | lia].
  - intros k Hk IH Hm. eapply path_diag'.
    + apply IH. intros i Hi. apply Hm. lia.
    + apply Hm. lia.
    + lia.
    + lia.
Qed.

(** A path without horizontal or vertical edge is a run of matches. *)
Lemma path_zero_inv x0 y0 x1 y1 c :
  path m x0 y0 x1 y1 c -> c = 0 ->
  exists n, 0 <= n /\ x1 = x0 + n /\ y1 = y0 + n
            /\ forall i, 0 <= i < n -> m (x0 + i) (y0 + i).
Proof.
  induction 1 as [|x y c H _|x y c H _|x y c H IH Hm]; intros Hc.
  - exists 0. repeat split; try lia.
  - apply path_bounds in H. destruct H as (h & v & j & ?). lia.
  - apply path_bounds in H. destruct H as (h & v & j & ?). lia.
  - destruct (IH Hc) as (n & Hn & -> & -> & Hrun).
    exists (n + 1). repeat split; try lia.
    intros i Hi. destruct (Z.eq_dec i n) as [->|Hne]; [assumption|].
    apply Hrun. lia.
Qed.

(** The first edge of a path. *)
Lemma path_front_inv x0 y0 x1 y1 c :
  path m x0 y0 x1 y1 c ->
  (x1 = x0 /\ y1 = y0 /\ c = 0)
  \/ path m (x0 + 1) y0 x1 y1 (c - 1)
  \/ path m x0 (y0 + 1) x1 y1 (c - 1)
  \/ (m x0 y0 /\ path m (x0 + 1) (y0 + 1) x1 y1 c).
Proof.
  induction 1 as [|x y c H IH|x y c H IH|x y c H IH Hm].
  - now left.
  - right. destruct IH as [(-> & -> & ->)|[IH|[IH|[Hm0 IH]]]].
    + left. eapply path_eq; [apply path_nil | lia | lia | lia].
    + left. eapply path_right'; [exact IH | lia | lia].
    + right; left. eapply path_right'; [exact IH | lia | lia].
    + right; right. split; [assumption|].
      eapply path_right'; [exact IH | lia | lia].
  - right. destruct IH as [(-> & -> & ->)|[IH|[IH|[Hm0 IH]]]].
    + right; left. eapply path_eq; [apply path_nil | lia | lia | lia].
    + left. eapply path_down'; [exact IH | lia | lia].
    + right; left. eapply path_down'; [exact IH | lia | lia].
    + right; right. split; [assumption|].
      eapply path_down'; [exact IH | lia | lia].
  - right. destruct IH as [(-> & -> & ->)|[IH|[IH|[Hm0 IH]]]].
    + right; right. split; [assumption|]. apply path_nil.
    + left. eapply path_diag'; [exact IH | assumption | lia | lia].
    + right; left. eapply path_diag'; [exact IH | assumption | lia | lia].
    + right; right. split; [assumption|].
      eapply path_diag'; [exact IH | assumption | lia | lia].
Qed.

(** A path can be cut after any number of its costly edges. *)
Lemma path_split x0 y0 x1 y1 c :
  path m x0 y0 x1 y1 c ->
  forall c1 c2, 0 <= c1 -> 0 <= c2 -> c = c1 + c2 ->
  exists x y, path m x0 y0 x y c1 /\ path m x y x1 y1 c2.
Proof.
  induction 1 as [|x y c H IH|x y c H IH|x y c H IH Hm]; intros c1 c2 H1 H2 Hc.
  - exists x0, y0. assert (c1 = 0) as -> by lia. assert (c2 = 0) as -> by lia.
    split; apply path_nil.
  - destruct (Z.eq_dec c2 0) as [->|Hne].
    + exists (x + 1), y. split; [|apply path_nil].
      eapply path_right'; [exact H | lia | lia].
    + destruct (IH c1 (c2 - 1)) as (x' & y' & Ha & Hb); try lia.
      exists x', y'. split; [assumption|].
      eapply path_right'; [exact Hb | lia | lia].
  - destruct (Z.eq_dec c2 0) as [->|Hne].
    + exists x, (y + 1). split; [|apply path_nil].
      eapply path_down'; [exact H | lia | lia].
    + destruct (IH c1 (c2 - 1)) as (x' & y' & Ha & Hb); try lia.
      exists x', y'. split; [assumption|].
      eapply path_down'; [exact Hb | lia | lia].
  - destruct (IH c1 c2) as (x' & y' & Ha & Hb); try lia.
    exists x', y'. split; [assumption|].
    now apply path_diag.
Qed.

(** Moving the end of a path one step back along its diagonal does not
    cost more. *)
Lemma path_shrink_end x0 y0 x1 y1 c :
  path m x0 y0 x1 y1 c -> x0 <= x1 - 1 -> y0 <= y1 - 1 ->
  exists c', c' <= c /\ path m x0 y0 (x1 - 1) (y1 - 1) c'.
Proof.
  induction 1 as [|x y c H IH|x y c H IH|x y c H IH Hm]; intros Hx Hy.
  - lia.
  - destruct (Z.eq_dec x x0) as [->|Hne].
    + destruct (path_bounds _ _ _ _ _ H) as (h & v & j & ?).
      exists (y - 1 - y0). split; [lia|].
      eapply path_eq; [apply (path_vline x0 y0 (y - 1 - y0)); lia | lia | lia | lia].
    + destruct (path_bounds _ _ _ _ _ H) as (h & v & j & ?).
      destruct IH as (c' & Hc' & IH); try lia.
      exists (c' + 1). split; [lia|].
      eapply path_right'; [exact IH | lia | lia].
  - destruct (Z.eq_dec y y0) as [->|Hne].
    + destruct (path_bounds _ _ _ _ _ H) as (h & v & j & ?).
      exists (x - 1 - x0). split; [lia|].
      eapply path_eq; [apply (path_hline x0 y0 (x - 1 - x0)); lia | lia | lia | lia].
    + destruct (path_bounds _ _ _ _ _ H) as (h & v & j & ?).
      destruct IH as (c' & Hc' & IH); try lia.
      exists (c' + 1). split; [lia|].
      eapply path_down'; [exact IH | lia | lia].
  - exists c. split; [lia|].
    eapply path_eq; [exact H | lia | lia | lia].
Qed.

Lemma path_shrink_end_n n :
  0 <= n -> forall x0 y0 x1 y1 c,
  path m x0 y0 x1 y1 c -> x0 <= x1 - n -> y0 <= y1 - n ->
  exists c', c' <= c /\ path m x0 y0 (x1 - n) (y1 - n) c'.
Proof.
  intros Hn. pattern n. apply natlike_ind; [| |exact Hn].
  - intros x0 y0 x1 y1 c H _ _. exists c. split; [lia|].
    eapply path_eq; [exact H | lia | lia | lia].
  - intros k Hk IH x0 y0 x1 y1 c H Hx Hy.
    destruct (IH _ _ _ _ _ H) as (c1 & Hc1 & H1); try lia.
    destruct (path_shrink_end _ _ _ _ _ H1) as (c2 & Hc2 & H2); try lia.
    exists c2. split; [lia|].
    eapply path_eq; [exact H2 | lia | lia | lia].
Qed.

End PathFacts.

Lemma path_weaken (m m' : Z -> Z -> Prop) x0 y0 x1 y1 c :
  (forall i j, x0 <= i < x1 -> y0 <= j < y1 -> m i j -> m' i j) ->
  path m x0 y0 x1 y1 c -> path m' x0 y0 x1 y1 c.
Proof.
  intros Hsub H. revert Hsub.
  induction H as [|x y c H IH|x y c H IH|x y c H IH Hm]; intros Hsub.
  - apply path_nil.
  - apply path_right. apply IH. intros i j Hi Hj. apply Hsub; lia.
  - apply path_down. apply IH. intros i j Hi Hj. apply Hsub; lia.
  - destruct (path_bounds _ _ _ _ _ _ H) as (h & v & j & ?).
    apply path_diag.
    + apply IH. intros i' j' Hi Hj. apply Hsub; lia.
    + apply Hsub; try lia. assumption.
Qed.

(** Reading the edit graph from its far corner reverses the paths. *)
Lemma path_flip (m : Z -> Z -> Prop) N M x0 y0 x1 y1 c :
  path m x0 y0 x1 y1 c ->
  path (flip m N M) (N - x1) (M - y1) (N - x0) (M - y0) c.
Proof.
  induction 1 as [|x y c H IH|x y c H IH|x y c H IH Hm].
  - apply path_nil.
  - eapply path_eq.
    + eapply path_trans; [|exact IH].
      eapply path_eq; [apply (path_hline _ (N - (x + 1)) (M - y) 1); lia| | | ];
        [lia | reflexivity | reflexivity].
    + reflexivity.
    + reflexivity.
    + lia.
  - eapply path_eq.
    + eapply path_trans; [|exact IH].
      eapply path_eq; [apply (path_vline _ (N - x) (M - (y + 1)) 1); lia| | | ];
        [reflexivity | lia | reflexivity].
    + reflexivity.
    + reflexivity.
    + lia.
  - eapply path_eq.
    + eapply path_trans; [|exact IH].
      eapply path_eq;
        [apply (path_snake _ (N - (x + 1)) (M - (y + 1)) 1); [lia|]| | | ];
        [|lia | lia | reflexivity].
      intros i Hi. unfold flip.
      replace (N - 1 - (N - (x + 1) + i)) with x by lia.
      replace (M - 1 - (M - (y + 1) + i)) with y by lia.
      assumption.
    + reflexivity.
    + reflexivity.
    + lia.
Qed.

Lemma path_unflip (m : Z -> Z -> Prop) N M x0 y0 x1 y1 c :
  path (flip m N M) x0 y0 x1 y1 c ->
  path m (N - x1) (M - y1) (N - x0) (M - y0) c.
Proof.
  intros H. apply (path_flip _ N M) in H.
  eapply path_weaken; [|exact H].
  intros i j _ _. unfold flip.
  replace (N - 1 - (N - 1 - i)) with i by lia.
  replace (M - 1 - (M - 1 - j)) with j by lia.
  trivial.
Qed.

Lemma path_shift (m : Z -> Z -> Prop) dx dy x0 y0 x1 y1 c :
  path (shift m dx dy) x0 y0 x1 y1 c ->
  path m (dx + x0) (dy + y0) (dx + x1) (dy + y1) c.
Proof.
  induction 1 as [|x y c H IH|x y c H IH|x y c H IH Hm].
  - apply path_nil.
  - eapply path_right'; [exact IH | lia | lia].
  - eapply path_down'; [exact IH | lia | lia].
  - eapply path_diag'; [exact IH | exact Hm | lia | lia].
Qed.

Lemma path_unshift (m : Z -> Z -> Prop) dx dy x0 y0 x1 y1 c :
  path m x0 y0 x1 y1 c ->
  path (shift m dx dy) (x0 - dx) (y0 - dy) (x1 - dx) (y1 - dy) c.
Proof.
  induction 1 as [|x y c H IH|x y c H IH|x y c H IH Hm].
  - apply path_nil.
  - eapply path_right'; [exact IH | lia | lia].
  - eapply path_down'; [exact IH | lia | lia].
  - eapply path_diag'; [exact IH | | lia | lia].
    unfold shift.
    replace (dx + (x - dx)) with x by lia.
    replace (dy + (y - dy)) with y by lia.
    assumption.
Qed.

(** Only the edges inside of the rectangle spanned by its ends matter to a
    path. *)
Lemma path_within (m : Z -> Z -> Prop) x0 y0 x1 y1 c :
  path m x0 y0 x1 y1 c -> path (within m x0 y0 x1 y1) x0 y0 x1 y1 c.
Proof.
  intros H. eapply path_weaken; [|exact H].
  intros i j Hi Hj Hm. unfold within. auto.
Qed.

Lemma path_of_within (m : Z -> Z -> Prop) a b a' b' x0 y0 x1 y1 c :
  path (within m a b a' b') x0 y0 x1 y1 c -> path m x0 y0 x1 y1 c.
Proof.
  apply path_weaken. intros i j _ _ (_ & _ & Hm). exact Hm.
Qed.

(** Moving the start of a path one or more steps forward along its diagonal
    does not cost more. *)
Lemma path_shrink_start_n (m : Z -> Z -> Prop) n x0 y0 x1 y1 c :
  0 <= n ->
  path m x0 y0 x1 y1 c -> x0 + n <= x1 -> y0 + n <= y1 ->
  exists c', c' <= c /\ path m (x0 + n) (y0 + n) x1 y1 c'.
Proof.
  intros Hn H Hx Hy.
  apply (path_flip _ 0 0) in H.
  destruct (path_shrink_end_n _ n Hn _ _ _ _ _ H) as (c' & Hc' & H'); try lia.
  exists c'. split; [assumption|].
  apply path_unflip in H'.
  eapply path_cast; [exact H' | lia | lia | lia | lia | lia].
Qed.

(** Outside of the rectangle [[0,N) x [0,M)] that carries the diagonal
    edges, a path only accumulates cost. *)
Lemma path_clamp (m : Z -> Z -> Prop) N M x0 y0 x y c :
  (forall i j, m i j -> i < N /\ j < M) ->
  x0 <= N -> y0 <= M ->
  path m x0 y0 x y c ->
  path m x0 y0 (Z.min x N) (Z.min y M) (c - Z.max 0 (x - N) - Z.max 0 (y - M)).
Proof.
  intros Hm Hx0 Hy0.
  induction 1 as [|x y c H IH|x y c H IH|x y c H IH Hmxy].
  - eapply path_eq; [apply path_nil | lia | lia | lia].
  - destruct (Z_lt_le_dec x N) as [Hlt|Hge].
    + eapply path_right'; [exact IH | lia | lia].
    + eapply path_eq; [exact IH | lia | lia | lia].
  - destruct (Z_lt_le_dec y M) as [Hlt|Hge].
    + eapply path_down'; [exact IH | lia | lia].
    + eapply path_eq; [exact IH | lia | lia | lia].
  - destruct (Hm _ _ Hmxy) as [Hx Hy].
    eapply path_diag'.
    + eapply path_eq; [exact IH | | | ]; [reflexivity|reflexivity|lia].
    + replace (Z.min x N) with x by lia. replace (Z.min y M) with y by lia.
      exact Hmxy.
    + lia.
    + lia.
Qed.

(** * Loops *)

Lemma range_unfold lo hi step :
  0 < step ->
  range lo hi step = if lo <=? hi then lo :: range (lo + step) hi step else [].
Proof.
  intros Hstep. unfold range at 1.
  destruct (Z.leb_spec lo hi) as [Hle|Hgt]; [|reflexivity].
  cbn [seq map]. f_equal; [simpl; lia|].
  unfold range. destruct (Z.leb_spec (lo + step) hi) as [Hle'|Hgt'].
  - replace ((hi - lo) / step) with ((hi - (lo + step)) / step + 1).
    2:{ rewrite <- (Z.div_add _ 1 step) by lia. f_equal. lia. }
    assert (0 <= (hi - (lo + step)) / step) by (apply Z.div_pos; lia).
    rewrite Z2Nat.inj_add by lia. rewrite Nat.add_comm. cbn [Z.to_nat Pos.to_nat Pos.iter_op Nat.add].
    rewrite <- seq_shift, map_map. apply map_ext. intros i. lia.
  - rewrite Z.div_small by lia. reflexivity.
Qed.

(** The rule of a [for] loop over [range lo hi step]: [I k s] holds of the
    state [s] before the iteration at [k]. *)
Lemma for_each_range {S R : Type} (I : Z -> S -> Prop) (Post : S -> R -> Prop)
    (body : Z -> S -> outcome (S * option R)) (hi step : Z) :
  0 < step ->
  (forall k s, k <= hi -> I k s ->
     exists s' r, body k s = Done (s', r)
       /\ match r with Some x => Post s' x | None => I (k + step) s' end) ->
  forall lo s, I lo s ->
  exists s' r, for_each (range lo hi step) body s = Done (s', r)
    /\ match r with
       | Some x => Post s' x
       | None => exists k, hi < k /\ I k s'
       end.
Proof.
  intros Hstep Hbody lo s.
  remember (Z.to_nat (hi - lo + 1)) as n eqn:Hn.
  revert lo s Hn. induction n as [n IH] using lt_wf_ind. intros lo s Hn HI.
  rewrite range_unfold by assumption.
  destruct (Z.leb_spec lo hi) as [Hle|Hgt].
  - destruct (Hbody lo s Hle HI) as (s' & r & Hb & Hr).
    cbn [for_each]. rewrite Hb. cbn [bind].
    destruct r as [x|].
    + exists s', (Some x). split; [reflexivity|assumption].
    + apply (IH (Z.to_nat (hi - (lo + step) + 1))); [lia|reflexivity|assumption].
  - exists s, None. split; [reflexivity|]. exists lo. split; [lia|assumption].
Qed.

(** * The Snake Finder *)

Ltac splits := repeat match goal with |- _ /\ _ => split end.

Section SnakeFinder.

Context {T : Type}.
Variable eq : T -> T -> bool.

Lemma grid_bounds (a : Iterator T) N (b : Iterator T) M i j :
  grid eq a N b M i j -> i < N /\ j < M.
Proof. unfold grid, within. lia. Qed.

Lemma follow_snake_spec (a : Iterator T) N (b : Iterator T) M :
  readable a N -> readable b M ->
  forall fuel u v,
    0 <= u -> 0 <= v -> (Z.to_nat (N - u) <= fuel)%nat ->
    exists n, 0 <= n
      /\ follow_snake eq fuel a N b M u v = Done (u + n, v + n)
      /\ (forall i, 0 <= i < n -> grid eq a N b M (u + i) (v + i))
      /\ ~ grid eq a N b M (u + n) (v + n).
Proof.
  intros Ha Hb. induction fuel as [|fuel IH]; intros u v Hu Hv Hfuel.
  - exists 0. cbn [follow_snake].
    destruct (Z.ltb_spec u N) as [Hlt|Hge]; [lia|]. cbn [andb].
    splits; try lia.
    + do 2 f_equal; lia.
    + intros Hg. apply grid_bounds in Hg. lia.
  - cbn [follow_snake].
    destruct (Z.ltb_spec u N) as [HuN|HuN]; cbn [andb].
    2:{ exists 0. splits; try lia.
        - do 2 f_equal; lia.
        - intros Hg. apply grid_bounds in Hg. lia. }
    destruct (Z.ltb_spec v M) as [HvM|HvM].
    2:{ exists 0. splits; try lia.
        - do 2 f_equal; lia.
        - intros Hg. apply grid_bounds in Hg. lia. }
    destruct (Ha u) as (p & Hp); [lia|]. destruct (Hb v) as (q & Hq); [lia|].
    rewrite Hp, Hq. cbn [bind].
    destruct (eq p q) eqn:Hpq.
    + destruct (IH (u + 1) (v + 1)) as (n & Hn & Hrun & Hall & Hstop); try lia.
      exists (n + 1). splits; try lia.
      * rewrite Hrun. do 2 f_equal; lia.
      * intros i Hi. destruct (Z.eq_dec i 0) as [->|Hne].
        -- rewrite !Z.add_0_r. unfold grid, within.
           splits; try lia. exists p, q. auto.
        -- replace (u + i) with (u + 1 + (i - 1)) by lia.
           replace (v + i) with (v + 1 + (i - 1)) by lia.
           apply Hall. lia.
      * replace (u + (n + 1)) with (u + 1 + n) by lia.
        replace (v + (n + 1)) with (v + 1 + n) by lia. exact Hstop.
    + exists 0. splits; try lia.
      * do 2 f_equal; lia.
      * rewrite !Z.add_0_r. intros (_ & _ & p' & q' & Hp' & Hq' & Heq).
        congruence.
Qed.

(** ** The working storage *)

Lemma in_storage_iff d i : in_storage d i = true <-> 0 <= i < size d.
Proof. unfold in_storage. rewrite andb_true_iff, Z.leb_le, Z.ltb_lt. tauto. Qed.

Lemma load_view d V k :
  0 <= V + k < size d -> load d (V + k) = Done (view d V k).
Proof.
  intros H. apply in_storage_iff in H. unfold load. now rewrite H.
Qed.

Lemma store_in d i x :
  0 <= i < size d ->
  exists d', store d i x = Done d' /\ size d' = size d
             /\ cell d' i = x /\ forall j, j <> i -> cell d' j = cell d j.
Proof.
  intros H. apply in_storage_iff in H. unfold store. rewrite H.
  eexists. split; [reflexivity|]. cbn [size cell]. splits; auto.
  - now rewrite Z.eqb_refl.
  - intros j Hj. destruct (Z.eqb_spec j i); [contradiction|reflexivity].
Qed.

Lemma find_end_snake_spec (a : Iterator T) N (b : Iterator T) M data V D k :
  readable a N -> readable b M ->
  (k <> - D -> 0 <= V + (k - 1) < size data) ->
  (k = - D \/ k <> D -> 0 <= V + (k + 1) < size data) ->
  0 <= snake_start (view data V) D k -> k <= snake_start (view data V) D k ->
  exists p,
    find_end_snake_of_further_reaching_dpath eq a N b M data V D k = Done p
    /\ Snake.add p = takes_vertical (view data V) D k
    /\ Snake.x p = snake_start (view data V) D k
    /\ Snake.y p = Snake.x p - k
    /\ Snake.x p <= Snake.u p
    /\ Snake.v p = Snake.u p - k
    /\ (forall i, 0 <= i < Snake.u p - Snake.x p ->
          grid eq a N b M (Snake.x p + i) (Snake.y p + i))
    /\ ~ grid eq a N b M (Snake.u p) (Snake.v p).
Proof.
  intros Ha Hb Hlo Hhi Hx Hy.
  unfold find_end_snake_of_further_reaching_dpath.
  assert (Hadd : (if k =? - D then Done true
                  else if negb (k =? D)
                       then l <- load data (V + (k - 1)) ;;
                            r <- load data (V + (k + 1)) ;; Done (l <? r)
                       else Done false)
                 = Done (takes_vertical (view data V) D k)).
  { unfold takes_vertical. destruct (Z.eqb_spec k (- D)); [reflexivity|].
    destruct (Z.eqb_spec k D); cbn [negb orb andb]; [reflexivity|].
    rewrite !load_view by auto. reflexivity. }
  rewrite Hadd. cbn [bind].
  assert (Hstart : (if takes_vertical (view data V) D k
                    then load data (V + (k + 1))
                    else l <- load data (V + (k - 1)) ;; Done (l + 1))
                   = Done (snake_start (view data V) D k)).
  { unfold snake_start, takes_vertical.
    destruct (Z.eqb_spec k (- D)); cbn [orb].
    - rewrite load_view by auto. reflexivity.
    - destruct (Z.eqb_spec k D); cbn [negb andb].
      + rewrite load_view by auto. reflexivity.
      + destruct (view data V (k - 1) <? view data V (k + 1));
          rewrite load_view by auto; reflexivity. }
  rewrite Hstart. cbn [bind].
  set (x := snake_start (view data V) D k) in *.
  destruct (follow_snake_spec a N b M Ha Hb (Z.to_nat (N - x)) x (x - k))
    as (n & Hn & Hrun & Hall & Hstop); try lia.
  rewrite Hrun. cbn [bind].
  eexists. split; [reflexivity|]. cbn [Snake.add Snake.x Snake.y Snake.u Snake.v].
  splits; try lia; try reflexivity.
  - intros i Hi. apply Hall. lia.
  - replace (x + n - k) with (x - k + n) by lia. exact Hstop.
Qed.

(** ** Furthest reaching paths *)

Lemma on_front_pred_left D k :
  on_front D k -> k <> - D -> on_front (D - 1) (k - 1).
Proof. intros (i & Hi & ->) Hk. exists (i - 1). lia. Qed.

Lemma on_front_pred_right D k :
  on_front D k -> k <> D -> on_front (D - 1) (k + 1).
Proof. intros (i & Hi & ->) Hk. exists i. lia. Qed.

Lemma path_on_front m x y c :
  path m 0 0 x y c -> on_front c (x - y).
Proof.
  intros H. apply path_bounds in H. destruct H as (h & v & j & ?).
  exists h. lia.
Qed.

Lemma furthest_unique m D k x x' :
  furthest m D k x -> furthest m D k x' -> x = x'.
Proof.
  intros [H1 H2] [H1' H2']. apply H2' in H1. apply H2 in H1'. lia.
Qed.

(** At distance [D] on diagonal [k], the Snake Finder ends on the furthest
    point that [D] edits reach. *)
Lemma finder_furthest (a : Iterator T) N (b : Iterator T) M data W D k :
  readable a N -> readable b M ->
  0 <= W + (k - 1) -> W + (k + 1) < size data ->
  primed (grid eq a N b M) D (view data W) -> on_front D k ->
  exists p,
    find_end_snake_of_further_reaching_dpath eq a N b M data W D k = Done p
    /\ furthest (grid eq a N b M) D k (Snake.u p)
    /\ Snake.y p = Snake.x p - k
    /\ Snake.v p = Snake.u p - k
    /\ 0 <= Snake.x p <= Snake.u p
    /\ 0 <= Snake.y p
    /\ (forall i, 0 <= i < Snake.u p - Snake.x p ->
          grid eq a N b M (Snake.x p + i) (Snake.y p + i))
    /\ ~ grid eq a N b M (Snake.u p) (Snake.v p)
    /\ (D = 0 -> Snake.x p = 0 /\ Snake.y p = 0)
    /\ (0 < D ->
        path (grid eq a N b M) 0 0
             (if Snake.add p then Snake.x p else Snake.x p - 1)
             (if Snake.add p then Snake.y p - 1 else Snake.y p) (D - 1)).
Proof.
  intros Ha Hb Hlo Hhi Hprimed Hk.
  set (m := grid eq a N b M) in *. set (V := view data W) in *.
  (* the start of the snake and the path that leads to it *)
  assert (Hstart :
    (D = 0 /\ k = 0 /\ snake_start V D k = 0) \/
    (0 < D /\
     path m 0 0 (if takes_vertical V D k then snake_start V D k
                 else snake_start V D k - 1)
                (if takes_vertical V D k then snake_start V D k - k - 1
                 else snake_start V D k - k) (D - 1))).
  { destruct Hprimed as [[-> HV]|[HD Hfront]].
    - left. destruct Hk as (i & Hi & ->). assert (i = 0) as -> by lia.
      splits; try lia. unfold snake_start, takes_vertical. cbn. exact HV.
    - right. split; [assumption|].
      unfold snake_start, takes_vertical.
      destruct (Z.eqb_spec k (- D)) as [Hl|Hl]; cbn [orb].
      + destruct (Hfront (k + 1)) as [Hp _].
        { apply on_front_pred_right; [assumption|lia]. }
        eapply path_eq; [exact Hp | lia | lia | lia].
      + destruct (Z.eqb_spec k D) as [Hr|Hr]; cbn [negb andb].
        * destruct (Hfront (k - 1)) as [Hp _].
          { apply on_front_pred_left; assumption. }
          eapply path_eq; [exact Hp | lia | lia | lia].
        * destruct (Z.ltb_spec (V (k - 1)) (V (k + 1))).
          -- destruct (Hfront (k + 1)) as [Hp _].
             { apply on_front_pred_right; assumption. }
             eapply path_eq; [exact Hp | lia | lia | lia].
          -- destruct (Hfront (k - 1)) as [Hp _].
             { apply on_front_pred_left; assumption. }
             eapply path_eq; [exact Hp | lia | lia | lia]. }
  assert (Hx0 : 0 <= snake_start V D k /\ k <= snake_start V D k).
  { destruct Hstart as [(_ & -> & ->)|[_ Hp]]; [lia|].
    apply path_bounds in Hp. destruct Hp as (h & v & j & ?).
    destruct (takes_vertical V D k); lia. }
  destruct (find_end_snake_spec a N b M data W D k Ha Hb
              ltac:(intros; lia) ltac:(intros; lia)) as
    (p & Hrun & Hadd & Hx & Hy & Hxu & Hv & Hall & Hstop); try (fold V; lia).
  fold V in Hadd, Hx.
  exists p. split; [exact Hrun|].
  assert (Hreach : path m 0 0 (Snake.x p) (Snake.y p) D).
  { destruct Hstart as [(-> & -> & H0)|[HD Hp]].
    - eapply path_eq; [apply path_nil | lia | lia | lia].
    - rewrite <- Hadd, <- Hx in Hp. destruct (Snake.add p).
      + eapply (path_down' _ _ _ (Snake.x p) (Snake.y p - 1));
          [path_from Hp | lia | lia].
      + eapply (path_right' _ _ _ (Snake.x p - 1) (Snake.y p));
          [path_from Hp | lia | lia]. }
  split; [split|splits; try lia].
  - (* a path of cost D ends at (u, v) *)
    eapply path_eq.
    + eapply path_trans; [exact Hreach|].
      apply (path_snake m (Snake.x p) (Snake.y p) (Snake.u p - Snake.x p)); [lia|].
      exact Hall.
    + lia.
    + lia.
    + lia.
  - (* no path of cost D goes further on diagonal k *)
    intros x' Hpath.
    remember (x' - k) as y' eqn:Hy'. remember D as c eqn:Hc in Hpath.
    assert (Hdiag : x' - y' = k) by lia. clear Hy'.
    revert Hc Hdiag.
    induction Hpath as [|x1 y1 c Hp IH|x1 y1 c Hp IH|x1 y1 c Hp IH Hm];
      intros Hc Hdiag.
    + lia.
    + destruct Hprimed as [[HD _]|[HD Hfront]].
      { apply path_bounds in Hp. destruct Hp as (h & v & j & ?). lia. }
      pose proof (path_on_front _ _ _ _ Hp) as Hof.
      replace c with (D - 1) in Hp, Hof by lia.
      replace (x1 - y1) with (k - 1) in Hof by lia.
      destruct (Hfront _ Hof) as [_ Hmax].
      assert (x1 <= V (k - 1)).
      { apply Hmax. eapply path_eq; [exact Hp | lia | lia | lia]. }
      assert (V (k - 1) + 1 <= snake_start V D k).
      { destruct Hof as (i & Hi & Hki).
        unfold snake_start, takes_vertical.
        destruct (Z.eqb_spec k (- D)); [lia|]. cbn [orb].
        destruct (Z.eqb_spec k D); cbn [negb andb]; [lia|].
        destruct (Z.ltb_spec (V (k - 1)) (V (k + 1))); lia. }
      lia.
    + destruct Hprimed as [[HD _]|[HD Hfront]].
      { apply path_bounds in Hp. destruct Hp as (h & v & j & ?). lia. }
      pose proof (path_on_front _ _ _ _ Hp) as Hof.
      replace c with (D - 1) in Hp, Hof by lia.
      replace (x1 - y1) with (k + 1) in Hof by lia.
      destruct (Hfront _ Hof) as [_ Hmax].
      assert (x1 <= V (k + 1)).
      { apply Hmax. eapply path_eq; [exact Hp | lia | lia | lia]. }
      assert (V (k + 1) <= snake_start V D k).
      { destruct Hof as (i & Hi & Hki).
        unfold snake_start, takes_vertical.
        destruct (Z.eqb_spec k (- D)); cbn [orb]; [lia|].
        destruct (Z.eqb_spec k D); cbn [negb andb]; [lia|].
        destruct (Z.ltb_spec (V (k - 1)) (V (k + 1))); lia. }
      lia.
    + specialize (IH Hc ltac:(lia)).
      destruct (Z.eq_dec x1 (Snake.u p)) as [Heq|Hne]; [|lia].
      exfalso. apply Hstop.
      replace (Snake.u p) with x1 by lia. replace (Snake.v p) with y1 by lia.
      exact Hm.
  - exact Hall.
  - exact Hstop.
  - intros HD. destruct Hstart as [(? & ? & ?)|[_ Hp]]; [lia|].
    rewrite <- Hadd, <- Hx in Hp.
    destruct (Snake.add p); path_from Hp.
Qed.

End SnakeFinder.

(** * The Middle Snake Search *)

Ltac snake_simpl :=
  unfold SnakeLen.x, SnakeLen.y, SnakeLen.u, SnakeLen.v, SnakeLen.add in *;
  cbn [SnakeLen.snake SnakeLen.reverse SnakeLen.d
       Snake.x Snake.y Snake.u Snake.v Snake.add] in *.

Lemma rem2_even z : Z.rem z 2 = 0 -> exists q, z = 2 * q.
Proof.
  intros H. exists (Z.quot z 2).
  pose proof (Z.quot_rem' z 2). lia.
Qed.

Lemma rem2_odd z : Z.rem z 2 <> 0 -> exists q, z = 2 * q + 1.
Proof.
  intros H. pose proof (Z.quot_rem' z 2) as Hq.
  pose proof (Z.rem_bound_abs z 2 ltac:(lia)) as Hb.
  destruct (Z_le_gt_dec 0 (Z.rem z 2)) as [Hz|Hz].
  - exists (Z.quot z 2). lia.
  - exists (Z.quot z 2 - 1). lia.
Qed.

Lemma even_rem2 q : Z.rem (2 * q) 2 = 0.
Proof. rewrite Z.mul_comm. apply Z.rem_mul. lia. Qed.

Lemma odd_rem2 q : Z.rem (2 * q + 1) 2 <> 0.
Proof.
  intros H. apply rem2_even in H. destruct H as (q' & H). lia.
Qed.

Lemma primed_update m D (V V' : Array) k :
  on_front D k -> (forall j, j <> k -> V' j = V j) ->
  primed m D V -> primed m D V'.
Proof.
  intros (i & Hi & ->) Hsame [[-> HV]|[HD Hfront]].
  - left. split; [reflexivity|]. rewrite Hsame by lia. exact HV.
  - right. split; [assumption|]. intros j Hj.
    rewrite Hsame; [now apply Hfront|].
    destruct Hj as (i' & Hi' & ->). lia.
Qed.

Lemma front_same m D (V V' : Array) R :
  D <= R -> (forall j, - R <= j <= R -> V' j = V j) ->
  front m D V -> front m D V'.
Proof.
  intros HR Hsame Hfront j Hj. rewrite Hsame; [now apply Hfront|].
  destruct Hj as (i & Hi & ->). lia.
Qed.

Lemma primed_same m D (V V' : Array) R :
  D <= R -> 1 <= R -> (forall j, - R <= j <= R -> V' j = V j) ->
  primed m D V -> primed m D V'.
Proof.
  intros HR HR1 Hsame [[-> HV]|[HD Hfront]].
  - left. split; [reflexivity|]. rewrite Hsame by lia. exact HV.
  - right. split; [assumption|]. apply (front_same m (D - 1) V V' R); auto. lia.
Qed.

Section MiddleSnake.

Context {T : Type}.
Variable eq : T -> T -> bool.
Variables (a b : Iterator T) (N M : Z).
Hypothesis Ha : readable a N.
Hypothesis Hb : readable b M.
Hypothesis HN : 1 <= N.
Hypothesis HM : 1 <= M.

Let m := grid eq a N b M.
Let ra := reverse_iterator (advance a N).
Let rb := reverse_iterator (advance b M).
Let m' := grid eq ra N rb M.

Hypothesis Hfirst : ~ m 0 0.

Lemma readable_reverse_a : readable ra N.
Proof.
  intros i Hi. unfold ra, reverse_iterator, advance. apply Ha. lia.
Qed.

Lemma readable_reverse_b : readable rb M.
Proof.
  intros i Hi. unfold rb, reverse_iterator, advance. apply Hb. lia.
Qed.

Lemma grid_reverse i j : m' i j <-> flip m N M i j.
Proof.
  unfold m', m, flip, grid, within, matches, ra, rb, reverse_iterator, advance.
  replace (N + (- i - 1)) with (N - 1 - i) by lia.
  replace (M + (- j - 1)) with (M - 1 - j) by lia.
  intuition lia.
Qed.

Lemma path_of_reverse x0 y0 x1 y1 c :
  path m' x0 y0 x1 y1 c -> path m (N - x1) (M - y1) (N - x0) (M - y0) c.
Proof.
  intros H. apply path_unflip.
  eapply path_weaken; [|exact H]. intros i j _ _. apply grid_reverse.
Qed.

Lemma path_to_reverse x0 y0 x1 y1 c :
  path m x0 y0 x1 y1 c -> path m' (N - x1) (M - y1) (N - x0) (M - y0) c.
Proof.
  intros H. apply (path_flip _ N M) in H.
  eapply path_weaken; [|exact H]. intros i j _ _. apply grid_reverse.
Qed.

Lemma grid_inside i j : m i j -> i < N /\ j < M.
Proof. apply grid_bounds. Qed.

Lemma grid_inside' i j : m' i j -> i < N /\ j < M.
Proof. apply grid_bounds. Qed.

(** A point that [c] edits reach is at most [c] edits past the far corner,
    or that many edits short of it. *)
Lemma path_to_corner (mm : Z -> Z -> Prop) x y c :
  (forall i j, mm i j -> i < N /\ j < M) ->
  path mm 0 0 x y c -> path mm 0 0 N M (c + (N - x) + (M - y)).
Proof.
  intros Hin H.
  apply (path_clamp mm N M) in H; [|assumption|lia|lia].
  pose proof (path_hline mm (Z.min x N) (Z.min y M) (N - Z.min x N) ltac:(lia)) as H1.
  pose proof (path_vline mm (Z.min x N + (N - Z.min x N)) (Z.min y M)
                         (M - Z.min y M) ltac:(lia)) as H2.
  pose proof (path_trans _ _ _ _ _ _ _ _ _ (path_trans _ _ _ _ _ _ _ _ _ H H1) H2) as H3.
  path_from H3.
Qed.

Lemma lower_bound_total c : lower_bound m N M c -> c <= N + M.
Proof.
  intros H. apply H.
  pose proof (path_hline m 0 0 N ltac:(lia)) as H1.
  pose proof (path_vline m (0 + N) 0 M ltac:(lia)) as H2.
  pose proof (path_trans _ _ _ _ _ _ _ _ _ H1 H2) as H3.
  path_from H3.
Qed.

(** The distance is at least 1: the first elements differ. *)
Lemma lower_bound_one : lower_bound m N M 1.
Proof.
  intros c H. destruct (path_bounds _ _ _ _ _ _ H) as (h & v & j & ?).
  destruct (Z.eq_dec c 0) as [->|]; [|lia].
  destruct (path_zero_inv _ _ _ _ _ _ H eq_refl) as (n & Hn & ? & ? & Hrun).
  exfalso. apply Hfirst. apply (Hrun 0). lia.
Qed.

(** ** The forward front crosses the reverse one *)

Lemma forward_crossing D k V2 (p : Snake.t) :
  on_front D k ->
  primed m' D V2 ->
  lower_bound m N M (2 * D - 1) ->
  furthest m D k (Snake.u p) ->
  Snake.y p = Snake.x p - k ->
  Snake.v p = Snake.u p - k ->
  0 <= Snake.x p <= Snake.u p ->
  0 <= Snake.y p ->
  (forall i, 0 <= i < Snake.u p - Snake.x p -> m (Snake.x p + i) (Snake.y p + i)) ->
  ~ m (Snake.u p) (Snake.v p) ->
  (0 < D -> path m 0 0 (if Snake.add p then Snake.x p else Snake.x p - 1)
                       (if Snake.add p then Snake.y p - 1 else Snake.y p) (D - 1)) ->
  Z.rem (N - M) 2 <> 0 ->
  - (D - 1) <= N - M - k <= D - 1 ->
  Snake.u p + V2 (N - M - k) >= N ->
  middle_snake m N M (SnakeLen.mk p false (2 * D - 1)).
Proof.
  intros Hk HV2 Hlb [Hreach Hmax] Hy Hv Hxu Hy0 Hrun Hstop Hpre Hodd Hrange Hcheck.
  assert (HD : 0 < D) by lia.
  specialize (Hpre HD).
  destruct HV2 as [[? _]|[_ Hfront']]; [lia|].
  (* the reverse path on the same diagonal *)
  assert (Hk2 : on_front (D - 1) (N - M - k)).
  { destruct Hk as (i & Hi & ->). destruct (rem2_odd _ Hodd) as (q & Hq).
    exists (q - i + D). lia. }
  destruct (Hfront' _ Hk2) as [Hrev _].
  set (x' := V2 (N - M - k)) in *.
  apply path_of_reverse in Hrev.
  (* the end of the snake lies inside of the grid *)
  pose proof (path_to_corner m _ _ _ grid_inside Hreach) as Hcorner.
  apply Hlb in Hcorner.
  assert (HuN : Snake.u p <= N) by lia.
  assert (HvM : Snake.v p <= M) by lia.
  (* from the end of the snake to the far corner *)
  destruct (path_shrink_start_n m (Snake.u p - (N - x')) _ _ _ _ _ ltac:(lia) Hrev)
    as (c2 & Hc2 & Hrest); [lia|lia|].
  assert (Hrest' : path m (Snake.u p) (Snake.v p) N M c2) by path_from Hrest.
  assert (Huv : path m 0 0 (Snake.u p) (Snake.v p) D) by path_from Hreach.
  pose proof (path_trans _ _ _ _ _ _ _ _ _ Huv Hrest') as Hall.
  pose proof (Hlb _ Hall) as Hge.
  assert (c2 = D - 1) as -> by lia.
  unfold middle_snake. snake_simpl.
  split; [|splits; try lia].
  - split; [path_from Hall|]. intros c' Hc'. apply Hlb in Hc'. lia.
  - exact Hrun.
  - exists (D - 1), (D - 1). split; [lia|]. auto.
Qed.

(** ** The reverse front crosses the forward one *)

Lemma reverse_crossing D k V1 (p : Snake.t) :
  on_front D k ->
  front m D V1 ->
  lower_bound m N M (2 * D) ->
  furthest m' D k (Snake.u p) ->
  Snake.y p = Snake.x p - k ->
  Snake.v p = Snake.u p - k ->
  0 <= Snake.x p <= Snake.u p ->
  0 <= Snake.y p ->
  (forall i, 0 <= i < Snake.u p - Snake.x p -> m' (Snake.x p + i) (Snake.y p + i)) ->
  (D = 0 -> Snake.x p = 0 /\ Snake.y p = 0) ->
  (0 < D -> path m' 0 0 (if Snake.add p then Snake.x p else Snake.x p - 1)
                        (if Snake.add p then Snake.y p - 1 else Snake.y p) (D - 1)) ->
  Z.rem (N - M) 2 = 0 ->
  - D <= N - M - k <= D ->
  V1 (N - M - k) + Snake.u p >= N ->
  middle_snake m N M
    (SnakeLen.mk (Snake.mk (N - Snake.u p) (M - Snake.v p)
                           (N - Snake.x p) (M - Snake.y p) (Snake.add p))
                 true (2 * D)).
Proof.
  intros Hk HV1 Hlb [Hreach Hmax] Hy Hv Hxu Hy0 Hrun Hzero Hpre Heven Hrange Hcheck.
  assert (HD0 : 0 <= D) by (destruct Hk as (i & ? & ?); lia).
  (* the forward path on the same diagonal *)
  assert (Hk1 : on_front D (N - M - k)).
  { destruct Hk as (i & Hi & ->). destruct (rem2_even _ Heven) as (q & Hq).
    exists (q - i + D). lia. }
  destruct (HV1 _ Hk1) as [Hfwd _].
  set (x1 := V1 (N - M - k)) in *.
  (* the end of the snake lies inside of the grid *)
  pose proof (path_to_corner m' _ _ _ grid_inside' Hreach) as Hcorner.
  apply path_of_reverse in Hcorner.
  assert (Hcorner' : path m 0 0 N M (D + (N - Snake.u p) + (M - (Snake.u p - k))))
    by path_from Hcorner.
  apply Hlb in Hcorner'.
  assert (HuN : Snake.u p <= N) by lia.
  assert (HvM : Snake.v p <= M) by lia.
  (* from the origin to the start of the snake *)
  destruct (path_shrink_end_n m (x1 - (N - Snake.u p)) ltac:(lia) _ _ _ _ _ Hfwd)
    as (c1 & Hc1 & Hhead); [lia|lia|].
  assert (Hhead' : path m 0 0 (N - Snake.u p) (M - Snake.v p) c1) by path_from Hhead.
  (* the snake itself *)
  assert (Hsnake : path m (N - Snake.u p) (M - Snake.v p)
                          (N - Snake.x p) (M - Snake.y p) 0).
  { pose proof (path_snake m' (Snake.x p) (Snake.y p) (Snake.u p - Snake.x p)
                           ltac:(lia) Hrun) as Hs.
    apply path_of_reverse in Hs. path_from Hs. }
  destruct (Z.eq_dec D 0) as [HD|HD].
  { (* no crossing before the first edit *)
    exfalso. destruct (Hzero HD) as [Hx0 Hy00].
    pose proof (path_trans _ _ _ _ _ _ _ _ _ Hhead' Hsnake) as Hall.
    assert (Hall' : path m 0 0 N M c1) by path_from Hall.
    apply lower_bound_one in Hall'. lia. }
  specialize (Hpre ltac:(lia)).
  apply path_of_reverse in Hpre.
  set (qx := if Snake.add p then N - Snake.x p else N - Snake.x p + 1).
  set (qy := if Snake.add p then M - Snake.y p + 1 else M - Snake.y p).
  assert (Htail : path m qx qy N M (D - 1)).
  { unfold qx, qy. destruct (Snake.add p); path_from Hpre. }
  assert (Hedit : path m (N - Snake.x p) (M - Snake.y p) qx qy 1).
  { unfold qx, qy. destruct (Snake.add p).
    - pose proof (path_vline m (N - Snake.x p) (M - Snake.y p) 1 ltac:(lia)) as He.
      path_from He.
    - pose proof (path_hline m (N - Snake.x p) (M - Snake.y p) 1 ltac:(lia)) as He.
      path_from He. }
  pose proof (path_trans _ _ _ _ _ _ _ _ _
                (path_trans _ _ _ _ _ _ _ _ _
                   (path_trans _ _ _ _ _ _ _ _ _ Hhead' Hsnake) Hedit) Htail) as Hall.
  pose proof (Hlb _ Hall) as Hge.
  assert (c1 = D) as -> by lia.
  unfold middle_snake. snake_simpl.
  split; [|splits; try lia].
  - split; [path_from Hall|]. intros c' Hc'. apply Hlb in Hc'. lia.
  - intros i Hi.
    assert (Hm' : m' (Snake.x p + (Snake.u p - Snake.x p - 1 - i))
                     (Snake.y p + (Snake.u p - Snake.x p - 1 - i)))
      by (apply Hrun; lia).
    apply grid_reverse in Hm'. unfold flip in Hm'.
    replace (N - Snake.u p + i)
      with (N - 1 - (Snake.x p + (Snake.u p - Snake.x p - 1 - i))) by lia.
    replace (M - Snake.v p + i)
      with (M - 1 - (Snake.y p + (Snake.u p - Snake.x p - 1 - i))) by lia.
    exact Hm'.
  - exists D, (D - 1). split; [lia|]. split; [lia|]. split; [exact Hhead'|].
    unfold qx, qy in Htail. destruct (Snake.add p); path_from Htail.
Qed.

(** ** Crossings and distances *)

Lemma conjugate_odd D k :
  on_front D k -> Z.rem (N - M) 2 <> 0 -> - (D - 1) <= N - M - k <= D - 1 ->
  on_front (D - 1) (N - M - k).
Proof.
  intros (i & Hi & ->) Hodd Hrange. destruct (rem2_odd _ Hodd) as (q & Hq).
  exists (q - i + D). lia.
Qed.

Lemma conjugate_even D k :
  on_front D k -> Z.rem (N - M) 2 = 0 -> - D <= N - M - k <= D ->
  on_front D (N - M - k).
Proof.
  intros (i & Hi & ->) Heven Hrange. destruct (rem2_even _ Heven) as (q & Hq).
  exists (q - i + D). lia.
Qed.

Lemma lower_bound_weaken c c' :
  c' <= c -> lower_bound m N M c -> lower_bound m N M c'.
Proof. intros Hle H c0 Hc0. apply H in Hc0. lia. Qed.

(** Where the fronts cross, a path joins the two corners. *)
Lemma crosses_forward_path D k :
  crosses_forward m m' N M D k -> lower_bound m N M (2 * D - 1) ->
  path m 0 0 N M (2 * D - 1).
Proof.
  intros (Hk & Hrange & x & x' & [Hf _] & [Hr _] & Hsum) Hlb.
  apply path_of_reverse in Hr.
  pose proof (path_to_corner m _ _ _ grid_inside Hf) as Hcorner.
  apply Hlb in Hcorner.
  destruct (path_shrink_start_n m (x - (N - x')) _ _ _ _ _ ltac:(lia) Hr)
    as (c2 & Hc2 & Hrest); [lia|lia|].
  assert (Hrest' : path m x (x - k) N M c2) by path_from Hrest.
  pose proof (path_trans _ _ _ _ _ _ _ _ _ Hf Hrest') as Hall.
  pose proof (Hlb _ Hall). path_from Hall.
Qed.

Lemma crosses_reverse_path D k :
  crosses_reverse m m' N M D k -> lower_bound m N M (2 * D) ->
  path m 0 0 N M (2 * D).
Proof.
  intros (Hk & Hrange & x & x' & [Hr _] & [Hf _] & Hsum) Hlb.
  pose proof (path_to_corner m' _ _ _ grid_inside' Hr) as Hcorner.
  apply path_of_reverse in Hcorner.
  assert (Hcorner' : path m 0 0 N M (D + (N - x) + (M - (x - k))))
    by path_from Hcorner.
  apply Hlb in Hcorner'.
  destruct (path_shrink_end_n m (x' - (N - x)) ltac:(lia) _ _ _ _ _ Hf)
    as (c1 & Hc1 & Hhead); [lia|lia|].
  apply path_of_reverse in Hr.
  assert (Hr' : path m (x' - (x' - (N - x))) (x' - (N - M - k) - (x' - (N - x)))
                     N M D) by path_from Hr.
  pose proof (path_trans _ _ _ _ _ _ _ _ _ Hhead Hr') as Hall.
  pose proof (Hlb _ Hall). path_from Hall.
Qed.

Lemma forward_result_intro V1 D k data (F2 : Array) (p : Snake.t) :
  on_front D k -> primed m D (view data V1) -> primed m' D F2 ->
  lower_bound m N M (2 * D - 1) ->
  find_end_snake_of_further_reaching_dpath eq a N b M data V1 D k = Done p ->
  furthest m D k (Snake.u p) ->
  Z.rem (N - M) 2 <> 0 ->
  - (D - 1) <= N - M - k <= D - 1 ->
  Snake.u p + F2 (N - M - k) >= N ->
  (forall j, on_front D j -> j < k ->
     furthest m D j (view data V1 j)
     /\ ~ (Z.rem (N - M) 2 <> 0 /\ - (D - 1) <= N - M - j <= D - 1
           /\ view data V1 j + F2 (N - M - j) >= N)) ->
  forward_result eq a N b M V1 (SnakeLen.mk p false (2 * D - 1)).
Proof.
  intros Hk HV1 HV2 Hlb Hp Hfur Hodd Hrange Hcheck Hdone.
  assert (HD : 0 < D) by lia.
  destruct HV2 as [[? _]|[_ Hfront']]; [lia|].
  unfold forward_result. fold m ra rb m'. snake_simpl.
  split; [exact Hodd|]. split; [reflexivity|].
  exists D, k, data. splits; auto.
  - split; [exact Hk|]. split; [exact Hrange|].
    exists (Snake.u p), (F2 (N - M - k)). splits; auto; [|lia].
    apply Hfront'. now apply conjugate_odd.
  - intros D' k' Hcross.
    destruct (Z_lt_le_dec D' D) as [Hlt|Hge].
    { exfalso.
      pose proof (crosses_forward_path D' k' Hcross
                    (lower_bound_weaken (2 * D - 1) (2 * D' - 1) ltac:(lia) Hlb))
        as Hpath.
      apply Hlb in Hpath. lia. }
    destruct (Z.eq_dec D' D) as [->|Hne]; [|lia].
    destruct (Z_lt_le_dec k' k) as [Hlt|Hge']; [exfalso|lia].
    destruct Hcross as (Hk' & Hrange' & x & x' & Hx & Hx' & Hsum).
    destruct (Hdone k' Hk' Hlt) as [Hfur' Hno]. apply Hno.
    rewrite (furthest_unique _ _ _ _ _ Hfur' Hx).
    rewrite (furthest_unique _ _ _ _ _
               (Hfront' _ (conjugate_odd _ _ Hk' Hodd Hrange')) Hx').
    splits; auto; lia.
Qed.

Lemma reverse_result_intro V2 D k (F1 : Array) data (p : Snake.t) :
  on_front D k -> front m D F1 -> primed m' D (view data V2) ->
  lower_bound m N M (2 * D) ->
  find_end_snake_of_further_reaching_dpath eq ra N rb M data V2 D k = Done p ->
  furthest m' D k (Snake.u p) ->
  Z.rem (N - M) 2 = 0 ->
  - D <= N - M - k <= D ->
  F1 (N - M - k) + Snake.u p >= N ->
  (forall j, on_front D j -> j < k ->
     furthest m' D j (view data V2 j)
     /\ ~ (Z.rem (N - M) 2 = 0 /\ - D <= N - M - j <= D
           /\ F1 (N - M - j) + view data V2 j >= N)) ->
  reverse_result eq a N b M V2
    (SnakeLen.mk (Snake.mk (N - Snake.u p) (M - Snake.v p)
                           (N - Snake.x p) (M - Snake.y p) (Snake.add p))
                 true (2 * D)).
Proof.
  intros Hk HV1 HV2 Hlb Hp Hfur Heven Hrange Hcheck Hdone.
  unfold reverse_result. fold m ra rb m'. snake_simpl.
  split; [exact Heven|]. split; [reflexivity|].
  exists D, k, data, p. splits; auto.
  - split; [exact Hk|]. split; [exact Hrange|].
    exists (Snake.u p), (F1 (N - M - k)). splits; auto; [|lia].
    apply HV1. now apply conjugate_even.
  - intros D' k' Hcross.
    destruct (Z_lt_le_dec D' D) as [Hlt|Hge].
    { exfalso.
      pose proof (crosses_reverse_path D' k' Hcross
                    (lower_bound_weaken (2 * D) (2 * D') ltac:(lia) Hlb))
        as Hpath.
      apply Hlb in Hpath. lia. }
    destruct (Z.eq_dec D' D) as [->|Hne]; [|lia].
    destruct (Z_lt_le_dec k' k) as [Hlt|Hge']; [exfalso|lia].
    destruct Hcross as (Hk' & Hrange' & x & x' & Hx & Hx' & Hsum).
    destruct (Hdone k' Hk' Hlt) as [Hfur' Hno]. apply Hno.
    rewrite (furthest_unique _ _ _ _ _ Hfur' Hx).
    rewrite (furthest_unique _ _ _ _ _
               (HV1 _ (conjugate_even _ _ Hk' Heven Hrange')) Hx').
    splits; auto; lia.
Qed.

(** ** The two loops over the diagonals *)

Lemma no_odd_distance D (V1 V2 : Array) :
  0 <= D ->
  front m D V1 -> primed m' D V2 ->
  lower_bound m N M (2 * D - 1) ->
  (forall j, on_front D j ->
     ~ (Z.rem (N - M) 2 <> 0 /\ - (D - 1) <= N - M - j <= D - 1
        /\ V1 j + V2 (N - M - j) >= N)) ->
  lower_bound m N M (2 * D).
Proof.
  intros HD HV1 HV2 Hlb Hno c Hc.
  pose proof (Hlb _ Hc) as Hge.
  destruct (Z.eq_dec c (2 * D - 1)) as [->|Hne]; [exfalso|lia].
  destruct (path_bounds _ _ _ _ _ _ Hc) as (h & v & j & Hhvj).
  assert (HD1 : 0 < D) by lia.
  destruct HV2 as [[? _]|[_ HV2]]; [lia|].
  destruct (path_split _ _ _ _ _ _ Hc D (D - 1)) as (x & y & Hhead & Htail);
    try lia.
  pose proof (path_on_front _ _ _ _ Hhead) as Hk.
  apply path_to_reverse in Htail.
  assert (Htail' : path m' 0 0 (N - x) (N - x - (N - M - (x - y))) (D - 1))
    by path_from Htail.
  pose proof (path_on_front _ _ _ _ Htail') as Hk2.
  replace (N - x - (N - x - (N - M - (x - y)))) with (N - M - (x - y)) in Hk2 by lia.
  destruct (HV1 _ Hk) as [_ Hmax1]. destruct (HV2 _ Hk2) as [_ Hmax2].
  assert (x <= V1 (x - y)) by (apply Hmax1; path_from Hhead).
  assert (N - x <= V2 (N - M - (x - y))) by (apply Hmax2; exact Htail').
  apply (Hno _ Hk). split; [|split].
  - replace (N - M) with (2 * (h - D) + 1) by lia. apply odd_rem2.
  - destruct Hk2 as (i & Hi & Hki). lia.
  - lia.
Qed.

Lemma no_even_distance D (V1 V2 : Array) :
  0 <= D ->
  front m D V1 -> front m' D V2 ->
  lower_bound m N M (2 * D) ->
  (forall j, on_front D j ->
     ~ (Z.rem (N - M) 2 = 0 /\ - D <= N - M - j <= D
        /\ V1 (N - M - j) + V2 j >= N)) ->
  lower_bound m N M (2 * D + 1).
Proof.
  intros HD HV1 HV2 Hlb Hno c Hc.
  pose proof (Hlb _ Hc) as Hge.
  destruct (Z.eq_dec c (2 * D)) as [->|Hne]; [exfalso|lia].
  destruct (path_bounds _ _ _ _ _ _ Hc) as (h & v & j & Hhvj).
  destruct (path_split _ _ _ _ _ _ Hc D D) as (x & y & Hhead & Htail);
    try lia.
  pose proof (path_on_front _ _ _ _ Hhead) as Hk.
  apply path_to_reverse in Htail.
  assert (Htail' : path m' 0 0 (N - x) (N - x - (N - M - (x - y))) D)
    by path_from Htail.
  pose proof (path_on_front _ _ _ _ Htail') as Hk2.
  replace (N - x - (N - x - (N - M - (x - y)))) with (N - M - (x - y)) in Hk2 by lia.
  destruct (HV1 _ Hk) as [_ Hmax1]. destruct (HV2 _ Hk2) as [_ Hmax2].
  assert (x <= V1 (x - y)) by (apply Hmax1; path_from Hhead).
  assert (N - x <= V2 (N - M - (x - y))) by (apply Hmax2; exact Htail').
  apply (Hno _ Hk2). split; [|split].
  - replace (N - M) with (2 * (h - D)) by lia. apply even_rem2.
  - destruct Hk as (i & Hi & Hki). lia.
  - replace (N - M - (N - M - (x - y))) with (x - y) by lia. lia.
Qed.

Variables (V1 V2 : Z) (sz R : Z).
Hypothesis Hroom : room sz V1 V2 R.

Lemma forward_loop_spec D data :
  0 <= D -> D + 1 <= R -> size data = sz ->
  primed m D (view data V1) -> primed m' D (view data V2) ->
  lower_bound m N M (2 * D - 1) ->
  exists data' r,
    for_each (range (- D) D 2) (forward_step eq a N b M (N - M) D V1 V2) data
      = Done (data', r)
    /\ size data' = sz
    /\ match r with
       | Some s => middle_snake m N M s /\ forward_result eq a N b M V1 s
       | None => front m D (view data' V1) /\ primed m' D (view data' V2)
                 /\ lower_bound m N M (2 * D)
       end.
Proof.
  intros HD HR Hsz HV1 HV2 Hlb.
  pose proof Hroom as (Hr1 & Hr2 & Hr3).
  set (F2 := view data V2) in *.
  set (no_cross := fun (x j : Z) =>
     ~ (Z.rem (N - M) 2 <> 0 /\ - (D - 1) <= N - M - j <= D - 1
        /\ x + F2 (N - M - j) >= N)).
  set (I := fun (k : Z) (d : Storage) =>
     (exists i, 0 <= i /\ k = 2 * i - D)
     /\ size d = sz
     /\ (forall j, - R <= j <= R -> view d V2 j = F2 j)
     /\ primed m D (view d V1)
     /\ forall j, on_front D j -> j < k ->
          furthest m D j (view d V1 j) /\ no_cross (view d V1 j) j).
  destruct (for_each_range I
              (fun d s => size d = sz /\ middle_snake m N M s
                          /\ forward_result eq a N b M V1 s)
              (forward_step eq a N b M (N - M) D V1 V2) D 2 ltac:(lia))
    with (lo := - D) (s := data) as (data' & r & Hrun & Hr).
  - (* one iteration *)
    intros k d HkD ((i & Hi & Hki) & Hszd & Hframe & HV & Hdone).
    assert (Hk : on_front D k) by (exists i; lia).
    destruct (finder_furthest eq a N b M d V1 D k Ha Hb
                ltac:(lia) ltac:(lia) HV Hk)
      as (p & Hp & Hfur & Hy & Hv & Hxu & Hy0 & Hall & Hstop & Hzero & Hpre).
    unfold forward_step. rewrite Hp. cbn [bind].
    destruct (store_in d (V1 + k) (Snake.u p) ltac:(lia))
      as (d' & Hst & Hsz' & Hcell & Hother).
    rewrite Hst. cbn [bind].
    assert (Hv1k : view d' V1 k = Snake.u p) by exact Hcell.
    assert (Hv1 : forall j, j <> k -> view d' V1 j = view d V1 j).
    { intros j Hj. unfold view. apply Hother. lia. }
    assert (Hv2 : forall j, - R <= j <= R -> view d' V2 j = F2 j).
    { intros j Hj. rewrite <- Hframe by lia. unfold view. apply Hother. lia. }
    assert (Hnext : forall j, on_front D j -> j < k + 2 ->
              no_cross (Snake.u p) k ->
              furthest m D j (view d' V1 j) /\ no_cross (view d' V1 j) j).
    { intros j Hj Hlt Hnc. destruct (Z.eq_dec j k) as [->|Hne].
      - rewrite Hv1k. auto.
      - assert (j < k) by (destruct Hj as (i' & ? & ?); lia).
        rewrite Hv1 by assumption. now apply Hdone. }
    assert (HI : no_cross (Snake.u p) k -> I (k + 2) d').
    { intros Hnc. split; [exists (i + 1); lia|].
      split; [lia|]. split; [exact Hv2|].
      split; [now apply (primed_update m D (view d V1) _ k)|].
      intros j Hj Hlt. now apply Hnext. }
    destruct (Z.eqb_spec (Z.rem (N - M) 2) 0) as [Heven|Hodd]; cbn [negb andb].
    { eexists _, None. split; [reflexivity|]. apply HI.
      unfold no_cross. tauto. }
    replace (- (k - (N - M))) with (N - M - k) by lia.
    destruct (Z.leb_spec (- (D - 1)) (N - M - k)) as [Hlo|Hlo]; cbn [andb].
    2:{ eexists _, None. split; [reflexivity|]. apply HI.
        unfold no_cross. lia. }
    destruct (Z.leb_spec (N - M - k) (D - 1)) as [Hhi|Hhi].
    2:{ eexists _, None. split; [reflexivity|]. apply HI.
        unfold no_cross. lia. }
    rewrite !load_view by lia. cbn [bind].
    rewrite Hv1k, Hv2 by lia.
    rewrite Z.geb_leb.
    destruct (Z.leb_spec N (Snake.u p + F2 (N - M - k))) as [Hcross|Hcross].
    + eexists _, (Some _). split; [reflexivity|]. split; [lia|]. split.
      * apply (forward_crossing D k F2 p); auto; lia.
      * apply (forward_result_intro V1 D k d F2 p); auto; lia.
    + eexists _, None. split; [reflexivity|]. apply HI.
      unfold no_cross. lia.
  - (* before the first iteration *)
    split; [exists 0; lia|]. split; [assumption|]. split; [reflexivity|].
    split; [assumption|].
    intros j (i & Hi & ->) Hlt. lia.
  - exists data', r. split; [exact Hrun|].
    destruct r as [s|]; [exact Hr|].
    destruct Hr as (k & Hk & _ & Hsz' & Hframe & _ & Hdone).
    split; [exact Hsz'|].
    assert (Hfront : front m D (view data' V1)).
    { intros j Hj. apply Hdone; [assumption|]. destruct Hj as (i & ? & ?). lia. }
    split; [exact Hfront|].
    split; [apply (primed_same m' D F2 _ R); auto; lia|].
    apply (no_odd_distance D (view data' V1) F2); auto.
    intros j Hj. apply Hdone; [assumption|]. destruct Hj as (i & ? & ?). lia.
Qed.

Lemma reverse_loop_spec D data :
  0 <= D -> D + 1 <= R -> size data = sz ->
  front m D (view data V1) -> primed m' D (view data V2) ->
  lower_bound m N M (2 * D) ->
  exists data' r,
    for_each (range (- D) D 2) (reverse_step eq ra N rb M (N - M) D V1 V2) data
      = Done (data', r)
    /\ size data' = sz
    /\ match r with
       | Some s => middle_snake m N M s /\ reverse_result eq a N b M V2 s
       | None => front m D (view data' V1) /\ front m' D (view data' V2)
                 /\ lower_bound m N M (2 * D + 1)
       end.
Proof.
  intros HD HR Hsz HV1 HV2 Hlb.
  pose proof Hroom as (Hr1 & Hr2 & Hr3).
  set (F1 := view data V1) in *.
  set (no_cross := fun (x j : Z) =>
     ~ (Z.rem (N - M) 2 = 0 /\ - D <= N - M - j <= D
        /\ F1 (N - M - j) + x >= N)).
  set (I := fun (k : Z) (d : Storage) =>
     (exists i, 0 <= i /\ k = 2 * i - D)
     /\ size d = sz
     /\ (forall j, - R <= j <= R -> view d V1 j = F1 j)
     /\ primed m' D (view d V2)
     /\ forall j, on_front D j -> j < k ->
          furthest m' D j (view d V2 j) /\ no_cross (view d V2 j) j).
  destruct (for_each_range I
              (fun d s => size d = sz /\ middle_snake m N M s
                          /\ reverse_result eq a N b M V2 s)
              (reverse_step eq ra N rb M (N - M) D V1 V2) D 2 ltac:(lia))
    with (lo := - D) (s := data) as (data' & r & Hrun & Hr).
  - (* one iteration *)
    intros k d HkD ((i & Hi & Hki) & Hszd & Hframe & HV & Hdone).
    assert (Hk : on_front D k) by (exists i; lia).
    destruct (finder_furthest eq ra N rb M d V2 D k
                readable_reverse_a readable_reverse_b
                ltac:(lia) ltac:(lia) HV Hk)
      as (p & Hp & Hfur & Hy & Hv & Hxu & Hy0 & Hall & Hstop & Hzero & Hpre).
    unfold reverse_step. rewrite Hp. cbn [bind].
    destruct (store_in d (V2 + k) (Snake.u p) ltac:(lia))
      as (d' & Hst & Hsz' & Hcell & Hother).
    rewrite Hst. cbn [bind].
    assert (Hv2k : view d' V2 k = Snake.u p) by exact Hcell.
    assert (Hv2 : forall j, j <> k -> view d' V2 j = view d V2 j).
    { intros j Hj. unfold view. apply Hother. lia. }
    assert (Hv1 : forall j, - R <= j <= R -> view d' V1 j = F1 j).
    { intros j Hj. rewrite <- Hframe by lia. unfold view. apply Hother. lia. }
    assert (Hnext : forall j, on_front D j -> j < k + 2 ->
              no_cross (Snake.u p) k ->
              furthest m' D j (view d' V2 j) /\ no_cross (view d' V2 j) j).
    { intros j Hj Hlt Hnc. destruct (Z.eq_dec j k) as [->|Hne].
      - rewrite Hv2k. auto.
      - assert (j < k) by (destruct Hj as (i' & ? & ?); lia).
        rewrite Hv2 by assumption. now apply Hdone. }
    assert (HI : no_cross (Snake.u p) k -> I (k + 2) d').
    { intros Hnc. split; [exists (i + 1); lia|].
      split; [lia|]. split; [exact Hv1|].
      split; [now apply (primed_update m' D (view d V2) _ k)|].
      intros j Hj Hlt. now apply Hnext. }
    destruct (Z.eqb_spec (Z.rem (N - M) 2) 0) as [Heven|Hodd]; cbn [negb andb].
    2:{ eexists _, None. split; [reflexivity|]. apply HI.
        unfold no_cross. tauto. }
    replace (- (k - (N - M))) with (N - M - k) by lia.
    destruct (Z.leb_spec (- D) (N - M - k)) as [Hlo|Hlo]; cbn [andb].
    2:{ eexists _, None. split; [reflexivity|]. apply HI.
        unfold no_cross. lia. }
    destruct (Z.leb_spec (N - M - k) D) as [Hhi|Hhi].
    2:{ eexists _, None. split; [reflexivity|]. apply HI.
        unfold no_cross. lia. }
    rewrite !load_view by lia. cbn [bind].
    rewrite Hv2k, Hv1 by lia.
    rewrite Z.geb_leb.
    destruct (Z.leb_spec N (F1 (N - M - k) + Snake.u p)) as [Hcross|Hcross].
    + eexists _, (Some _). split; [reflexivity|]. split; [lia|]. split.
      * apply (reverse_crossing D k F1 p); auto; lia.
      * apply (reverse_result_intro V2 D k F1 d p); auto; lia.
    + eexists _, None. split; [reflexivity|]. apply HI.
      unfold no_cross. lia.
  - (* before the first iteration *)
    split; [exists 0; lia|]. split; [assumption|]. split; [reflexivity|].
    split; [assumption|].
    intros j (i & Hi & ->) Hlt. lia.
  - exists data', r. split; [exact Hrun|].
    destruct r as [s|]; [exact Hr|].
    destruct Hr as (k & Hk & _ & Hsz' & Hframe & _ & Hdone).
    split; [exact Hsz'|].
    assert (Hfront : front m' D (view data' V2)).
    { intros j Hj. apply Hdone; [assumption|]. destruct Hj as (i & ? & ?). lia. }
    split; [apply (front_same m D F1 _ R); auto; lia|].
    split; [exact Hfront|].
    apply (no_even_distance D F1 (view data' V2)); auto.
    intros j Hj. apply Hdone; [assumption|]. destruct Hj as (i & ? & ?). lia.
Qed.

(** ** The search over the distances *)

Lemma distance_step_spec D data :
  0 <= D -> D + 1 <= R -> size data = sz ->
  primed m D (view data V1) -> primed m' D (view data V2) ->
  lower_bound m N M (2 * D - 1) ->
  exists data' r,
    distance_step eq a N b M V1 V2 D data = Done (data', r)
    /\ size data' = sz
    /\ match r with
       | Some s => middle_snake m N M s
                   /\ (forward_result eq a N b M V1 s
                       \/ reverse_result eq a N b M V2 s)
       | None => primed m (D + 1) (view data' V1)
                 /\ primed m' (D + 1) (view data' V2)
                 /\ lower_bound m N M (2 * (D + 1) - 1)
       end.
Proof.
  intros HD HR Hsz HV1 HV2 Hlb. unfold distance_step.
  destruct (forward_loop_spec D data HD HR Hsz HV1 HV2 Hlb)
    as (d1 & r & Hrun & Hsz1 & Hr).
  rewrite Hrun. cbn [bind].
  destruct r as [s|].
  { exists d1, (Some s). split; [reflexivity|]. tauto. }
  destruct Hr as (Hfront & HV2' & Hlb').
  fold ra rb.
  destruct (reverse_loop_spec D d1 HD HR Hsz1 Hfront HV2' Hlb')
    as (d2 & r & Hrun' & Hsz2 & Hr).
  rewrite Hrun'.
  exists d2, r. split; [reflexivity|]. split; [exact Hsz2|].
  destruct r as [s|]; [tauto|].
  destruct Hr as (Hfront1 & Hfront2 & Hlb'').
  split; [|split].
  - right. split; [lia|]. now replace (D + 1 - 1) with D by lia.
  - right. split; [lia|]. now replace (D + 1 - 1) with D by lia.
  - now replace (2 * (D + 1) - 1) with (2 * D + 1) by lia.
Qed.

Hypothesis HR : Z.quot (M + N + 1) 2 + 1 <= R.

(** On ranges whose first elements differ the search returns a middle
    snake: it stays within the sequences and within the two arrays, and it
    does not run out of distances. *)
Lemma find_middle_snake_spec data :
  size data = sz ->
  exists data' s,
    find_middle_snake eq a N b M V1 V2 data = Done (data', s)
    /\ size data' = sz
    /\ middle_snake m N M s
    /\ (forward_result eq a N b M V1 s \/ reverse_result eq a N b M V2 s).
Proof.
  intros Hsz. unfold find_middle_snake.
  pose proof Hroom as (Hr1 & Hr2 & Hr3).
  assert (HR0 : 0 <= Z.quot (M + N + 1) 2) by (apply Z.quot_pos; lia).
  destruct (store_in data (V1 + 1) 0 ltac:(lia))
    as (d1 & Hst1 & Hsz1 & Hcell1 & Hother1).
  rewrite Hst1. cbn [bind].
  destruct (store_in d1 (V2 + 1) 0 ltac:(lia))
    as (d2 & Hst2 & Hsz2 & Hcell2 & Hother2).
  rewrite Hst2. cbn [bind].
  set (I := fun (D : Z) (d : Storage) =>
     0 <= D /\ size d = sz
     /\ primed m D (view d V1) /\ primed m' D (view d V2)
     /\ lower_bound m N M (2 * D - 1)).
  destruct (for_each_range I
              (fun d s => size d = sz /\ middle_snake m N M s
                          /\ (forward_result eq a N b M V1 s
                              \/ reverse_result eq a N b M V2 s))
              (distance_step eq a N b M V1 V2) (Z.quot (M + N + 1) 2) 1
              ltac:(lia))
    with (lo := 0) (s := d2) as (data' & r & Hrun & Hr).
  - intros D d HDle (HD & Hszd & HW1 & HW2 & Hlb).
    destruct (distance_step_spec D d HD ltac:(lia) Hszd HW1 HW2 Hlb)
      as (d' & r & Hrun & Hsz' & Hr).
    exists d', r. split; [exact Hrun|].
    destruct r as [s|]; [tauto|].
    destruct Hr as (? & ? & ?). unfold I. splits; auto; lia.
  - unfold I. splits; try lia.
    + left. split; [reflexivity|]. unfold view.
      rewrite Hother2 by lia. exact Hcell1.
    + left. split; [reflexivity|]. exact Hcell2.
    + intros c Hc. apply path_bounds in Hc. destruct Hc as (h & v & j & ?). lia.
  - rewrite Hrun. cbn [bind].
    destruct r as [s|].
    + exists data', s. split; [reflexivity|]. tauto.
    + exfalso. destruct Hr as (D & HD & _ & _ & _ & _ & Hlb).
      apply lower_bound_total in Hlb.
      pose proof (Z.quot_rem' (M + N + 1) 2) as Hq.
      pose proof (Z.rem_bound_pos (M + N + 1) 2 ltac:(lia) ltac:(lia)).
      lia.
Qed.

End MiddleSnake.

(** * The Edit-Script Accumulator *)

Lemma Mode_eqb_spec m1 m2 : reflect (m1 = m2) (Mode_eqb m1 m2).
Proof. destruct m1, m2; cbn; constructor; congruence. Qed.

Lemma back_mode_nil : back_mode [] = None.
Proof. reflexivity. Qed.

Lemma back_mode_snoc s r : back_mode (s ++ [r]) = Some (mode r).
Proof. unfold back_mode. now rewrite rev_unit. Qed.

Lemma back_mode_cons r s : s <> [] -> back_mode (r :: s) = back_mode s.
Proof.
  intros Hs. destruct (exists_last Hs) as (s' & k & ->).
  now rewrite app_comm_cons, !back_mode_snoc.
Qed.

(** The three ways [append_diff] goes. *)
Lemma append_diff_skip s r : len r = 0 -> append_diff s r = s.
Proof. intros H. unfold append_diff. now rewrite H. Qed.

Lemma append_diff_push s r :
  len r <> 0 -> back_mode s <> Some (mode r) -> append_diff s r = s ++ [r].
Proof.
  intros Hlen Hback. unfold append_diff, back_mode in *.
  destruct (Z.eqb_spec (len r) 0); [contradiction|].
  destruct (rev s) as [|back front]; [reflexivity|].
  destruct (Mode_eqb_spec (mode back) (mode r)) as [Heq|Hne]; [|reflexivity].
  congruence.
Qed.

Lemma append_diff_merge s k r :
  len r <> 0 -> mode k = mode r ->
  (mode r <> Add \/ posB k + len k = posB r) ->
  append_diff (s ++ [k]) r = s ++ [mkDiff (mode k) (len k + len r) (posB k)].
Proof.
  intros Hlen Hmode Hpos. unfold append_diff.
  destruct (Z.eqb_spec (len r) 0); [contradiction|].
  rewrite rev_unit.
  destruct (Mode_eqb_spec (mode k) (mode r)); [|contradiction]. cbn [andb].
  rewrite rev_involutive.
  destruct (Mode_eqb_spec (mode r) Add) as [HAdd|HAdd]; cbn [negb orb];
    [|reflexivity].
  destruct (Z.eqb_spec (posB k + len k) (posB r)); [reflexivity|].
  tauto.
Qed.

Lemma append_diff_merge_other s k r :
  len r <> 0 -> mode k = mode r -> mode r = Add -> posB k + len k <> posB r ->
  append_diff (s ++ [k]) r = s ++ [k] ++ [r].
Proof.
  intros Hlen Hmode HAdd Hpos. unfold append_diff.
  destruct (Z.eqb_spec (len r) 0); [contradiction|].
  rewrite rev_unit.
  destruct (Mode_eqb_spec (mode k) (mode r)); [|contradiction]. cbn [andb].
  destruct (Mode_eqb_spec (mode r) Add); [|contradiction]. cbn [negb orb].
  destruct (Z.eqb_spec (posB k + len k) (posB r)); [contradiction|].
  now rewrite <- app_assoc.
Qed.

(** ** Measures *)

Lemma sum_len_app p s1 s2 : sum_len p (s1 ++ s2) = sum_len p s1 + sum_len p s2.
Proof.
  induction s1 as [|r s1 IH]; cbn; [reflexivity|].
  fold (sum_len p (s1 ++ s2)). fold (sum_len p s1). rewrite IH.
  destruct (p (mode r)); lia.
Qed.

Lemma sum_len_one p r : sum_len p [r] = if p (mode r) then len r else 0.
Proof. cbn. destruct (p (mode r)); lia. Qed.

Lemma sum_len_append_diff p s r :
  sum_len p (append_diff s r) = sum_len p s + (if p (mode r) then len r else 0).
Proof.
  destruct (Z.eq_dec (len r) 0) as [Hz|Hnz].
  { rewrite append_diff_skip by assumption. rewrite Hz. destruct (p (mode r)); lia. }
  destruct s as [|k s0 _] using rev_ind.
  { rewrite append_diff_push; [|assumption|discriminate].
    now rewrite sum_len_app, sum_len_one. }
  destruct (Mode_eqb_spec (mode k) (mode r)) as [Heq|Hne].
  - destruct (Mode_eqb_spec (mode r) Add) as [HAdd|HAdd].
    + destruct (Z.eq_dec (posB k + len k) (posB r)) as [Hp|Hp].
      * rewrite append_diff_merge; [|assumption|assumption|right; assumption].
        rewrite !sum_len_app, !sum_len_one. cbn [mode len]. rewrite Heq.
        destruct (p (mode r)); lia.
      * rewrite append_diff_merge_other by auto.
        rewrite !sum_len_app, !sum_len_one. lia.
    + rewrite append_diff_merge; [|assumption|assumption|left; assumption].
      rewrite !sum_len_app, !sum_len_one. cbn [mode len]. rewrite Heq.
      destruct (p (mode r)); lia.
  - rewrite append_diff_push; [|assumption|].
    + now rewrite !sum_len_app, !sum_len_one.
    + rewrite back_mode_snoc. congruence.
Qed.

Lemma cost_append_diff s r :
  cost (append_diff s r)
  = cost s + (match mode r with Keep => 0 | _ => len r end).
Proof.
  unfold cost. rewrite sum_len_append_diff. destruct (mode r); reflexivity.
Qed.

Lemma compact_snoc s r :
  compact s -> back_mode s <> Some (mode r) -> compact (s ++ [r]).
Proof.
  induction s as [|k1 s IH]; intros Hc Hb; [exact I|].
  destruct s as [|k2 s].
  - cbn in *. split; [congruence|exact I].
  - cbn [app compact] in *. destruct Hc as [Hne Hc]. split; [assumption|].
    apply IH; [assumption|]. rewrite back_mode_cons in Hb by discriminate.
    exact Hb.
Qed.

(** ** Well-formed scripts *)

Section ScriptOk.

Context {T : Type}.
Variable eq : T -> T -> bool.
Variables a b : Iterator T.

Lemma script_ok_snoc_inv s r pa' pb' :
  script_ok eq a b (s ++ [r]) pa' pb' ->
  exists pa pb, script_ok eq a b s pa pb /\ 0 < len r
                /\ back_mode s <> Some (mode r)
                /\ record_ok eq a b r pa pb pa' pb'.
Proof.
  intros H. inversion H as [Hnil|s0 r0 pa pb pa0 pb0 Hs Hlen Hback Hrec Heq].
  - destruct s; discriminate.
  - apply app_inj_tail in Heq. destruct Heq as [-> ->].
    exists pa, pb. auto.
Qed.

(** Appending a record that starts where the script ends keeps the script
    well-formed. *)
Lemma script_ok_append s r pa pb pa' pb' :
  script_ok eq a b s pa pb ->
  0 <= len r ->
  record_ok eq a b r pa pb pa' pb' ->
  script_ok eq a b (append_diff s r) pa' pb'.
Proof.
  intros Hs Hlen Hrec.
  destruct (Z.eq_dec (len r) 0) as [Hz|Hnz].
  { rewrite append_diff_skip by assumption.
    assert (pa' = pa /\ pb' = pb) as [-> ->]; [|assumption].
    unfold record_ok in Hrec. destruct (mode r); lia. }
  destruct s as [|k s _] using rev_ind.
  { rewrite append_diff_push; [|assumption|discriminate].
    eapply script_ok_snoc; [exact Hs|lia|discriminate|exact Hrec]. }
  destruct (Mode_eqb_spec (mode k) (mode r)) as [Heq|Hne].
  2:{ rewrite append_diff_push; [|assumption|rewrite back_mode_snoc; congruence].
      eapply script_ok_snoc; [exact Hs|lia| |exact Hrec].
      rewrite back_mode_snoc; congruence. }
  apply script_ok_snoc_inv in Hs.
  destruct Hs as (p0 & q0 & Hs & Hklen & Hback & Hkrec).
  rewrite append_diff_merge; [|assumption|assumption|].
  2:{ unfold record_ok in Hkrec, Hrec. rewrite Heq in Hkrec.
      destruct (mode r); [left; discriminate|right; lia|left; discriminate]. }
  eapply script_ok_snoc; [exact Hs|cbn; lia|exact Hback|].
  unfold record_ok in *. cbn [mode len posB]. rewrite <- Heq in Hrec.
  destruct (mode k).
  - destruct Hkrec as (-> & -> & Hk). destruct Hrec as (-> & -> & Hr).
    splits; try lia. intros i Hi.
    destruct (Z_lt_le_dec i (len k)) as [Hlt|Hge].
    + apply Hk. lia.
    + replace (p0 + i) with (p0 + len k + (i - len k)) by lia.
      replace (q0 + i) with (q0 + len k + (i - len k)) by lia.
      apply Hr. lia.
  - lia.
  - lia.
Qed.

Lemma script_ok_pos s pa pb : script_ok eq a b s pa pb -> 0 <= pa /\ 0 <= pb.
Proof.
  induction 1 as [|s r pa pb pa' pb' Hs IH Hlen Hback Hrec]; [lia|].
  unfold record_ok in Hrec. destruct (mode r); lia.
Qed.

Lemma script_ok_compact s pa pb : script_ok eq a b s pa pb -> compact s.
Proof.
  induction 1 as [|s r pa pb pa' pb' Hs IH Hlen Hback Hrec]; [exact I|].
  now apply compact_snoc.
Qed.

Lemma script_ok_nonzero s pa pb :
  script_ok eq a b s pa pb -> Forall (fun r => 0 < len r) s.
Proof.
  induction 1 as [|s r pa pb pa' pb' Hs IH Hlen Hback Hrec]; [constructor|].
  apply Forall_app. split; [assumption|]. now repeat constructor.
Qed.

Lemma script_ok_sums s pa pb :
  script_ok eq a b s pa pb -> consumed s = pa /\ produced s = pb.
Proof.
  induction 1 as [|s r pa pb pa' pb' Hs [IHa IHb] Hlen Hback Hrec];
    [split; reflexivity|].
  unfold consumed, produced in *. rewrite !sum_len_app, !sum_len_one, IHa, IHb.
  unfold record_ok in Hrec. destruct (mode r); cbn; lia.
Qed.

(** A well-formed script spells a path of the edit graph. *)
Lemma script_ok_path s pa pb :
  script_ok eq a b s pa pb -> path (matches eq a b) 0 0 pa pb (cost s).
Proof.
  induction 1 as [|s r pa pb pa' pb' Hs IH Hlen Hback Hrec]; [apply path_nil|].
  unfold cost in *. rewrite sum_len_app, sum_len_one.
  unfold record_ok in Hrec. destruct (mode r); cbn.
  - destruct Hrec as (-> & -> & Hr).
    pose proof (path_snake _ pa pb (len r) ltac:(lia) Hr) as Hsn.
    pose proof (path_trans _ _ _ _ _ _ _ _ _ IH Hsn) as Hp. path_from Hp.
  - destruct Hrec as (-> & -> & _).
    pose proof (path_vline (matches eq a b) pa pb (len r) ltac:(lia)) as Hv.
    pose proof (path_trans _ _ _ _ _ _ _ _ _ IH Hv) as Hp. path_from Hp.
  - destruct Hrec as (-> & ->).
    pose proof (path_hline (matches eq a b) pa pb (len r) ltac:(lia)) as Hh.
    pose proof (path_trans _ _ _ _ _ _ _ _ _ IH Hh) as Hp. path_from Hp.
Qed.

End ScriptOk.

(** * The Diff Recursion *)

Ltac matches_from H :=
  match type of H with
  | matches _ _ _ ?i ?j =>
      match goal with
      | |- matches _ _ _ ?i' ?j' =>
          replace i' with i by lia; replace j' with j by lia; exact H
      end
  end.

(** ** Distances *)

Lemma is_dist_vline m x y n : 0 <= n -> is_dist m x y x (y + n) n.
Proof.
  intros Hn. split; [now apply path_vline|].
  intros c Hc. apply path_bounds in Hc. destruct Hc as (h & v & j & ?). lia.
Qed.

Lemma is_dist_hline m x y n : 0 <= n -> is_dist m x y (x + n) y n.
Proof.
  intros Hn. split; [now apply path_hline|].
  intros c Hc. apply path_bounds in Hc. destruct Hc as (h & v & j & ?). lia.
Qed.

(** Common prefixes and suffixes do not change the distance. *)
Lemma is_dist_strip m x0 y0 x1 y1 n k c :
  0 <= n -> 0 <= k -> x0 + n <= x1 - k -> y0 + n <= y1 - k ->
  (forall i, 0 <= i < n -> m (x0 + i) (y0 + i)) ->
  (forall i, 0 <= i < k -> m (x1 - k + i) (y1 - k + i)) ->
  is_dist m (x0 + n) (y0 + n) (x1 - k) (y1 - k) c ->
  is_dist m x0 y0 x1 y1 c.
Proof.
  intros Hn Hk Hx Hy Hpre Hsuf [Hp Hmin]. split.
  - pose proof (path_snake m x0 y0 n Hn Hpre) as H1.
    pose proof (path_snake m (x1 - k) (y1 - k) k Hk Hsuf) as H2.
    pose proof (path_trans _ _ _ _ _ _ _ _ _
                  (path_trans _ _ _ _ _ _ _ _ _ H1 Hp) H2) as H3.
    path_from H3.
  - intros c' Hc'.
    destruct (path_shrink_start_n m n _ _ _ _ _ Hn Hc') as (c1 & Hc1 & H1);
      [lia|lia|].
    destruct (path_shrink_end_n m k Hk _ _ _ _ _ H1) as (c2 & Hc2 & H2);
      [lia|lia|].
    apply Hmin in H2. lia.
Qed.

Section Recursion.

Context {T : Type}.
Variable eq : T -> T -> bool.
Variables (a b : Iterator T) (NA NB : Z).
Hypothesis Ha : readable a NA.
Hypothesis Hb : readable b NB.

Lemma readable_advance (it : Iterator T) n beg len :
  readable it n -> 0 <= beg -> beg + len <= n -> readable (advance it beg) len.
Proof. intros H Hbeg Hlen i Hi. unfold advance. apply H. lia. Qed.

(** ** Sub-problems and the whole problem *)

Lemma path_rel_abs bA bB N M x0 y0 x1 y1 c :
  path (grid eq (advance a bA) N (advance b bB) M) x0 y0 x1 y1 c ->
  path (matches eq a b) (bA + x0) (bB + y0) (bA + x1) (bB + y1) c.
Proof.
  intros H. apply path_shift.
  eapply path_weaken; [|exact H].
  intros i j _ _ (_ & _ & Hm). exact Hm.
Qed.

Lemma path_abs_rel bA bB eA eB c :
  path (matches eq a b) bA bB eA eB c ->
  path (grid eq (advance a bA) (eA - bA) (advance b bB) (eB - bB))
       0 0 (eA - bA) (eB - bB) c.
Proof.
  intros H. apply path_within in H. apply (path_unshift _ bA bB) in H.
  eapply path_cast.
  - eapply path_weaken; [|exact H].
    intros i j _ _ (Hi & Hj & Hm). unfold grid, within.
    splits; try lia. exact Hm.
  - lia.
  - lia.
  - reflexivity.
  - reflexivity.
  - reflexivity.
Qed.

Lemma is_dist_rel_abs bA bB N M c :
  is_dist (grid eq (advance a bA) N (advance b bB) M) 0 0 N M c ->
  is_dist (matches eq a b) bA bB (bA + N) (bB + M) c.
Proof.
  intros [Hp Hmin]. split.
  - apply path_rel_abs in Hp. path_from Hp.
  - intros c' Hc'. apply path_abs_rel in Hc'. apply Hmin.
    replace (bA + N - bA) with N in Hc' by lia.
    replace (bB + M - bB) with M in Hc' by lia.
    exact Hc'.
Qed.

(** ** Common prefix and suffix *)

Lemma matches_dec i j :
  0 <= i < NA -> 0 <= j < NB ->
  exists p q, a i = Done p /\ b j = Done q
              /\ (eq p q = true <-> matches eq a b i j).
Proof.
  intros Hi Hj. destruct (Ha i Hi) as (p & Hp). destruct (Hb j Hj) as (q & Hq).
  exists p, q. splits; auto. split.
  - intros H. exists p, q. auto.
  - intros (p' & q' & Hp' & Hq' & H). congruence.
Qed.

Lemma strip_prefix_spec fuel :
  forall begA endA begB endB prefix_len,
    0 <= begA <= endA -> endA <= NA -> 0 <= begB <= endB -> endB <= NB ->
    endA - begA <= Z.of_nat fuel ->
    exists n, 0 <= n /\ begA + n <= endA /\ begB + n <= endB
      /\ strip_prefix eq fuel a b begA endA begB endB prefix_len
         = Done (begA + n, begB + n, prefix_len + n)
      /\ (forall i, 0 <= i < n -> matches eq a b (begA + i) (begB + i))
      /\ (begA + n <> endA -> begB + n <> endB ->
          ~ matches eq a b (begA + n) (begB + n)).
Proof.
  induction fuel as [|fuel IH]; intros begA endA begB endB pl HA HA' HB HB' Hfuel.
  - exists 0. cbn [strip_prefix].
    destruct (Z.eqb_spec begA endA); [|lia]. cbn [negb andb].
    splits; try lia. do 2 f_equal; [f_equal|]; lia.
  - cbn [strip_prefix].
    destruct (Z.eqb_spec begA endA) as [HeA|HeA]; cbn [negb andb].
    { exists 0. splits; try lia. do 2 f_equal; [f_equal|]; lia. }
    destruct (Z.eqb_spec begB endB) as [HeB|HeB]; cbn [negb].
    { exists 0. splits; try lia. do 2 f_equal; [f_equal|]; lia. }
    destruct (matches_dec begA begB) as (p & q & Hp & Hq & Hm); try lia.
    rewrite Hp, Hq. cbn [bind].
    destruct (eq p q) eqn:Hpq.
    + destruct (IH (begA + 1) endA (begB + 1) endB (pl + 1))
        as (n & Hn & HnA & HnB & Hrun & Hall & Hstop); try lia.
      exists (n + 1). splits; try lia.
      * rewrite Hrun. do 2 f_equal; [f_equal|]; lia.
      * intros i Hi. destruct (Z.eq_dec i 0) as [->|Hne].
        -- rewrite !Z.add_0_r. now apply Hm.
        -- replace (begA + i) with (begA + 1 + (i - 1)) by lia.
           replace (begB + i) with (begB + 1 + (i - 1)) by lia.
           apply Hall. lia.
      * replace (begA + (n + 1)) with (begA + 1 + n) by lia.
        replace (begB + (n + 1)) with (begB + 1 + n) by lia.
        exact Hstop.
    + exists 0. splits; try lia.
      * do 2 f_equal; [f_equal|]; lia.
      * rewrite !Z.add_0_r. intros _ _ H. apply Hm in H. congruence.
Qed.

Lemma strip_suffix_spec fuel :
  forall begA endA begB endB suffix_len,
    0 <= begA <= endA -> endA <= NA -> 0 <= begB <= endB -> endB <= NB ->
    endA - begA <= Z.of_nat fuel ->
    exists n, 0 <= n /\ begA <= endA - n /\ begB <= endB - n
      /\ strip_suffix eq fuel a b begA endA begB endB suffix_len
         = Done (endA - n, endB - n, suffix_len + n)
      /\ (forall i, 0 <= i < n -> matches eq a b (endA - n + i) (endB - n + i)).
Proof.
  induction fuel as [|fuel IH]; intros begA endA begB endB sl HA HA' HB HB' Hfuel.
  - exists 0. cbn [strip_suffix].
    destruct (Z.eqb_spec begA endA); [|lia]. cbn [negb andb].
    splits; try lia. do 2 f_equal; [f_equal|]; lia.
  - cbn [strip_suffix].
    destruct (Z.eqb_spec begA endA) as [HeA|HeA]; cbn [negb andb].
    { exists 0. splits; try lia. do 2 f_equal; [f_equal|]; lia. }
    destruct (Z.eqb_spec begB endB) as [HeB|HeB]; cbn [negb].
    { exists 0. splits; try lia. do 2 f_equal; [f_equal|]; lia. }
    destruct (matches_dec (endA - 1) (endB - 1)) as (p & q & Hp & Hq & Hm); try lia.
    rewrite Hp, Hq. cbn [bind].
    destruct (eq p q) eqn:Hpq.
    + destruct (IH begA (endA - 1) begB (endB - 1) (sl + 1))
        as (n & Hn & HnA & HnB & Hrun & Hall); try lia.
      exists (n + 1). splits; try lia.
      * rewrite Hrun. do 2 f_equal; [f_equal|]; lia.
      * intros i Hi. destruct (Z.eq_dec i n) as [->|Hne].
        -- replace (endA - (n + 1) + n) with (endA - 1) by lia.
           replace (endB - (n + 1) + n) with (endB - 1) by lia.
           now apply Hm.
        -- replace (endA - (n + 1) + i) with (endA - 1 - n + i) by lia.
           replace (endB - (n + 1) + i) with (endB - 1 - n + i) by lia.
           apply Hall. lia.
    + exists 0. splits; try lia.
      do 2 f_equal; [f_equal|]; lia.
Qed.

(** ** The recursion *)

Lemma find_diff_rec_spec V1 V2 sz R fuel :
  room sz V1 V2 R ->
  forall begA endA begB endB st,
    0 <= begA <= endA -> endA <= NA -> 0 <= begB <= endB -> endB <= NB ->
    (endA - begA) + (endB - begB) < Z.of_nat fuel ->
    (endA - begA) + (endB - begB) <= R ->
    size (st_data st) = sz ->
    script_ok eq a b (st_diffs st) begA begB ->
    exists st' c,
      find_diff_rec eq fuel a begA endA b begB endB V1 V2 st = Done st'
      /\ size (st_data st') = sz
      /\ script_ok eq a b (st_diffs st') endA endB
      /\ cost (st_diffs st') = cost (st_diffs st) + c
      /\ is_dist (matches eq a b) begA begB endA endB c.
Proof.
  intros Hroom.
  induction fuel as [|fuel IH];
    intros begA endA begB endB st HA HA' HB HB' Hfuel HR Hsz Hst; [lia|].
  cbn [find_diff_rec].
  destruct (strip_prefix_spec fuel begA endA begB endB 0)
    as (n & Hn & HnA & HnB & Hpre & Hprefix & Hfirst); try lia.
  rewrite Hpre. cbn [bind].
  destruct (strip_suffix_spec fuel (begA + n) endA (begB + n) endB 0)
    as (k & Hk & HkA & HkB & Hsuf & Hsuffix); try lia.
  rewrite Hsuf. cbn [bind].
  rewrite !Z.add_0_l.
  set (bA := begA + n) in *. set (bB := begB + n) in *.
  set (eA := endA - k) in *. set (eB := endB - k) in *.
  (* the common prefix *)
  assert (Hs0 : script_ok eq a b (append_diff (st_diffs st) (mkDiff Keep n 0)) bA bB).
  { eapply script_ok_append; [exact Hst|cbn; lia|].
    unfold record_ok. cbn. splits; try reflexivity. exact Hprefix. }
  pose proof (cost_append_diff (st_diffs st) (mkDiff Keep n 0)) as Hc0.
  cbn [mode] in Hc0.
  set (ds0 := append_diff (st_diffs st) (mkDiff Keep n 0)) in *.
  (* what remains between the prefix and the suffix *)
  match goal with
  | |- exists _ _, bind ?X _ = _ /\ _ =>
      assert (Hmid : exists st1 c,
                X = Done st1
                /\ size (st_data st1) = sz
                /\ script_ok eq a b (st_diffs st1) eA eB
                /\ cost (st_diffs st1) = cost ds0 + c
                /\ is_dist (matches eq a b) bA bB eA eB c)
  end.
  2:{ destruct Hmid as (st1 & c & Hrun & Hsz1 & Hs1 & Hc1 & Hd1).
      rewrite Hrun. cbn [bind].
      eexists; exists c. split; [reflexivity|]. cbn [st_diffs st_data]. splits.
      - exact Hsz1.
      - eapply script_ok_append; [exact Hs1|cbn; lia|].
        unfold record_ok. cbn. splits; try (unfold eA, eB; lia). exact Hsuffix.
      - rewrite cost_append_diff. cbn [mode]. lia.
      - apply (is_dist_strip _ begA begB endA endB n k); auto; lia. }
  destruct (Z.eqb_spec (eA - bA) 0) as [HlenA|HlenA].
  { (* A is exhausted *)
    eexists; exists (eB - bB). split; [reflexivity|]. cbn [st_diffs st_data]. splits.
    - exact Hsz.
    - eapply script_ok_append; [exact Hs0|cbn; lia|].
      unfold record_ok. cbn. lia.
    - rewrite cost_append_diff. reflexivity.
    - replace eA with bA by lia. replace eB with (bB + (eB - bB)) at 1 by lia.
      apply is_dist_vline. lia. }
  destruct (Z.eqb_spec (eB - bB) 0) as [HlenB|HlenB].
  { (* B is exhausted *)
    eexists; exists (eA - bA). split; [reflexivity|]. cbn [st_diffs st_data]. splits.
    - exact Hsz.
    - eapply script_ok_append; [exact Hs0|cbn; lia|].
      unfold record_ok. cbn. lia.
    - rewrite cost_append_diff. reflexivity.
    - replace eB with bB by lia. replace eA with (bA + (eA - bA)) at 1 by lia.
      apply is_dist_hline. lia. }
  (* the middle snake *)
  set (N := eA - bA) in *. set (M := eB - bB) in *.
  set (m := grid eq (advance a bA) N (advance b bB) M).
  assert (Hm0 : ~ m 0 0).
  { intros (_ & _ & H). apply Hfirst; [lia|lia|].
    unfold matches, advance in H. rewrite !Z.add_0_r in H. exact H. }
  assert (Hhalf : Z.quot (M + N + 1) 2 + 1 <= R).
  { pose proof (Z.quot_rem' (M + N + 1) 2) as Hq.
    pose proof (Z.rem_bound_pos (M + N + 1) 2 ltac:(lia) ltac:(lia)).
    unfold bA, bB, eA, eB, N, M in *. lia. }
  destruct (find_middle_snake_spec eq (advance a bA) (advance b bB) N M)
    with (V1 := V1) (V2 := V2) (sz := sz) (R := R) (data := st_data st)
    as (W & sn & Hsnake & HszW & Hms & _); try lia.
  { apply (readable_advance a NA); [exact Ha|lia|lia]. }
  { apply (readable_advance b NB); [exact Hb|lia|lia]. }
  { exact Hm0. }
  { exact Hroom. }
  rewrite Hsnake. cbn [bind].
  destruct sn as [[x y u v add] reverse d].
  unfold middle_snake in Hms. snake_simpl. fold m in Hms.
  destruct Hms as (Hdist & Hd & Hx & HuN & Hy & HvM & Hdiag & Hrun & c1 & c2
                   & Hsum & Hsplit).
  assert (Hassert : (d >? 0) && (u <=? N) && (v <=? M) = true).
  { rewrite !andb_true_iff, Z.gtb_ltb, Z.ltb_lt, !Z.leb_le. lia. }
  rewrite Hassert. cbn [kak_assert bind].
  (* the two sub-problems *)
  set (sx := bA + x - (if reverse then 0 else if add then 0 else 1)).
  set (sy := bB + y - (if reverse then 0 else if add then 1 else 0)).
  set (tx := bA + u + (if reverse then if add then 0 else 1 else 0)).
  set (ty := bB + v + (if reverse then if add then 1 else 0 else 0)).
  assert (Hparts : path (matches eq a b) bA bB sx sy c1
                   /\ path (matches eq a b) tx ty eA eB c2
                   /\ (reverse = true -> 1 < d)
                   /\ (reverse = false -> ~ m u v)).
  { subst sx sy tx ty. destruct reverse.
    - destruct Hsplit as (Hd1 & Hp1 & Hp2).
      apply path_rel_abs in Hp1, Hp2.
      splits; [path_from Hp1| |auto|discriminate].
      destruct add; path_from Hp2.
    - destruct Hsplit as (Hp1 & Hp2 & Hstop).
      apply path_rel_abs in Hp1, Hp2.
      splits; [|path_from Hp2|discriminate|auto].
      destruct add; path_from Hp1. }
  destruct Hparts as (Hp1 & Hp2 & Hrev & Hfwd).
  assert (Hbounds : bA <= sx /\ bB <= sy /\ tx <= eA /\ ty <= eB
                    /\ 0 <= c1 /\ 0 <= c2).
  { destruct (path_bounds _ _ _ _ _ _ Hp1) as (h1 & v1 & j1 & ?).
    destruct (path_bounds _ _ _ _ _ _ Hp2) as (h2 & v2 & j2 & ?). lia. }
  assert (Hedit : sx + sy + 1 <= tx + ty
                  /\ sx <= bA + x /\ sy <= bB + y
                  /\ bA + u <= tx /\ bB + v <= ty).
  { subst sx sy tx ty. destruct reverse, add; lia. }
  assert (Hfw : reverse = false -> tx = bA + u /\ ty = bB + v).
  { subst sx sy tx ty. destruct reverse, add; intros; try discriminate; lia. }
  assert (Hone : (d >? 1) = false ->
                 sx = bA /\ sy = bB /\ tx = eA /\ ty = eB /\ reverse = false).
  { intros Hle. rewrite Z.gtb_ltb, Z.ltb_ge in Hle.
    assert (c1 = 0) by lia. assert (c2 = 0) by lia. subst c1 c2.
    destruct reverse; [specialize (Hrev eq_refl); lia|].
    specialize (Hfwd eq_refl). destruct (Hfw eq_refl) as [Htx Hty].
    destruct (path_zero_inv _ _ _ _ _ _ Hp1 eq_refl) as (n1 & Hn1 & ? & ? & Hr1).
    destruct (path_zero_inv _ _ _ _ _ _ Hp2 eq_refl) as (n2 & Hn2 & ? & ? & Hr2).
    assert (n1 = 0).
    { destruct (Z.eq_dec n1 0); [assumption|]. exfalso. apply Hfirst; [lia|lia|].
      specialize (Hr1 0 ltac:(lia)). now rewrite !Z.add_0_r in Hr1. }
    assert (n2 = 0).
    { destruct (Z.eq_dec n2 0); [assumption|]. exfalso. apply Hfwd.
      specialize (Hr2 0 ltac:(lia)). rewrite !Z.add_0_r, Htx, Hty in Hr2.
      unfold m, grid, within. splits; try lia. exact Hr2. }
    lia. }
  (* a sub-problem is solved by the recursion, or is empty *)
  assert (Hphase : forall st0 x0 y0 x1 y1 c,
    bA <= x0 <= x1 -> x1 <= eA -> bB <= y0 <= y1 -> y1 <= eB ->
    (x1 - x0) + (y1 - y0) < N + M ->
    size (st_data st0) = sz ->
    script_ok eq a b (st_diffs st0) x0 y0 ->
    path (matches eq a b) x0 y0 x1 y1 c ->
    ((d >? 1) = false -> x1 = x0 /\ y1 = y0) ->
    exists st1 c',
      (if d >? 1 then find_diff_rec eq fuel a x0 x1 b y0 y1 V1 V2 st0
       else Done st0)
        = Done st1
      /\ size (st_data st1) = sz
      /\ script_ok eq a b (st_diffs st1) x1 y1
      /\ cost (st_diffs st1) = cost (st_diffs st0) + c'
      /\ c' <= c
      /\ path (matches eq a b) x0 y0 x1 y1 c').
  { intros st0 x0 y0 x1 y1 c Hx0 Hx1 Hy0 Hy1 Hsize Hsz0 Hok Hp Hempty.
    destruct (d >? 1).
    - destruct (IH x0 x1 y0 y1 st0)
        as (st1 & c' & Hr & Hsz1 & Hs & Hc & Hdst & Hmin);
        try (unfold bA, bB, eA, eB, N, M in *; lia); [exact Hok|].
      exists st1, c'. splits; auto.
    - destruct (Hempty eq_refl) as [-> ->].
      exists st0, 0. splits; auto; try lia.
      + apply path_bounds in Hp. destruct Hp as (h0 & v0 & j0 & ?). lia.
      + apply path_nil. }
  (* before the snake *)
  destruct (Hphase (mkState W ds0) bA bB sx sy c1)
    as (st1 & c1' & Hrun1 & Hsz1 & Hs1 & Hcost1 & Hc1 & Hp1'); try lia.
  { exact HszW. }
  { exact Hs0. }
  { exact Hp1. }
  rewrite Hrun1. cbn [bind]. destruct st1 as [W' ds1]. cbn [st_diffs st_data] in *.
  (* the snake and its edit *)
  match goal with
  | |- context [mkState _ ?e] => set (ds2 := e)
  end.
  assert (Hkeep : forall i, 0 <= i < u - x -> matches eq a b (bA + x + i) (bB + y + i)).
  { intros i Hi. destruct (Hrun i Hi) as (_ & _ & H).
    unfold matches, advance in H.
    replace (bA + x + i) with (bA + (x + i)) by lia.
    replace (bB + y + i) with (bB + (y + i)) by lia. exact H. }
  assert (Hacross : path (matches eq a b) sx sy tx ty 1).
  { pose proof (path_snake _ (bA + x) (bB + y) (u - x) ltac:(lia) Hkeep) as Hsn.
    subst sx sy tx ty. destruct reverse, add.
    - pose proof (path_vline (matches eq a b) (bA + x + (u - x)) (bB + y + (u - x))
                             1 ltac:(lia)) as He.
      pose proof (path_trans _ _ _ _ _ _ _ _ _ Hsn He) as Hp. path_from Hp.
    - pose proof (path_hline (matches eq a b) (bA + x + (u - x)) (bB + y + (u - x))
                             1 ltac:(lia)) as He.
      pose proof (path_trans _ _ _ _ _ _ _ _ _ Hsn He) as Hp. path_from Hp.
    - pose proof (path_vline (matches eq a b) (bA + x) (bB + y - 1) 1 ltac:(lia)) as He.
      assert (Hsn' : path (matches eq a b) (bA + x) (bB + y - 1 + 1)
                          (bA + x + (u - x)) (bB + y + (u - x)) 0) by path_from Hsn.
      pose proof (path_trans _ _ _ _ _ _ _ _ _ He Hsn') as Hp. path_from Hp.
    - pose proof (path_hline (matches eq a b) (bA + x - 1) (bB + y) 1 ltac:(lia)) as He.
      assert (Hsn' : path (matches eq a b) (bA + x - 1 + 1) (bB + y)
                          (bA + x + (u - x)) (bB + y + (u - x)) 0) by path_from Hsn.
      pose proof (path_trans _ _ _ _ _ _ _ _ _ He Hsn') as Hp. path_from Hp. }
  assert (Hemit : script_ok eq a b ds2 tx ty /\ cost ds2 = cost ds1 + 1).
  { subst ds2 sx sy tx ty.
    destruct reverse, add; cbn [negb]; (split;
      [eapply script_ok_append;
         [eapply script_ok_append; [exact Hs1|cbn [len]; lia|]|cbn [len]; lia|];
       unfold record_ok; cbn [mode len posB]; splits;
       first [reflexivity | lia
             | intros i Hi; specialize (Hkeep i Hi); matches_from Hkeep]
      |rewrite !cost_append_diff; cbn [mode len]; lia]). }
  destruct Hemit as [Hs2 Hcost2].
  (* after the snake *)
  destruct (Hphase (mkState W' ds2) tx ty eA eB c2)
    as (st3 & c2' & Hrun3 & Hsz3 & Hs3 & Hcost3 & Hc2 & Hp2'); try lia.
  { exact Hsz1. }
  { exact Hs2. }
  { exact Hp2. }
  rewrite Hrun3.
  exists st3, (c1' + 1 + c2'). cbn [st_diffs] in *. splits; auto; try lia.
  split.
  - (* a path of this cost *)
    pose proof (path_trans _ _ _ _ _ _ _ _ _
                  (path_trans _ _ _ _ _ _ _ _ _ Hp1' Hacross) Hp2') as Hp.
    path_from Hp.
  - intros c' Hc'.
    apply is_dist_rel_abs in Hdist. destruct Hdist as [_ Hmin].
    assert (Hc'' : path (matches eq a b) bA bB (bA + N) (bB + M) c') by path_from Hc'.
    apply Hmin in Hc''. lia.
Qed.

End Recursion.

(** * Sequences *)

Section Lists.

Context {T : Type}.
Variable eq : T -> T -> bool.

Lemma begin_Done (l : list T) i e :
  begin l i = Done e <-> 0 <= i /\ nth_error l (Z.to_nat i) = Some e.
Proof.
  unfold begin. destruct (Z.ltb_spec i 0) as [Hlt|Hge].
  - split; [discriminate|lia].
  - destruct (nth_error l (Z.to_nat i)) as [e'|].
    + split; [intros [= ->]; auto|intros [_ [= ->]]; reflexivity].
    + split; [discriminate|intros [_ [=]]].
Qed.

Lemma begin_bounds (l : list T) i e :
  begin l i = Done e -> 0 <= i < Z.of_nat (length l).
Proof.
  intros H. apply begin_Done in H. destruct H as [Hi H].
  assert (Z.to_nat i < length l)%nat by (apply nth_error_Some; congruence).
  lia.
Qed.

Lemma readable_begin (l : list T) : readable (begin l) (Z.of_nat (length l)).
Proof.
  intros i Hi.
  destruct (nth_error l (Z.to_nat i)) as [e|] eqn:He.
  - exists e. apply begin_Done. split; [lia|assumption].
  - apply nth_error_None in He. lia.
Qed.

Lemma begin_app (p l : list T) i :
  0 <= i -> begin (p ++ l) (Z.of_nat (length p) + i) = begin l i.
Proof.
  intros Hi. unfold begin.
  destruct (Z.ltb_spec (Z.of_nat (length p) + i) 0); [lia|].
  destruct (Z.ltb_spec i 0); [lia|].
  rewrite nth_error_app2 by lia.
  replace (Z.to_nat (Z.of_nat (length p) + i) - length p)%nat with (Z.to_nat i) by lia.
  reflexivity.
Qed.

Lemma matches_bounds (a b : list T) i j :
  matches eq (begin a) (begin b) i j ->
  0 <= i < Z.of_nat (length a) /\ 0 <= j < Z.of_nat (length b).
Proof.
  intros (p & q & Hp & Hq & _). split; eapply begin_bounds; eassumption.
Qed.

(** ** The driver *)

Theorem find_diff_correct (a b : list T) :
  exists s,
    find_diff eq a b = Done s
    /\ script_ok eq (begin a) (begin b) s
                 (Z.of_nat (length a)) (Z.of_nat (length b))
    /\ is_dist (matches eq (begin a) (begin b)) 0 0
               (Z.of_nat (length a)) (Z.of_nat (length b)) (cost s).
Proof.
  unfold find_diff.
  set (N := Z.of_nat (length a)). set (M := Z.of_nat (length b)).
  assert (HN : 0 <= N) by (unfold N; lia).
  assert (HM : 0 <= M) by (unfold M; lia).
  destruct (find_diff_rec_spec eq (begin a) (begin b) N M
              (readable_begin a) (readable_begin b)
              (N + M) (2 * (N + M) + 1 + (N + M)) (2 * (2 * (N + M) + 1)) (N + M)
              (S (Z.to_nat (N + M))))
    with (begA := 0) (endA := N) (begB := 0) (endB := M)
         (st := mkState (allocate (2 * (2 * (N + M) + 1))) [])
    as (st & c & Hrun & _ & Hok & Hcost & Hdist); try lia.
  { unfold room. lia. }
  { reflexivity. }
  { apply script_ok_nil. }
  rewrite Hrun. cbn [bind]. exists (st_diffs st). splits; auto.
  cbn [st_diffs] in Hcost.
  assert (cost (st_diffs st) = c) as -> by (rewrite Hcost; reflexivity).
  exact Hdist.
Qed.

(** ** The reference distance *)

Lemma edit_distance_cons x (a : list T) y (b : list T) :
  edit_distance eq (x :: a) (y :: b)
  = let del := 1 + edit_distance eq a (y :: b) in
    let ins := 1 + edit_distance eq (x :: a) b in
    if eq x y then Z.min (edit_distance eq a b) (Z.min del ins)
    else Z.min del ins.
Proof. reflexivity. Qed.

Lemma path_tail (pa pb a b : list T) x y c :
  path (matches eq (begin a) (begin b)) 0 0 x y c <->
  path (matches eq (begin (pa ++ a)) (begin (pb ++ b)))
       (Z.of_nat (length pa)) (Z.of_nat (length pb))
       (Z.of_nat (length pa) + x) (Z.of_nat (length pb) + y) c.
Proof.
  split; intros H.
  - pose proof (path_shift (matches eq (begin (pa ++ a)) (begin (pb ++ b)))
                  (Z.of_nat (length pa)) (Z.of_nat (length pb)) 0 0 x y c) as Hs.
    eapply path_cast; [apply Hs| | | | | ]; try lia.
    eapply path_weaken; [|exact H].
    intros i j Hi Hj (p & q & Hp & Hq & Hpq). exists p, q.
    unfold shift. rewrite !begin_app by lia. auto.
  - apply (path_unshift _ (Z.of_nat (length pa)) (Z.of_nat (length pb))) in H.
    eapply path_cast.
    + eapply path_weaken; [|exact H].
      intros i j Hi Hj (p & q & Hp & Hq & Hpq). exists p, q.
      rewrite !begin_app in Hp, Hq by lia. auto.
    + lia.
    + lia.
    + lia.
    + lia.
    + reflexivity.
Qed.

Theorem edit_distance_spec (a b : list T) :
  is_dist (matches eq (begin a) (begin b)) 0 0
          (Z.of_nat (length a)) (Z.of_nat (length b)) (edit_distance eq a b).
Proof.
  revert b. induction a as [|x a IHa]; intros b.
  - cbn [edit_distance length]. apply (is_dist_vline _ 0 0). lia.
  - induction b as [|y b IHb].
    + cbn [edit_distance]. change (Z.of_nat (length (@nil T))) with 0.
      apply (is_dist_hline _ 0 0). lia.
    + rewrite edit_distance_cons. cbv zeta.
      destruct (IHa (y :: b)) as [Pdel Mdel].
      destruct IHb as [Pins Mins].
      destruct (IHa b) as [Pdiag Mdiag].
      set (M := matches eq (begin (x :: a)) (begin (y :: b))).
      (* the three ways to start a path *)
      assert (Hdel : forall c, path (matches eq (begin a) (begin (y :: b))) 0 0
                                    (Z.of_nat (length a)) (Z.of_nat (length (y :: b))) c
                               <-> path M 1 0 (Z.of_nat (length (x :: a)))
                                          (Z.of_nat (length (y :: b))) c).
      { intros c. rewrite (path_tail [x] [] a (y :: b)).
        cbn [length app]. replace (Z.of_nat 1 + Z.of_nat (length a))
          with (Z.of_nat (S (length a))) by lia. reflexivity. }
      assert (Hins : forall c, path (matches eq (begin (x :: a)) (begin b)) 0 0
                                    (Z.of_nat (length (x :: a))) (Z.of_nat (length b)) c
                               <-> path M 0 1 (Z.of_nat (length (x :: a)))
                                          (Z.of_nat (length (y :: b))) c).
      { intros c. rewrite (path_tail [] [y] (x :: a) b).
        cbn [length app]. replace (Z.of_nat 1 + Z.of_nat (length b))
          with (Z.of_nat (S (length b))) by lia. reflexivity. }
      assert (Hdiag : forall c, path (matches eq (begin a) (begin b)) 0 0
                                     (Z.of_nat (length a)) (Z.of_nat (length b)) c
                                <-> path M 1 1 (Z.of_nat (length (x :: a)))
                                           (Z.of_nat (length (y :: b))) c).
      { intros c. rewrite (path_tail [x] [y] a b).
        cbn [length app].
        replace (Z.of_nat 1 + Z.of_nat (length a))
          with (Z.of_nat (S (length a))) by lia.
        replace (Z.of_nat 1 + Z.of_nat (length b))
          with (Z.of_nat (S (length b))) by lia. reflexivity. }
      assert (Hm00 : M 0 0 <-> eq x y = true).
      { unfold M, matches. cbn. split.
        - intros (p & q & [= ->] & [= ->] & H). exact H.
        - intros H. exists x, y. auto. }
      apply Hdel in Pdel. apply Hins in Pins. apply Hdiag in Pdiag.
      pose proof (path_trans _ _ _ _ _ _ _ _ _ (path_hline M 0 0 1 ltac:(lia)) Pdel)
        as Pdel'.
      pose proof (path_trans _ _ _ _ _ _ _ _ _ (path_vline M 0 0 1 ltac:(lia)) Pins)
        as Pins'.
      assert (Hlow : forall c, path M 0 0 (Z.of_nat (length (x :: a)))
                                    (Z.of_nat (length (y :: b))) c ->
                Z.min (1 + edit_distance eq a (y :: b))
                      (1 + edit_distance eq (x :: a) b) <= c
                \/ (eq x y = true /\ edit_distance eq a b <= c)).
      { intros c Hc.
        destruct (path_front_inv _ _ _ _ _ _ Hc)
          as [(Hx & _)|[H|[H|[H0 H]]]].
        - cbn [length] in Hx. lia.
        - left. apply Hdel, Mdel in H. lia.
        - left. apply Hins, Mins in H. lia.
        - right. split; [now apply Hm00|]. apply Hdiag, Mdiag in H. lia. }
      destruct (eq x y) eqn:Hxy.
      * split.
        -- destruct (Z.min_spec (edit_distance eq a b)
                        (Z.min (1 + edit_distance eq a (y :: b))
                               (1 + edit_distance eq (x :: a) b)))
             as [[_ ->]|[_ ->]].
           ++ assert (H0 : M 0 0) by now apply Hm00.
              pose proof (path_snake M 0 0 1 ltac:(lia)) as Hs.
              assert (Hs' : path M 0 0 (0 + 1) (0 + 1) 0).
              { apply Hs. intros i Hi. assert (i = 0) as -> by lia. exact H0. }
              pose proof (path_trans _ _ _ _ _ _ _ _ _ Hs' Pdiag) as P. path_from P.
           ++ destruct (Z.min_spec (1 + edit_distance eq a (y :: b))
                                   (1 + edit_distance eq (x :: a) b))
                as [[_ ->]|[_ ->]]; [path_from Pdel'|path_from Pins'].
        -- intros c Hc. destruct (Hlow c Hc) as [H|[_ H]]; lia.
      * split.
        -- destruct (Z.min_spec (1 + edit_distance eq a (y :: b))
                                (1 + edit_distance eq (x :: a) b))
             as [[_ ->]|[_ ->]]; [path_from Pdel'|path_from Pins'].
        -- intros c Hc. destruct (Hlow c Hc) as [H|[H _]]; [lia|discriminate].
Qed.

(** ** Running a script *)

Lemma run_script_app (s1 s2 : list Diff) (a b : list T) :
  run_script (s1 ++ s2) a b
  = match run_script s1 a b with
    | Some (out1, rest) =>
        match run_script s2 rest b with
        | Some (out2, rest') => Some (out1 ++ out2, rest')
        | None => None
        end
    | None => None
    end.
Proof.
  revert a. induction s1 as [|r s1 IH]; intros a.
  - cbn [app run_script]. destruct (run_script s2 a b) as [[out2 rest']|]; reflexivity.
  - cbn [app run_script]. destruct (mode r).
    + destruct (_ && _); [|reflexivity]. rewrite IH.
      destruct (run_script s1 _ b) as [[o1 r1]|]; [|reflexivity].
      destruct (run_script s2 r1 b) as [[o2 r2]|]; [|reflexivity].
      now rewrite app_assoc.
    + destruct (_ && _); [|reflexivity]. rewrite IH.
      destruct (run_script s1 _ b) as [[o1 r1]|]; [|reflexivity].
      destruct (run_script s2 r1 b) as [[o2 r2]|]; [|reflexivity].
      now rewrite app_assoc.
    + destruct (_ && _); [|reflexivity]. apply IH.
Qed.

Lemma firstn_plus (l : list T) n k :
  firstn (n + k) l = firstn n l ++ firstn k (skipn n l).
Proof.
  revert l. induction n as [|n IH]; intros l; [reflexivity|].
  destruct l as [|x l]; cbn [Nat.add firstn skipn app].
  - now rewrite firstn_nil.
  - now rewrite IH.
Qed.

Lemma skipn_nth (l : list T) n x :
  nth_error l n = Some x -> skipn n l = x :: skipn (S n) l.
Proof.
  revert l. induction n as [|n IH]; intros [|y l] H; try discriminate.
  - now injection H as ->.
  - cbn [skipn]. now apply IH.
Qed.

Lemma stands_for_refl (l : list T) : Forall2 (stands_for eq) l l.
Proof. induction l; constructor; [now left|assumption]. Qed.

Lemma keep_stands_for (A B : list T) n :
  forall pa pb,
    (forall i, 0 <= i < Z.of_nat n ->
       matches eq (begin A) (begin B) (Z.of_nat pa + i) (Z.of_nat pb + i)) ->
    Forall2 (stands_for eq) (firstn n (skipn pa A)) (firstn n (skipn pb B)).
Proof.
  induction n as [|n IH]; intros pa pb H; [constructor|].
  destruct (H 0 ltac:(lia)) as (p & q & Hp & Hq & Hpq).
  apply begin_Done in Hp, Hq. destruct Hp as [_ Hp]. destruct Hq as [_ Hq].
  rewrite Z.add_0_r, Nat2Z.id in Hp, Hq.
  rewrite (skipn_nth _ _ _ Hp), (skipn_nth _ _ _ Hq). cbn [firstn].
  constructor; [now right|].
  apply IH. intros i Hi.
  replace (Z.of_nat (S pa) + i) with (Z.of_nat pa + (i + 1)) by lia.
  replace (Z.of_nat (S pb) + i) with (Z.of_nat pb + (i + 1)) by lia.
  apply H. lia.
Qed.

(** Running a well-formed script over A consumes [A[0,pa)] and produces a
    sequence that stands for [B[0,pb)]. *)
Lemma script_ok_run (A B : list T) s pa pb :
  script_ok eq (begin A) (begin B) s pa pb ->
  pa <= Z.of_nat (length A) -> pb <= Z.of_nat (length B) ->
  exists out,
    run_script s A B = Some (out, skipn (Z.to_nat pa) A)
    /\ Forall2 (stands_for eq) out (firstn (Z.to_nat pb) B).
Proof.
  induction 1 as [|s r pa pb pa' pb' Hs IH Hlen Hback Hrec]; intros HA HB.
  - exists []. split; [reflexivity|constructor].
  - destruct (script_ok_pos _ _ _ _ _ _ Hs) as [Hpa Hpb].
    assert (Hstep : pa <= pa' /\ pb <= pb').
    { unfold record_ok in Hrec. destruct (mode r); lia. }
    destruct IH as (out & Hrun & Hout); try lia.
    rewrite run_script_app, Hrun. cbn [run_script].
    unfold record_ok in Hrec. destruct (mode r).
    + destruct Hrec as (-> & -> & Hkeep).
      rewrite length_skipn.
      destruct (Z.leb_spec 0 (len r)); [|lia].
      destruct (Z.leb_spec (len r) (Z.of_nat (length A - Z.to_nat pa))); [|lia].
      cbn [andb]. eexists. split.
      * rewrite skipn_skipn, app_nil_r. do 3 f_equal. lia.
      * rewrite Z2Nat.inj_add, firstn_plus by lia.
        apply Forall2_app; [exact Hout|].
        apply keep_stands_for. intros i Hi.
        rewrite !Z2Nat.id by lia. apply Hkeep. lia.
    + destruct Hrec as (-> & -> & Hpos). rewrite Hpos.
      destruct (Z.leb_spec 0 (len r)); [|lia].
      destruct (Z.leb_spec 0 pb); [|lia].
      destruct (Z.leb_spec (pb + len r) (Z.of_nat (length B))); [|lia].
      cbn [andb]. eexists. split.
      * rewrite app_nil_r. reflexivity.
      * rewrite Z2Nat.inj_add, firstn_plus by lia.
        apply Forall2_app; [exact Hout|]. apply stands_for_refl.
    + destruct Hrec as (-> & ->).
      rewrite length_skipn.
      destruct (Z.leb_spec 0 (len r)); [|lia].
      destruct (Z.leb_spec (len r) (Z.of_nat (length A - Z.to_nat pa))); [|lia].
      cbn [andb]. exists out. split.
      * rewrite skipn_skipn, app_nil_r. do 3 f_equal. lia.
      * exact Hout.
Qed.

Lemma combine_app {X Y : Type} (l1 l2 : list X) (k1 k2 : list Y) :
  length l1 = length k1 ->
  combine (l1 ++ l2) (k1 ++ k2) = combine l1 k1 ++ combine l2 k2.
Proof.
  revert k1. induction l1 as [|x l1 IH]; intros [|y k1] Hlen;
    try discriminate; [reflexivity|].
  cbn [app combine]. f_equal. apply IH. now injection Hlen.
Qed.

Lemma kept_app (s1 s2 : list Diff) : kept (s1 ++ s2) = kept s1 ++ kept s2.
Proof.
  induction s1 as [|r s1 IH]; [reflexivity|].
  cbn [app kept]. rewrite IH. destruct (mode r); now rewrite ?app_assoc.
Qed.

Lemma keep_faithful (A B : list T) n :
  forall pa pb,
    (forall i, 0 <= i < Z.of_nat n ->
       matches eq (begin A) (begin B) (Z.of_nat pa + i) (Z.of_nat pb + i)) ->
    Forall2 (faithful eq) (combine (firstn n (skipn pa A)) (repeat true n))
            (firstn n (skipn pb B)).
Proof.
  induction n as [|n IH]; intros pa pb H; [constructor|].
  destruct (H 0 ltac:(lia)) as (p & q & Hp & Hq & Hpq).
  apply begin_Done in Hp, Hq. destruct Hp as [_ Hp]. destruct Hq as [_ Hq].
  rewrite Z.add_0_r, Nat2Z.id in Hp, Hq.
  rewrite (skipn_nth _ _ _ Hp), (skipn_nth _ _ _ Hq). cbn [firstn repeat combine].
  constructor; [exact Hpq|].
  apply IH. intros i Hi.
  replace (Z.of_nat (S pa) + i) with (Z.of_nat pa + (i + 1)) by lia.
  replace (Z.of_nat (S pb) + i) with (Z.of_nat pb + (i + 1)) by lia.
  apply H. lia.
Qed.

Lemma add_faithful (l : list T) :
  Forall2 (faithful eq) (combine l (repeat false (length l))) l.
Proof.
  induction l as [|x l IH]; [constructor|].
  cbn [length repeat combine]. constructor; [reflexivity|exact IH].
Qed.

(** A well-formed script can be run, and each element that it produces is
    faithful to the element of B at its place, given its origin. *)
Lemma script_ok_faithful (A B : list T) s pa pb :
  script_ok eq (begin A) (begin B) s pa pb ->
  pa <= Z.of_nat (length A) -> pb <= Z.of_nat (length B) ->
  exists out,
    run_script s A B = Some (out, skipn (Z.to_nat pa) A)
    /\ length out = length (kept s)
    /\ Forall2 (faithful eq) (combine out (kept s)) (firstn (Z.to_nat pb) B).
Proof.
  induction 1 as [|s r pa pb pa' pb' Hs IH Hlen Hback Hrec]; intros HA HB.
  - exists []. split; [reflexivity|]. split; [reflexivity|constructor].
  - destruct (script_ok_pos _ _ _ _ _ _ Hs) as [Hpa Hpb].
    assert (Hstep : pa <= pa' /\ pb <= pb').
    { unfold record_ok in Hrec. destruct (mode r); lia. }
    destruct IH as (out & Hrun & Hlen' & Hout); try lia.
    rewrite run_script_app, Hrun, kept_app. cbn [run_script kept].
    unfold record_ok in Hrec. destruct (mode r).
    + destruct Hrec as (-> & -> & Hkeep).
      rewrite length_skipn.
      destruct (Z.leb_spec 0 (len r)); [|lia].
      destruct (Z.leb_spec (len r) (Z.of_nat (length A - Z.to_nat pa))); [|lia].
      cbn [andb]. eexists. split; [|split].
      * rewrite skipn_skipn, !app_nil_r. do 3 f_equal. lia.
      * rewrite !length_app, Hlen', repeat_length, length_firstn, length_skipn.
        cbn [length]. lia.
      * rewrite !app_nil_r, combine_app by exact Hlen'.
        rewrite Z2Nat.inj_add, firstn_plus by lia.
        apply Forall2_app; [exact Hout|].
        apply keep_faithful. intros i Hi.
        rewrite !Z2Nat.id by lia. apply Hkeep. lia.
    + destruct Hrec as (-> & -> & Hpos). rewrite Hpos.
      destruct (Z.leb_spec 0 (len r)); [|lia].
      destruct (Z.leb_spec 0 pb); [|lia].
      destruct (Z.leb_spec (pb + len r) (Z.of_nat (length B))); [|lia].
      cbn [andb].
      assert (Hn : length (firstn (Z.to_nat (len r)) (skipn (Z.to_nat pb) B))
                   = Z.to_nat (len r))
        by (rewrite length_firstn, length_skipn; lia).
      eexists. split; [|split].
      * rewrite app_nil_r. reflexivity.
      * rewrite !length_app, Hlen', repeat_length, Hn. cbn [length]. lia.
      * rewrite !app_nil_r, combine_app by exact Hlen'.
        rewrite Z2Nat.inj_add, firstn_plus by lia.
        apply Forall2_app; [exact Hout|].
        set (l := firstn (Z.to_nat (len r)) (skipn (Z.to_nat pb) B)) in Hn |- *.
        rewrite <- Hn. apply add_faithful.
    + destruct Hrec as (-> & ->).
      rewrite length_skipn.
      destruct (Z.leb_spec 0 (len r)); [|lia].
      destruct (Z.leb_spec (len r) (Z.of_nat (length A - Z.to_nat pa))); [|lia].
      cbn [andb]. exists out. split; [|split].
      * rewrite skipn_skipn, app_nil_r. do 3 f_equal. lia.
      * rewrite app_nil_r. exact Hlen'.
      * rewrite app_nil_r. exact Hout.
Qed.

Lemma faithful_stands_for (l : list (T * bool)) (B : list T) :
  Forall2 (faithful eq) l B -> Forall2 (stands_for eq) (map fst l) B.
Proof.
  induction 1 as [|[o k] e l B Hoe _ IH]; [constructor|].
  cbn [map fst]. constructor; [|exact IH].
  unfold faithful in Hoe. cbn [fst snd] in Hoe.
  destruct k; [now right|now left].
Qed.

Lemma stands_for_eq (out B : list T) :
  (forall x y, eq x y = true -> x = y) ->
  Forall2 (stands_for eq) out B -> out = B.
Proof.
  intros Hexact. induction 1 as [|o e out B [Hoe|Hoe] _ IH]; [reflexivity| |].
  - now rewrite Hoe, IH.
  - now rewrite (Hexact _ _ Hoe), IH.
Qed.

End Lists.

(** * Properties of the edit scripts *)

Lemma cost_split (s : list Diff) : cost s = sum_len is_Add s + sum_len is_Remove s.
Proof.
  unfold cost. induction s as [|r s IH]; [reflexivity|].
  cbn [sum_len fold_right]. fold (sum_len is_Add s). fold (sum_len is_Remove s).
  fold (sum_len (fun m => is_Add m || is_Remove m) s). rewrite IH.
  destruct (mode r); cbn; lia.
Qed.

Section Claims.

Context {T : Type}.
Variable eq : T -> T -> bool.

Lemma first_differ_spec (A B : list T) :
  first_differ eq A B = true ->
  1 <= Z.of_nat (length A) /\ 1 <= Z.of_nat (length B)
  /\ differs eq (begin A) (begin B) 0 0.
Proof.
  destruct A as [|x A], B as [|y B]; try discriminate. cbn [first_differ length].
  intros H. splits; try lia. exists x, y. splits; try reflexivity.
  now apply negb_true_iff.
Qed.

Lemma differs_not_matches (a b : Iterator T) i j :
  differs eq a b i j -> ~ matches eq a b i j.
Proof.
  intros (p & q & Hp & Hq & Hpq) (p' & q' & Hp' & Hq' & Hpq'). congruence.
Qed.

Lemma not_matches_differs (a b : Iterator T) N M i j :
  readable a N -> readable b M -> 0 <= i < N -> 0 <= j < M ->
  ~ matches eq a b i j -> differs eq a b i j.
Proof.
  intros Ha Hb Hi Hj Hno.
  destruct (Ha i Hi) as (p & Hp). destruct (Hb j Hj) as (q & Hq).
  exists p, q. splits; auto. destruct (eq p q) eqn:Hpq; [|reflexivity].
  exfalso. apply Hno. exists p, q. auto.
Qed.

Lemma Forall2_matches (A B : list T) :
  Forall2 (fun x y => eq x y = true) A B ->
  forall i, 0 <= i < Z.of_nat (length A) -> matches eq (begin A) (begin B) i i.
Proof.
  induction 1 as [|x y A B Hxy _ IH]; intros i Hi; [cbn in Hi; lia|].
  destruct (Z.eq_dec i 0) as [->|Hne].
  - exists x, y. auto.
  - cbn [length] in Hi. destruct (IH (i - 1)) as (p & q & Hp & Hq & Hpq); [lia|].
    pose proof (begin_app [x] A (i - 1) ltac:(lia)) as HA.
    pose proof (begin_app [y] B (i - 1) ltac:(lia)) as HB.
    cbn [length app] in HA, HB. change (Z.of_nat 1) with 1 in HA, HB.
    replace (1 + (i - 1)) with i in HA, HB by lia.
    exists p, q. splits; auto; congruence.
Qed.

(** One call of the recursion on ranges that the stripping of the common
    prefix and suffix exhausts on one side. *)
Lemma find_diff_rec_base fuel (a b : Iterator T) begA endA begB endB V1 V2 st
      bA bB n eA eB k :
  strip_prefix eq fuel a b begA endA begB endB 0 = Done (bA, bB, n) ->
  strip_suffix eq fuel a b bA endA bB endB 0 = Done (eA, eB, k) ->
  eA - bA = 0 \/ eB - bB = 0 ->
  find_diff_rec eq (S fuel) a begA endA b begB endB V1 V2 st
  = Done (mkState (st_data st)
            (append_diff
               (append_diff
                  (append_diff (st_diffs st) (mkDiff Keep n 0))
                  (if eA - bA =? 0 then mkDiff Add (eB - bB) bB
                   else mkDiff Remove (eA - bA) 0))
               (mkDiff Keep k 0))).
Proof.
  intros Hpre Hsuf Hempty. cbn [find_diff_rec]. rewrite Hpre. cbn [bind].
  rewrite Hsuf. cbn [bind].
  destruct (Z.eqb_spec (eA - bA) 0); [reflexivity|].
  destruct (Z.eqb_spec (eB - bB) 0); [reflexivity|lia].
Qed.

(** C1, as amended.  For sequences that are short enough for the code (the
    size [2 * (2 * (N + M) + 1)] of the block is an [int]), applying the
    script that [find_diff] returns to A (Keep and Remove records consume A
    from left to right, an Add record inserts [B[posB, posB+len)]) succeeds
    and yields a sequence of the length of B in which an element that an
    Add record has inserted is the element of B at its place, and an
    element that a Keep record has copied from A is one that the predicate
    accepts for the element of B at its place: [kept s] tells, element by
    element, which of the two it is.  The sequence is B itself when the
    predicate only accepts identical elements. *)
Theorem round_trip_up_to_predicate (A B : list T) :
  short_enough (Z.of_nat (length A)) (Z.of_nat (length B)) ->
  exists s out,
    find_diff eq A B = Done s
    /\ apply_script s A B = Some out
    /\ length out = length (kept s)
    /\ Forall2 (faithful eq) (combine out (kept s)) B
    /\ Forall2 (stands_for eq) out B
    /\ ((forall x y, eq x y = true -> x = y) -> out = B).
Proof.
  intros _.
  destruct (find_diff_correct eq A B) as (s & Hrun & Hok & _).
  destruct (script_ok_faithful eq A B s _ _ Hok) as (out & Hout & Hlen & Hfaith);
    try lia.
  destruct (script_ok_run eq A B s _ _ Hok) as (out' & Hout' & Hrel); try lia.
  rewrite Hout in Hout'. injection Hout' as <-.
  rewrite Nat2Z.id, firstn_all in Hrel, Hfaith.
  exists s, out. splits; auto.
  - unfold apply_script. now rewrite Hout.
  - intros Hexact. now apply (stands_for_eq eq).
Qed.

(** C2.  For sequences that are short enough for the code (the size
    [2 * (2 * (N + M) + 1)] of the block is an [int]), the lengths of the
    Add records and of the Remove records of the script that [find_diff]
    returns add up to the edit distance of A and B: the least number of
    insertions and deletions that turn A into B, as the reference
    recurrence computes it. *)
Theorem script_cost_is_edit_distance (A B : list T) :
  short_enough (Z.of_nat (length A)) (Z.of_nat (length B)) ->
  exists s,
    find_diff eq A B = Done s
    /\ sum_len is_Add s + sum_len is_Remove s = edit_distance eq A B.
Proof.
  intros _.
  destruct (find_diff_correct eq A B) as (s & Hrun & _ & [Hpath Hmin]).
  destruct (edit_distance_spec eq A B) as [Hpath' Hmin'].
  exists s. split; [exact Hrun|]. rewrite <- cost_split.
  apply Hmin in Hpath'. apply Hmin' in Hpath. lia.
Qed.

(** C3.  For sequences that are short enough for the code (the size
    [2 * (2 * (N + M) + 1)] of the block is an [int]), no two adjacent
    records of the script that [find_diff] returns share their mode. *)
Theorem script_is_compact (A B : list T) :
  short_enough (Z.of_nat (length A)) (Z.of_nat (length B)) ->
  exists s, find_diff eq A B = Done s /\ compact s.
Proof.
  intros _.
  destruct (find_diff_correct eq A B) as (s & Hrun & Hok & _).
  exists s. split; [exact Hrun|]. eapply script_ok_compact. exact Hok.
Qed.

(** C4.  On non-empty sequences whose first elements differ and whose last
    elements differ, and that are short enough for the code
    ([2 * (2 * (N + M) + 1)] is an [int]), [find_middle_snake] returns a
    snake, given two arrays [V1] and [V2] with room for the diagonals it
    visits.  When [N - M] is
    odd it is tagged as a forward result, it is the snake that the Snake
    Finder returns at the first crossing of the forward front, at distance
    [D] on diagonal [k], and [d = 2D - 1].  When [N - M] is even it is
    tagged as a reverse result, [d = 2D], and its coordinates are those of
    the snake [(x,y,u,v)] of the reverse search at its first crossing,
    mapped to [(N-u, M-v, N-x, M-y)], with the same [add] flag. *)
Theorem middle_snake_is_first_crossing (A B : list T) (V1 V2 : Z)
    (data : Storage) :
  short_enough (Z.of_nat (length A)) (Z.of_nat (length B)) ->
  first_differ eq A B = true ->
  last_differ eq A B = true ->
  room (size data) V1 V2
       (Z.quot (Z.of_nat (length B) + Z.of_nat (length A) + 1) 2 + 1) ->
  exists data' s,
    find_middle_snake eq (begin A) (Z.of_nat (length A))
                      (begin B) (Z.of_nat (length B)) V1 V2 data
    = Done (data', s)
    /\ (Z.rem (Z.of_nat (length A) - Z.of_nat (length B)) 2 <> 0 ->
        forward_result eq (begin A) (Z.of_nat (length A))
                       (begin B) (Z.of_nat (length B)) V1 s)
    /\ (Z.rem (Z.of_nat (length A) - Z.of_nat (length B)) 2 = 0 ->
        reverse_result eq (begin A) (Z.of_nat (length A))
                       (begin B) (Z.of_nat (length B)) V2 s).
Proof.
  intros _ Hfirst _ Hroom.
  destruct (first_differ_spec A B Hfirst) as (HN & HM & Hdiff).
  destruct (find_middle_snake_spec eq (begin A) (begin B)
              (Z.of_nat (length A)) (Z.of_nat (length B))
              (readable_begin A) (readable_begin B) HN HM)
    with (V1 := V1) (V2 := V2) (sz := size data) (data := data)
         (R := Z.quot (Z.of_nat (length B) + Z.of_nat (length A) + 1) 2 + 1)
    as (data' & s & Hrun & _ & _ & Hres); try lia; try reflexivity.
  { intros (_ & _ & Hm). revert Hm. now apply differs_not_matches. }
  { exact Hroom. }
  exists data', s. split; [exact Hrun|].
  split; intros Hparity.
  - destruct Hres as [Hf|(Heven & _)]; [exact Hf|contradiction].
  - destruct Hres as [(Hodd & _)|Hr]; [contradiction|exact Hr].
Qed.

(** C5, as amended.  Take a call of the Snake Finder with [-D <= k <= D]
    in which the cells of [V] that the code reads lie within the block
    ([V[k-1]] unless [k = -D], [V[k+1]] unless [k = D] and [k <> -D]), the
    start point [(x,y)] is not negative, and no operation overflows ([D],
    [N], [M], [x] and [y] are at most [INT_MAX]).  It returns a snake such
    that: [add] holds exactly when [k = -D], or [k <> D] and
    [V[k-1] < V[k+1]]; [x] is [V[k+1]] when [add] holds and [V[k-1] + 1]
    otherwise; [y = x - k]; [(u,v)] is reached from [(x,y)] over elements
    that are equal under the predicate, so that [u - v = k]; and the run
    stops because [u >= N], [v >= M], or [a[u]] and [b[v]] differ.  When the
    start point lies within [[0,N] x [0,M]], so does the end point, and the
    run stops because [u = N], [v = M], or [a[u]] and [b[v]] differ. *)
Theorem snake_finder_result (A B : list T) (data : Storage) (V : Z) (D k : Z) :
  - D <= k <= D -> D <= int_max ->
  Z.of_nat (length A) <= int_max -> Z.of_nat (length B) <= int_max ->
  (k <> - D -> 0 <= V + (k - 1) < size data) ->
  (k = - D \/ k <> D -> 0 <= V + (k + 1) < size data) ->
  0 <= snake_start (view data V) D k <= int_max ->
  0 <= snake_start (view data V) D k - k <= int_max ->
  exists p,
    find_end_snake_of_further_reaching_dpath
      eq (begin A) (Z.of_nat (length A)) (begin B) (Z.of_nat (length B))
      data V D k
    = Done p
    /\ Snake.add p = ((k =? - D)
                      || (negb (k =? D)
                          && (cell data (V + (k - 1)) <? cell data (V + (k + 1)))))
    /\ Snake.x p = (if Snake.add p then cell data (V + (k + 1))
                   else cell data (V + (k - 1)) + 1)
    /\ Snake.y p = Snake.x p - k
    /\ Snake.x p <= Snake.u p
    /\ Snake.u p - Snake.v p = k
    /\ (forall i, 0 <= i < Snake.u p - Snake.x p ->
          matches eq (begin A) (begin B) (Snake.x p + i) (Snake.y p + i))
    /\ (Z.of_nat (length A) <= Snake.u p \/ Z.of_nat (length B) <= Snake.v p
        \/ differs eq (begin A) (begin B) (Snake.u p) (Snake.v p))
    /\ (Snake.x p <= Z.of_nat (length A) -> Snake.y p <= Z.of_nat (length B) ->
        Snake.u p <= Z.of_nat (length A) /\ Snake.v p <= Z.of_nat (length B)
        /\ (Snake.u p = Z.of_nat (length A) \/ Snake.v p = Z.of_nat (length B)
            \/ differs eq (begin A) (begin B) (Snake.u p) (Snake.v p))).
Proof.
  intros _ _ _ _ Hlo Hhi [Hx0 _] [Hy0 _].
  destruct (find_end_snake_spec eq (begin A) (Z.of_nat (length A))
              (begin B) (Z.of_nat (length B)) data V D k
              (readable_begin A) (readable_begin B) Hlo Hhi Hx0 ltac:(lia))
    as (p & Hrun & Hadd & Hx & Hy & Hxu & Hv & Hall & Hstop).
  exists p. split; [exact Hrun|].
  assert (Hends : Z.of_nat (length A) <= Snake.u p
                  \/ Z.of_nat (length B) <= Snake.v p
                  \/ differs eq (begin A) (begin B) (Snake.u p) (Snake.v p)).
  { destruct (Z_le_gt_dec (Z.of_nat (length A)) (Snake.u p)); [now left|].
    destruct (Z_le_gt_dec (Z.of_nat (length B)) (Snake.v p)); [now right; left|].
    right; right.
    apply (not_matches_differs _ _ (Z.of_nat (length A)) (Z.of_nat (length B)));
      try apply readable_begin; try lia.
    intros Hm. apply Hstop. unfold grid, within. splits; try lia. exact Hm. }
  splits; try lia.
  - exact Hadd.
  - rewrite Hx, Hadd. reflexivity.
  - intros i Hi. destruct (Hall i Hi) as (_ & _ & Hm). exact Hm.
  - exact Hends.
  - intros HxN HyM.
    assert (Snake.u p <= Z.of_nat (length A) /\ Snake.v p <= Z.of_nat (length B))
      as [HuN HvM].
    { destruct (Z.eq_dec (Snake.u p) (Snake.x p)) as [Heq|Hne]; [lia|].
      destruct (Hall (Snake.u p - Snake.x p - 1)) as (? & ? & _); lia. }
    splits; try lia.
    destruct Hends as [H|[H|H]]; [left; lia|right; left; lia|right; right; exact H].
Qed.

(** C6.  The two assertions hold on every execution on sequences that are
    short enough for the code (the size [2 * (2 * (N + M) + 1)] of the
    block is an [int]).  On every range that [find_diff_rec] hands over,
    that is, on non-empty ranges whose first elements differ, with two
    arrays that have room for the diagonals, [find_middle_snake] returns a
    snake, so its loop did not run past its last distance into
    [kak_assert(false)], and the returned snake has [d > 0], [u <= lenA]
    and [v <= lenB]; and [find_diff] returns a script: an assertion that
    fails aborts the computation. *)
Theorem assertions_hold :
  (forall (A B : list T) (begA lenA begB lenB : Z) (V1 V2 : Z) (data : Storage),
     short_enough (Z.of_nat (length A)) (Z.of_nat (length B)) ->
     0 <= begA -> 1 <= lenA -> begA + lenA <= Z.of_nat (length A) ->
     0 <= begB -> 1 <= lenB -> begB + lenB <= Z.of_nat (length B) ->
     differs eq (begin A) (begin B) begA begB ->
     room (size data) V1 V2 (lenA + lenB) ->
     exists data' s,
       find_middle_snake eq (advance (begin A) begA) lenA
                         (advance (begin B) begB) lenB V1 V2 data
       = Done (data', s)
       /\ SnakeLen.d s > 0 /\ SnakeLen.u s <= lenA /\ SnakeLen.v s <= lenB)
  /\ (forall A B : list T,
        short_enough (Z.of_nat (length A)) (Z.of_nat (length B)) ->
        exists s, find_diff eq A B = Done s).
Proof.
  split.
  - intros A B begA lenA begB lenB V1 V2 data _ HbA HlA HeA HbB HlB HeB Hdiff Hroom.
    destruct (find_middle_snake_spec eq (advance (begin A) begA)
                (advance (begin B) begB) lenA lenB)
      with (V1 := V1) (V2 := V2) (sz := size data) (data := data)
           (R := lenA + lenB)
      as (data' & s & Hrun & _ & Hms & _); try lia; try reflexivity.
    + apply (readable_advance _ (Z.of_nat (length A))); [apply readable_begin|lia|lia].
    + apply (readable_advance _ (Z.of_nat (length B))); [apply readable_begin|lia|lia].
    + intros (_ & _ & Hm). revert Hm. apply differs_not_matches.
      unfold differs, advance. now rewrite !Z.add_0_r.
    + exact Hroom.
    + pose proof (Z.quot_rem' (lenB + lenA + 1) 2) as Hq.
      pose proof (Z.rem_bound_pos (lenB + lenA + 1) 2 ltac:(lia) ltac:(lia)).
      lia.
    + exists data', s. split; [exact Hrun|].
      unfold middle_snake in Hms. lia.
  - intros A B _. destruct (find_diff_correct eq A B) as (s & Hrun & _).
    exists s. exact Hrun.
Qed.

(** C7.  When B equals A element by element under the predicate, as when A
    is compared with itself under a reflexive predicate, and the two are
    short enough for the code (the size [2 * (2 * (N + M) + 1)] of the
    block is an [int]), [find_diff] returns a single Keep record of length
    [N], or the empty script when [N = 0]. *)
Theorem equal_sequences_keep (A B : list T) :
  short_enough (Z.of_nat (length A)) (Z.of_nat (length B)) ->
  Forall2 (fun x y => eq x y = true) A B ->
  find_diff eq A B
  = Done (match A with
          | [] => []
          | _ :: _ => [mkDiff Keep (Z.of_nat (length A)) 0]
          end).
Proof.
  intros _ Hall. pose proof (Forall2_length Hall) as Hlen.
  pose proof (Forall2_matches A B Hall) as Hm.
  assert (HrB : readable (begin B) (Z.of_nat (length A)))
    by (rewrite Hlen; apply readable_begin).
  unfold find_diff. rewrite <- Hlen.
  set (N := Z.of_nat (length A)) in *.
  set (fuel := Z.to_nat (N + N)).
  destruct (strip_prefix_spec eq (begin A) (begin B) N N
              (readable_begin A) HrB fuel 0 N 0 N 0)
    as (n & Hn & HnA & _ & Hpre & _ & Hstop); try lia.
  assert (n = N) as ->.
  { destruct (Z.eq_dec n N) as [|Hne]; [assumption|].
    exfalso. apply Hstop; try lia. apply Hm. lia. }
  destruct (strip_suffix_spec eq (begin A) (begin B) N N
              (readable_begin A) HrB fuel (0 + N) N (0 + N) N 0)
    as (k & Hk & HkA & _ & Hsuf & _); try lia.
  assert (k = 0) as -> by lia.
  rewrite (find_diff_rec_base _ _ _ _ _ _ _ _ _ _ _ _ _ _ _ _ Hpre Hsuf) by lia.
  cbn [bind st_diffs].
  destruct (Z.eqb_spec (N - 0 - (0 + N)) 0); [|lia].
  rewrite (append_diff_skip _ (mkDiff Keep (0 + 0) 0)) by reflexivity.
  rewrite (append_diff_skip _ (mkDiff Add _ _)) by (cbn [len]; lia).
  destruct A as [|x A].
  - reflexivity.
  - rewrite append_diff_push; [|cbn [len length] in *; lia|discriminate].
    reflexivity.
Qed.

(** C8.  Against the empty sequence, a non-empty sequence of length [L]
    that is short enough for the code (the size [2 * (2 * L + 1)] of the
    block is an [int]) gives a single record: [Add] with [len = L] and
    [posB = 0] when A is the empty one, [Remove] with [len = L] when B
    is. *)
Theorem one_sided_diff (x : T) (l : list T) :
  short_enough 0 (Z.of_nat (length (x :: l))) ->
  find_diff eq [] (x :: l) = Done [mkDiff Add (Z.of_nat (length (x :: l))) 0]
  /\ find_diff eq (x :: l) [] = Done [mkDiff Remove (Z.of_nat (length (x :: l))) 0].
Proof.
  intros _.
  set (L := Z.of_nat (length (x :: l))).
  assert (HL : 0 < L) by (unfold L; cbn [length]; lia).
  split; unfold find_diff; change (Z.of_nat (length (@nil T))) with 0; fold L.
  - set (fuel := Z.to_nat (0 + L)).
    destruct (strip_prefix_spec eq (begin []) (begin (x :: l)) 0 L
                (readable_begin []) (readable_begin (x :: l)) fuel 0 0 0 L 0)
      as (n & Hn & HnA & _ & Hpre & _); try lia.
    assert (n = 0) as -> by lia.
    destruct (strip_suffix_spec eq (begin []) (begin (x :: l)) 0 L
                (readable_begin []) (readable_begin (x :: l)) fuel (0 + 0) 0 (0 + 0) L 0)
      as (k & Hk & HkA & _ & Hsuf & _); try lia.
    assert (k = 0) as -> by lia.
    rewrite (find_diff_rec_base _ _ _ _ _ _ _ _ _ _ _ _ _ _ _ _ Hpre Hsuf) by lia.
    cbn [bind st_diffs].
    rewrite (append_diff_skip _ (mkDiff Keep (0 + 0) 0)) by reflexivity.
    rewrite (append_diff_skip _ (mkDiff Keep (0 + 0) 0)) by reflexivity.
    cbn [Z.sub Z.add Z.opp Z.eqb].
    rewrite append_diff_push; [|cbn [len]; lia|discriminate].
    cbn [app]. replace (L - 0 - 0) with L by lia. reflexivity.
  - set (fuel := Z.to_nat (L + 0)).
    destruct (strip_prefix_spec eq (begin (x :: l)) (begin []) L 0
                (readable_begin (x :: l)) (readable_begin []) fuel 0 L 0 0 0)
      as (n & Hn & _ & HnB & Hpre & _); try lia.
    assert (n = 0) as -> by lia.
    destruct (strip_suffix_spec eq (begin (x :: l)) (begin []) L 0
                (readable_begin (x :: l)) (readable_begin []) fuel (0 + 0) L (0 + 0) 0 0)
      as (k & Hk & _ & HkB & Hsuf & _); try lia.
    assert (k = 0) as -> by lia.
    rewrite (find_diff_rec_base _ _ _ _ _ _ _ _ _ _ _ _ _ _ _ _ Hpre Hsuf) by lia.
    cbn [bind st_diffs].
    rewrite (append_diff_skip _ (mkDiff Keep (0 + 0) 0)) by reflexivity.
    rewrite (append_diff_skip _ (mkDiff Keep (0 + 0) 0)) by reflexivity.
    destruct (Z.eqb_spec (L - 0 - (0 + 0)) 0); [lia|].
    rewrite append_diff_push; [|cbn [len]; lia|discriminate].
    cbn [app]. replace (L - 0 - (0 + 0)) with L by lia. reflexivity.
Qed.

(** C9.  [append_diff] leaves the script as it is when the record has
    length 0, whatever the script and the mode of the record; and no record
    of the script that [find_diff] returns, for sequences that are short
    enough for the code (the size [2 * (2 * (N + M) + 1)] of the block is
    an [int]), has length 0. *)
Theorem no_empty_record :
  (forall (s : list Diff) (m : Mode) (p : Z), append_diff s (mkDiff m 0 p) = s)
  /\ (forall A B : list T,
        short_enough (Z.of_nat (length A)) (Z.of_nat (length B)) ->
        exists s, find_diff eq A B = Done s /\ Forall (fun r => len r <> 0) s).
Proof.
  split.
  - intros s m p. now apply append_diff_skip.
  - intros A B _. destruct (find_diff_correct eq A B) as (s & Hrun & Hok & _).
    exists s. split; [exact Hrun|].
    apply script_ok_nonzero in Hok. eapply Forall_impl; [|exact Hok].
    cbn. intros r Hr. lia.
Qed.

(** C10.  In the script that [find_diff] returns for sequences that are
    short enough for the code (the size [2 * (2 * (N + M) + 1)] of the
    block is an [int]), the lengths of the Keep and Remove records add up
    to [N], and those of the Keep and Add records to [M]. *)
Theorem lengths_conserved (A B : list T) :
  short_enough (Z.of_nat (length A)) (Z.of_nat (length B)) ->
  exists s,
    find_diff eq A B = Done s
    /\ sum_len (fun m => is_Keep m || is_Remove m) s = Z.of_nat (length A)
    /\ sum_len (fun m => is_Keep m || is_Add m) s = Z.of_nat (length B).
Proof.
  intros _.
  destruct (find_diff_correct eq A B) as (s & Hrun & Hok & _).
  exists s. split; [exact Hrun|]. apply script_ok_sums in Hok. exact Hok.
Qed.

End Claims.

(** * The properties on concrete sequences *)

(** C1 as first stated fails for a predicate that accepts different
    elements: under the predicate that accepts every pair, the script for
    [[false]] and [[true]] is one Keep record, and applying it to
    [[false]] gives [[false]] back. *)
Lemma round_trip_not_exact :
  consistent (fun _ _ : bool => true)
  /\ exists s,
       find_diff (fun _ _ : bool => true) [false] [true] = Done s
       /\ apply_script s [false] [true] = Some [false]
       /\ apply_script s [false] [true] <> Some [true].
Proof.
  split.
  - unfold consistent. auto.
  - exists [mkDiff Keep 1 0]. split; [reflexivity|]. split; [reflexivity|].
    discriminate.
Qed.

(** The round trip over [[1;2;3]] and [[1;4;3]]. *)
Lemma round_trip_up_to_predicate_witness :
  short_enough 3 3
  /\ exists s out,
       find_diff Nat.eqb [1; 2; 3]%nat [1; 4; 3]%nat = Done s
       /\ apply_script s [1; 2; 3]%nat [1; 4; 3]%nat = Some out
       /\ length out = length (kept s)
       /\ Forall2 (faithful Nat.eqb) (combine out (kept s)) [1; 4; 3]%nat
       /\ Forall2 (stands_for Nat.eqb) out [1; 4; 3]%nat
       /\ ((forall x y, Nat.eqb x y = true -> x = y) -> out = [1; 4; 3]%nat).
Proof.
  assert (H : short_enough 3 3) by (unfold short_enough, int_max; lia).
  split; [exact H|].
  exact (round_trip_up_to_predicate Nat.eqb [1; 2; 3]%nat [1; 4; 3]%nat H).
Defined.

(** The number of edits between [[1;2;3]] and [[1;4;3]]. *)
Lemma script_cost_is_edit_distance_witness :
  short_enough 3 3
  /\ exists s,
       find_diff Nat.eqb [1; 2; 3]%nat [1; 4; 3]%nat = Done s
       /\ sum_len is_Add s + sum_len is_Remove s
          = edit_distance Nat.eqb [1; 2; 3]%nat [1; 4; 3]%nat.
Proof.
  assert (H : short_enough 3 3) by (unfold short_enough, int_max; lia).
  split; [exact H|].
  exact (script_cost_is_edit_distance Nat.eqb [1; 2; 3]%nat [1; 4; 3]%nat H).
Defined.

(** The script for [[1;2;3]] and [[1;4;3]]. *)
Lemma script_is_compact_witness :
  short_enough 3 3
  /\ exists s,
       find_diff Nat.eqb [1; 2; 3]%nat [1; 4; 3]%nat = Done s /\ compact s.
Proof.
  assert (H : short_enough 3 3) by (unfold short_enough, int_max; lia).
  split; [exact H|].
  exact (script_is_compact Nat.eqb [1; 2; 3]%nat [1; 4; 3]%nat H).
Defined.

(** The search over [[1;2]] and [[3]], with the block and the two arrays
    that [find_diff] sets up for them. *)
Lemma middle_snake_is_first_crossing_witness :
  short_enough 2 1
  /\ first_differ Nat.eqb [1; 2]%nat [3]%nat = true
  /\ last_differ Nat.eqb [1; 2]%nat [3]%nat = true
  /\ room (size (allocate 14)) 3 10 (Z.quot (1 + 2 + 1) 2 + 1)
  /\ exists data' s,
       find_middle_snake Nat.eqb (begin [1; 2]%nat) 2 (begin [3]%nat) 1
                         3 10 (allocate 14)
       = Done (data', s)
       /\ (Z.rem (2 - 1) 2 <> 0 ->
           forward_result Nat.eqb (begin [1; 2]%nat) 2 (begin [3]%nat) 1 3 s)
       /\ (Z.rem (2 - 1) 2 = 0 ->
           reverse_result Nat.eqb (begin [1; 2]%nat) 2 (begin [3]%nat) 1 10 s).
Proof.
  assert (H : short_enough 2 1) by (unfold short_enough, int_max; lia).
  assert (Hroom : room (size (allocate 14)) 3 10 (Z.quot (1 + 2 + 1) 2 + 1))
    by (unfold room; simpl; lia).
  split; [exact H|].
  split; [reflexivity|]. split; [reflexivity|]. split; [exact Hroom|].
  apply (middle_snake_is_first_crossing Nat.eqb [1; 2]%nat [3]%nat 3 10
           (allocate 14)); [exact H|reflexivity|reflexivity|exact Hroom].
Defined.

(** C5 as first stated fails where the start point is past the end of A:
    with [N = 1], [M = 4], [D = 2], [k = 2] and [V[1] = 1], a call that
    [find_diff] makes on [[1]] and [[2;2;2;2]], the snake starts and ends
    at [(2,0)], where [u] is not [N], [v] is not [M] and [a[u]] does not
    exist.  The array is at [5] in a block of 22 cells, as [find_diff] has
    it, so that [V[1]] is the cell [6]. *)
Lemma snake_finder_past_the_end :
  Z.abs 2 <= 2
  /\ Z.rem (2 - 2) 2 = 0
  /\ exists p,
       find_end_snake_of_further_reaching_dpath
         Nat.eqb (begin [1]%nat) 1 (begin [2; 2; 2; 2]%nat) 4
         (mkStorage 22 (fun i => if i =? 6 then 1 else 0)) 5 2 2
       = Done p
       /\ ~ (Snake.u p = 1 \/ Snake.v p = 4
             \/ differs Nat.eqb (begin [1]%nat) (begin [2; 2; 2; 2]%nat)
                        (Snake.u p) (Snake.v p)).
Proof.
  split; [lia|]. split; [reflexivity|].
  exists (Snake.mk 2 0 2 0 false). split; [reflexivity|].
  cbn [Snake.u Snake.v].
  intros [H|[H|(p & q & Hp & _)]]; discriminate.
Qed.

(** The Snake Finder at distance 2 on diagonal 0 over [[1;2;3]] and
    [[9;2;4]], with an array of three cells at [1] that holds [V[-1] = 0]
    and [V[1] = 1]: both cells are read, the vertical edge from [(1,0)] is
    taken and the snake runs from [(1,1)] to [(2,2)]. *)
Lemma snake_finder_result_witness :
  (- 2 <= 0 <= 2)
  /\ 2 <= int_max
  /\ 3 <= int_max
  /\ 3 <= int_max
  /\ (0 <> - 2 -> 0 <= 1 + (0 - 1) < 3)
  /\ (0 = - 2 \/ 0 <> 2 -> 0 <= 1 + (0 + 1) < 3)
  /\ 0 <= snake_start
            (view (mkStorage 3 (fun i => if i =? 2 then 1 else 0)) 1) 2 0
       <= int_max
  /\ 0 <= snake_start
            (view (mkStorage 3 (fun i => if i =? 2 then 1 else 0)) 1) 2 0 - 0
       <= int_max
  /\ exists p,
       find_end_snake_of_further_reaching_dpath
         Nat.eqb (begin [1; 2; 3]%nat) 3 (begin [9; 2; 4]%nat) 3
         (mkStorage 3 (fun i => if i =? 2 then 1 else 0)) 1 2 0
       = Done p
       /\ Snake.add p = true
       /\ Snake.x p = 1 /\ Snake.y p = 1 /\ Snake.u p = 2 /\ Snake.v p = 2
       /\ differs Nat.eqb (begin [1; 2; 3]%nat) (begin [9; 2; 4]%nat) 2 2.
Proof.
  assert (Hk : - 2 <= 0 <= 2) by lia.
  assert (HD : 2 <= int_max) by (unfold int_max; lia).
  assert (HN : 3 <= int_max) by (unfold int_max; lia).
  assert (Hlo : 0 <> - 2 -> 0 <= 1 + (0 - 1) < 3) by lia.
  assert (Hhi : 0 = - 2 \/ 0 <> 2 -> 0 <= 1 + (0 + 1) < 3) by lia.
  assert (Hx : 0 <= snake_start
                      (view (mkStorage 3 (fun i => if i =? 2 then 1 else 0)) 1) 2 0
               <= int_max)
    by (vm_compute; split; discriminate).
  assert (Hy : 0 <= snake_start
                      (view (mkStorage 3 (fun i => if i =? 2 then 1 else 0)) 1) 2 0 - 0
               <= int_max)
    by (vm_compute; split; discriminate).
  split; [exact Hk|]. split; [exact HD|]. split; [exact HN|]. split; [exact HN|].
  split; [exact Hlo|]. split; [exact Hhi|]. split; [exact Hx|]. split; [exact Hy|].
  destruct (snake_finder_result Nat.eqb [1; 2; 3]%nat [9; 2; 4]%nat
              (mkStorage 3 (fun i => if i =? 2 then 1 else 0)) 1 2 0
              Hk HD HN HN Hlo Hhi Hx Hy) as (p & Hrun & _).
  exists p. split; [exact Hrun|].
  vm_compute in Hrun. injection Hrun as <-.
  cbn [Snake.add Snake.x Snake.y Snake.u Snake.v].
  repeat (split; [reflexivity|]).
  exists 3%nat, 4%nat. repeat split.
Defined.

(** The two assertions on [[1;2]] and [[3]]. *)
Lemma assertions_hold_witness :
  short_enough 2 1
  /\ differs Nat.eqb (begin [1; 2]%nat) (begin [3]%nat) 0 0
  /\ room (size (allocate 14)) 3 10 (2 + 1)
  /\ (exists data' s,
        find_middle_snake Nat.eqb (advance (begin [1; 2]%nat) 0) 2
                          (advance (begin [3]%nat) 0) 1 3 10 (allocate 14)
        = Done (data', s)
        /\ SnakeLen.d s > 0 /\ SnakeLen.u s <= 2 /\ SnakeLen.v s <= 1)
  /\ exists s, find_diff Nat.eqb [1; 2]%nat [3]%nat = Done s.
Proof.
  assert (Hd : differs Nat.eqb (begin [1; 2]%nat) (begin [3]%nat) 0 0).
  { exists 1%nat, 3%nat. repeat split. }
  assert (Hroom : room (size (allocate 14)) 3 10 (2 + 1))
    by (unfold room; simpl; lia).
  assert (H : short_enough 2 1) by (unfold short_enough, int_max; lia).
  destruct (assertions_hold Nat.eqb) as [Hsnake Hdiff].
  split; [exact H|]. split; [exact Hd|]. split; [exact Hroom|]. split.
  - apply (Hsnake [1; 2]%nat [3]%nat 0 2 0 1 3 10 (allocate 14));
      try exact H; try exact Hd; try exact Hroom; cbn [length]; lia.
  - apply Hdiff. exact H.
Defined.

(** A sequence compared with itself. *)
Lemma equal_sequences_keep_witness :
  short_enough 3 3
  /\ Forall2 (fun x y => Nat.eqb x y = true) [1; 2; 3]%nat [1; 2; 3]%nat
  /\ find_diff Nat.eqb [1; 2; 3]%nat [1; 2; 3]%nat = Done [mkDiff Keep 3 0].
Proof.
  assert (H : Forall2 (fun x y => Nat.eqb x y = true) [1; 2; 3]%nat [1; 2; 3]%nat)
    by (repeat constructor).
  assert (Hfit : short_enough 3 3) by (unfold short_enough, int_max; lia).
  split; [exact Hfit|]. split; [exact H|].
  exact (equal_sequences_keep Nat.eqb [1; 2; 3]%nat [1; 2; 3]%nat Hfit H).
Defined.

(** [[1;2;3]] against the empty sequence. *)
Lemma one_sided_diff_witness :
  short_enough 0 3
  /\ find_diff Nat.eqb [] [1; 2; 3]%nat = Done [mkDiff Add 3 0]
  /\ find_diff Nat.eqb [1; 2; 3]%nat [] = Done [mkDiff Remove 3 0].
Proof.
  assert (H : short_enough 0 3) by (unfold short_enough, int_max; lia).
  split; [exact H|].
  exact (one_sided_diff Nat.eqb 1%nat [2; 3]%nat H).
Defined.

(** No empty record in the script for [[1;2;3]] and [[1;4;3]]. *)
Lemma no_empty_record_witness :
  short_enough 3 3
  /\ append_diff [mkDiff Keep 1 0] (mkDiff Add 0 1) = [mkDiff Keep 1 0]
  /\ exists s,
       find_diff Nat.eqb [1; 2; 3]%nat [1; 4; 3]%nat = Done s
       /\ Forall (fun r => len r <> 0) s.
Proof.
  assert (H : short_enough 3 3) by (unfold short_enough, int_max; lia).
  destruct (no_empty_record Nat.eqb) as [Hskip Hdiff].
  split; [exact H|]. split.
  - apply Hskip.
  - apply (Hdiff [1; 2; 3]%nat [1; 4; 3]%nat H).
Defined.

(** The lengths of the script for [[1;2]] and [[3]]. *)
Lemma lengths_conserved_witness :
  short_enough 2 1
  /\ exists s,
       find_diff Nat.eqb [1; 2]%nat [3]%nat = Done s
       /\ sum_len (fun m => is_Keep m || is_Remove m) s = 2
       /\ sum_len (fun m => is_Keep m || is_Add m) s = 1.
Proof.
  assert (H : short_enough 2 1) by (unfold short_enough, int_max; lia).
  split; [exact H|].
  exact (lengths_conserved Nat.eqb [1; 2]%nat [3]%nat H).
Defined.

(** The example of the paper: the script for ABCABBA and CBABAC has five
    edits. *)
Example find_diff_paper_example :
  find_diff Nat.eqb [1; 2; 3; 1; 2; 2; 1]%nat [3; 2; 1; 2; 1; 3]%nat
  = Done [mkDiff Remove 2 0; mkDiff Keep 1 0; mkDiff Add 1 1; mkDiff Keep 2 0;
          mkDiff Remove 1 0; mkDiff Keep 1 0; mkDiff Add 1 5].
Proof. vm_compute. reflexivity. Qed.

(** * The reference functions *)

Lemma is_dist_unique m x0 y0 x1 y1 c c' :
  is_dist m x0 y0 x1 y1 c -> is_dist m x0 y0 x1 y1 c' -> c = c'.
Proof.
  intros [Hp Hmin] [Hp' Hmin']. apply Hmin in Hp'. apply Hmin' in Hp. lia.
Qed.

Lemma is_dist_iff (m m' : Z -> Z -> Prop) x0 y0 x1 y1 x0' y0' x1' y1' c :
  (forall c', path m x0 y0 x1 y1 c' <-> path m' x0' y0' x1' y1' c') ->
  is_dist m x0 y0 x1 y1 c -> is_dist m' x0' y0' x1' y1' c.
Proof.
  intros Hiff [Hp Hmin]. split; [now apply Hiff|].
  intros c' Hc'. apply Hmin. now apply Hiff.
Qed.

Lemma edit_distance_nil_r {T : Type} (eq : T -> T -> bool) (a : list T) :
  edit_distance eq a [] = Z.of_nat (length a).
Proof. destruct a; reflexivity. Qed.

Section ReferenceFacts.

Context {T : Type}.
Variable eq : T -> T -> bool.

Lemma lcs_cons x (a : list T) y (b : list T) :
  lcs eq (x :: a) (y :: b)
  = let skip_a := lcs eq a (y :: b) in
    let skip_b := lcs eq (x :: a) b in
    if eq x y then Z.max (1 + lcs eq a b) (Z.max skip_a skip_b)
    else Z.max skip_a skip_b.
Proof. reflexivity. Qed.

Lemma lcs_nil_r (a : list T) : lcs eq a [] = 0.
Proof. destruct a; reflexivity. Qed.

(** Every element that is not on a longest common subsequence is removed
    or added. *)
Lemma lcs_edit_distance (a b : list T) :
  edit_distance eq a b + 2 * lcs eq a b
  = Z.of_nat (length a) + Z.of_nat (length b).
Proof.
  revert b. induction a as [|x a IHa]; intros b.
  - cbn [edit_distance lcs length]. lia.
  - induction b as [|y b IHb].
    + rewrite edit_distance_nil_r, lcs_nil_r. cbn [length]. lia.
    + rewrite edit_distance_cons, lcs_cons. cbv zeta.
      pose proof (IHa (y :: b)) as Hdel. pose proof (IHa b) as Hdiag.
      cbn [length] in *.
      destruct (eq x y); lia.
Qed.

Lemma lcs_bounds (a b : list T) :
  0 <= lcs eq a b
  /\ lcs eq a b <= Z.of_nat (length a) /\ lcs eq a b <= Z.of_nat (length b).
Proof.
  revert b. induction a as [|x a IHa]; intros b.
  - cbn [lcs length]. lia.
  - induction b as [|y b IHb].
    + rewrite lcs_nil_r. cbn [length]. lia.
    + rewrite lcs_cons. cbv zeta.
      pose proof (IHa (y :: b)) as Hdel. pose proof (IHa b) as Hdiag.
      cbn [length] in *.
      destruct (eq x y); lia.
Qed.

(** Reading the two sequences in the other order swaps insertions and
    deletions. *)
Lemma edit_distance_swap (a b : list T) :
  edit_distance eq a b = edit_distance (fun x y => eq y x) b a.
Proof.
  revert b. induction a as [|x a IHa]; intros b.
  - rewrite edit_distance_nil_r. reflexivity.
  - induction b as [|y b IHb].
    + reflexivity.
    + rewrite !edit_distance_cons. cbv zeta.
      rewrite <- IHb, <- (IHa (y :: b)), <- (IHa b).
      destruct (eq x y); lia.
Qed.

(** ** Parts of the sequences *)

Lemma begin_app_l (p l : list T) i :
  0 <= i < Z.of_nat (length p) -> begin (p ++ l) i = begin p i.
Proof.
  intros Hi. unfold begin.
  destruct (Z.ltb_spec i 0); [lia|].
  rewrite nth_error_app1 by lia. reflexivity.
Qed.

Lemma path_prefix (A B tA tB : list T) x y c :
  x <= Z.of_nat (length A) -> y <= Z.of_nat (length B) ->
  path (matches eq (begin (A ++ tA)) (begin (B ++ tB))) 0 0 x y c
  <-> path (matches eq (begin A) (begin B)) 0 0 x y c.
Proof.
  intros Hx Hy. split; apply path_weaken; intros i j Hi Hj (p & q & Hp & Hq & Hpq);
    exists p, q.
  - rewrite !begin_app_l in * by lia. auto.
  - rewrite !begin_app_l by lia. auto.
Qed.

Lemma slice_length (l : list T) i j :
  0 <= i <= j -> j <= Z.of_nat (length l) ->
  Z.of_nat (length (slice l i j)) = j - i.
Proof.
  intros Hi Hj. unfold slice. rewrite length_firstn, length_skipn. lia.
Qed.

Lemma slice_split (l : list T) i j :
  0 <= i <= j -> j <= Z.of_nat (length l) ->
  l = firstn (Z.to_nat i) l ++ slice l i j ++ skipn (Z.to_nat j) l.
Proof.
  intros Hi Hj. unfold slice.
  rewrite <- (firstn_skipn (Z.to_nat i) l) at 1. f_equal.
  rewrite <- (firstn_skipn (Z.to_nat (j - i)) (skipn (Z.to_nat i) l)) at 1.
  f_equal. rewrite skipn_skipn. f_equal. lia.
Qed.

Lemma slice_all (l : list T) : slice l 0 (Z.of_nat (length l)) = l.
Proof.
  unfold slice. cbn [Z.to_nat skipn]. rewrite Z.sub_0_r, Nat2Z.id.
  apply firstn_all.
Qed.

Lemma slice_from_0 (l : list T) j : slice l 0 j = firstn (Z.to_nat j) l.
Proof. unfold slice. now rewrite Z.sub_0_r. Qed.

Lemma slice_to_end (l : list T) i :
  0 <= i <= Z.of_nat (length l) ->
  slice l i (Z.of_nat (length l)) = skipn (Z.to_nat i) l.
Proof.
  intros Hi. unfold slice. apply firstn_all2. rewrite length_skipn. lia.
Qed.

(** The paths of a rectangle of the edit graph are the paths of the edit
    graph of the two parts it spans. *)
Lemma path_slice (A B : list T) x0 x1 y0 y1 c :
  0 <= x0 <= x1 -> x1 <= Z.of_nat (length A) ->
  0 <= y0 <= y1 -> y1 <= Z.of_nat (length B) ->
  path (matches eq (begin (slice A x0 x1)) (begin (slice B y0 y1)))
       0 0 (x1 - x0) (y1 - y0) c
  <-> path (matches eq (begin A) (begin B)) x0 y0 x1 y1 c.
Proof.
  intros Hx0 Hx1 Hy0 Hy1.
  rewrite <- (path_prefix (slice A x0 x1) (slice B y0 y1)
                (skipn (Z.to_nat x1) A) (skipn (Z.to_nat y1) B))
    by (rewrite slice_length; lia).
  rewrite (path_tail eq (firstn (Z.to_nat x0) A) (firstn (Z.to_nat y0) B)).
  rewrite <- !slice_split by lia.
  rewrite !length_firstn.
  replace (Z.of_nat (Init.Nat.min (Z.to_nat x0) (length A))) with x0 by lia.
  replace (Z.of_nat (Init.Nat.min (Z.to_nat y0) (length B))) with y0 by lia.
  replace (x0 + (x1 - x0)) with x1 by lia.
  replace (y0 + (y1 - y0)) with y1 by lia.
  reflexivity.
Qed.

Lemma is_dist_slice (A B : list T) x0 x1 y0 y1 :
  0 <= x0 <= x1 -> x1 <= Z.of_nat (length A) ->
  0 <= y0 <= y1 -> y1 <= Z.of_nat (length B) ->
  is_dist (matches eq (begin A) (begin B)) x0 y0 x1 y1
          (edit_distance eq (slice A x0 x1) (slice B y0 y1)).
Proof.
  intros Hx0 Hx1 Hy0 Hy1.
  pose proof (edit_distance_spec eq (slice A x0 x1) (slice B y0 y1)) as Hd.
  rewrite !slice_length in Hd by lia.
  eapply is_dist_iff; [|exact Hd].
  intros c. now apply path_slice.
Qed.

(** ** The common prefix *)

Lemma common_prefix_spec (A B : list T) :
  let n := Z.of_nat (common_prefix eq A B) in
  n <= Z.of_nat (length A) /\ n <= Z.of_nat (length B)
  /\ (forall i, 0 <= i < n -> matches eq (begin A) (begin B) i i)
  /\ ~ matches eq (begin A) (begin B) n n.
Proof.
  revert B. induction A as [|x A IH]; intros [|y B]; cbn [common_prefix length];
    try (cbv zeta; splits; try lia;
         intros (p & q & Hp & Hq & _); cbn in Hp, Hq; discriminate).
  destruct (eq x y) eqn:Hxy; cbv zeta.
  - destruct (IH B) as (HA & HB & Hall & Hstop).
    set (n := Z.of_nat (common_prefix eq A B)) in *.
    replace (Z.of_nat (S (common_prefix eq A B))) with (1 + n) by lia.
    assert (Hshift : forall i, 0 <= i ->
              (matches eq (begin (x :: A)) (begin (y :: B)) (1 + i) (1 + i)
               <-> matches eq (begin A) (begin B) i i)).
    { intros i Hi. unfold matches.
      pose proof (begin_app [x] A i Hi) as HxA.
      pose proof (begin_app [y] B i Hi) as HyB.
      cbn [length app] in HxA, HyB. change (Z.of_nat 1) with 1 in HxA, HyB.
      rewrite HxA, HyB. reflexivity. }
    splits; try lia.
    + intros i Hi. destruct (Z.eq_dec i 0) as [->|Hne].
      * exists x, y. auto.
      * replace i with (1 + (i - 1)) by lia. apply Hshift; [lia|].
        apply Hall. lia.
    + intros H. apply Hshift in H; [|lia]. now apply Hstop.
  - splits; try lia.
    intros (p & q & [= ->] & [= ->] & H). congruence.
Qed.

End ReferenceFacts.

(** * More on the Edit-Script Accumulator *)

(** What [append_diff] does, by cases: it skips an empty record, extends
    the last record, or pushes the new one. *)
Lemma append_diff_cases s r :
  (len r = 0 /\ append_diff s r = s)
  \/ (len r <> 0 /\ back_mode s <> Some (mode r) /\ append_diff s r = s ++ [r])
  \/ (len r <> 0
      /\ exists f k, s = f ++ [k] /\ mode k = Add /\ mode r = Add
                     /\ posB k + len k <> posB r
                     /\ append_diff s r = s ++ [r])
  \/ (len r <> 0
      /\ exists f k, s = f ++ [k] /\ mode k = mode r
                     /\ (mode r <> Add \/ posB k + len k = posB r)
                     /\ append_diff s r
                        = f ++ [mkDiff (mode k) (len k + len r) (posB k)]).
Proof.
  destruct (Z.eq_dec (len r) 0) as [Hz|Hnz].
  { left. split; [exact Hz|]. now apply append_diff_skip. }
  right.
  destruct s as [|k f] using rev_ind.
  { left. splits; auto.
    - rewrite back_mode_nil. discriminate.
    - apply append_diff_push; [exact Hnz|]. rewrite back_mode_nil. discriminate. }
  clear IHf.
  destruct (Mode_eqb_spec (mode k) (mode r)) as [Hmode|Hmode].
  - destruct (Mode_eqb_spec (mode r) Add) as [Hadd|Hadd].
    + destruct (Z.eq_dec (posB k + len k) (posB r)) as [Hpos|Hpos].
      * right; right. split; [exact Hnz|]. exists f, k. splits; auto.
        apply append_diff_merge; auto.
      * right; left. split; [exact Hnz|]. exists f, k. splits; auto; try congruence.
        rewrite append_diff_merge_other by auto. now rewrite app_assoc.
    + right; right. split; [exact Hnz|]. exists f, k. splits; auto.
      apply append_diff_merge; auto.
  - left. split; [exact Hnz|].
    assert (Hback : back_mode (f ++ [k]) <> Some (mode r))
      by (rewrite back_mode_snoc; congruence).
    split; [exact Hback|]. now apply append_diff_push.
Qed.

Lemma compact_modes (s s' : list Diff) :
  map mode s = map mode s' -> compact s -> compact s'.
Proof.
  revert s'. induction s as [|r1 [|r2 s] IH]; intros [|r1' [|r2' s']] Hmap Hc;
    try discriminate; try exact I.
  cbn [map] in Hmap. injection Hmap as H1 H2 Hrest.
  destruct Hc as [Hne Hc]. split; [congruence|].
  apply IH; [|exact Hc]. cbn [map]. congruence.
Qed.

Section RunningScripts.

Context {T : Type}.

Lemma run_script_one (r : Diff) (a b : list T) :
  run_script [r] a b
  = let n := Z.to_nat (len r) in
    match mode r with
    | Keep => if (0 <=? len r) && (len r <=? Z.of_nat (length a))
              then Some (firstn n a, skipn n a) else None
    | Remove => if (0 <=? len r) && (len r <=? Z.of_nat (length a))
                then Some ([], skipn n a) else None
    | Add => if (0 <=? len r) && (0 <=? posB r)
                && (posB r + len r <=? Z.of_nat (length b))
             then Some (firstn n (skipn (Z.to_nat (posB r)) b), a) else None
    end.
Proof.
  cbn [run_script]. cbv zeta.
  destruct (mode r);
    match goal with |- context [if ?c then _ else _] => destruct c end;
    rewrite ?app_nil_r; reflexivity.
Qed.

(** Two records that [append_diff] merges mean what the merged record
    means. *)
Lemma run_script_merged (k r : Diff) (a b : list T) res :
  mode k = mode r ->
  (mode r <> Add \/ posB k + len k = posB r) ->
  match run_script [k] a b with
  | Some (out1, rest) =>
      match run_script [r] rest b with
      | Some (out2, rest') => Some (out1 ++ out2, rest')
      | None => None
      end
  | None => None
  end = Some res ->
  run_script [mkDiff (mode k) (len k + len r) (posB k)] a b = Some res.
Proof.
  intros Hmode Hpos.
  rewrite (run_script_one k), (run_script_one (mkDiff _ _ _)). cbv zeta.
  cbn [mode len posB].
  destruct (mode k) eqn:Hk.
  - (* Keep *)
    destruct (Z.leb_spec 0 (len k)) as [Hk0|]; [|discriminate].
    destruct (Z.leb_spec (len k) (Z.of_nat (length a))) as [Hka|]; [|discriminate].
    cbn [andb]. rewrite run_script_one. cbv zeta. rewrite <- Hmode, length_skipn.
    destruct (Z.leb_spec 0 (len r)) as [Hr0|]; [|discriminate].
    destruct (Z.leb_spec (len r) (Z.of_nat (length a - Z.to_nat (len k))))
      as [Hra|]; [|discriminate].
    cbn [andb]. intros [= <-].
    destruct (Z.leb_spec 0 (len k + len r)); [|lia].
    destruct (Z.leb_spec (len k + len r) (Z.of_nat (length a))); [|lia].
    cbn [andb]. rewrite Z2Nat.inj_add by lia.
    rewrite firstn_plus, skipn_skipn.
    do 3 f_equal. lia.
  - (* Add *)
    destruct Hpos as [Hpos|Hpos]; [congruence|].
    destruct (Z.leb_spec 0 (len k)) as [Hk0|]; [|discriminate].
    destruct (Z.leb_spec 0 (posB k)) as [Hkp|]; [|discriminate].
    destruct (Z.leb_spec (posB k + len k) (Z.of_nat (length b))) as [Hkb|];
      [|discriminate].
    cbn [andb]. rewrite run_script_one. cbv zeta. rewrite <- Hmode.
    destruct (Z.leb_spec 0 (len r)) as [Hr0|]; [|discriminate].
    destruct (Z.leb_spec 0 (posB r)) as [Hrp|]; [|discriminate].
    destruct (Z.leb_spec (posB r + len r) (Z.of_nat (length b))) as [Hrb|];
      [|discriminate].
    cbn [andb]. intros [= <-].
    destruct (Z.leb_spec 0 (len k + len r)); [|lia].
    destruct (Z.leb_spec (posB k + (len k + len r)) (Z.of_nat (length b))); [|lia].
    cbn [andb]. rewrite Z2Nat.inj_add by lia.
    rewrite firstn_plus, skipn_skipn.
    replace (Z.to_nat (len k) + Z.to_nat (posB k))%nat with (Z.to_nat (posB r))
      by lia.
    reflexivity.
  - (* Remove *)
    destruct (Z.leb_spec 0 (len k)) as [Hk0|]; [|discriminate].
    destruct (Z.leb_spec (len k) (Z.of_nat (length a))) as [Hka|]; [|discriminate].
    cbn [andb]. rewrite run_script_one. cbv zeta. rewrite <- Hmode, length_skipn.
    destruct (Z.leb_spec 0 (len r)) as [Hr0|]; [|discriminate].
    destruct (Z.leb_spec (len r) (Z.of_nat (length a - Z.to_nat (len k))))
      as [Hra|]; [|discriminate].
    cbn [andb]. intros [= <-].
    destruct (Z.leb_spec 0 (len k + len r)); [|lia].
    destruct (Z.leb_spec (len k + len r) (Z.of_nat (length a))); [|lia].
    cbn [andb]. rewrite Z2Nat.inj_add by lia.
    rewrite skipn_skipn.
    do 3 f_equal. lia.
Qed.

Lemma run_script_empty_record (r : Diff) (a b : list T) res :
  len r = 0 -> run_script [r] a b = Some res -> res = ([], a).
Proof.
  intros Hz. rewrite run_script_one. cbv zeta. rewrite Hz. cbn [Z.to_nat firstn skipn].
  destruct (mode r);
    match goal with |- context [if ?c then _ else _] => destruct c end;
    congruence.
Qed.

Lemma run_script_append (s : list Diff) (r : Diff) (a b : list T) res :
  run_script (s ++ [r]) a b = Some res ->
  run_script (append_diff s r) a b = Some res.
Proof.
  intros Hrun.
  destruct (append_diff_cases s r)
    as [[Hz ->]|[(_ & _ & ->)|[(_ & f & k & _ & _ & _ & _ & ->)
                               |(_ & f & k & -> & Hmode & Hpos & ->)]]];
    try exact Hrun.
  - (* an empty record *)
    rewrite run_script_app in Hrun.
    destruct (run_script s a b) as [[out1 rest]|]; [|discriminate].
    destruct (run_script [r] rest b) as [res2|] eqn:Hr; [|discriminate].
    apply (run_script_empty_record _ _ _ _ Hz) in Hr. subst res2.
    rewrite app_nil_r in Hrun. exact Hrun.
  - (* a merged record *)
    rewrite <- app_assoc in Hrun. rewrite run_script_app in Hrun |- *.
    destruct (run_script f a b) as [[out1 rest]|]; [|discriminate].
    change ([k] ++ [r]) with ([k] ++ [r]) in Hrun.
    rewrite run_script_app in Hrun.
    destruct (match run_script [k] rest b with
              | Some (out1, rest0) =>
                  match run_script [r] rest0 b with
                  | Some (out2, rest') => Some (out1 ++ out2, rest')
                  | None => None
                  end
              | None => None
              end) as [[out2 rest']|] eqn:Hkr; [|discriminate].
    rewrite (run_script_merged _ _ _ _ _ Hmode Hpos Hkr). exact Hrun.
Qed.

End RunningScripts.

Lemma append_diff_compact s r :
  compact s ->
  (forall f k, s = f ++ [k] -> mode k = Add -> mode r = Add ->
               posB k + len k = posB r) ->
  compact (append_diff s r).
Proof.
  intros Hc Hadd.
  destruct (append_diff_cases s r)
    as [[_ ->]|[(_ & Hback & ->)|[(_ & f & k & Hs & Hk & Hr & Hpos & _)
                                  |(_ & f & k & -> & Hmode & _ & ->)]]].
  - exact Hc.
  - now apply compact_snoc.
  - exfalso. apply Hpos. now apply (Hadd f k).
  - eapply compact_modes; [|exact Hc]. now rewrite !map_app.
Qed.

Lemma append_diff_positive s r :
  Forall (fun k => 0 < len k) s -> 0 <= len r ->
  Forall (fun k => 0 < len k) (append_diff s r).
Proof.
  intros Hs Hr.
  destruct (append_diff_cases s r)
    as [[_ ->]|[(Hnz & _ & ->)|[(Hnz & f & k & _ & _ & _ & _ & ->)
                                |(Hnz & f & k & -> & _ & _ & ->)]]].
  - exact Hs.
  - apply Forall_app. split; [exact Hs|]. constructor; [lia|constructor].
  - apply Forall_app. split; [exact Hs|]. constructor; [lia|constructor].
  - apply Forall_app in Hs. destruct Hs as [Hf Hk].
    apply Forall_app. split; [exact Hf|].
    inversion Hk; subst. constructor; [cbn [len]; lia|constructor].
Qed.

(** * More on the two searches *)

(** ** What a computation that returns has done *)

Lemma bind_Done {A B : Type} (c : outcome A) (k : A -> outcome B) x :
  bind c k = Done x -> exists a, c = Done a /\ k a = Done x.
Proof. destruct c; cbn [bind]; try discriminate. eauto. Qed.

Lemma load_Done d i z : load d i = Done z -> 0 <= i < size d /\ z = cell d i.
Proof.
  unfold load. destruct (in_storage d i) eqn:Hin; [|discriminate].
  intros [= <-]. split; [now apply in_storage_iff|reflexivity].
Qed.

Lemma store_Done d i x d' :
  store d i x = Done d' ->
  0 <= i < size d /\ size d' = size d /\ cell d' i = x
  /\ forall j, j <> i -> cell d' j = cell d j.
Proof.
  unfold store. destruct (in_storage d i) eqn:Hin; [|discriminate].
  intros [= <-]. cbn [size cell]. split; [now apply in_storage_iff|].
  split; [reflexivity|]. split; [now rewrite Z.eqb_refl|].
  intros j Hj. destruct (Z.eqb_spec j i); [contradiction|reflexivity].
Qed.

Lemma for_each_preserves {S R : Type} (Rel : S -> S -> Prop) ks
    (body : Z -> S -> outcome (S * option R)) :
  (forall s, Rel s s) ->
  (forall s1 s2 s3, Rel s1 s2 -> Rel s2 s3 -> Rel s1 s3) ->
  (forall k s s' r, In k ks -> body k s = Done (s', r) -> Rel s s') ->
  forall s s' r, for_each ks body s = Done (s', r) -> Rel s s'.
Proof.
  intros Hrefl Htrans. induction ks as [|k ks IH]; intros Hbody s s' r Hrun.
  - injection Hrun as <- _. apply Hrefl.
  - cbn [for_each] in Hrun. apply bind_Done in Hrun as ([s1 r1] & Hk & Hrun).
    pose proof (Hbody k s s1 r1 (or_introl eq_refl) Hk) as H1.
    destruct r1 as [x|].
    + injection Hrun as <- _. exact H1.
    + apply (Htrans _ s1); [exact H1|].
      apply (IH (fun k' s0 s0' r0 Hin => Hbody k' s0 s0' r0 (or_intror Hin)) _ _ _ Hrun).
Qed.

Lemma for_each_Some {S R : Type} ks (body : Z -> S -> outcome (S * option R)) :
  forall s s' x, for_each ks body s = Done (s', Some x) ->
  exists k s0, In k ks /\ body k s0 = Done (s', Some x).
Proof.
  induction ks as [|k ks IH]; intros s s' x Hrun; [discriminate|].
  cbn [for_each] in Hrun. apply bind_Done in Hrun as ([s1 r1] & Hk & Hrun).
  destruct r1 as [x1|].
  - injection Hrun as <- <-. exists k, s. split; [now left|exact Hk].
  - destruct (IH _ _ _ Hrun) as (k' & s0 & Hin & Hk').
    exists k', s0. split; [now right|exact Hk'].
Qed.

Lemma range_In lo hi step k :
  0 < step -> In k (range lo hi step) -> lo <= k <= hi.
Proof.
  intros Hstep. unfold range. destruct (Z.leb_spec lo hi) as [Hle|]; [|contradiction].
  rewrite in_map_iff. intros (i & <- & Hi). apply in_seq in Hi.
  pose proof (Z.mul_div_le (hi - lo) step Hstep) as Hdiv.
  assert (0 <= (hi - lo) / step) by (apply Z.div_pos; lia).
  nia.
Qed.

Lemma differs_only_at_refl P d : differs_only_at P d d.
Proof. split; auto. Qed.

Lemma differs_only_at_trans P d1 d2 d3 :
  differs_only_at P d1 d2 -> differs_only_at P d2 d3 -> differs_only_at P d1 d3.
Proof.
  intros [Hs1 Hc1] [Hs2 Hc2]. split; [congruence|].
  intros i Hi. rewrite Hc2, Hc1 by assumption. reflexivity.
Qed.

Lemma differs_only_at_store (P : Z -> Prop) d i x d' :
  store d i x = Done d' -> P i -> differs_only_at P d d'.
Proof.
  intros Hst HP. apply store_Done in Hst as (_ & Hsz & _ & Hother).
  split; [exact Hsz|]. intros j Hj. apply Hother. intros ->. contradiction.
Qed.

Lemma differs_only_at_weaken (P Q : Z -> Prop) d d' :
  (forall i, P i -> Q i) -> differs_only_at P d d' -> differs_only_at Q d d'.
Proof.
  intros HPQ [Hsz Hc]. split; [exact Hsz|]. intros i Hi. apply Hc. auto.
Qed.

(** ** The two sides of a middle snake *)

Lemma path_step_snake (m : Z -> Z -> Prop) s :
  0 <= SnakeLen.u s - SnakeLen.x s ->
  SnakeLen.u s - SnakeLen.x s = SnakeLen.v s - SnakeLen.y s ->
  (forall i, 0 <= i < SnakeLen.u s - SnakeLen.x s ->
     m (SnakeLen.x s + i) (SnakeLen.y s + i)) ->
  path m (fst (before_snake s)) (snd (before_snake s))
         (fst (after_snake s)) (snd (after_snake s)) 1.
Proof.
  intros Hlen Hdiag Hrun. unfold before_snake, after_snake. cbn [fst snd].
  pose proof (path_snake m (SnakeLen.x s) (SnakeLen.y s)
                (SnakeLen.u s - SnakeLen.x s) Hlen Hrun) as Hsn.
  destruct (SnakeLen.reverse s), (SnakeLen.add s).
  - pose proof (path_vline m (SnakeLen.u s) (SnakeLen.v s) 1 ltac:(lia)) as He.
    assert (Hsn' : path m (SnakeLen.x s) (SnakeLen.y s)
                        (SnakeLen.u s) (SnakeLen.v s) 0) by path_from Hsn.
    pose proof (path_trans _ _ _ _ _ _ _ _ _ Hsn' He) as Hp. path_from Hp.
  - pose proof (path_hline m (SnakeLen.u s) (SnakeLen.v s) 1 ltac:(lia)) as He.
    assert (Hsn' : path m (SnakeLen.x s) (SnakeLen.y s)
                        (SnakeLen.u s) (SnakeLen.v s) 0) by path_from Hsn.
    pose proof (path_trans _ _ _ _ _ _ _ _ _ Hsn' He) as Hp. path_from Hp.
  - pose proof (path_vline m (SnakeLen.x s) (SnakeLen.y s - 1) 1 ltac:(lia)) as He.
    assert (Hsn' : path m (SnakeLen.x s) (SnakeLen.y s - 1 + 1)
                        (SnakeLen.u s) (SnakeLen.v s) 0) by path_from Hsn.
    pose proof (path_trans _ _ _ _ _ _ _ _ _ He Hsn') as Hp. path_from Hp.
  - pose proof (path_hline m (SnakeLen.x s - 1) (SnakeLen.y s) 1 ltac:(lia)) as He.
    assert (Hsn' : path m (SnakeLen.x s - 1 + 1) (SnakeLen.y s)
                        (SnakeLen.u s) (SnakeLen.v s) 0) by path_from Hsn.
    pose proof (path_trans _ _ _ _ _ _ _ _ _ He Hsn') as Hp. path_from Hp.
Qed.

(** A middle snake cuts a shortest path into two shortest paths and one
    edit. *)
Lemma middle_snake_parts (m : Z -> Z -> Prop) N M s :
  middle_snake m N M s ->
  exists c1 c2,
    c1 + 1 + c2 = SnakeLen.d s
    /\ is_dist m 0 0 (fst (before_snake s)) (snd (before_snake s)) c1
    /\ is_dist m (fst (after_snake s)) (snd (after_snake s)) N M c2
    /\ 0 <= fst (before_snake s) <= fst (after_snake s)
    /\ fst (after_snake s) <= N
    /\ 0 <= snd (before_snake s) <= snd (after_snake s)
    /\ snd (after_snake s) <= M.
Proof.
  intros (Hdist & Hd & Hx & HuN & Hy & HvM & Hdiag & Hrun & c1 & c2 & Hsum & Hsplit).
  pose proof (path_step_snake m s ltac:(lia) Hdiag Hrun) as Hacross.
  assert (Hparts : path m 0 0 (fst (before_snake s)) (snd (before_snake s)) c1
                   /\ path m (fst (after_snake s)) (snd (after_snake s)) N M c2).
  { unfold before_snake, after_snake in *. cbn [fst snd] in *.
    destruct (SnakeLen.reverse s).
    - destruct Hsplit as (_ & Hp1 & Hp2). split; [path_from Hp1|].
      destruct (SnakeLen.add s); path_from Hp2.
    - destruct Hsplit as (Hp1 & Hp2 & _). split; [|path_from Hp2].
      destruct (SnakeLen.add s); path_from Hp1. }
  destruct Hparts as [Hp1 Hp2]. destruct Hdist as [_ Hmin].
  exists c1, c2. split; [exact Hsum|].
  destruct (path_bounds _ _ _ _ _ _ Hp1) as (h1 & v1 & j1 & ?).
  destruct (path_bounds _ _ _ _ _ _ Hp2) as (h2 & v2 & j2 & ?).
  destruct (path_bounds _ _ _ _ _ _ Hacross) as (h3 & v3 & j3 & ?).
  splits; try lia.
  - split; [exact Hp1|]. intros c' Hc'.
    pose proof (path_trans _ _ _ _ _ _ _ _ _
                  (path_trans _ _ _ _ _ _ _ _ _ Hc' Hacross) Hp2) as Hall.
    apply Hmin in Hall. lia.
  - split; [exact Hp2|]. intros c' Hc'.
    pose proof (path_trans _ _ _ _ _ _ _ _ _
                  (path_trans _ _ _ _ _ _ _ _ _ Hp1 Hacross) Hc') as Hall.
    apply Hmin in Hall. lia.
Qed.

Section SearchFacts.

Context {T : Type}.
Variable eq : T -> T -> bool.

(** ** The Snake Finder *)

Lemma follow_snake_stop fuel (a : Iterator T) N (b : Iterator T) M u v :
  (u <? N) && (v <? M) = false ->
  follow_snake eq fuel a N b M u v = Done (u, v).
Proof.
  intros H. destruct fuel; cbn [follow_snake]; rewrite H; reflexivity.
Qed.

Lemma follow_snake_mono fuel (a : Iterator T) N (b : Iterator T) M :
  forall u v u' v',
    follow_snake eq fuel a N b M u v = Done (u', v') ->
    u <= u' /\ v' - v = u' - u.
Proof.
  induction fuel as [|fuel IH]; intros u v u' v' H; cbn [follow_snake] in H;
    (destruct ((u <? N) && (v <? M)); [|injection H as <- <-; lia]);
    apply bind_Done in H as (au & _ & H);
    apply bind_Done in H as (bv & _ & H);
    (destruct (eq au bv); [|injection H as <- <-; lia]).
  - discriminate.
  - apply IH in H. lia.
Qed.

Lemma finder_Done (a : Iterator T) N (b : Iterator T) M data V D k p :
  find_end_snake_of_further_reaching_dpath eq a N b M data V D k = Done p ->
  Snake.add p = takes_vertical (view data V) D k
  /\ Snake.x p = snake_start (view data V) D k
  /\ Snake.y p = Snake.x p - k
  /\ follow_snake eq (Z.to_nat (N - Snake.x p)) a N b M (Snake.x p) (Snake.y p)
     = Done (Snake.u p, Snake.v p).
Proof.
  intros H. unfold find_end_snake_of_further_reaching_dpath in H.
  apply bind_Done in H as (add0 & Hadd & H).
  apply bind_Done in H as (x0 & Hx & H).
  apply bind_Done in H as ([u0 v0] & Hf & H). injection H as <-.
  cbn [Snake.add Snake.x Snake.y Snake.u Snake.v].
  assert (add0 = takes_vertical (view data V) D k) as ->.
  { unfold takes_vertical. destruct (k =? - D).
    - now injection Hadd.
    - destruct (k =? D); cbn [negb orb andb] in *.
      + now injection Hadd.
      + apply bind_Done in Hadd as (l & Hl & Hadd).
        apply bind_Done in Hadd as (r & Hr & Hadd). injection Hadd as <-.
        apply load_Done in Hl as [_ ->]. apply load_Done in Hr as [_ ->].
        reflexivity. }
  assert (x0 = snake_start (view data V) D k) as ->.
  { unfold snake_start. destruct (takes_vertical (view data V) D k).
    - apply load_Done in Hx as [_ ->]. reflexivity.
    - apply bind_Done in Hx as (l & Hl & Hx). injection Hx as <-.
      apply load_Done in Hl as [_ ->]. reflexivity. }
  splits; auto.
Qed.

(** The finder never goes backwards and never leaves its diagonal. *)
Lemma finder_forward (a : Iterator T) N (b : Iterator T) M data V D k p :
  find_end_snake_of_further_reaching_dpath eq a N b M data V D k = Done p ->
  Snake.x p <= Snake.u p /\ Snake.v p - Snake.y p = Snake.u p - Snake.x p.
Proof.
  intros H. apply finder_Done in H as (_ & _ & _ & H).
  now apply follow_snake_mono in H.
Qed.

(** Two arrays that hold the same front lead the finder to the same
    snake. *)
Lemma primed_start m D (W W' : Array) k :
  primed m D W -> primed m D W' -> on_front D k ->
  takes_vertical W D k = takes_vertical W' D k
  /\ snake_start W D k = snake_start W' D k.
Proof.
  intros [[HD HW]|[HD HW]] [[HD' HW']|[HD' HW']] Hk; try lia.
  - (* distance 0 *)
    destruct Hk as (i & Hi & ->). subst D. assert (i = 0) as -> by lia.
    unfold snake_start, takes_vertical. cbn. split; congruence.
  - (* the front of the distance before *)
    unfold snake_start, takes_vertical.
    destruct (Z.eqb_spec k (- D)) as [Hlo|Hlo]; cbn [orb].
    + split; [reflexivity|].
      assert (Hr : on_front (D - 1) (k + 1)) by (apply on_front_pred_right; auto; lia).
      apply (furthest_unique m (D - 1) (k + 1)); auto.
    + destruct (Z.eqb_spec k D) as [Hhi|Hhi]; cbn [negb andb].
      * split; [reflexivity|].
        assert (Hl : on_front (D - 1) (k - 1)) by (apply on_front_pred_left; auto).
        f_equal. apply (furthest_unique m (D - 1) (k - 1)); auto.
      * assert (Hl : on_front (D - 1) (k - 1)) by (apply on_front_pred_left; auto).
        assert (Hr : on_front (D - 1) (k + 1)) by (apply on_front_pred_right; auto).
        rewrite (furthest_unique m _ _ _ _ (HW _ Hl) (HW' _ Hl)).
        rewrite (furthest_unique m _ _ _ _ (HW _ Hr) (HW' _ Hr)).
        split; reflexivity.
Qed.

Lemma finder_same (a : Iterator T) N (b : Iterator T) M d V d' V' D k p p' :
  primed (grid eq a N b M) D (view d V) ->
  primed (grid eq a N b M) D (view d' V') ->
  on_front D k ->
  find_end_snake_of_further_reaching_dpath eq a N b M d V D k = Done p ->
  find_end_snake_of_further_reaching_dpath eq a N b M d' V' D k = Done p' ->
  p = p'.
Proof.
  intros HW HW' Hk Hp Hp'.
  destruct (primed_start _ _ _ _ _ HW HW' Hk) as [Hadd Hstart].
  apply finder_Done in Hp as (Ha & Hx & Hy & Hf).
  apply finder_Done in Hp' as (Ha' & Hx' & Hy' & Hf').
  destruct p as [x y u v add], p' as [x' y' u' v' add'].
  cbn [Snake.add Snake.x Snake.y Snake.u Snake.v] in *.
  assert (Hxx : x' = x) by congruence.
  assert (Haa : add' = add) by congruence.
  assert (Hyy : y' = y) by congruence.
  rewrite Hxx, Hyy in Hf'. rewrite Hf in Hf'. injection Hf' as <- <-.
  rewrite Hxx, Hyy, Haa. reflexivity.
Qed.

(** ** The Middle Snake Search *)

Lemma forward_result_unique (a : Iterator T) N (b : Iterator T) M V1 W1 s s' :
  forward_result eq a N b M V1 s -> forward_result eq a N b M W1 s' -> s = s'.
Proof.
  intros (_ & Hrev & D & k & d & Hd & Hprimed & Hrun & _ & Hcross & Hfirst)
         (_ & Hrev' & D' & k' & d' & Hd' & Hprimed' & Hrun' & _ & Hcross' & Hfirst').
  pose proof (Hfirst _ _ Hcross') as H1. pose proof (Hfirst' _ _ Hcross) as H2.
  assert (D' = D) as -> by lia. assert (k' = k) as -> by lia.
  destruct Hcross as (Hk & _).
  pose proof (finder_same _ _ _ _ _ _ _ _ _ _ _ _ Hprimed Hprimed' Hk Hrun Hrun')
    as Hsnake.
  destruct s as [p r x], s' as [p' r' x'].
  cbn [SnakeLen.snake SnakeLen.reverse SnakeLen.d] in *. congruence.
Qed.

Lemma reverse_result_unique (a : Iterator T) N (b : Iterator T) M V2 W2 s s' :
  reverse_result eq a N b M V2 s -> reverse_result eq a N b M W2 s' -> s = s'.
Proof.
  intros (_ & Hrev & D & k & d & p & Hd & Hprimed & Hrun & _ & Hs & Hcross & Hfirst)
         (_ & Hrev' & D' & k' & d' & p' & Hd' & Hprimed' & Hrun' & _ & Hs'
          & Hcross' & Hfirst').
  pose proof (Hfirst _ _ Hcross') as H1. pose proof (Hfirst' _ _ Hcross) as H2.
  assert (D' = D) as -> by lia. assert (k' = k) as -> by lia.
  destruct Hcross as (Hk & _).
  pose proof (finder_same _ _ _ _ _ _ _ _ _ _ _ _ Hprimed Hprimed' Hk Hrun Hrun')
    as Hsnake. subst p'.
  destruct s as [q r x], s' as [q' r' x'].
  cbn [SnakeLen.snake SnakeLen.reverse SnakeLen.d] in *. congruence.
Qed.

Lemma middle_snake_result_unique (a : Iterator T) N (b : Iterator T) M
    V1 V2 W1 W2 s s' :
  forward_result eq a N b M V1 s \/ reverse_result eq a N b M V2 s ->
  forward_result eq a N b M W1 s' \/ reverse_result eq a N b M W2 s' ->
  s = s'.
Proof.
  intros [Hf|Hr] [Hf'|Hr'].
  - eapply forward_result_unique; eassumption.
  - destruct Hf as (Hodd & _), Hr' as (Heven & _). contradiction.
  - destruct Hr as (Heven & _), Hf' as (Hodd & _). contradiction.
  - eapply reverse_result_unique; eassumption.
Qed.

(** *** The cells that the search writes *)

Lemma forward_step_writes (a : Iterator T) N (b : Iterator T) M delta D V1 V2 k d d' r :
  forward_step eq a N b M delta D V1 V2 k d = Done (d', r) ->
  differs_only_at (fun i => i = V1 + k) d d'.
Proof.
  unfold forward_step. intros H.
  apply bind_Done in H as (p & _ & H).
  apply bind_Done in H as (d1 & Hst & H).
  assert (d' = d1) as ->.
  { destruct (negb (Z.rem delta 2 =? 0) && (- (D - 1) <=? - (k - delta))
              && (- (k - delta) <=? D - 1)); [|now injection H].
    apply bind_Done in H as (x1 & _ & H). apply bind_Done in H as (x2 & _ & H).
    destruct (x1 + x2 >=? N); now injection H. }
  now apply (differs_only_at_store _ _ _ _ _ Hst).
Qed.

Lemma reverse_step_writes (a : Iterator T) N (b : Iterator T) M delta D V1 V2 k d d' r :
  reverse_step eq a N b M delta D V1 V2 k d = Done (d', r) ->
  differs_only_at (fun i => i = V2 + k) d d'.
Proof.
  unfold reverse_step. intros H.
  apply bind_Done in H as (p & _ & H).
  apply bind_Done in H as (d1 & Hst & H).
  assert (d' = d1) as ->.
  { destruct ((Z.rem delta 2 =? 0) && (- D <=? - (k - delta))
              && (- (k - delta) <=? D)); [|now injection H].
    apply bind_Done in H as (x1 & _ & H). apply bind_Done in H as (x2 & _ & H).
    destruct (x1 + x2 >=? N); now injection H. }
  now apply (differs_only_at_store _ _ _ _ _ Hst).
Qed.

Lemma distance_step_writes (a : Iterator T) N (b : Iterator T) M V1 V2 D d d' r :
  distance_step eq a N b M V1 V2 D d = Done (d', r) ->
  differs_only_at (in_arrays V1 V2 (Z.abs D)) d d'.
Proof.
  unfold distance_step. intros H.
  apply bind_Done in H as ([d1 r1] & Hfw & H).
  assert (H1 : differs_only_at (in_arrays V1 V2 (Z.abs D)) d d1).
  { revert Hfw. apply for_each_preserves.
    - apply differs_only_at_refl.
    - apply differs_only_at_trans.
    - intros k s s' r0 Hin Hk. apply range_In in Hin; [|lia].
      apply forward_step_writes in Hk.
      eapply differs_only_at_weaken; [|exact Hk].
      intros i ->. left. lia. }
  destruct r1 as [s1|]; [now injection H as <- _|].
  apply (differs_only_at_trans _ _ d1); [exact H1|].
  revert H. apply for_each_preserves.
  - apply differs_only_at_refl.
  - apply differs_only_at_trans.
  - intros k s s' r0 Hin Hk. apply range_In in Hin; [|lia].
    apply reverse_step_writes in Hk.
    eapply differs_only_at_weaken; [|exact Hk].
    intros i ->. right. lia.
Qed.

Lemma find_middle_snake_writes (a : Iterator T) N (b : Iterator T) M V1 V2 d d' s :
  find_middle_snake eq a N b M V1 V2 d = Done (d', s) ->
  differs_only_at (in_arrays V1 V2 (Z.max 1 (Z.quot (M + N + 1) 2))) d d'.
Proof.
  unfold find_middle_snake. intros H.
  set (R := Z.max 1 (Z.quot (M + N + 1) 2)).
  apply bind_Done in H as (d1 & Hst1 & H).
  apply bind_Done in H as (d2 & Hst2 & H).
  apply bind_Done in H as ([d3 r] & Hloop & H).
  assert (d' = d3) as ->.
  { destruct r as [s0|]; [now injection H|discriminate]. }
  apply (differs_only_at_trans _ _ d1).
  { apply (differs_only_at_store _ _ _ _ _ Hst1). left. lia. }
  apply (differs_only_at_trans _ _ d2).
  { apply (differs_only_at_store _ _ _ _ _ Hst2). right. lia. }
  revert Hloop. apply for_each_preserves.
  - apply differs_only_at_refl.
  - apply differs_only_at_trans.
  - intros D s0 s0' r0 Hin HD. apply range_In in Hin; [|lia].
    apply distance_step_writes in HD.
    eapply differs_only_at_weaken; [|exact HD].
    unfold in_arrays. intros i Hi. lia.
Qed.

(** The snake that the search returns is one that a finder returned: it
    does not go backwards. *)
Lemma find_middle_snake_forward (a : Iterator T) N (b : Iterator T) M V1 V2 d d' s :
  find_middle_snake eq a N b M V1 V2 d = Done (d', s) ->
  SnakeLen.x s <= SnakeLen.u s
  /\ SnakeLen.v s - SnakeLen.y s = SnakeLen.u s - SnakeLen.x s.
Proof.
  unfold find_middle_snake. intros H.
  apply bind_Done in H as (d1 & _ & H).
  apply bind_Done in H as (d2 & _ & H).
  apply bind_Done in H as ([d3 r] & Hloop & H).
  destruct r as [s0|]; [|discriminate]. injection H as _ ->.
  apply for_each_Some in Hloop as (D & d4 & _ & HD).
  unfold distance_step in HD.
  apply bind_Done in HD as ([d5 r1] & Hfw & HD).
  destruct r1 as [s1|].
  - injection HD as _ ->.
    apply for_each_Some in Hfw as (k & d6 & _ & Hk).
    unfold forward_step in Hk.
    apply bind_Done in Hk as (p & Hp & Hk).
    apply bind_Done in Hk as (d7 & _ & Hk).
    apply finder_forward in Hp.
    destruct (negb (Z.rem (N - M) 2 =? 0) && (- (D - 1) <=? - (k - (N - M)))
              && (- (k - (N - M)) <=? D - 1)); [|discriminate].
    apply bind_Done in Hk as (x1 & _ & Hk). apply bind_Done in Hk as (x2 & _ & Hk).
    destruct (x1 + x2 >=? N); [|discriminate]. injection Hk as _ <-.
    snake_simpl. exact Hp.
  - apply for_each_Some in HD as (k & d6 & _ & Hk).
    unfold reverse_step in Hk.
    apply bind_Done in Hk as (p & Hp & Hk).
    apply bind_Done in Hk as (d7 & _ & Hk).
    apply finder_forward in Hp.
    destruct ((Z.rem (N - M) 2 =? 0) && (- D <=? - (k - (N - M)))
              && (- (k - (N - M)) <=? D)); [|discriminate].
    apply bind_Done in Hk as (x1 & _ & Hk). apply bind_Done in Hk as (x2 & _ & Hk).
    destruct (x1 + x2 >=? N); [|discriminate]. injection Hk as _ <-.
    snake_simpl. lia.
Qed.

(** ** Sub-problems as edit graphs *)

Lemma path_grid (a b : Iterator T) N M x0 y0 x1 y1 c :
  0 <= x0 -> 0 <= y0 -> x1 <= N -> y1 <= M ->
  path (grid eq a N b M) x0 y0 x1 y1 c <-> path (matches eq a b) x0 y0 x1 y1 c.
Proof.
  intros Hx0 Hy0 Hx1 Hy1. split; intros H.
  - now apply path_of_within in H.
  - apply path_within in H. revert H. apply path_weaken.
    intros i j Hi Hj (_ & _ & Hm). unfold grid, within. splits; try lia. exact Hm.
Qed.

Lemma is_dist_grid (A B : list T) x0 y0 x1 y1 c :
  0 <= x0 <= x1 -> x1 <= Z.of_nat (length A) ->
  0 <= y0 <= y1 -> y1 <= Z.of_nat (length B) ->
  is_dist (grid eq (begin A) (Z.of_nat (length A)) (begin B) (Z.of_nat (length B)))
          x0 y0 x1 y1 c ->
  c = edit_distance eq (slice A x0 x1) (slice B y0 y1).
Proof.
  intros Hx0 Hx1 Hy0 Hy1 Hd.
  apply (is_dist_unique (matches eq (begin A) (begin B)) x0 y0 x1 y1).
  - eapply is_dist_iff; [|exact Hd]. intros c'. apply path_grid; lia.
  - apply is_dist_slice; lia.
Qed.

(** ** Sequences that are equal all along *)

Lemma finder_all_match (a b : Iterator T) N data V :
  readable a N -> readable b N ->
  (forall i, 0 <= i < N -> matches eq a b i i) ->
  0 <= N -> 0 <= V - 1 -> V + 1 < size data -> cell data (V + 1) = 0 ->
  find_end_snake_of_further_reaching_dpath eq a N b N data V 0 0
  = Done (Snake.mk 0 0 N N true).
Proof.
  intros Ha Hb Hm HN Hlo Hhi Hcell.
  assert (Hstart : snake_start (view data V) 0 0 = 0) by exact Hcell.
  destruct (find_end_snake_spec eq a N b N data V 0 0 Ha Hb)
    as (p & Hrun & Hadd & Hx & Hy & Hxu & Hv & Hall & Hstop); try lia.
  rewrite Hrun. f_equal.
  destruct p as [x y u v add]. cbn [Snake.add Snake.x Snake.y Snake.u Snake.v] in *.
  rewrite Hstart in Hx. subst x y v.
  assert (u = N) as ->.
  { destruct (Z_lt_ge_dec u N) as [Hlt|Hge].
    - exfalso. apply Hstop. unfold grid, within. splits; try lia.
      replace (u - 0) with u by lia. apply Hm. lia.
    - destruct (Z.eq_dec u N) as [|Hne]; [assumption|].
      destruct (Hall (u - 1)) as (? & _); lia. }
  rewrite Hadd. f_equal; lia.
Qed.

Lemma find_middle_snake_all_match (a b : Iterator T) N V1 V2 data :
  readable a N -> readable b N ->
  (forall i, 0 <= i < N -> matches eq a b i i) ->
  1 <= N -> room (size data) V1 V2 1 ->
  exists data',
    find_middle_snake eq a N b N V1 V2 data
    = Done (data', SnakeLen.mk (Snake.mk 0 0 N N true) true 0).
Proof.
  intros Ha Hb Hm HN (Hr1 & Hr2 & Hr3). unfold find_middle_snake.
  destruct (store_in data (V1 + 1) 0 ltac:(lia)) as (d1 & -> & Hsz1 & Hc1 & Ho1).
  cbn [bind].
  destruct (store_in d1 (V2 + 1) 0 ltac:(lia)) as (d2 & -> & Hsz2 & Hc2 & Ho2).
  cbn [bind].
  assert (Hq : 0 <= Z.quot (N + N + 1) 2) by (apply Z.quot_pos; lia).
  rewrite (range_unfold 0 _ 1) by lia.
  destruct (Z.leb_spec 0 (Z.quot (N + N + 1) 2)); [|lia].
  cbn [for_each]. unfold distance_step.
  change (- 0) with 0.
  rewrite (range_unfold 0 0 2), (range_unfold (0 + 2) 0 2) by lia.
  cbn [Z.leb Z.compare Z.add Pos.compare Pos.compare_cont for_each].
  (* the forward search *)
  unfold forward_step.
  rewrite finder_all_match; auto; try lia;
    [|rewrite Ho2 by lia; exact Hc1].
  cbn [bind Snake.u].
  destruct (store_in d2 (V1 + 0) N ltac:(lia)) as (d3 & -> & Hsz3 & Hc3 & Ho3).
  cbn [bind]. rewrite Z.sub_diag.
  change (Z.rem 0 2 =? 0) with true. cbn [negb andb bind].
  (* the reverse search *)
  unfold reverse_step.
  rewrite finder_all_match; try lia.
  2:{ intros i Hi. unfold reverse_iterator, advance. apply Ha. lia. }
  2:{ intros i Hi. unfold reverse_iterator, advance. apply Hb. lia. }
  2:{ intros i Hi. specialize (Hm (N + (- i - 1)) ltac:(lia)). exact Hm. }
  2:{ rewrite Ho3 by lia. exact Hc2. }
  cbn [bind Snake.u Snake.v Snake.x Snake.y Snake.add].
  destruct (store_in d3 (V2 + 0) N ltac:(lia)) as (d4 & -> & Hsz4 & Hc4 & Ho4).
  cbn [bind].
  change (Z.rem 0 2 =? 0) with true. change (- (0 - 0)) with 0.
  cbn [Z.leb Z.compare Z.opp andb].
  rewrite !load_view by lia. cbn [bind]. unfold view.
  rewrite Hc4, Ho4, Hc3 by lia.
  destruct (Z.geb_spec (N + N) N); [|lia].
  cbn [bind]. exists d4. do 3 f_equal. f_equal; lia.
Qed.

End SearchFacts.

(** * More on the Diff Recursion *)

Section RecursionSteps.

Context {T : Type}.
Variable eq : T -> T -> bool.

(** ** One call, step by step *)

(** What a call that returns has done: it has stripped a prefix and a
    suffix, and either one side was empty, or it has searched a middle
    snake and, around the records of the snake, called itself twice or not
    at all. *)
Lemma find_diff_rec_steps fuel (a b : Iterator T) begA endA begB endB V1 V2 st st' :
  find_diff_rec eq (S fuel) a begA endA b begB endB V1 V2 st = Done st' ->
  exists bA bB n eA eB k st1,
    strip_prefix eq fuel a b begA endA begB endB 0 = Done (bA, bB, n)
    /\ strip_suffix eq fuel a b bA endA bB endB 0 = Done (eA, eB, k)
    /\ st' = mkState (st_data st1) (append_diff (st_diffs st1) (mkDiff Keep k 0))
    /\ let ds0 := append_diff (st_diffs st) (mkDiff Keep n 0) in
       (eA - bA = 0
        /\ st1 = mkState (st_data st) (append_diff ds0 (mkDiff Add (eB - bB) bB)))
       \/ (eA - bA <> 0 /\ eB - bB = 0
           /\ st1 = mkState (st_data st) (append_diff ds0 (mkDiff Remove (eA - bA) 0)))
       \/ (eA - bA <> 0 /\ eB - bB <> 0
           /\ exists data1 s st2,
                find_middle_snake eq (advance a bA) (eA - bA) (advance b bB) (eB - bB)
                                  V1 V2 (st_data st) = Done (data1, s)
                /\ (if SnakeLen.d s >? 1
                    then find_diff_rec eq fuel a bA (bA + fst (before_snake s))
                                       b bB (bB + snd (before_snake s))
                                       V1 V2 (mkState data1 ds0) = Done st2
                    else st2 = mkState data1 ds0)
                /\ (if SnakeLen.d s >? 1
                    then find_diff_rec eq fuel a (bA + fst (after_snake s)) eA
                                       b (bB + snd (after_snake s)) eB V1 V2
                                       (mkState (st_data st2)
                                                (snake_diffs bB s (st_diffs st2)))
                         = Done st1
                    else st1 = mkState (st_data st2)
                                       (snake_diffs bB s (st_diffs st2)))).
Proof.
  intros H. cbn [find_diff_rec] in H.
  apply bind_Done in H as ([[bA bB] n] & Hpre & H).
  apply bind_Done in H as ([[eA eB] k] & Hsuf & H).
  apply bind_Done in H as (st1 & Hmid & H). injection H as <-.
  exists bA, bB, n, eA, eB, k, st1. split; [exact Hpre|]. split; [exact Hsuf|].
  split; [reflexivity|]. cbv zeta.
  destruct (Z.eqb_spec (eA - bA) 0) as [HlenA|HlenA].
  { left. injection Hmid as <-. auto. }
  destruct (Z.eqb_spec (eB - bB) 0) as [HlenB|HlenB].
  { right; left. injection Hmid as <-. auto. }
  right; right. split; [exact HlenA|]. split; [exact HlenB|].
  apply bind_Done in Hmid as ([data1 s] & Hsnake & Hmid).
  destruct s as [[x y u v add] reverse d].
  apply bind_Done in Hmid as (_ & _ & Hmid).
  apply bind_Done in Hmid as ([data2 ds1] & Hsub1 & Hsub2).
  exists data1, (SnakeLen.mk (Snake.mk x y u v add) reverse d), (mkState data2 ds1).
  split; [exact Hsnake|].
  unfold before_snake, after_snake, snake_diffs. snake_simpl. cbn [fst snd st_data st_diffs].
  rewrite !Z.add_sub_assoc, !Z.add_assoc. cbv zeta.
  destruct (d >? 1).
  - split; [exact Hsub1|exact Hsub2].
  - injection Hsub1 as <- <-. injection Hsub2 as <-. split; reflexivity.
Qed.

(** ** The records that a call appends *)

Lemma strip_prefix_grows fuel (a b : Iterator T) :
  forall begA endA begB endB p bA bB n,
    strip_prefix eq fuel a b begA endA begB endB p = Done (bA, bB, n) -> p <= n.
Proof.
  induction fuel as [|fuel IH]; intros begA endA begB endB p bA bB n H;
    cbn [strip_prefix] in H;
    (destruct (negb (begA =? endA) && negb (begB =? endB));
     [|injection H as _ _ <-; lia]);
    apply bind_Done in H as (x & _ & H);
    apply bind_Done in H as (y & _ & H);
    (destruct (eq x y); [|injection H as _ _ <-; lia]).
  - discriminate.
  - apply IH in H. lia.
Qed.

Lemma strip_suffix_grows fuel (a b : Iterator T) :
  forall begA endA begB endB p eA eB n,
    strip_suffix eq fuel a b begA endA begB endB p = Done (eA, eB, n) -> p <= n.
Proof.
  induction fuel as [|fuel IH]; intros begA endA begB endB p eA eB n H;
    cbn [strip_suffix] in H;
    (destruct (negb (begA =? endA) && negb (begB =? endB));
     [|injection H as _ _ <-; lia]);
    apply bind_Done in H as (x & _ & H);
    apply bind_Done in H as (y & _ & H);
    (destruct (eq x y); [|injection H as _ _ <-; lia]).
  - discriminate.
  - apply IH in H. lia.
Qed.

Lemma snake_diffs_appends begB s ds :
  SnakeLen.x s <= SnakeLen.u s ->
  exists rs,
    snake_diffs begB s ds = fold_left append_diff rs ds
    /\ Forall (fun r => (mode r = Keep -> 0 <= len r)
                        /\ (mode r <> Add -> posB r = 0)) rs.
Proof.
  intros Hlen. unfold snake_diffs.
  set (edit v := if SnakeLen.add s then mkDiff Add 1 v else mkDiff Remove 1 0).
  assert (Hedit : forall v, (mode (edit v) = Keep -> 0 <= len (edit v))
                            /\ (mode (edit v) <> Add -> posB (edit v) = 0)).
  { intros v. unfold edit. destruct (SnakeLen.add s); cbn; split; congruence. }
  assert (Hkeep : (mode (mkDiff Keep (SnakeLen.u s - SnakeLen.x s) 0) = Keep ->
                   0 <= len (mkDiff Keep (SnakeLen.u s - SnakeLen.x s) 0))
                  /\ (mode (mkDiff Keep (SnakeLen.u s - SnakeLen.x s) 0) <> Add ->
                      posB (mkDiff Keep (SnakeLen.u s - SnakeLen.x s) 0) = 0)).
  { cbn. split; intros; [lia|reflexivity]. }
  destruct (SnakeLen.reverse s); cbn [negb].
  - exists [mkDiff Keep (SnakeLen.u s - SnakeLen.x s) 0; edit (begB + SnakeLen.v s)].
    split; [reflexivity|]. repeat constructor; first [apply Hkeep | apply Hedit].
  - exists [edit (begB + SnakeLen.y s - 1); mkDiff Keep (SnakeLen.u s - SnakeLen.x s) 0].
    split; [reflexivity|]. repeat constructor; first [apply Hkeep | apply Hedit].
Qed.

(** A call only ever calls [append_diff] on the script: with [Keep] records
    that are not negative, and with position 0 but in [Add] records. *)
Lemma find_diff_rec_appends fuel (a b : Iterator T) V1 V2 :
  forall begA endA begB endB st st',
    find_diff_rec eq fuel a begA endA b begB endB V1 V2 st = Done st' ->
    exists rs,
      st_diffs st' = fold_left append_diff rs (st_diffs st)
      /\ Forall (fun r => (mode r = Keep -> 0 <= len r)
                          /\ (mode r <> Add -> posB r = 0)) rs.
Proof.
  induction fuel as [|fuel IH]; intros begA endA begB endB st st' H;
    [discriminate|].
  apply find_diff_rec_steps in H
    as (bA & bB & n & eA & eB & k & st1 & Hpre & Hsuf & -> & Hmid).
  apply strip_prefix_grows in Hpre. apply strip_suffix_grows in Hsuf.
  cbv zeta in Hmid. cbn [st_diffs].
  assert (Hn : (mode (mkDiff Keep n 0) = Keep -> 0 <= len (mkDiff Keep n 0))
               /\ (mode (mkDiff Keep n 0) <> Add -> posB (mkDiff Keep n 0) = 0))
    by (cbn; split; intros; [lia|reflexivity]).
  assert (Hk : (mode (mkDiff Keep k 0) = Keep -> 0 <= len (mkDiff Keep k 0))
               /\ (mode (mkDiff Keep k 0) <> Add -> posB (mkDiff Keep k 0) = 0))
    by (cbn; split; intros; [lia|reflexivity]).
  destruct Hmid as [(_ & ->)|[(_ & _ & ->)|(_ & _ & data1 & s & st2 & Hsnake & Hsub1 & Hsub2)]].
  - exists [mkDiff Keep n 0; mkDiff Add (eB - bB) bB; mkDiff Keep k 0].
    split; [reflexivity|]. repeat constructor; first [apply Hn | apply Hk | idtac];
      cbn; congruence.
  - exists [mkDiff Keep n 0; mkDiff Remove (eA - bA) 0; mkDiff Keep k 0].
    split; [reflexivity|]. repeat constructor; first [apply Hn | apply Hk | idtac];
      cbn; congruence.
  - apply find_middle_snake_forward in Hsnake as [Hlen _].
    assert (H1 : exists rs1,
               st_diffs st2
               = fold_left append_diff rs1
                   (append_diff (st_diffs st) (mkDiff Keep n 0))
               /\ Forall (fun r => (mode r = Keep -> 0 <= len r)
                                   /\ (mode r <> Add -> posB r = 0)) rs1).
    { destruct (SnakeLen.d s >? 1).
      - apply IH in Hsub1. exact Hsub1.
      - subst st2. exists []. split; [reflexivity|constructor]. }
    destruct H1 as (rs1 & Hrs1 & HQ1).
    destruct (snake_diffs_appends bB s (st_diffs st2) Hlen) as (rs2 & Hrs2 & HQ2).
    assert (H3 : exists rs3,
               st_diffs st1
               = fold_left append_diff rs3 (snake_diffs bB s (st_diffs st2))
               /\ Forall (fun r => (mode r = Keep -> 0 <= len r)
                                   /\ (mode r <> Add -> posB r = 0)) rs3).
    { destruct (SnakeLen.d s >? 1).
      - apply IH in Hsub2. exact Hsub2.
      - subst st1. exists []. split; [reflexivity|constructor]. }
    destruct H3 as (rs3 & Hrs3 & HQ3).
    exists ([mkDiff Keep n 0] ++ rs1 ++ rs2 ++ rs3 ++ [mkDiff Keep k 0]). split.
    + rewrite !fold_left_app. cbn [fold_left].
      rewrite <- Hrs1, <- Hrs2, <- Hrs3. reflexivity.
    + repeat (apply Forall_app; split); auto; repeat constructor;
        first [apply Hn | apply Hk].
Qed.

(** The same, from the record of the common prefix on. *)
Lemma find_diff_rec_appends_after_prefix fuel (a b : Iterator T) V1 V2
    begA endA begB endB st st' :
  find_diff_rec eq (S fuel) a begA endA b begB endB V1 V2 st = Done st' ->
  exists bA bB n rs,
    strip_prefix eq fuel a b begA endA begB endB 0 = Done (bA, bB, n)
    /\ st_diffs st'
       = fold_left append_diff rs (append_diff (st_diffs st) (mkDiff Keep n 0))
    /\ Forall (fun r => (mode r = Keep -> 0 <= len r)
                        /\ (mode r <> Add -> posB r = 0)) rs.
Proof.
  intros H.
  apply find_diff_rec_steps in H
    as (bA & bB & n & eA & eB & k & st1 & Hpre & Hsuf & -> & Hmid).
  exists bA, bB, n. apply strip_suffix_grows in Hsuf.
  cbv zeta in Hmid. cbn [st_diffs].
  assert (Hk : (mode (mkDiff Keep k 0) = Keep -> 0 <= len (mkDiff Keep k 0))
               /\ (mode (mkDiff Keep k 0) <> Add -> posB (mkDiff Keep k 0) = 0))
    by (cbn; split; intros; [lia|reflexivity]).
  destruct Hmid as [(_ & ->)|[(_ & _ & ->)|(_ & _ & data1 & s & st2 & Hsnake & Hsub1 & Hsub2)]].
  - exists [mkDiff Add (eB - bB) bB; mkDiff Keep k 0].
    split; [exact Hpre|]. split; [reflexivity|].
    repeat constructor; first [apply Hk | idtac]; cbn; congruence.
  - exists [mkDiff Remove (eA - bA) 0; mkDiff Keep k 0].
    split; [exact Hpre|]. split; [reflexivity|].
    repeat constructor; first [apply Hk | idtac]; cbn; congruence.
  - apply find_middle_snake_forward in Hsnake as [Hlen _].
    assert (H1 : exists rs1,
               st_diffs st2
               = fold_left append_diff rs1
                   (append_diff (st_diffs st) (mkDiff Keep n 0))
               /\ Forall (fun r => (mode r = Keep -> 0 <= len r)
                                   /\ (mode r <> Add -> posB r = 0)) rs1).
    { destruct (SnakeLen.d s >? 1).
      - apply find_diff_rec_appends in Hsub1. exact Hsub1.
      - subst st2. exists []. split; [reflexivity|constructor]. }
    destruct H1 as (rs1 & Hrs1 & HQ1).
    destruct (snake_diffs_appends bB s (st_diffs st2) Hlen) as (rs2 & Hrs2 & HQ2).
    assert (H3 : exists rs3,
               st_diffs st1
               = fold_left append_diff rs3 (snake_diffs bB s (st_diffs st2))
               /\ Forall (fun r => (mode r = Keep -> 0 <= len r)
                                   /\ (mode r <> Add -> posB r = 0)) rs3).
    { destruct (SnakeLen.d s >? 1).
      - apply find_diff_rec_appends in Hsub2. exact Hsub2.
      - subst st1. exists []. split; [reflexivity|constructor]. }
    destruct H3 as (rs3 & Hrs3 & HQ3).
    exists (rs1 ++ rs2 ++ rs3 ++ [mkDiff Keep k 0]).
    split; [exact Hpre|]. split.
    + rewrite !fold_left_app. cbn [fold_left].
      rewrite <- Hrs1, <- Hrs2, <- Hrs3. reflexivity.
    + repeat (apply Forall_app; split); auto; repeat constructor; apply Hk.
Qed.

End RecursionSteps.

(** ** Scripts that grow by [append_diff] *)

Lemma append_diff_posB s r :
  Forall (fun k => mode k <> Add -> posB k = 0) s ->
  (mode r <> Add -> posB r = 0) ->
  Forall (fun k => mode k <> Add -> posB k = 0) (append_diff s r).
Proof.
  intros Hs Hr.
  destruct (append_diff_cases s r)
    as [[_ ->]|[(_ & _ & ->)|[(_ & f & k & _ & _ & _ & _ & ->)
                              |(_ & f & k & -> & _ & _ & ->)]]].
  - exact Hs.
  - apply Forall_app. split; [exact Hs|]. now constructor.
  - apply Forall_app. split; [exact Hs|]. now constructor.
  - apply Forall_app in Hs. destruct Hs as [Hf Hk].
    apply Forall_app. split; [exact Hf|].
    inversion Hk; subst. constructor; [cbn [mode posB]; auto|constructor].
Qed.

Lemma fold_append_diff_posB rs :
  Forall (fun r => (mode r = Keep -> 0 <= len r)
                   /\ (mode r <> Add -> posB r = 0)) rs ->
  forall s, Forall (fun k => mode k <> Add -> posB k = 0) s ->
  Forall (fun k => mode k <> Add -> posB k = 0) (fold_left append_diff rs s).
Proof.
  induction 1 as [|r rs [_ Hr] _ IH]; intros s Hs; [exact Hs|].
  cbn [fold_left]. apply IH. now apply append_diff_posB.
Qed.

(** [append_diff] leaves the first record where it is; it can only make it
    longer, when it is a [Keep] record. *)
Lemma append_diff_head r0 t r :
  (mode r = Keep -> 0 <= len r) ->
  exists r0' t',
    append_diff (r0 :: t) r = r0' :: t'
    /\ mode r0' = mode r0 /\ posB r0' = posB r0
    /\ (mode r0 = Keep -> len r0 <= len r0')
    /\ (t <> [] -> r0' = r0).
Proof.
  intros Hr.
  destruct (append_diff_cases (r0 :: t) r)
    as [[_ ->]|[(_ & _ & ->)|[(_ & f & k & _ & _ & _ & _ & ->)
                              |(_ & f & k & Hs & Hmode & _ & ->)]]].
  - exists r0, t. splits; auto. lia.
  - exists r0, (t ++ [r]). splits; auto. lia.
  - exists r0, (t ++ [r]). splits; auto. lia.
  - destruct f as [|r1 f]; cbn [app] in Hs |- *.
    + injection Hs as <- ->.
      exists (mkDiff (mode r0) (len r0 + len r) (posB r0)), [].
      cbn [mode len posB]. splits; auto; [|congruence].
      intros H0. rewrite H0 in Hmode. symmetry in Hmode. apply Hr in Hmode. lia.
    + injection Hs as <- ->.
      exists r0, (f ++ [mkDiff (mode k) (len k + len r) (posB k)]).
      splits; auto. lia.
Qed.

Lemma fold_append_diff_head rs :
  Forall (fun r => (mode r = Keep -> 0 <= len r)
                   /\ (mode r <> Add -> posB r = 0)) rs ->
  forall r0 t,
  exists r0' t',
    fold_left append_diff rs (r0 :: t) = r0' :: t'
    /\ mode r0' = mode r0 /\ posB r0' = posB r0
    /\ (mode r0 = Keep -> len r0 <= len r0').
Proof.
  induction 1 as [|r rs [Hr _] _ IH]; intros r0 t.
  - exists r0, t. splits; auto. lia.
  - cbn [fold_left].
    destruct (append_diff_head r0 t r Hr) as (r1 & t1 & -> & Hm1 & Hp1 & Hl1 & _).
    destruct (IH r1 t1) as (r2 & t2 & -> & Hm2 & Hp2 & Hl2).
    exists r2, t2. splits; auto; [congruence|congruence|].
    intros H0. specialize (Hl1 H0). rewrite <- Hm1 in H0. specialize (Hl2 H0). lia.
Qed.

(** [append_diff] never touches a record before the last one. *)
Lemma append_diff_front s r :
  exists t, append_diff s r = removelast s ++ t /\ (s <> [] -> t <> []).
Proof.
  destruct (append_diff_cases s r)
    as [[_ ->]|[(_ & _ & ->)|[(_ & f & k & _ & _ & _ & _ & ->)
                              |(_ & f & k & -> & _ & _ & ->)]]].
  - destruct s as [|k f] using rev_ind.
    + exists []. split; [reflexivity|congruence].
    + exists [k]. rewrite removelast_last. split; [reflexivity|discriminate].
  - destruct s as [|k f] using rev_ind.
    + exists [r]. split; [reflexivity|discriminate].
    + exists [k; r]. rewrite removelast_last, <- app_assoc.
      split; [reflexivity|discriminate].
  - destruct s as [|k' f'] using rev_ind.
    + exists [r]. split; [reflexivity|discriminate].
    + exists [k'; r]. rewrite removelast_last, <- app_assoc.
      split; [reflexivity|discriminate].
  - exists [mkDiff (mode k) (len k + len r) (posB k)].
    rewrite removelast_last. split; [reflexivity|discriminate].
Qed.

Lemma fold_append_diff_front rs :
  forall s, exists t,
    fold_left append_diff rs s = removelast s ++ t /\ (s <> [] -> t <> []).
Proof.
  induction rs as [|r rs IH]; intros s.
  - destruct s as [|k f] using rev_ind.
    + exists []. split; [reflexivity|congruence].
    + exists [k]. rewrite removelast_last. split; [reflexivity|discriminate].
  - cbn [fold_left].
    destruct (append_diff_front s r) as (t1 & Ht1 & Hne1).
    destruct (IH (append_diff s r)) as (t2 & Ht2 & Hne2).
    rewrite Ht2, Ht1.
    destruct s as [|k0 s0].
    + cbn [removelast app]. eexists. split; [reflexivity|congruence].
    + specialize (Hne1 ltac:(discriminate)).
      rewrite removelast_app by assumption. rewrite <- app_assoc.
      eexists. split; [reflexivity|].
      intros _ Habs. apply app_eq_nil in Habs as [_ Habs].
      apply Hne2; [|exact Habs]. rewrite Ht1.
      destruct (removelast (k0 :: s0)); destruct t1; try discriminate; congruence.
Qed.

(** ** Calls on ranges of two sequences *)

Section RecursionFacts.

Context {T : Type}.
Variable eq : T -> T -> bool.
Variables (a b : Iterator T) (NA NB : Z).
Hypothesis Ha : readable a NA.
Hypothesis Hb : readable b NB.

(** The steps of a call on valid ranges, with what is known of each. *)
Lemma find_diff_rec_valid_steps fuel begA endA begB endB V1 V2 R st st' :
  0 <= begA <= endA -> endA <= NA -> 0 <= begB <= endB -> endB <= NB ->
  (endA - begA) + (endB - begB) <= Z.of_nat fuel ->
  (endA - begA) + (endB - begB) <= R ->
  room (size (st_data st)) V1 V2 R ->
  find_diff_rec eq (S fuel) a begA endA b begB endB V1 V2 st = Done st' ->
  exists n k st1,
    0 <= n /\ 0 <= k /\ begA + n <= endA - k /\ begB + n <= endB - k
    /\ strip_prefix eq fuel a b begA endA begB endB 0
       = Done (begA + n, begB + n, n)
    /\ strip_suffix eq fuel a b (begA + n) endA (begB + n) endB 0
       = Done (endA - k, endB - k, k)
    /\ (forall i, 0 <= i < n -> matches eq a b (begA + i) (begB + i))
    /\ (begA + n <> endA -> begB + n <> endB ->
        ~ matches eq a b (begA + n) (begB + n))
    /\ (forall i, 0 <= i < k -> matches eq a b (endA - k + i) (endB - k + i))
    /\ st' = mkState (st_data st1) (append_diff (st_diffs st1) (mkDiff Keep k 0))
    /\ let bA := begA + n in
       let bB := begB + n in
       let eA := endA - k in
       let eB := endB - k in
       let ds0 := append_diff (st_diffs st) (mkDiff Keep n 0) in
       (eA - bA = 0
        /\ st1 = mkState (st_data st) (append_diff ds0 (mkDiff Add (eB - bB) bB)))
       \/ (eA - bA <> 0 /\ eB - bB = 0
           /\ st1 = mkState (st_data st) (append_diff ds0 (mkDiff Remove (eA - bA) 0)))
       \/ (eA - bA <> 0 /\ eB - bB <> 0
           /\ exists data1 s st2,
                find_middle_snake eq (advance a bA) (eA - bA) (advance b bB) (eB - bB)
                                  V1 V2 (st_data st) = Done (data1, s)
                /\ size data1 = size (st_data st)
                /\ middle_snake (grid eq (advance a bA) (eA - bA)
                                      (advance b bB) (eB - bB))
                                (eA - bA) (eB - bB) s
                /\ (forward_result eq (advance a bA) (eA - bA)
                                   (advance b bB) (eB - bB) V1 s
                    \/ reverse_result eq (advance a bA) (eA - bA)
                                      (advance b bB) (eB - bB) V2 s)
                /\ (if SnakeLen.d s >? 1
                    then find_diff_rec eq fuel a bA (bA + fst (before_snake s))
                                       b bB (bB + snd (before_snake s))
                                       V1 V2 (mkState data1 ds0) = Done st2
                    else st2 = mkState data1 ds0)
                /\ (if SnakeLen.d s >? 1
                    then find_diff_rec eq fuel a (bA + fst (after_snake s)) eA
                                       b (bB + snd (after_snake s)) eB V1 V2
                                       (mkState (st_data st2)
                                                (snake_diffs bB s (st_diffs st2)))
                         = Done st1
                    else st1 = mkState (st_data st2)
                                       (snake_diffs bB s (st_diffs st2)))).
Proof.
  intros HA HA' HB HB' Hfuel HR Hroom H.
  apply find_diff_rec_steps in H
    as (bA & bB & n' & eA & eB & k' & st1 & Hpre & Hsuf & -> & Hmid).
  destruct (strip_prefix_spec eq a b NA NB Ha Hb fuel begA endA begB endB 0)
    as (n & Hn & HnA & HnB & Hpre' & Hprefix & Hfirst); try lia.
  rewrite Hpre' in Hpre. injection Hpre as <- <- <-.
  destruct (strip_suffix_spec eq a b NA NB Ha Hb fuel (begA + n) endA (begB + n) endB 0)
    as (k & Hk & HkA & HkB & Hsuf' & Hsuffix); try lia.
  rewrite Hsuf' in Hsuf. injection Hsuf as <- <- <-.
  change (0 + n) with n in *. change (0 + k) with k in *.
  exists n, k, st1. splits; auto.
  cbv zeta in Hmid |- *.
  destruct Hmid as [Hmid|[Hmid|(HlenA & HlenB & data1 & s & st2 & Hsnake & Hsub1 & Hsub2)]];
    [now left|now right; left|right; right].
  split; [exact HlenA|]. split; [exact HlenB|].
  set (bA := begA + n) in *. set (bB := begB + n) in *.
  set (eA := endA - k) in *. set (eB := endB - k) in *.
  set (N := eA - bA) in *. set (M := eB - bB) in *.
  assert (Hm0 : ~ grid eq (advance a bA) N (advance b bB) M 0 0).
  { intros (_ & _ & Hm). apply Hfirst; [lia|lia|].
    unfold matches, advance in Hm. rewrite !Z.add_0_r in Hm. exact Hm. }
  assert (Hhalf : Z.quot (M + N + 1) 2 + 1 <= R).
  { pose proof (Z.quot_rem' (M + N + 1) 2) as Hq.
    pose proof (Z.rem_bound_pos (M + N + 1) 2 ltac:(lia) ltac:(lia)).
    unfold bA, bB, eA, eB, N, M in *. lia. }
  destruct (find_middle_snake_spec eq (advance a bA) (advance b bB) N M)
    with (V1 := V1) (V2 := V2) (sz := size (st_data st)) (R := R)
         (data := st_data st)
    as (W & sn & Hsnake' & HszW & Hms & Hres); try lia; try reflexivity.
  { apply (readable_advance a NA); [exact Ha|lia|lia]. }
  { apply (readable_advance b NB); [exact Hb|lia|lia]. }
  { exact Hm0. }
  { exact Hroom. }
  rewrite Hsnake' in Hsnake. injection Hsnake as <- <-.
  exists W, sn, st2. splits; auto.
Qed.

(** The ranges of the two inner calls, when the snake is a middle snake. *)
Lemma inner_ranges bA eA bB eB s :
  middle_snake (grid eq (advance a bA) (eA - bA) (advance b bB) (eB - bB))
               (eA - bA) (eB - bB) s ->
  bA <= bA + fst (before_snake s) <= bA + fst (after_snake s)
  /\ bA + fst (after_snake s) <= eA
  /\ bB <= bB + snd (before_snake s) <= bB + snd (after_snake s)
  /\ bB + snd (after_snake s) <= eB
  /\ fst (before_snake s) + snd (before_snake s) + 1
     <= fst (after_snake s) + snd (after_snake s).
Proof.
  intros Hms. pose proof Hms as Hparts. apply middle_snake_parts in Hparts.
  destruct Hparts as (c1 & c2 & _ & _ & _ & ? & ? & ? & ?).
  destruct Hms as (_ & _ & Hx & _ & Hy & _ & Hdiag & _).
  splits; try lia.
  unfold before_snake, after_snake. cbn [fst snd].
  destruct (SnakeLen.reverse s), (SnakeLen.add s); lia.
Qed.

(** *** The cells that the recursion writes *)

Lemma find_diff_rec_writes V1 V2 R fuel :
  forall begA endA begB endB st st',
    0 <= begA <= endA -> endA <= NA -> 0 <= begB <= endB -> endB <= NB ->
    (endA - begA) + (endB - begB) < Z.of_nat fuel ->
    (endA - begA) + (endB - begB) <= R ->
    room (size (st_data st)) V1 V2 R ->
    find_diff_rec eq fuel a begA endA b begB endB V1 V2 st = Done st' ->
    differs_only_at
      (in_arrays V1 V2 (Z.max 1 (Z.quot ((endA - begA) + (endB - begB) + 1) 2)))
      (st_data st) (st_data st').
Proof.
  induction fuel as [|fuel IH];
    intros begA endA begB endB st st' HA HA' HB HB' Hfuel HR Hroom H; [lia|].
  apply (find_diff_rec_valid_steps fuel _ _ _ _ V1 V2 R) in H; try lia; auto.
  destruct H as (n & k & st1 & Hn & Hk & HnA & HnB & _ & _ & _ & _ & _ & -> & Hmid).
  cbv zeta in Hmid. cbn [st_data].
  destruct Hmid as [(_ & ->)|[(_ & _ & ->)|(HlenA & HlenB & data1 & s & st2 & Hsnake
                                            & Hsz1 & Hms & _ & Hsub1 & Hsub2)]];
    try apply differs_only_at_refl.
  set (bA := begA + n) in *. set (bB := begB + n) in *.
  set (eA := endA - k) in *. set (eB := endB - k) in *.
  set (P := in_arrays V1 V2 (Z.max 1 (Z.quot ((endA - begA) + (endB - begB) + 1) 2))).
  assert (Hweak : forall len, 0 <= len <= (endA - begA) + (endB - begB) ->
            forall d d',
              differs_only_at (in_arrays V1 V2 (Z.max 1 (Z.quot (len + 1) 2))) d d' ->
              differs_only_at P d d').
  { intros len Hlen d d'. apply differs_only_at_weaken.
    assert (Z.quot (len + 1) 2 <= Z.quot ((endA - begA) + (endB - begB) + 1) 2)
      by (apply Z.quot_le_mono; lia).
    unfold P, in_arrays. intros i Hi. lia. }
  destruct (inner_ranges _ _ _ _ _ Hms) as (Hx & Hx' & Hy & Hy' & Hstep).
  apply find_middle_snake_writes in Hsnake.
  assert (H0 : differs_only_at P (st_data st) data1).
  { apply (Hweak ((eB - bB) + (eA - bA))); [unfold bA, bB, eA, eB; lia|].
    exact Hsnake. }
  assert (H1 : differs_only_at P data1 (st_data st2)).
  { destruct (SnakeLen.d s >? 1).
    - apply IH in Hsub1; try (unfold bA, bB, eA, eB in *; lia).
      + cbn [st_data] in Hsub1. revert Hsub1. apply Hweak.
        unfold bA, bB, eA, eB in *. lia.
      + cbn [st_data]. now rewrite Hsz1.
    - subst st2. apply differs_only_at_refl. }
  assert (H2 : differs_only_at P (st_data st2) (st_data st1)).
  { destruct (SnakeLen.d s >? 1).
    - apply IH in Hsub2; try (unfold bA, bB, eA, eB in *; lia).
      + cbn [st_data] in Hsub2. revert Hsub2. apply Hweak.
        unfold bA, bB, eA, eB in *. lia.
      + cbn [st_data]. destruct H1 as [Hs1 _]. now rewrite Hs1, Hsz1.
    - subst st1. apply differs_only_at_refl. }
  eapply differs_only_at_trans; [exact H0|].
  eapply differs_only_at_trans; [exact H1|exact H2].
Qed.

(** *** The arrays do not matter *)

Lemma find_diff_rec_same_script V1 V2 R W1 W2 R' fuel :
  forall begA endA begB endB st1 st2 st1' st2',
    0 <= begA <= endA -> endA <= NA -> 0 <= begB <= endB -> endB <= NB ->
    (endA - begA) + (endB - begB) < Z.of_nat fuel ->
    (endA - begA) + (endB - begB) <= R ->
    (endA - begA) + (endB - begB) <= R' ->
    room (size (st_data st1)) V1 V2 R ->
    room (size (st_data st2)) W1 W2 R' ->
    st_diffs st1 = st_diffs st2 ->
    find_diff_rec eq fuel a begA endA b begB endB V1 V2 st1 = Done st1' ->
    find_diff_rec eq fuel a begA endA b begB endB W1 W2 st2 = Done st2' ->
    st_diffs st1' = st_diffs st2'.
Proof.
  induction fuel as [|fuel IH];
    intros begA endA begB endB st1 st2 st1' st2' HA HA' HB HB' Hfuel HR HR'
           Hroom Hroom' Hds H1 H2; [lia|].
  apply (find_diff_rec_valid_steps fuel _ _ _ _ V1 V2 R) in H1; try lia; auto.
  apply (find_diff_rec_valid_steps fuel _ _ _ _ W1 W2 R') in H2; try lia; auto.
  destruct H1 as (n & k & m1 & Hn & Hk & HnA & HnB & Hpre & Hsuf & _ & _ & _
                  & -> & Hmid1).
  destruct H2 as (n' & k' & m2 & _ & _ & _ & _ & Hpre' & Hsuf' & _ & _ & _
                  & -> & Hmid2).
  rewrite Hpre in Hpre'. injection Hpre' as _ _ <-.
  rewrite Hsuf in Hsuf'. injection Hsuf' as _ _ <-.
  cbv zeta in Hmid1, Hmid2. cbn [st_diffs].
  assert (Hsame : st_diffs m1 = st_diffs m2); [|now rewrite Hsame].
  set (bA := begA + n) in *. set (bB := begB + n) in *.
  set (eA := endA - k) in *. set (eB := endB - k) in *.
  destruct Hmid1 as [(HlenA & ->)|[(HlenA & HlenB & ->)
                     |(HlenA & HlenB & d1 & s & p1 & Hsnake1 & Hsz1 & Hms & Hres1
                       & Hsub1 & Hsub1')]];
    destruct Hmid2 as [(HlenA2 & ->)|[(HlenA2 & HlenB2 & ->)
                       |(HlenA2 & HlenB2 & d2 & s' & p2 & Hsnake2 & Hsz2 & _ & Hres2
                         & Hsub2 & Hsub2')]];
    try lia; cbn [st_diffs]; try (now rewrite Hds).
  assert (s' = s) as ->
    by (symmetry; eapply middle_snake_result_unique; eassumption).
  destruct (inner_ranges _ _ _ _ _ Hms) as (Hx & Hx' & Hy & Hy' & Hstep).
  assert (Hin : forall V V' R0 sz (di : Storage),
            room sz V V' R0 -> size di = sz -> room (size di) V V' R0)
    by (intros; congruence).
  destruct (SnakeLen.d s >? 1).
  - assert (Hp : st_diffs p1 = st_diffs p2).
    { eapply (IH bA (bA + fst (before_snake s)) bB (bB + snd (before_snake s))
                 (mkState d1 (append_diff (st_diffs st1) (mkDiff Keep n 0)))
                 (mkState d2 (append_diff (st_diffs st2) (mkDiff Keep n 0)))
                 p1 p2);
        [..|exact Hsub1|exact Hsub2];
        try (unfold bA, bB, eA, eB in *; lia); cbn [st_data st_diffs].
      - now apply (Hin _ _ _ _ _ Hroom).
      - now apply (Hin _ _ _ _ _ Hroom').
      - now rewrite Hds. }
    assert (Hs1 : size (st_data p1) = size (st_data st1)).
    { apply (find_diff_rec_writes V1 V2 R fuel) in Hsub1;
        try (unfold bA, bB, eA, eB in *; lia).
      - destruct Hsub1 as [Hs _]. cbn [st_data] in Hs. congruence.
      - cbn [st_data]. now apply (Hin _ _ _ _ _ Hroom). }
    assert (Hs2 : size (st_data p2) = size (st_data st2)).
    { apply (find_diff_rec_writes W1 W2 R' fuel) in Hsub2;
        try (unfold bA, bB, eA, eB in *; lia).
      - destruct Hsub2 as [Hs _]. cbn [st_data] in Hs. congruence.
      - cbn [st_data]. now apply (Hin _ _ _ _ _ Hroom'). }
    eapply (IH (bA + fst (after_snake s)) eA (bB + snd (after_snake s)) eB
               (mkState (st_data p1) (snake_diffs bB s (st_diffs p1)))
               (mkState (st_data p2) (snake_diffs bB s (st_diffs p2)))
               m1 m2);
      [..|exact Hsub1'|exact Hsub2'];
      try (unfold bA, bB, eA, eB in *; lia); cbn [st_data st_diffs].
    + now apply (Hin _ _ _ _ _ Hroom).
    + now apply (Hin _ _ _ _ _ Hroom').
    + now rewrite Hp.
  - subst p1 p2 m1 m2. cbn [st_diffs]. now rewrite Hds.
Qed.

End RecursionFacts.

(** * Further properties of the code *)

Lemma sum_len_or (p q : Mode -> bool) s :
  (forall m, p m && q m = false) ->
  sum_len (fun m => p m || q m) s = sum_len p s + sum_len q s.
Proof.
  intros Hpq. induction s as [|r s IH]; [reflexivity|].
  cbn [sum_len fold_right].
  fold (sum_len (fun m => p m || q m) s). fold (sum_len p s). fold (sum_len q s).
  rewrite IH. specialize (Hpq (mode r)).
  destruct (p (mode r)), (q (mode r)); cbn [orb andb] in *; try discriminate; lia.
Qed.

Lemma sum_len_nonneg (p : Mode -> bool) s :
  Forall (fun r => 0 < len r) s -> 0 <= sum_len p s.
Proof.
  induction 1 as [|r s Hr _ IH]; [reflexivity|].
  cbn [sum_len fold_right]. fold (sum_len p s). destruct (p (mode r)); lia.
Qed.

Lemma measures_by_mode s :
  consumed s = sum_len is_Keep s + sum_len is_Remove s
  /\ produced s = sum_len is_Keep s + sum_len is_Add s
  /\ cost s = sum_len is_Add s + sum_len is_Remove s.
Proof.
  unfold consumed, produced, cost.
  rewrite !sum_len_or; [auto| | |]; intros []; reflexivity.
Qed.

Lemma sum_len_none (p : Mode -> bool) s :
  Forall (fun r => p (mode r) = false) s -> sum_len p s = 0.
Proof.
  induction 1 as [|r s Hr _ IH]; [reflexivity|].
  cbn [sum_len fold_right]. fold (sum_len p s). now rewrite Hr.
Qed.

(** In a compact script every other record, at least, is an edit. *)
Lemma compact_length s :
  compact s -> Forall (fun r => 0 < len r) s ->
  Z.of_nat (length s)
  <= 2 * cost s + match s with
                  | r :: _ => if is_Keep (mode r) then 1 else 0
                  | [] => 0
                  end.
Proof.
  induction s as [|r s IH]; intros Hc Hpos; [cbn; lia|].
  inversion Hpos as [|? ? Hr Hpos']; subst.
  assert (Hc' : compact s) by (destruct s; [exact I|apply Hc]).
  specialize (IH Hc' Hpos').
  unfold cost in *. cbn [sum_len fold_right length].
  fold (sum_len (fun m => is_Add m || is_Remove m) s).
  rewrite Nat2Z.inj_succ.
  destruct s as [|r' s'].
  - change (sum_len (fun m => is_Add m || is_Remove m) []) with 0.
    change (Z.of_nat (length (@nil Diff))) with 0.
    unfold is_Keep, is_Add, is_Remove.
    destruct (mode r); cbn [Mode_eqb orb]; lia.
  - destruct Hc as [Hne _]. cbv beta iota in IH.
    unfold is_Keep, is_Add, is_Remove in IH |- *.
    set (c := sum_len (fun m => is_Add m || is_Remove m) (r' :: s')) in *.
    set (n := Z.of_nat (length (r' :: s'))) in *.
    destruct (mode r) eqn:Hm, (mode r') eqn:Hm'; cbn [Mode_eqb orb] in IH |- *;
      try congruence; lia.
Qed.

(** The edit distance only depends on which pairs the predicate accepts. *)
Lemma edit_distance_ext {T : Type} (eq1 eq2 : T -> T -> bool) :
  (forall x y, eq1 x y = eq2 x y) ->
  forall a b, edit_distance eq1 a b = edit_distance eq2 a b.
Proof.
  intros Hext a. induction a as [|x a IHa]; intros b; [reflexivity|].
  induction b as [|y b IHb]; [reflexivity|].
  rewrite !edit_distance_cons. cbv zeta. now rewrite Hext, !IHa, IHb.
Qed.

Section ExtraLemmas.

Context {T : Type}.
Variable eq : T -> T -> bool.

(** ** Helpers *)

Lemma script_ok_split (a b : Iterator T) s1 r s2 :
  forall pa pb,
    script_ok eq a b (s1 ++ r :: s2) pa pb ->
    0 < len r
    /\ record_ok eq a b r (consumed s1) (produced s1)
                 (consumed (s1 ++ [r])) (produced (s1 ++ [r])).
Proof.
  induction s2 as [|r' s2 IH] using rev_ind; intros pa pb Hok.
  - apply script_ok_snoc_inv in Hok as (pa0 & pb0 & Hok0 & Hlen & _ & Hrec).
    pose proof (script_ok_sums _ _ _ _ _ _ Hok0) as [<- <-].
    split; [exact Hlen|].
    assert (Hsum : consumed (s1 ++ [r]) = pa /\ produced (s1 ++ [r]) = pb).
    { unfold consumed, produced, record_ok in *. rewrite !sum_len_app, !sum_len_one.
      destruct (mode r); cbn; lia. }
    destruct Hsum as [-> ->]. exact Hrec.
  - replace (s1 ++ r :: s2 ++ [r']) with ((s1 ++ r :: s2) ++ [r']) in Hok
      by (rewrite <- app_assoc; reflexivity).
    apply script_ok_snoc_inv in Hok as (pa0 & pb0 & Hok0 & _).
    eapply IH. exact Hok0.
Qed.

Lemma strip_suffix_stops fuel (a b : Iterator T) :
  forall begA endA begB endB sl eA eB n,
    strip_suffix eq fuel a b begA endA begB endB sl = Done (eA, eB, n) ->
    begA <> eA -> begB <> eB -> ~ matches eq a b (eA - 1) (eB - 1).
Proof.
  induction fuel as [|fuel IH]; intros begA endA begB endB sl eA eB n H HA HB;
    cbn [strip_suffix] in H;
    (destruct (Z.eqb_spec begA endA);
     [cbn [negb andb] in H; injection H as <- <- _; contradiction|]);
    (destruct (Z.eqb_spec begB endB);
     [cbn [negb andb] in H; injection H as <- <- _; contradiction|]);
    cbn [negb andb] in H;
    apply bind_Done in H as (x & Hx & H);
    apply bind_Done in H as (y & Hy & H);
    destruct (eq x y) eqn:Hxy;
    try (injection H as <- <- _;
         intros (p & q & Hp & Hq & Hpq); congruence).
  - discriminate.
  - eapply IH; eassumption.
Qed.

Lemma finder_unfold (a b : Iterator T) N M data V D k :
  (k <> - D -> 0 <= V + (k - 1) < size data) ->
  (k = - D \/ k <> D -> 0 <= V + (k + 1) < size data) ->
  find_end_snake_of_further_reaching_dpath eq a N b M data V D k
  = let x := snake_start (view data V) D k in
    '(u, v) <- follow_snake eq (Z.to_nat (N - x)) a N b M x (x - k) ;;
    Done (Snake.mk x (x - k) u v (takes_vertical (view data V) D k)).
Proof.
  intros Hlo Hhi. unfold find_end_snake_of_further_reaching_dpath.
  assert (Hadd : (if k =? - D then Done true
                  else if negb (k =? D)
                       then l <- load data (V + (k - 1)) ;;
                            r <- load data (V + (k + 1)) ;; Done (l <? r)
                       else Done false)
                 = Done (takes_vertical (view data V) D k)).
  { unfold takes_vertical. destruct (Z.eqb_spec k (- D)); [reflexivity|].
    destruct (Z.eqb_spec k D); cbn [negb orb andb]; [reflexivity|].
    rewrite !load_view by auto. reflexivity. }
  rewrite Hadd. cbn [bind].
  assert (Hstart : (if takes_vertical (view data V) D k
                    then load data (V + (k + 1))
                    else l <- load data (V + (k - 1)) ;; Done (l + 1))
                   = Done (snake_start (view data V) D k)).
  { unfold snake_start, takes_vertical.
    destruct (Z.eqb_spec k (- D)); cbn [orb].
    - rewrite load_view by auto. reflexivity.
    - destruct (Z.eqb_spec k D); cbn [negb andb].
      + rewrite load_view by auto. reflexivity.
      + destruct (view data V (k - 1) <? view data V (k + 1));
          rewrite load_view by auto; reflexivity. }
  rewrite Hstart. reflexivity.
Qed.

(** The run of [find_diff], as a call of the recursion. *)
Lemma find_diff_run (A B : list T) :
  let N := Z.of_nat (length A) in
  let M := Z.of_nat (length B) in
  exists st,
    find_diff_rec eq (S (Z.to_nat (N + M))) (begin A) 0 N (begin B) 0 M
                  (N + M) (2 * (N + M) + 1 + (N + M))
                  (mkState (allocate (2 * (2 * (N + M) + 1))) [])
    = Done st
    /\ find_diff eq A B = Done (st_diffs st)
    /\ script_ok eq (begin A) (begin B) (st_diffs st) N M
    /\ cost (st_diffs st) = edit_distance eq A B.
Proof.
  cbv zeta.
  destruct (find_diff_correct eq A B) as (s & Hrun & Hok & Hdist).
  pose proof Hrun as Hrun'. unfold find_diff in Hrun'.
  apply bind_Done in Hrun' as (st & Hrec & Hs). injection Hs as <-.
  exists st. splits; auto.
  eapply is_dist_unique; [exact Hdist|apply edit_distance_spec].
Qed.

(** The common prefix that the first loop of [find_diff_rec] strips. *)
Lemma strip_prefix_common (A B : list T) fuel :
  Z.of_nat (length A) <= Z.of_nat fuel ->
  let n := Z.of_nat (common_prefix eq A B) in
  strip_prefix eq fuel (begin A) (begin B) 0 (Z.of_nat (length A))
               0 (Z.of_nat (length B)) 0
  = Done (n, n, n).
Proof.
  intros Hfuel.
  destruct (strip_prefix_spec eq (begin A) (begin B) _ _
              (readable_begin A) (readable_begin B) fuel
              0 (Z.of_nat (length A)) 0 (Z.of_nat (length B)) 0)
    as (n & Hn & HnA & HnB & Hrun & Hall & Hstop); try lia.
  destruct (common_prefix_spec eq A B) as (HcA & HcB & Hcall & Hcstop).
  cbv zeta. set (c := Z.of_nat (common_prefix eq A B)) in *.
  assert (n = c) as ->.
  { destruct (Z_lt_ge_dec n c) as [Hlt|Hge].
    - exfalso. apply Hstop; try lia. apply Hcall. lia.
    - destruct (Z_lt_ge_dec c n) as [Hlt|Hge']; [|lia].
      exfalso. apply Hcstop. apply (Hall c). lia. }
  exact Hrun.
Qed.

End ExtraLemmas.

Section Extras.

Context {T : Type}.
Variable eq : T -> T -> bool.

(** ** The Edit-Script Accumulator *)

(** X1.  When the two sums that it may compute from the last record and
    the new one are [int]s, [append_diff] adds the length of the record to
    the total of the records of its mode and changes no other total: for
    every class [p] of modes, the lengths of the records in [p] grow by
    [len r] if the mode of [r] is in [p], and stay the same otherwise. *)
Theorem append_diff_adds_lengths (p : Mode -> bool) (s : list Diff) (r : Diff) :
  sums_fit s r ->
  sum_len p (append_diff s r) = sum_len p s + (if p (mode r) then len r else 0).
Proof. intros _. apply sum_len_append_diff. Qed.

(** X2.  Merging does not change what a script means: whenever the script
    [s] followed by the record [r] can be run on [a] and [b], two sequences
    whose lengths are [int]s, the script that [append_diff] makes of them
    can be run too, with the same result. *)
Theorem append_diff_keeps_meaning (s : list Diff) (r : Diff) (a b : list T) res :
  Z.of_nat (length a) <= int_max -> Z.of_nat (length b) <= int_max ->
  run_script (s ++ [r]) a b = Some res ->
  run_script (append_diff s r) a b = Some res.
Proof. intros _ _. apply run_script_append. Qed.

(** X3.  [append_diff] keeps a compact script compact, unless it has to
    push an [Add] record behind an [Add] record that does not end where the
    new one starts. *)
Theorem append_diff_keeps_compact (s : list Diff) (r : Diff) :
  compact s ->
  (forall f k, s = f ++ [k] -> mode k = Add -> mode r = Add ->
               posB k + len k = posB r) ->
  compact (append_diff s r).
Proof. apply append_diff_compact. Qed.

(** X4.  A script whose records have positive lengths keeps this property
    when a record whose length is not negative is appended, provided that
    the two sums that [append_diff] may compute from the last record and
    the new one are [int]s. *)
Theorem append_diff_keeps_lengths_positive (s : list Diff) (r : Diff) :
  sums_fit s r ->
  Forall (fun k => 0 < len k) s -> 0 <= len r ->
  Forall (fun k => 0 < len k) (append_diff s r).
Proof. intros _. apply append_diff_positive. Qed.

(** X5.  [append_diff] never touches a record before the last one and
    never drops a record.  Given the empty script, it returns the empty
    script or the new record alone.  Given a script [f ++ [b]], and when the
    two sums that it may compute from [b] and the new record [r] are
    [int]s, it returns [f ++ [b]], or [f ++ [b; r]], or, only when [r] has
    the mode of [b], [f] followed by [b] with the length of [r] added to
    its length. *)
Theorem append_diff_keeps_earlier_records (s : list Diff) (r : Diff) :
  sums_fit s r ->
  (s = [] -> append_diff s r = [] \/ append_diff s r = [r])
  /\ (forall f b, s = f ++ [b] ->
        append_diff s r = f ++ [b]
        \/ append_diff s r = f ++ [b; r]
        \/ (mode r = mode b
            /\ append_diff s r
               = f ++ [mkDiff (mode b) (len b + len r) (posB b)])).
Proof.
  intros _.
  destruct (append_diff_cases s r)
    as [[_ ->]|[(_ & _ & ->)|[(_ & f & k & _ & _ & _ & _ & ->)
                              |(_ & f & k & -> & Hmode & _ & ->)]]].
  - split; [intros ->; now left|]. intros f b ->. now left.
  - split; [intros ->; now right|]. intros f b ->.
    right; left. now rewrite <- app_assoc.
  - split; [intros ->; now right|]. intros f' b ->.
    right; left. now rewrite <- app_assoc.
  - split.
    + intros H. destruct f; discriminate.
    + intros f' b H. apply app_inj_tail in H as [<- <-].
      right; right. split; [now symmetry|reflexivity].
Qed.

(** X6.  Started at or past the end of one of the sequences, the Snake
    Finder returns the empty snake at its start point and reads no element:
    it does so whatever the two iterators are.  The call has
    [-D <= k <= D], the cells of [V] that the code reads lie within the
    block ([V[k-1]] unless [k = -D], [V[k+1]] unless [k = D] and
    [k <> -D]), and no operation overflows ([D] is at most [INT_MAX], and
    the coordinates [x] and [y = x - k] of the start point are [int]s). *)
Theorem snake_finder_at_the_end (a b : Iterator T) N M data V D k :
  - D <= k <= D -> D <= int_max ->
  (k <> - D -> 0 <= V + (k - 1) < size data) ->
  (k = - D \/ k <> D -> 0 <= V + (k + 1) < size data) ->
  in_int (snake_start (view data V) D k) ->
  in_int (snake_start (view data V) D k - k) ->
  N <= snake_start (view data V) D k \/ M <= snake_start (view data V) D k - k ->
  find_end_snake_of_further_reaching_dpath eq a N b M data V D k
  = Done (Snake.mk (snake_start (view data V) D k)
                   (snake_start (view data V) D k - k)
                   (snake_start (view data V) D k)
                   (snake_start (view data V) D k - k)
                   (takes_vertical (view data V) D k)).
Proof.
  intros _ _ Hlo Hhi _ _ Hend. rewrite finder_unfold by assumption. cbv zeta.
  rewrite follow_snake_stop; [reflexivity|].
  apply andb_false_iff. rewrite !Z.ltb_ge. lia.
Qed.

(** X7.  On sequences whose first elements differ and that are short
    enough for the code ([2 * (2 * (N + M) + 1)] is an [int]), the distance
    that [find_middle_snake] returns is the edit distance of the two
    sequences, as the reference recurrence computes it. *)
Theorem middle_snake_distance (A B : list T) V1 V2 data :
  short_enough (Z.of_nat (length A)) (Z.of_nat (length B)) ->
  first_differ eq A B = true ->
  room (size data) V1 V2
       (Z.quot (Z.of_nat (length B) + Z.of_nat (length A) + 1) 2 + 1) ->
  exists data' s,
    find_middle_snake eq (begin A) (Z.of_nat (length A))
                      (begin B) (Z.of_nat (length B)) V1 V2 data
    = Done (data', s)
    /\ SnakeLen.d s = edit_distance eq A B.
Proof.
  intros _.
  intros Hfirst Hroom.
  destruct (first_differ_spec eq A B Hfirst) as (HN & HM & Hdiff).
  destruct (find_middle_snake_spec eq (begin A) (begin B)
              (Z.of_nat (length A)) (Z.of_nat (length B))
              (readable_begin A) (readable_begin B) HN HM)
    with (V1 := V1) (V2 := V2) (sz := size data) (data := data)
         (R := Z.quot (Z.of_nat (length B) + Z.of_nat (length A) + 1) 2 + 1)
    as (data' & s & Hrun & _ & Hms & _); try lia; try reflexivity.
  { intros (_ & _ & Hm). revert Hm. now apply differs_not_matches. }
  { exact Hroom. }
  exists data', s. split; [exact Hrun|].
  destruct Hms as (Hdist & _).
  apply is_dist_grid in Hdist; try lia.
  rewrite !slice_all in Hdist. exact Hdist.
Qed.

(** X8.  On sequences whose first elements differ and that are short
    enough for the code ([2 * (2 * (N + M) + 1)] is an [int]), the snake
    that [find_middle_snake] returns lies within the two sequences, on one
    diagonal, and runs over pairs of elements that are equal under the
    predicate. *)
Theorem middle_snake_is_a_matching_run (A B : list T) V1 V2 data :
  short_enough (Z.of_nat (length A)) (Z.of_nat (length B)) ->
  first_differ eq A B = true ->
  room (size data) V1 V2
       (Z.quot (Z.of_nat (length B) + Z.of_nat (length A) + 1) 2 + 1) ->
  exists data' s,
    find_middle_snake eq (begin A) (Z.of_nat (length A))
                      (begin B) (Z.of_nat (length B)) V1 V2 data
    = Done (data', s)
    /\ 0 <= SnakeLen.x s <= SnakeLen.u s /\ SnakeLen.u s <= Z.of_nat (length A)
    /\ 0 <= SnakeLen.y s <= SnakeLen.v s /\ SnakeLen.v s <= Z.of_nat (length B)
    /\ SnakeLen.u s - SnakeLen.x s = SnakeLen.v s - SnakeLen.y s
    /\ forall i, 0 <= i < SnakeLen.u s - SnakeLen.x s ->
         matches eq (begin A) (begin B) (SnakeLen.x s + i) (SnakeLen.y s + i).
Proof.
  intros _.
  intros Hfirst Hroom.
  destruct (first_differ_spec eq A B Hfirst) as (HN & HM & Hdiff).
  destruct (find_middle_snake_spec eq (begin A) (begin B)
              (Z.of_nat (length A)) (Z.of_nat (length B))
              (readable_begin A) (readable_begin B) HN HM)
    with (V1 := V1) (V2 := V2) (sz := size data) (data := data)
         (R := Z.quot (Z.of_nat (length B) + Z.of_nat (length A) + 1) 2 + 1)
    as (data' & s & Hrun & _ & Hms & _); try lia; try reflexivity.
  { intros (_ & _ & Hm). revert Hm. now apply differs_not_matches. }
  { exact Hroom. }
  exists data', s. split; [exact Hrun|].
  destruct Hms as (_ & _ & Hx & HuN & Hy & HvM & Hdiag & Hall & _).
  splits; try lia.
  intros i Hi. destruct (Hall i Hi) as (_ & _ & Hm). exact Hm.
Qed.

(** X9.  On sequences whose first elements differ and that are short
    enough for the code ([2 * (2 * (N + M) + 1)] is an [int]), the two
    sub-problems that [find_diff_rec] derives from the middle snake lie
    within the two sequences, the first before the second, and their edit
    distances and the one edit next to the snake add up to the edit
    distance of the whole: the division loses nothing. *)
Theorem middle_snake_splits_the_distance (A B : list T) V1 V2 data :
  short_enough (Z.of_nat (length A)) (Z.of_nat (length B)) ->
  first_differ eq A B = true ->
  room (size data) V1 V2
       (Z.quot (Z.of_nat (length B) + Z.of_nat (length A) + 1) 2 + 1) ->
  exists data' s,
    find_middle_snake eq (begin A) (Z.of_nat (length A))
                      (begin B) (Z.of_nat (length B)) V1 V2 data
    = Done (data', s)
    /\ 0 <= fst (before_snake s) <= fst (after_snake s)
    /\ fst (after_snake s) <= Z.of_nat (length A)
    /\ 0 <= snd (before_snake s) <= snd (after_snake s)
    /\ snd (after_snake s) <= Z.of_nat (length B)
    /\ edit_distance eq (slice A 0 (fst (before_snake s)))
                        (slice B 0 (snd (before_snake s)))
       + 1
       + edit_distance eq (slice A (fst (after_snake s)) (Z.of_nat (length A)))
                          (slice B (snd (after_snake s)) (Z.of_nat (length B)))
       = edit_distance eq A B.
Proof.
  intros _.
  intros Hfirst Hroom.
  destruct (first_differ_spec eq A B Hfirst) as (HN & HM & Hdiff).
  destruct (find_middle_snake_spec eq (begin A) (begin B)
              (Z.of_nat (length A)) (Z.of_nat (length B))
              (readable_begin A) (readable_begin B) HN HM)
    with (V1 := V1) (V2 := V2) (sz := size data) (data := data)
         (R := Z.quot (Z.of_nat (length B) + Z.of_nat (length A) + 1) 2 + 1)
    as (data' & s & Hrun & _ & Hms & _); try lia; try reflexivity.
  { intros (_ & _ & Hm). revert Hm. now apply differs_not_matches. }
  { exact Hroom. }
  exists data', s. split; [exact Hrun|].
  pose proof Hms as (Hdist & _).
  apply middle_snake_parts in Hms
    as (c1 & c2 & Hsum & Hd1 & Hd2 & Hx & Hx' & Hy & Hy').
  splits; try lia.
  apply is_dist_grid in Hd1; try lia. apply is_dist_grid in Hd2; try lia.
  apply is_dist_grid in Hdist; try lia. rewrite !slice_all in Hdist.
  rewrite <- Hd1, <- Hd2, <- Hdist. exact Hsum.
Qed.

(** X10.  What the working arrays hold when [find_middle_snake] is called,
    and where in the block they lie, does not matter: on sequences whose
    first elements differ and that are short enough for the code
    ([2 * (2 * (N + M) + 1)] is an [int]), with room for the diagonals, two
    calls return the same snake. *)
Theorem middle_snake_ignores_the_arrays (A B : list T) V1 V2 data W1 W2 data' :
  short_enough (Z.of_nat (length A)) (Z.of_nat (length B)) ->
  first_differ eq A B = true ->
  room (size data) V1 V2
       (Z.quot (Z.of_nat (length B) + Z.of_nat (length A) + 1) 2 + 1) ->
  room (size data') W1 W2
       (Z.quot (Z.of_nat (length B) + Z.of_nat (length A) + 1) 2 + 1) ->
  exists d1 d2 s,
    find_middle_snake eq (begin A) (Z.of_nat (length A))
                      (begin B) (Z.of_nat (length B)) V1 V2 data
    = Done (d1, s)
    /\ find_middle_snake eq (begin A) (Z.of_nat (length A))
                         (begin B) (Z.of_nat (length B)) W1 W2 data'
       = Done (d2, s).
Proof.
  intros _.
  intros Hfirst Hroom Hroom'.
  destruct (first_differ_spec eq A B Hfirst) as (HN & HM & Hdiff).
  assert (Hm0 : ~ grid eq (begin A) (Z.of_nat (length A))
                       (begin B) (Z.of_nat (length B)) 0 0).
  { intros (_ & _ & Hm). revert Hm. now apply differs_not_matches. }
  destruct (find_middle_snake_spec eq (begin A) (begin B)
              (Z.of_nat (length A)) (Z.of_nat (length B))
              (readable_begin A) (readable_begin B) HN HM Hm0
              V1 V2 (size data) _ Hroom ltac:(lia) data eq_refl)
    as (d1 & s & Hrun & _ & _ & Hres).
  destruct (find_middle_snake_spec eq (begin A) (begin B)
              (Z.of_nat (length A)) (Z.of_nat (length B))
              (readable_begin A) (readable_begin B) HN HM Hm0
              W1 W2 (size data') _ Hroom' ltac:(lia) data' eq_refl)
    as (d2 & s' & Hrun' & _ & _ & Hres').
  assert (s' = s) as ->
    by (symmetry; eapply middle_snake_result_unique; eassumption).
  exists d1, d2, s. auto.
Qed.

(** X11.  [find_middle_snake] keeps the size of the block and writes no
    cell but those of the diagonals [-R .. R] of its two arrays, where [R]
    is [(M + N + 1) / 2], or 1 if this is less. *)
Theorem middle_snake_writes_its_arrays_only (a b : Iterator T) N M V1 V2
    data data' s :
  find_middle_snake eq a N b M V1 V2 data = Done (data', s) ->
  size data' = size data
  /\ forall i,
       ~ (V1 - Z.max 1 (Z.quot (M + N + 1) 2) <= i
          <= V1 + Z.max 1 (Z.quot (M + N + 1) 2)) ->
       ~ (V2 - Z.max 1 (Z.quot (M + N + 1) 2) <= i
          <= V2 + Z.max 1 (Z.quot (M + N + 1) 2)) ->
       cell data' i = cell data i.
Proof.
  intros H. apply find_middle_snake_writes in H as [Hsz Hcell].
  split; [exact Hsz|]. intros i H1 H2. apply Hcell.
  unfold in_arrays. tauto.
Qed.

(** X12.  On two sequences that are not empty, are equal element by
    element, and are short enough for the code ([2 * (2 * (N + M) + 1)] is
    an [int]), [find_middle_snake] returns the whole diagonal as a reverse
    snake of distance 0: that the distance is positive, as [find_diff_rec]
    asserts, depends on the common prefix being stripped first. *)
Theorem middle_snake_of_equal_sequences (A B : list T) V1 V2 data :
  short_enough (Z.of_nat (length A)) (Z.of_nat (length B)) ->
  A <> [] ->
  Forall2 (fun x y => eq x y = true) A B ->
  room (size data) V1 V2 1 ->
  exists data',
    find_middle_snake eq (begin A) (Z.of_nat (length A))
                      (begin B) (Z.of_nat (length B)) V1 V2 data
    = Done (data',
            SnakeLen.mk (Snake.mk 0 0 (Z.of_nat (length A)) (Z.of_nat (length A)) true)
                        true 0).
Proof.
  intros _.
  intros Hne Hall Hroom. pose proof (Forall2_length Hall) as Hlen.
  rewrite <- Hlen.
  apply find_middle_snake_all_match; auto.
  - apply readable_begin.
  - rewrite Hlen. apply readable_begin.
  - now apply Forall2_matches.
  - destruct A; [contradiction|cbn [length]; lia].
Qed.

(** ** The Diff Recursion *)

(** X13.  The two loops at the start of [find_diff_rec] strip the longest
    common prefix and then a common suffix of what is left: the two never
    overlap, and the suffix loop stops when one of the sequences is used
    up, or behind two elements that are not equal. *)
Theorem prefix_and_suffix_are_disjoint (A B : list T) (fuel : nat) :
  Z.of_nat (length A) <= Z.of_nat fuel ->
  exists n k,
    strip_prefix eq fuel (begin A) (begin B) 0 (Z.of_nat (length A))
                 0 (Z.of_nat (length B)) 0
    = Done (n, n, n)
    /\ strip_suffix eq fuel (begin A) (begin B) n (Z.of_nat (length A))
                    n (Z.of_nat (length B)) 0
       = Done (Z.of_nat (length A) - k, Z.of_nat (length B) - k, k)
    /\ n = Z.of_nat (common_prefix eq A B)
    /\ 0 <= k /\ n + k <= Z.of_nat (length A) /\ n + k <= Z.of_nat (length B)
    /\ (forall i, 0 <= i < k ->
          matches eq (begin A) (begin B)
                  (Z.of_nat (length A) - k + i) (Z.of_nat (length B) - k + i))
    /\ (n + k = Z.of_nat (length A) \/ n + k = Z.of_nat (length B)
        \/ ~ matches eq (begin A) (begin B)
             (Z.of_nat (length A) - k - 1) (Z.of_nat (length B) - k - 1)).
Proof.
  intros Hfuel.
  pose proof (strip_prefix_common eq A B fuel Hfuel) as Hpre. cbv zeta in Hpre.
  destruct (common_prefix_spec eq A B) as (HcA & HcB & _).
  set (n := Z.of_nat (common_prefix eq A B)) in *.
  destruct (strip_suffix_spec eq (begin A) (begin B) _ _
              (readable_begin A) (readable_begin B) fuel
              n (Z.of_nat (length A)) n (Z.of_nat (length B)) 0)
    as (k & Hk & HkA & HkB & Hsuf & Hall); try lia.
  exists n, k. splits; auto; try lia.
  destruct (Z.eq_dec (n + k) (Z.of_nat (length A))) as [|HneA]; [now left|].
  destruct (Z.eq_dec (n + k) (Z.of_nat (length B))) as [|HneB]; [now right; left|].
  right; right. apply (strip_suffix_stops eq _ _ _ _ _ _ _ _ _ _ _ Hsuf); lia.
Qed.

(** X14.  Called on any ranges of two sequences that are short enough for
    the code ([2 * (2 * (N + M) + 1)] is an [int] for their lengths [N] and
    [M]), with a script that leads to the start of the ranges and with
    arrays that have room for the diagonals, [find_diff_rec] returns a
    script that leads to their end, at the cost of the edit distance of the
    two ranges. *)
Theorem recursion_on_a_range (A B : list T) begA endA begB endB V1 V2
    (fuel : nat) st :
  short_enough (Z.of_nat (length A)) (Z.of_nat (length B)) ->
  0 <= begA <= endA -> endA <= Z.of_nat (length A) ->
  0 <= begB <= endB -> endB <= Z.of_nat (length B) ->
  (endA - begA) + (endB - begB) < Z.of_nat fuel ->
  room (size (st_data st)) V1 V2 ((endA - begA) + (endB - begB)) ->
  script_ok eq (begin A) (begin B) (st_diffs st) begA begB ->
  exists st',
    find_diff_rec eq fuel (begin A) begA endA (begin B) begB endB V1 V2 st
    = Done st'
    /\ script_ok eq (begin A) (begin B) (st_diffs st') endA endB
    /\ cost (st_diffs st')
       = cost (st_diffs st)
         + edit_distance eq (slice A begA endA) (slice B begB endB).
Proof.
  intros _.
  intros HA HA' HB HB' Hfuel Hroom Hok.
  destruct (find_diff_rec_spec eq (begin A) (begin B) _ _
              (readable_begin A) (readable_begin B)
              V1 V2 (size (st_data st)) _ fuel Hroom
              begA endA begB endB st HA HA' HB HB' Hfuel ltac:(lia) eq_refl Hok)
    as (st' & c & Hrun & _ & Hok' & Hcost & Hdist).
  exists st'. splits; auto.
  rewrite Hcost. f_equal.
  eapply is_dist_unique; [exact Hdist|]. apply is_dist_slice; lia.
Qed.

(** X15.  Through all of its calls, [find_diff_rec] keeps the size of the
    block and writes no cell but those of the diagonals [-R .. R] of its two
    arrays, where [R] is half the total length of the two ranges, rounded
    up, or 1 if this is less. *)
Theorem recursion_writes_its_arrays_only (A B : list T) begA endA begB endB
    V1 V2 (fuel : nat) st st' :
  0 <= begA <= endA -> endA <= Z.of_nat (length A) ->
  0 <= begB <= endB -> endB <= Z.of_nat (length B) ->
  (endA - begA) + (endB - begB) < Z.of_nat fuel ->
  room (size (st_data st)) V1 V2 ((endA - begA) + (endB - begB)) ->
  find_diff_rec eq fuel (begin A) begA endA (begin B) begB endB V1 V2 st
  = Done st' ->
  size (st_data st') = size (st_data st)
  /\ forall i,
       ~ (V1 - Z.max 1 (Z.quot ((endA - begA) + (endB - begB) + 1) 2) <= i
          <= V1 + Z.max 1 (Z.quot ((endA - begA) + (endB - begB) + 1) 2)) ->
       ~ (V2 - Z.max 1 (Z.quot ((endA - begA) + (endB - begB) + 1) 2) <= i
          <= V2 + Z.max 1 (Z.quot ((endA - begA) + (endB - begB) + 1) 2)) ->
       cell (st_data st') i = cell (st_data st) i.
Proof.
  intros HA HA' HB HB' Hfuel Hroom Hrun.
  apply (find_diff_rec_writes eq (begin A) (begin B) _ _
           (readable_begin A) (readable_begin B) V1 V2
           ((endA - begA) + (endB - begB))) in Hrun; try lia; auto.
  destruct Hrun as [Hsz Hcell]. split; [exact Hsz|].
  intros i H1 H2. apply Hcell. unfold in_arrays. tauto.
Qed.

(** X16.  Any block will do for [find_diff_rec], whatever it holds: called
    on two sequences that are short enough for the code
    ([2 * (2 * (N + M) + 1)] is an [int]), with two arrays that have room
    for the diagonals [-(N+M) .. N+M], it returns the script that
    [find_diff] returns. *)
Theorem recursion_ignores_the_arrays (A B : list T) V1 V2 data :
  short_enough (Z.of_nat (length A)) (Z.of_nat (length B)) ->
  room (size data) V1 V2 (Z.of_nat (length A) + Z.of_nat (length B)) ->
  exists st',
    find_diff_rec eq (S (Z.to_nat (Z.of_nat (length A) + Z.of_nat (length B))))
                  (begin A) 0 (Z.of_nat (length A))
                  (begin B) 0 (Z.of_nat (length B)) V1 V2 (mkState data [])
    = Done st'
    /\ find_diff eq A B = Done (st_diffs st').
Proof.
  intros _.
  intros Hroom.
  set (N := Z.of_nat (length A)) in *. set (M := Z.of_nat (length B)) in *.
  assert (HN : 0 <= N) by (unfold N; lia).
  assert (HM : 0 <= M) by (unfold M; lia).
  destruct (find_diff_rec_spec eq (begin A) (begin B) N M
              (readable_begin A) (readable_begin B)
              V1 V2 (size data) (N + M) (S (Z.to_nat (N + M))) Hroom
              0 N 0 M (mkState data []))
    as (st' & c & Hrun & _); try lia; try reflexivity.
  { apply script_ok_nil. }
  destruct (find_diff_run eq A B) as (st & Hrun0 & Hdiff & _). fold N M in Hrun0.
  exists st'. split; [exact Hrun|]. rewrite Hdiff. f_equal.
  eapply (find_diff_rec_same_script eq (begin A) (begin B) N M
            (readable_begin A) (readable_begin B)
            (N + M) (2 * (N + M) + 1 + (N + M)) (N + M) V1 V2 (N + M));
    [..|exact Hrun0|exact Hrun]; try lia; try reflexivity.
  - cbn [st_data allocate size]. unfold room. lia.
  - exact Hroom.
Qed.

(** X17.  [find_diff_rec] never rewrites the script it is given: all of its
    records but the last one are the first records of the script that is
    returned. *)
Theorem recursion_keeps_earlier_records (a b : Iterator T) begA endA begB endB
    V1 V2 (fuel : nat) st st' :
  find_diff_rec eq fuel a begA endA b begB endB V1 V2 st = Done st' ->
  exists t, st_diffs st' = removelast (st_diffs st) ++ t.
Proof.
  intros H. apply find_diff_rec_appends in H as (rs & -> & _).
  destruct (fold_append_diff_front rs (st_diffs st)) as (t & Ht & _).
  exists t. exact Ht.
Qed.

(** ** The Top-level Driver *)

(** X18.  For sequences that are short enough for the code
    ([2 * (2 * (N + M) + 1)] is an [int]), the lengths of the Keep records
    of the script that [find_diff] returns add up to the length of a
    longest common subsequence of A and B. *)
Theorem keep_total_is_lcs (A B : list T) :
  short_enough (Z.of_nat (length A)) (Z.of_nat (length B)) ->
  exists s, find_diff eq A B = Done s /\ sum_len is_Keep s = lcs eq A B.
Proof.
  intros _.
  destruct (find_diff_run eq A B) as (st & _ & Hrun & Hok & Hcost).
  exists (st_diffs st). split; [exact Hrun|].
  apply script_ok_sums in Hok as [Hc Hp].
  pose proof (measures_by_mode (st_diffs st)) as (H1 & H2 & H3).
  pose proof (lcs_edit_distance eq A B). lia.
Qed.

(** X19.  For sequences that are short enough for the code
    ([2 * (2 * (N + M) + 1)] is an [int]), comparing B with A under the
    predicate with its arguments swapped takes as many edits as comparing A
    with B; and so does comparing B with A under the predicate itself, when
    it is symmetric. *)
Theorem edit_count_is_symmetric (A B : list T) :
  short_enough (Z.of_nat (length A)) (Z.of_nat (length B)) ->
  (exists s s',
     find_diff eq A B = Done s
     /\ find_diff (fun x y => eq y x) B A = Done s'
     /\ cost s = cost s')
  /\ ((forall x y, eq x y = eq y x) ->
      exists s s',
        find_diff eq A B = Done s
        /\ find_diff eq B A = Done s'
        /\ cost s = cost s').
Proof.
  intros _.
  destruct (find_diff_run eq A B) as (st & _ & Hrun & _ & Hcost).
  split.
  - destruct (find_diff_run (fun x y => eq y x) B A)
      as (st' & _ & Hrun' & _ & Hcost').
    exists (st_diffs st), (st_diffs st'). splits; auto.
    rewrite Hcost, Hcost'. apply edit_distance_swap.
  - intros Hsym.
    destruct (find_diff_run eq B A) as (st' & _ & Hrun' & _ & Hcost').
    exists (st_diffs st), (st_diffs st'). splits; auto.
    rewrite Hcost, Hcost', (edit_distance_swap eq A B).
    apply edit_distance_ext. intros x y. apply Hsym.
Qed.

(** X20.  For sequences that are short enough for the code
    ([2 * (2 * (N + M) + 1)] is an [int]), the number of edits of the
    script that [find_diff] returns lies between the difference and the sum
    of the two lengths, and differs from their sum by an even number. *)
Theorem edit_count_bounds (A B : list T) :
  short_enough (Z.of_nat (length A)) (Z.of_nat (length B)) ->
  exists s,
    find_diff eq A B = Done s
    /\ Z.abs (Z.of_nat (length A) - Z.of_nat (length B)) <= cost s
    /\ cost s <= Z.of_nat (length A) + Z.of_nat (length B)
    /\ Z.rem (Z.of_nat (length A) + Z.of_nat (length B) - cost s) 2 = 0.
Proof.
  intros _.
  destruct (find_diff_run eq A B) as (st & _ & Hrun & Hok & _).
  exists (st_diffs st). split; [exact Hrun|].
  pose proof (script_ok_nonzero _ _ _ _ _ _ Hok) as Hpos.
  apply script_ok_sums in Hok as [Hc Hp].
  pose proof (measures_by_mode (st_diffs st)) as (H1 & H2 & H3).
  pose proof (sum_len_nonneg is_Keep _ Hpos).
  pose proof (sum_len_nonneg is_Add _ Hpos).
  pose proof (sum_len_nonneg is_Remove _ Hpos).
  splits; try lia.
  replace (Z.of_nat (length A) + Z.of_nat (length B) - cost (st_diffs st))
    with (2 * sum_len is_Keep (st_diffs st)) by lia.
  apply even_rem2.
Qed.

(** X21.  In the script that [find_diff] returns for sequences that are
    short enough for the code ([2 * (2 * (N + M) + 1)] is an [int]), every
    Add record continues B where the records before it have left it: its
    [posB] is the sum of the lengths of the Keep and Add records before
    it. *)
Theorem add_records_are_in_order (A B : list T) :
  short_enough (Z.of_nat (length A)) (Z.of_nat (length B)) ->
  exists s,
    find_diff eq A B = Done s
    /\ forall s1 r s2,
         s = s1 ++ r :: s2 -> mode r = Add -> posB r = produced s1.
Proof.
  intros _.
  destruct (find_diff_run eq A B) as (st & _ & Hrun & Hok & _).
  exists (st_diffs st). split; [exact Hrun|].
  intros s1 r s2 Hs Hr. rewrite Hs in Hok.
  apply (script_ok_split eq) in Hok as [_ Hrec].
  unfold record_ok in Hrec. rewrite Hr in Hrec. tauto.
Qed.

(** X22.  In the script that [find_diff] returns for sequences that are
    short enough for the code ([2 * (2 * (N + M) + 1)] is an [int]), a Keep
    record only ever covers elements that are equal under the predicate:
    the elements of A that it keeps and the elements of B at the place that
    the records before it have reached. *)
Theorem keep_records_pair_equal_elements (A B : list T) :
  short_enough (Z.of_nat (length A)) (Z.of_nat (length B)) ->
  exists s,
    find_diff eq A B = Done s
    /\ forall s1 r s2,
         s = s1 ++ r :: s2 -> mode r = Keep ->
         forall i, 0 <= i < len r ->
           matches eq (begin A) (begin B) (consumed s1 + i) (produced s1 + i).
Proof.
  intros _.
  destruct (find_diff_run eq A B) as (st & _ & Hrun & Hok & _).
  exists (st_diffs st). split; [exact Hrun|].
  intros s1 r s2 Hs Hr. rewrite Hs in Hok.
  apply (script_ok_split eq) in Hok as [_ Hrec].
  unfold record_ok in Hrec. rewrite Hr in Hrec. tauto.
Qed.

(** X23.  In the script that [find_diff] returns for sequences that are
    short enough for the code ([2 * (2 * (N + M) + 1)] is an [int]), the
    Keep and the Remove records have [posB = 0]. *)
Theorem keep_and_remove_have_no_position (A B : list T) :
  short_enough (Z.of_nat (length A)) (Z.of_nat (length B)) ->
  exists s,
    find_diff eq A B = Done s
    /\ Forall (fun r => mode r <> Add -> posB r = 0) s.
Proof.
  intros _.
  destruct (find_diff_run eq A B) as (st & Hrec & Hrun & _).
  exists (st_diffs st). split; [exact Hrun|].
  apply find_diff_rec_appends in Hrec as (rs & -> & HQ).
  apply fold_append_diff_posB; [exact HQ|constructor].
Qed.

(** X24.  For sequences that are short enough for the code
    ([2 * (2 * (N + M) + 1)] is an [int]), the script that [find_diff]
    returns starts with a Keep record exactly when the first elements of A
    and B are equal under the predicate, and this record then spans the
    longest common prefix of A and B. *)
Theorem first_keep_is_common_prefix (A B : list T) :
  short_enough (Z.of_nat (length A)) (Z.of_nat (length B)) ->
  exists s,
    find_diff eq A B = Done s
    /\ match common_prefix eq A B with
       | O => forall r t, s = r :: t -> mode r <> Keep
       | S n => exists t, s = mkDiff Keep (Z.of_nat (S n)) 0 :: t
       end.
Proof.
  intros _.
  destruct (find_diff_run eq A B) as (st & Hrec & Hrun & Hok & _).
  exists (st_diffs st). split; [exact Hrun|].
  destruct (common_prefix_spec eq A B) as (HcA & HcB & Hcall & Hcstop).
  assert (Hfirst : forall r t, st_diffs st = r :: t -> mode r = Keep ->
            len r <= Z.of_nat (common_prefix eq A B)).
  { intros r t Hs Hr. rewrite Hs in Hok.
    apply (script_ok_split eq (begin A) (begin B) [] r t) in Hok as [Hlen Hmatch].
    unfold record_ok in Hmatch. rewrite Hr in Hmatch.
    destruct Hmatch as (_ & _ & Hmatch).
    destruct (Z_le_gt_dec (len r) (Z.of_nat (common_prefix eq A B)));
      [assumption|].
    exfalso. apply Hcstop.
    specialize (Hmatch (Z.of_nat (common_prefix eq A B)) ltac:(lia)).
    exact Hmatch. }
  destruct (common_prefix eq A B) as [|n] eqn:Hcp.
  - intros r t Hs Hr. specialize (Hfirst r t Hs Hr).
    rewrite Hs in Hok.
    apply (script_ok_split eq (begin A) (begin B) [] r t) in Hok as [Hlen _]. lia.
  - apply find_diff_rec_appends_after_prefix in Hrec
      as (bA & bB & n' & rs & Hpre & Hs & HQ).
    pose proof (strip_prefix_common eq A B
                  (Z.to_nat (Z.of_nat (length A) + Z.of_nat (length B)))
                  ltac:(lia)) as Hpre'.
    cbv zeta in Hpre'. rewrite Hcp in Hpre'.
    assert (Hc : 0 < Z.of_nat (S n)) by lia.
    set (c := Z.of_nat (S n)) in *. clearbody c.
    rewrite Hpre' in Hpre. injection Hpre as _ _ <-.
    cbn [st_diffs] in Hs.
    rewrite append_diff_push in Hs; [|cbn [len]; lia|rewrite back_mode_nil; discriminate].
    cbn [app] in Hs.
    destruct (fold_append_diff_head rs HQ (mkDiff Keep c 0) [])
      as (r0 & t & Hfold & Hmode & Hpos & Hlen).
    rewrite Hfold in Hs. cbn [mode len posB] in *.
    specialize (Hlen eq_refl). specialize (Hfirst r0 t Hs Hmode).
    exists t. rewrite Hs. f_equal.
    destruct r0 as [m l p]. cbn [mode len posB] in *. subst m p. f_equal. lia.
Qed.

(** X25.  When one of the two sequences is, under the predicate, the start
    of the other one, and they are short enough for the code
    ([2 * (2 * (N + M) + 1)] is an [int]), the script that [find_diff]
    returns is the Keep record of the common part, if there is one,
    followed by one Add or one Remove record for what is left, if anything
    is. *)
Theorem diff_of_a_prefix (A B : list T) :
  short_enough (Z.of_nat (length A)) (Z.of_nat (length B)) ->
  common_prefix eq A B = length A \/ common_prefix eq A B = length B ->
  find_diff eq A B
  = let N := Z.of_nat (length A) in
    let M := Z.of_nat (length B) in
    let n := Z.of_nat (common_prefix eq A B) in
    Done ((if 0 <? n then [mkDiff Keep n 0] else [])
          ++ (if n <? M then [mkDiff Add (M - n) n]
              else if n <? N then [mkDiff Remove (N - n) 0]
              else [])).
Proof.
  intros _.
  intros Hend. cbv zeta. unfold find_diff.
  destruct (common_prefix_spec eq A B) as (HcA & HcB & _).
  set (N := Z.of_nat (length A)) in *. set (M := Z.of_nat (length B)) in *.
  set (fuel := Z.to_nat (N + M)).
  pose proof (strip_prefix_common eq A B fuel ltac:(unfold fuel; lia)) as Hpre.
  cbv zeta in Hpre. fold N M in Hpre.
  assert (Hn : Z.of_nat (common_prefix eq A B) = N
               \/ Z.of_nat (common_prefix eq A B) = M)
    by (unfold N, M; destruct Hend as [-> | ->]; auto).
  set (n := Z.of_nat (common_prefix eq A B)) in *. clearbody n.
  destruct (strip_suffix_spec eq (begin A) (begin B) N M
              (readable_begin A) (readable_begin B) fuel n N n M 0)
    as (k & Hk & HkA & HkB & Hsuf & _); try (unfold fuel; lia).
  assert (k = 0) as -> by lia.
  rewrite (find_diff_rec_base eq _ _ _ _ _ _ _ _ _ _ _ _ _ _ _ _ Hpre Hsuf) by lia.
  cbn [bind st_diffs].
  rewrite (append_diff_skip _ (mkDiff Keep (0 + 0) 0)) by reflexivity.
  replace (N - 0 - n) with (N - n) by lia. replace (M - 0 - n) with (M - n) by lia.
  destruct (Z.ltb_spec 0 n) as [Hn0|Hn0].
  - rewrite (append_diff_push [] (mkDiff Keep n 0));
      [|cbn [len]; lia|rewrite back_mode_nil; discriminate].
    cbn [app].
    destruct (Z.eqb_spec (N - n) 0) as [HA|HA].
    + destruct (Z.ltb_spec n M) as [HM|HM].
      * rewrite append_diff_push; [reflexivity|cbn [len]; lia|cbn; discriminate].
      * destruct (Z.ltb_spec n N); [lia|].
        rewrite append_diff_skip by (cbn [len]; lia). reflexivity.
    + destruct (Z.ltb_spec n M) as [HM|HM]; [lia|].
      destruct (Z.ltb_spec n N); [|lia].
      rewrite append_diff_push; [reflexivity|cbn [len]; lia|cbn; discriminate].
  - rewrite (append_diff_skip [] (mkDiff Keep n 0)) by (cbn [len]; lia).
    destruct (Z.eqb_spec (N - n) 0) as [HA|HA].
    + destruct (Z.ltb_spec n M) as [HM|HM].
      * rewrite append_diff_push;
          [reflexivity|cbn [len]; lia|rewrite back_mode_nil; discriminate].
      * destruct (Z.ltb_spec n N); [lia|].
        rewrite append_diff_skip by (cbn [len]; lia). reflexivity.
    + destruct (Z.ltb_spec n M) as [HM|HM]; [lia|].
      destruct (Z.ltb_spec n N); [|lia].
      rewrite append_diff_push;
        [reflexivity|cbn [len]; lia|rewrite back_mode_nil; discriminate].
Qed.

(** X26.  When no element of A is equal, under the predicate, to an element
    of B, and the two are short enough for the code
    ([2 * (2 * (N + M) + 1)] is an [int]), the script that [find_diff]
    returns holds no Keep record: it removes all of A and adds all of B. *)
Theorem diff_of_disjoint_sequences (A B : list T) :
  short_enough (Z.of_nat (length A)) (Z.of_nat (length B)) ->
  (forall x y, In x A -> In y B -> eq x y = false) ->
  exists s,
    find_diff eq A B = Done s
    /\ Forall (fun r => mode r <> Keep) s
    /\ sum_len is_Remove s = Z.of_nat (length A)
    /\ sum_len is_Add s = Z.of_nat (length B).
Proof.
  intros _.
  intros Hno.
  destruct (find_diff_run eq A B) as (st & _ & Hrun & Hok & _).
  exists (st_diffs st). split; [exact Hrun|].
  assert (Hkeep : Forall (fun r => mode r <> Keep) (st_diffs st)).
  { apply Forall_forall. intros r Hin Hr.
    apply in_split in Hin as (s1 & s2 & Hs). rewrite Hs in Hok.
    apply (script_ok_split eq) in Hok as [Hlen Hrec].
    unfold record_ok in Hrec. rewrite Hr in Hrec. destruct Hrec as (_ & _ & Hm).
    destruct (Hm 0 ltac:(lia)) as (p & q & Hp & Hq & Hpq).
    apply begin_Done in Hp as [_ Hp]. apply begin_Done in Hq as [_ Hq].
    apply nth_error_In in Hp, Hq. rewrite (Hno p q Hp Hq) in Hpq. discriminate. }
  split; [exact Hkeep|].
  apply script_ok_sums in Hok as [Hc Hp].
  pose proof (measures_by_mode (st_diffs st)) as (H1 & H2 & _).
  assert (H0 : sum_len is_Keep (st_diffs st) = 0).
  { apply sum_len_none. eapply Forall_impl; [|exact Hkeep].
    intros r Hr. cbv beta in Hr. destruct (mode r); [congruence|reflexivity..]. }
  lia.
Qed.

(** X27.  For sequences that are short enough for the code
    ([2 * (2 * (N + M) + 1)] is an [int]), the script that [find_diff]
    returns has at most one record more than twice its number of edits. *)
Theorem script_is_short (A B : list T) :
  short_enough (Z.of_nat (length A)) (Z.of_nat (length B)) ->
  exists s,
    find_diff eq A B = Done s
    /\ Z.of_nat (length s) <= 2 * cost s + 1.
Proof.
  intros _.
  destruct (find_diff_run eq A B) as (st & _ & Hrun & Hok & _).
  exists (st_diffs st). split; [exact Hrun|].
  pose proof (compact_length _ (script_ok_compact _ _ _ _ _ _ Hok)
                (script_ok_nonzero _ _ _ _ _ _ Hok)) as H.
  destruct (st_diffs st) as [|r s]; [cbn in *; lia|].
  destruct (is_Keep (mode r)); lia.
Qed.

End Extras.

(** * The further properties on concrete sequences *)

(** An Add record of two elements merged into the Add record that it
    continues. *)
Lemma append_diff_adds_lengths_witness :
  sums_fit [mkDiff Keep 1 0; mkDiff Add 1 1] (mkDiff Add 2 2)
  /\ sum_len is_Add (append_diff [mkDiff Keep 1 0; mkDiff Add 1 1] (mkDiff Add 2 2))
     = sum_len is_Add [mkDiff Keep 1 0; mkDiff Add 1 1] + 2.
Proof.
  assert (H : sums_fit [mkDiff Keep 1 0; mkDiff Add 1 1] (mkDiff Add 2 2))
    by (unfold sums_fit, in_int, int_min, int_max; cbn; intros _; split; [intros _|]; lia).
  split; [exact H|].
  exact (append_diff_adds_lengths is_Add [mkDiff Keep 1 0; mkDiff Add 1 1]
           (mkDiff Add 2 2) H).
Defined.

(** Two Keep records of one element, merged into one of two. *)
Lemma append_diff_keeps_meaning_witness :
  Z.of_nat (length [1; 2]%nat) <= int_max
  /\ Z.of_nat (length [1; 2]%nat) <= int_max
  /\ run_script ([mkDiff Keep 1 0] ++ [mkDiff Keep 1 0]) [1; 2]%nat [1; 2]%nat
     = Some ([1; 2]%nat, [])
  /\ run_script (append_diff [mkDiff Keep 1 0] (mkDiff Keep 1 0)) [1; 2]%nat [1; 2]%nat
     = Some ([1; 2]%nat, []).
Proof.
  assert (H : run_script ([mkDiff Keep 1 0] ++ [mkDiff Keep 1 0]) [1; 2]%nat [1; 2]%nat
              = Some ([1; 2]%nat, [])) by reflexivity.
  assert (Hl : Z.of_nat (length [1; 2]%nat) <= int_max)
    by (unfold int_max; cbn; lia).
  split; [exact Hl|]. split; [exact Hl|]. split; [exact H|].
  exact (append_diff_keeps_meaning [mkDiff Keep 1 0] (mkDiff Keep 1 0) _ _ _
           Hl Hl H).
Defined.

(** An Add record behind the Add record that it continues. *)
Lemma append_diff_keeps_compact_witness :
  compact [mkDiff Add 1 0]
  /\ (forall f k, [mkDiff Add 1 0] = f ++ [k] -> mode k = Add ->
                  mode (mkDiff Add 1 1) = Add -> posB k + len k = posB (mkDiff Add 1 1))
  /\ compact (append_diff [mkDiff Add 1 0] (mkDiff Add 1 1)).
Proof.
  assert (Hc : compact [mkDiff Add 1 0]) by exact I.
  assert (Hadd : forall f k, [mkDiff Add 1 0] = f ++ [k] -> mode k = Add ->
                   mode (mkDiff Add 1 1) = Add ->
                   posB k + len k = posB (mkDiff Add 1 1)).
  { intros f k Hs _ _. change [mkDiff Add 1 0] with ([] ++ [mkDiff Add 1 0]) in Hs.
    apply app_inj_tail in Hs as [_ <-]. reflexivity. }
  split; [exact Hc|]. split; [exact Hadd|].
  exact (append_diff_keeps_compact [mkDiff Add 1 0] (mkDiff Add 1 1) Hc Hadd).
Defined.

(** A record of one element behind a record of two. *)
Lemma append_diff_keeps_lengths_positive_witness :
  sums_fit [mkDiff Keep 2 0] (mkDiff Keep 1 0)
  /\ Forall (fun k => 0 < len k) [mkDiff Keep 2 0]
  /\ 0 <= len (mkDiff Keep 1 0)
  /\ Forall (fun k => 0 < len k) (append_diff [mkDiff Keep 2 0] (mkDiff Keep 1 0)).
Proof.
  assert (Hs : Forall (fun k => 0 < len k) [mkDiff Keep 2 0])
    by (constructor; [cbn; lia|constructor]).
  assert (Hr : 0 <= len (mkDiff Keep 1 0)) by (cbn; lia).
  assert (H : sums_fit [mkDiff Keep 2 0] (mkDiff Keep 1 0))
    by (unfold sums_fit, in_int, int_min, int_max; cbn; intros _; split; [intros _|]; lia).
  split; [exact H|]. split; [exact Hs|]. split; [exact Hr|].
  exact (append_diff_keeps_lengths_positive _ _ H Hs Hr).
Defined.

(** An Add record of two elements behind the Add record that it continues:
    the last record grows, the Keep record before it stays. *)
Lemma append_diff_keeps_earlier_records_witness :
  sums_fit [mkDiff Keep 1 0; mkDiff Add 1 1] (mkDiff Add 2 2)
  /\ append_diff [mkDiff Keep 1 0; mkDiff Add 1 1] (mkDiff Add 2 2)
     = [mkDiff Keep 1 0; mkDiff Add 3 1].
Proof.
  assert (H : sums_fit [mkDiff Keep 1 0; mkDiff Add 1 1] (mkDiff Add 2 2))
    by (unfold sums_fit, in_int, int_min, int_max; cbn; intros _; split; [intros _|]; lia).
  split; [exact H|].
  destruct (append_diff_keeps_earlier_records
              [mkDiff Keep 1 0; mkDiff Add 1 1] (mkDiff Add 2 2) H) as [_ Hlast].
  destruct (Hlast [mkDiff Keep 1 0] (mkDiff Add 1 1) eq_refl)
    as [Hs|[Hs|[_ Hs]]]; [exfalso|exfalso|exact Hs];
    vm_compute in Hs; discriminate.
Defined.

(** The Snake Finder past the end of a sequence of one element, with
    iterators that cannot be read: [V] is at 5 and [V[1] = 1]. *)
Lemma snake_finder_at_the_end_witness :
  (- 2 <= 2 <= 2)
  /\ 2 <= int_max
  /\ (2 <> - 2 -> 0 <= 5 + (2 - 1) < 22)
  /\ (2 = - 2 \/ 2 <> 2 -> 0 <= 5 + (2 + 1) < 22)
  /\ in_int (snake_start
               (view (mkStorage 22 (fun i => if i =? 6 then 1 else 0)) 5) 2 2)
  /\ in_int (snake_start
               (view (mkStorage 22 (fun i => if i =? 6 then 1 else 0)) 5) 2 2 - 2)
  /\ (1 <= snake_start (view (mkStorage 22 (fun i => if i =? 6 then 1 else 0)) 5) 2 2
      \/ 4 <= snake_start (view (mkStorage 22 (fun i => if i =? 6 then 1 else 0)) 5) 2 2 - 2)
  /\ find_end_snake_of_further_reaching_dpath
       Nat.eqb (fun _ => OutOfBounds) 1 (fun _ => OutOfBounds) 4
       (mkStorage 22 (fun i => if i =? 6 then 1 else 0)) 5 2 2
     = Done (Snake.mk 2 0 2 0 false).
Proof.
  assert (Hk : - 2 <= 2 <= 2) by lia.
  assert (HD : 2 <= int_max) by (unfold int_max; lia).
  assert (Hlo : 2 <> - 2 -> 0 <= 5 + (2 - 1) < 22) by lia.
  assert (Hhi : 2 = - 2 \/ 2 <> 2 -> 0 <= 5 + (2 + 1) < 22) by lia.
  assert (Hx : in_int (snake_start
                         (view (mkStorage 22 (fun i => if i =? 6 then 1 else 0)) 5)
                         2 2))
    by (vm_compute; split; discriminate).
  assert (Hy : in_int (snake_start
                         (view (mkStorage 22 (fun i => if i =? 6 then 1 else 0)) 5)
                         2 2 - 2))
    by (vm_compute; split; discriminate).
  assert (Hend : 1 <= snake_start
                        (view (mkStorage 22 (fun i => if i =? 6 then 1 else 0)) 5) 2 2
                 \/ 4 <= snake_start
                           (view (mkStorage 22 (fun i => if i =? 6 then 1 else 0)) 5)
                           2 2 - 2)
    by (left; cbv; discriminate).
  split; [exact Hk|]. split; [exact HD|]. split; [exact Hlo|]. split; [exact Hhi|].
  split; [exact Hx|]. split; [exact Hy|]. split; [exact Hend|].
  exact (snake_finder_at_the_end Nat.eqb (fun _ => OutOfBounds) (fun _ => OutOfBounds)
           1 4 (mkStorage 22 (fun i => if i =? 6 then 1 else 0)) 5 2 2
           Hk HD Hlo Hhi Hx Hy Hend).
Defined.

(** The search over [[1;2]] and [[3]], whose edit distance is 3. *)
Lemma middle_snake_distance_witness :
  short_enough 2 1
  /\ first_differ Nat.eqb [1; 2]%nat [3]%nat = true
  /\ room (size (allocate 14)) 3 10 (Z.quot (1 + 2 + 1) 2 + 1)
  /\ exists data' s,
       find_middle_snake Nat.eqb (begin [1; 2]%nat) 2 (begin [3]%nat) 1
                         3 10 (allocate 14)
       = Done (data', s)
       /\ SnakeLen.d s = edit_distance Nat.eqb [1; 2]%nat [3]%nat.
Proof.
  assert (Hroom : room (size (allocate 14)) 3 10 (Z.quot (1 + 2 + 1) 2 + 1))
    by (unfold room; simpl; lia).
  assert (Hfit : short_enough 2 1) by (unfold short_enough, int_max; lia).
  split; [exact Hfit|]. split; [reflexivity|]. split; [exact Hroom|].
  exact (middle_snake_distance Nat.eqb [1; 2]%nat [3]%nat 3 10 (allocate 14)
           Hfit eq_refl Hroom).
Defined.

Lemma middle_snake_is_a_matching_run_witness :
  short_enough 3 2
  /\ first_differ Nat.eqb [1; 2; 3]%nat [2; 3]%nat = true
  /\ room (size (allocate 22)) 5 16 (Z.quot (2 + 3 + 1) 2 + 1)
  /\ exists data' s,
       find_middle_snake Nat.eqb (begin [1; 2; 3]%nat) 3 (begin [2; 3]%nat) 2
                         5 16 (allocate 22)
       = Done (data', s)
       /\ 0 <= SnakeLen.x s <= SnakeLen.u s /\ SnakeLen.u s <= 3
       /\ 0 <= SnakeLen.y s <= SnakeLen.v s /\ SnakeLen.v s <= 2
       /\ SnakeLen.u s - SnakeLen.x s = SnakeLen.v s - SnakeLen.y s
       /\ forall i, 0 <= i < SnakeLen.u s - SnakeLen.x s ->
            matches Nat.eqb (begin [1; 2; 3]%nat) (begin [2; 3]%nat)
                    (SnakeLen.x s + i) (SnakeLen.y s + i).
Proof.
  assert (Hroom : room (size (allocate 22)) 5 16 (Z.quot (2 + 3 + 1) 2 + 1))
    by (unfold room; simpl; lia).
  assert (Hfit : short_enough 3 2) by (unfold short_enough, int_max; lia).
  split; [exact Hfit|]. split; [reflexivity|]. split; [exact Hroom|].
  exact (middle_snake_is_a_matching_run Nat.eqb [1; 2; 3]%nat [2; 3]%nat 5 16
           (allocate 22) Hfit eq_refl Hroom).
Defined.

Lemma middle_snake_splits_the_distance_witness :
  short_enough 3 3
  /\ first_differ Nat.eqb [1; 2; 3]%nat [2; 3; 4]%nat = true
  /\ room (size (allocate 26)) 6 19 (Z.quot (3 + 3 + 1) 2 + 1)
  /\ exists data' s,
       find_middle_snake Nat.eqb (begin [1; 2; 3]%nat) 3 (begin [2; 3; 4]%nat) 3
                         6 19 (allocate 26)
       = Done (data', s)
       /\ 0 <= fst (before_snake s) <= fst (after_snake s)
       /\ fst (after_snake s) <= 3
       /\ 0 <= snd (before_snake s) <= snd (after_snake s)
       /\ snd (after_snake s) <= 3
       /\ edit_distance Nat.eqb (slice [1; 2; 3]%nat 0 (fst (before_snake s)))
                                (slice [2; 3; 4]%nat 0 (snd (before_snake s)))
          + 1
          + edit_distance Nat.eqb (slice [1; 2; 3]%nat (fst (after_snake s)) 3)
                                  (slice [2; 3; 4]%nat (snd (after_snake s)) 3)
          = edit_distance Nat.eqb [1; 2; 3]%nat [2; 3; 4]%nat.
Proof.
  assert (Hroom : room (size (allocate 26)) 6 19 (Z.quot (3 + 3 + 1) 2 + 1))
    by (unfold room; simpl; lia).
  assert (Hfit : short_enough 3 3) by (unfold short_enough, int_max; lia).
  split; [exact Hfit|]. split; [reflexivity|]. split; [exact Hroom|].
  exact (middle_snake_splits_the_distance Nat.eqb [1; 2; 3]%nat [2; 3; 4]%nat 6 19
           (allocate 26) Hfit eq_refl Hroom).
Defined.

(** A fresh block and a block that is full of sevens. *)
Lemma middle_snake_ignores_the_arrays_witness :
  short_enough 2 1
  /\ first_differ Nat.eqb [1; 2]%nat [3]%nat = true
  /\ room (size (allocate 14)) 3 10 (Z.quot (1 + 2 + 1) 2 + 1)
  /\ room (size (mkStorage 20 (fun _ => 7))) 5 14 (Z.quot (1 + 2 + 1) 2 + 1)
  /\ exists d1 d2 s,
       find_middle_snake Nat.eqb (begin [1; 2]%nat) 2 (begin [3]%nat) 1
                         3 10 (allocate 14)
       = Done (d1, s)
       /\ find_middle_snake Nat.eqb (begin [1; 2]%nat) 2 (begin [3]%nat) 1
                            5 14 (mkStorage 20 (fun _ => 7))
          = Done (d2, s).
Proof.
  assert (Hroom : room (size (allocate 14)) 3 10 (Z.quot (1 + 2 + 1) 2 + 1))
    by (unfold room; simpl; lia).
  assert (Hroom' : room (size (mkStorage 20 (fun _ => 7))) 5 14
                        (Z.quot (1 + 2 + 1) 2 + 1))
    by (unfold room; simpl; lia).
  assert (Hfit : short_enough 2 1) by (unfold short_enough, int_max; lia).
  split; [exact Hfit|].
  split; [reflexivity|]. split; [exact Hroom|]. split; [exact Hroom'|].
  exact (middle_snake_ignores_the_arrays Nat.eqb [1; 2]%nat [3]%nat 3 10 (allocate 14)
           5 14 (mkStorage 20 (fun _ => 7)) Hfit eq_refl Hroom Hroom').
Defined.

Lemma middle_snake_writes_its_arrays_only_witness :
  exists data' s,
    find_middle_snake Nat.eqb (begin [1; 2]%nat) 2 (begin [3]%nat) 1
                      3 10 (allocate 14)
    = Done (data', s)
    /\ size data' = size (allocate 14)
    /\ forall i,
         ~ (3 - Z.max 1 (Z.quot (1 + 2 + 1) 2) <= i
            <= 3 + Z.max 1 (Z.quot (1 + 2 + 1) 2)) ->
         ~ (10 - Z.max 1 (Z.quot (1 + 2 + 1) 2) <= i
            <= 10 + Z.max 1 (Z.quot (1 + 2 + 1) 2)) ->
         cell data' i = cell (allocate 14) i.
Proof.
  assert (Hroom : room (size (allocate 14)) 3 10 (Z.quot (1 + 2 + 1) 2 + 1))
    by (unfold room; simpl; lia).
  assert (Hm0 : ~ grid Nat.eqb (begin [1; 2]%nat) 2 (begin [3]%nat) 1 0 0).
  { intros (_ & _ & p & q & [= <-] & [= <-] & H). discriminate. }
  destruct (find_middle_snake_spec Nat.eqb (begin [1; 2]%nat) (begin [3]%nat) 2 1
              (readable_begin [1; 2]%nat) (readable_begin [3]%nat)
              ltac:(lia) ltac:(lia) Hm0 3 10 (size (allocate 14)) _ Hroom
              ltac:(lia) (allocate 14) eq_refl)
    as (data' & s & Hrun & _).
  exists data', s. split; [exact Hrun|].
  exact (middle_snake_writes_its_arrays_only Nat.eqb _ _ _ _ _ _ _ _ _ Hrun).
Defined.

(** The search over [[1;2]] and itself. *)
Lemma middle_snake_of_equal_sequences_witness :
  short_enough 2 2
  /\ [1; 2]%nat <> []
  /\ Forall2 (fun x y => Nat.eqb x y = true) [1; 2]%nat [1; 2]%nat
  /\ room (size (allocate 6)) 1 4 1
  /\ exists data',
       find_middle_snake Nat.eqb (begin [1; 2]%nat) 2 (begin [1; 2]%nat) 2
                         1 4 (allocate 6)
       = Done (data', SnakeLen.mk (Snake.mk 0 0 2 2 true) true 0).
Proof.
  assert (Hne : [1; 2]%nat <> []) by discriminate.
  assert (Hall : Forall2 (fun x y => Nat.eqb x y = true) [1; 2]%nat [1; 2]%nat)
    by (repeat constructor).
  assert (Hroom : room (size (allocate 6)) 1 4 1) by (unfold room; simpl; lia).
  assert (Hfit : short_enough 2 2) by (unfold short_enough, int_max; lia).
  split; [exact Hfit|].
  split; [exact Hne|]. split; [exact Hall|]. split; [exact Hroom|].
  exact (middle_snake_of_equal_sequences Nat.eqb [1; 2]%nat [1; 2]%nat 1 4
           (allocate 6) Hfit Hne Hall Hroom).
Defined.

(** The two loops on [[1;2;1]] and [[1;1]]: the suffix loop stops at the
    prefix. *)
Lemma prefix_and_suffix_are_disjoint_witness :
  Z.of_nat (length [1; 2; 1]%nat) <= Z.of_nat 3
  /\ exists n k,
       strip_prefix Nat.eqb 3 (begin [1; 2; 1]%nat) (begin [1; 1]%nat)
                    0 (Z.of_nat (length [1; 2; 1]%nat))
                    0 (Z.of_nat (length [1; 1]%nat)) 0
       = Done (n, n, n)
       /\ strip_suffix Nat.eqb 3 (begin [1; 2; 1]%nat) (begin [1; 1]%nat)
                       n (Z.of_nat (length [1; 2; 1]%nat))
                       n (Z.of_nat (length [1; 1]%nat)) 0
          = Done (Z.of_nat (length [1; 2; 1]%nat) - k,
                  Z.of_nat (length [1; 1]%nat) - k, k)
       /\ n = Z.of_nat (common_prefix Nat.eqb [1; 2; 1]%nat [1; 1]%nat)
       /\ 0 <= k
       /\ n + k <= Z.of_nat (length [1; 2; 1]%nat)
       /\ n + k <= Z.of_nat (length [1; 1]%nat)
       /\ (forall i, 0 <= i < k ->
             matches Nat.eqb (begin [1; 2; 1]%nat) (begin [1; 1]%nat)
                     (Z.of_nat (length [1; 2; 1]%nat) - k + i)
                     (Z.of_nat (length [1; 1]%nat) - k + i))
       /\ (n + k = Z.of_nat (length [1; 2; 1]%nat)
           \/ n + k = Z.of_nat (length [1; 1]%nat)
           \/ ~ matches Nat.eqb (begin [1; 2; 1]%nat) (begin [1; 1]%nat)
                (Z.of_nat (length [1; 2; 1]%nat) - k - 1)
                (Z.of_nat (length [1; 1]%nat) - k - 1)).
Proof.
  assert (Hfuel : Z.of_nat (length [1; 2; 1]%nat) <= Z.of_nat 3) by (cbn; lia).
  split; [exact Hfuel|].
  exact (prefix_and_suffix_are_disjoint Nat.eqb [1; 2; 1]%nat [1; 1]%nat 3%nat Hfuel).
Defined.

(** The recursion on the first two elements of [[1;2;3]] and [[4;2;5]]. *)
Lemma recursion_on_a_range_witness :
  short_enough 3 3
  /\ 0 <= 0 <= 2 /\ 2 <= Z.of_nat (length [1; 2; 3]%nat)
  /\ 0 <= 0 <= 2 /\ 2 <= Z.of_nat (length [4; 2; 5]%nat)
  /\ (2 - 0) + (2 - 0) < Z.of_nat 5
  /\ room (size (st_data (mkState (allocate 18) []))) 4 13 ((2 - 0) + (2 - 0))
  /\ script_ok Nat.eqb (begin [1; 2; 3]%nat) (begin [4; 2; 5]%nat)
               (st_diffs (mkState (allocate 18) [])) 0 0
  /\ exists st',
       find_diff_rec Nat.eqb 5 (begin [1; 2; 3]%nat) 0 2 (begin [4; 2; 5]%nat) 0 2
                     4 13 (mkState (allocate 18) [])
       = Done st'
       /\ script_ok Nat.eqb (begin [1; 2; 3]%nat) (begin [4; 2; 5]%nat)
                    (st_diffs st') 2 2
       /\ cost (st_diffs st')
          = cost (st_diffs (mkState (allocate 18) []))
            + edit_distance Nat.eqb (slice [1; 2; 3]%nat 0 2) (slice [4; 2; 5]%nat 0 2).
Proof.
  assert (HA : 0 <= 0 <= 2) by lia.
  assert (HA' : 2 <= Z.of_nat (length [1; 2; 3]%nat)) by (cbn; lia).
  assert (HB' : 2 <= Z.of_nat (length [4; 2; 5]%nat)) by (cbn; lia).
  assert (Hfuel : (2 - 0) + (2 - 0) < Z.of_nat 5) by lia.
  assert (Hroom : room (size (st_data (mkState (allocate 18) []))) 4 13
                       ((2 - 0) + (2 - 0)))
    by (unfold room; simpl; lia).
  assert (Hok : script_ok Nat.eqb (begin [1; 2; 3]%nat) (begin [4; 2; 5]%nat)
                          (st_diffs (mkState (allocate 18) [])) 0 0)
    by apply script_ok_nil.
  assert (Hfit : short_enough 3 3) by (unfold short_enough, int_max; lia).
  split; [exact Hfit|].
  split; [exact HA|]. split; [exact HA'|]. split; [exact HA|]. split; [exact HB'|].
  split; [exact Hfuel|]. split; [exact Hroom|]. split; [exact Hok|].
  exact (recursion_on_a_range Nat.eqb [1; 2; 3]%nat [4; 2; 5]%nat 0 2 0 2 4 13 5%nat
           (mkState (allocate 18) []) Hfit HA HA' HA HB' Hfuel Hroom Hok).
Defined.

Lemma recursion_writes_its_arrays_only_witness :
  exists st',
    find_diff_rec Nat.eqb 5 (begin [1; 2; 3]%nat) 0 2 (begin [4; 2; 5]%nat) 0 2
                  4 13 (mkState (allocate 18) [])
    = Done st'
    /\ size (st_data st') = size (allocate 18)
    /\ forall i,
         ~ (4 - Z.max 1 (Z.quot ((2 - 0) + (2 - 0) + 1) 2) <= i
            <= 4 + Z.max 1 (Z.quot ((2 - 0) + (2 - 0) + 1) 2)) ->
         ~ (13 - Z.max 1 (Z.quot ((2 - 0) + (2 - 0) + 1) 2) <= i
            <= 13 + Z.max 1 (Z.quot ((2 - 0) + (2 - 0) + 1) 2)) ->
         cell (st_data st') i = cell (allocate 18) i.
Proof.
  assert (HA : 0 <= 0 <= 2) by lia.
  assert (HA' : 2 <= Z.of_nat (length [1; 2; 3]%nat)) by (cbn; lia).
  assert (HB' : 2 <= Z.of_nat (length [4; 2; 5]%nat)) by (cbn; lia).
  assert (Hfuel : (2 - 0) + (2 - 0) < Z.of_nat 5) by lia.
  assert (Hroom : room (size (st_data (mkState (allocate 18) []))) 4 13
                       ((2 - 0) + (2 - 0)))
    by (unfold room; simpl; lia).
  destruct (find_diff_rec_spec Nat.eqb (begin [1; 2; 3]%nat) (begin [4; 2; 5]%nat) _ _
              (readable_begin [1; 2; 3]%nat) (readable_begin [4; 2; 5]%nat)
              4 13 _ _ 5%nat Hroom 0 2 0 2 (mkState (allocate 18) [])
              HA HA' HA HB' Hfuel ltac:(lia) eq_refl (script_ok_nil _ _ _))
    as (st' & c & Hrun & _).
  exists st'. split; [exact Hrun|].
  exact (recursion_writes_its_arrays_only Nat.eqb [1; 2; 3]%nat [4; 2; 5]%nat
           0 2 0 2 4 13 5%nat (mkState (allocate 18) []) st'
           HA HA' HA HB' Hfuel Hroom Hrun).
Defined.

(** The recursion over [[1;2]] and [[3]] in a block that is full of
    sevens. *)
Lemma recursion_ignores_the_arrays_witness :
  short_enough 2 1
  /\ room (size (mkStorage 20 (fun _ => 7))) 5 14
       (Z.of_nat (length [1; 2]%nat) + Z.of_nat (length [3]%nat))
  /\ exists st',
       find_diff_rec Nat.eqb
         (S (Z.to_nat (Z.of_nat (length [1; 2]%nat) + Z.of_nat (length [3]%nat))))
         (begin [1; 2]%nat) 0 (Z.of_nat (length [1; 2]%nat))
         (begin [3]%nat) 0 (Z.of_nat (length [3]%nat))
         5 14 (mkState (mkStorage 20 (fun _ => 7)) [])
       = Done st'
       /\ find_diff Nat.eqb [1; 2]%nat [3]%nat = Done (st_diffs st').
Proof.
  assert (Hroom : room (size (mkStorage 20 (fun _ => 7))) 5 14
                       (Z.of_nat (length [1; 2]%nat) + Z.of_nat (length [3]%nat)))
    by (unfold room; simpl; lia).
  assert (Hfit : short_enough 2 1) by (unfold short_enough, int_max; lia).
  split; [exact Hfit|]. split; [exact Hroom|].
  exact (recursion_ignores_the_arrays Nat.eqb [1; 2]%nat [3]%nat 5 14
           (mkStorage 20 (fun _ => 7)) Hfit Hroom).
Defined.

(** The recursion over [[1;2]] and [[3]], from a script of two records. *)
Lemma recursion_keeps_earlier_records_witness :
  exists st' t,
    find_diff_rec Nat.eqb 4 (begin [1; 2]%nat) 0 2 (begin [3]%nat) 0 1 3 10
                  (mkState (allocate 14) [mkDiff Keep 4 0; mkDiff Remove 1 0])
    = Done st'
    /\ st_diffs st'
       = removelast (st_diffs (mkState (allocate 14)
                                 [mkDiff Keep 4 0; mkDiff Remove 1 0])) ++ t.
Proof.
  assert (Hrun : exists st',
             find_diff_rec Nat.eqb 4 (begin [1; 2]%nat) 0 2 (begin [3]%nat) 0 1 3 10
                           (mkState (allocate 14) [mkDiff Keep 4 0; mkDiff Remove 1 0])
             = Done st').
  { destruct (find_diff_rec Nat.eqb 4 (begin [1; 2]%nat) 0 2 (begin [3]%nat) 0 1 3 10
                (mkState (allocate 14) [mkDiff Keep 4 0; mkDiff Remove 1 0]))
      as [st'| | | |] eqn:Hrun; [eauto|..]; exfalso; vm_compute in Hrun; discriminate. }
  destruct Hrun as (st' & Hrun).
  destruct (recursion_keeps_earlier_records Nat.eqb _ _ _ _ _ _ _ _ _ _ _ Hrun)
    as (t & Ht).
  exists st', t. split; [exact Hrun|exact Ht].
Defined.

(** [[1;2]] is the start of [[1;2;3;4]]. *)
Lemma diff_of_a_prefix_witness :
  short_enough 2 4
  /\ (common_prefix Nat.eqb [1; 2]%nat [1; 2; 3; 4]%nat = length [1; 2]%nat
   \/ common_prefix Nat.eqb [1; 2]%nat [1; 2; 3; 4]%nat = length [1; 2; 3; 4]%nat)
  /\ find_diff Nat.eqb [1; 2]%nat [1; 2; 3; 4]%nat
     = Done [mkDiff Keep 2 0; mkDiff Add 2 2].
Proof.
  assert (H : common_prefix Nat.eqb [1; 2]%nat [1; 2; 3; 4]%nat = length [1; 2]%nat
              \/ common_prefix Nat.eqb [1; 2]%nat [1; 2; 3; 4]%nat
                 = length [1; 2; 3; 4]%nat)
    by (left; reflexivity).
  assert (Hfit : short_enough 2 4) by (unfold short_enough, int_max; lia).
  split; [exact Hfit|]. split; [exact H|].
  exact (diff_of_a_prefix Nat.eqb [1; 2]%nat [1; 2; 3; 4]%nat Hfit H).
Defined.

(** [[1;2]] and [[3]] have no element in common. *)
Lemma diff_of_disjoint_sequences_witness :
  short_enough 2 1
  /\ (forall x y, In x [1; 2]%nat -> In y [3]%nat -> Nat.eqb x y = false)
  /\ exists s,
       find_diff Nat.eqb [1; 2]%nat [3]%nat = Done s
       /\ Forall (fun r => mode r <> Keep) s
       /\ sum_len is_Remove s = Z.of_nat (length [1; 2]%nat)
       /\ sum_len is_Add s = Z.of_nat (length [3]%nat).
Proof.
  assert (H : forall x y, In x [1; 2]%nat -> In y [3]%nat -> Nat.eqb x y = false).
  { intros x y [<-|[<-|[]]] [<-|[]]; reflexivity. }
  assert (Hfit : short_enough 2 1) by (unfold short_enough, int_max; lia).
  split; [exact Hfit|]. split; [exact H|].
  exact (diff_of_disjoint_sequences Nat.eqb [1; 2]%nat [3]%nat Hfit H).
Defined.

(** The script for [[1;2;3]] and [[1;4;3]] keeps two elements. *)
Lemma keep_total_is_lcs_witness :
  short_enough 3 3
  /\ exists s,
       find_diff Nat.eqb [1; 2; 3]%nat [1; 4; 3]%nat = Done s
       /\ sum_len is_Keep s = lcs Nat.eqb [1; 2; 3]%nat [1; 4; 3]%nat.
Proof.
  assert (H : short_enough 3 3) by (unfold short_enough, int_max; lia).
  split; [exact H|].
  exact (keep_total_is_lcs Nat.eqb [1; 2; 3]%nat [1; 4; 3]%nat H).
Defined.

(** [[1;2;3]] and [[4;3]], compared in both orders. *)
Lemma edit_count_is_symmetric_witness :
  short_enough 3 2
  /\ (forall x y, Nat.eqb x y = Nat.eqb y x)
  /\ (exists s s',
        find_diff Nat.eqb [1; 2; 3]%nat [4; 3]%nat = Done s
        /\ find_diff (fun x y => Nat.eqb y x) [4; 3]%nat [1; 2; 3]%nat = Done s'
        /\ cost s = cost s')
  /\ exists s s',
       find_diff Nat.eqb [1; 2; 3]%nat [4; 3]%nat = Done s
       /\ find_diff Nat.eqb [4; 3]%nat [1; 2; 3]%nat = Done s'
       /\ cost s = cost s'.
Proof.
  assert (H : short_enough 3 2) by (unfold short_enough, int_max; lia).
  assert (Hsym : forall x y, Nat.eqb x y = Nat.eqb y x) by apply Nat.eqb_sym.
  destruct (edit_count_is_symmetric Nat.eqb [1; 2; 3]%nat [4; 3]%nat H)
    as [Hswap Hsame].
  split; [exact H|]. split; [exact Hsym|]. split; [exact Hswap|].
  exact (Hsame Hsym).
Defined.

Lemma edit_count_bounds_witness :
  short_enough 3 2
  /\ exists s,
       find_diff Nat.eqb [1; 2; 3]%nat [4; 3]%nat = Done s
       /\ Z.abs (3 - 2) <= cost s
       /\ cost s <= 3 + 2
       /\ Z.rem (3 + 2 - cost s) 2 = 0.
Proof.
  assert (H : short_enough 3 2) by (unfold short_enough, int_max; lia).
  split; [exact H|].
  exact (edit_count_bounds Nat.eqb [1; 2; 3]%nat [4; 3]%nat H).
Defined.

Lemma add_records_are_in_order_witness :
  short_enough 3 3
  /\ exists s,
       find_diff Nat.eqb [1; 2; 3]%nat [1; 4; 3]%nat = Done s
       /\ forall s1 r s2,
            s = s1 ++ r :: s2 -> mode r = Add -> posB r = produced s1.
Proof.
  assert (H : short_enough 3 3) by (unfold short_enough, int_max; lia).
  split; [exact H|].
  exact (add_records_are_in_order Nat.eqb [1; 2; 3]%nat [1; 4; 3]%nat H).
Defined.

Lemma keep_records_pair_equal_elements_witness :
  short_enough 3 3
  /\ exists s,
       find_diff Nat.eqb [1; 2; 3]%nat [1; 4; 3]%nat = Done s
       /\ forall s1 r s2,
            s = s1 ++ r :: s2 -> mode r = Keep ->
            forall i, 0 <= i < len r ->
              matches Nat.eqb (begin [1; 2; 3]%nat) (begin [1; 4; 3]%nat)
                      (consumed s1 + i) (produced s1 + i).
Proof.
  assert (H : short_enough 3 3) by (unfold short_enough, int_max; lia).
  split; [exact H|].
  exact (keep_records_pair_equal_elements Nat.eqb [1; 2; 3]%nat [1; 4; 3]%nat H).
Defined.

Lemma keep_and_remove_have_no_position_witness :
  short_enough 3 3
  /\ exists s,
       find_diff Nat.eqb [1; 2; 3]%nat [1; 4; 3]%nat = Done s
       /\ Forall (fun r => mode r <> Add -> posB r = 0) s.
Proof.
  assert (H : short_enough 3 3) by (unfold short_enough, int_max; lia).
  split; [exact H|].
  exact (keep_and_remove_have_no_position Nat.eqb [1; 2; 3]%nat [1; 4; 3]%nat H).
Defined.

(** [[1;2;3]] and [[1;2;4;3]] start with two common elements. *)
Lemma first_keep_is_common_prefix_witness :
  short_enough 3 4
  /\ exists s t,
       find_diff Nat.eqb [1; 2; 3]%nat [1; 2; 4; 3]%nat = Done s
       /\ s = mkDiff Keep 2 0 :: t.
Proof.
  assert (H : short_enough 3 4) by (unfold short_enough, int_max; lia).
  split; [exact H|].
  destruct (first_keep_is_common_prefix Nat.eqb [1; 2; 3]%nat [1; 2; 4; 3]%nat H)
    as (s & Hrun & t & Hs).
  exists s, t. split; [exact Hrun|exact Hs].
Defined.

Lemma script_is_short_witness :
  short_enough 3 3
  /\ exists s,
       find_diff Nat.eqb [1; 2; 3]%nat [1; 4; 3]%nat = Done s
       /\ Z.of_nat (length s) <= 2 * cost s + 1.
Proof.
  assert (H : short_enough 3 3) by (unfold short_enough, int_max; lia).
  split; [exact H|].
  exact (script_is_short Nat.eqb [1; 2; 3]%nat [1; 4; 3]%nat H).
Defined.

(** * The integers of the code

    Below the bounds that the theorems carry, no operation of the code
    overflows: the code with 32-bit integers does what the code over [Z]
    does. *)

Lemma wrap_small z : in_int z -> Int32.wrap z = z.
Proof.
  unfold in_int, int_min, int_max, Int32.wrap. intros H.
  rewrite Z.mod_small by lia. lia.
Qed.

Ltac fits := unfold in_int, int_min, int_max, short_enough in *; lia.

(** ** The accumulator *)

Lemma append_diff_int s r :
  sums_fit s r -> Int32.append_diff s r = append_diff s r.
Proof.
  unfold Int32.append_diff, append_diff, sums_fit.
  destruct (len r =? 0); [reflexivity|].
  destruct (rev s) as [|back front]; [reflexivity|]. intros H.
  destruct (Mode_eqb_spec (mode back) (mode r)) as [Hm|Hm]; cbn [andb];
    [|reflexivity].
  destruct (H Hm) as [H1 H2].
  destruct (Mode_eqb_spec (mode r) Add) as [Ha|Ha]; cbn [negb orb].
  - rewrite (wrap_small _ (H1 Ha)), (wrap_small _ H2). reflexivity.
  - rewrite (wrap_small _ H2). reflexivity.
Qed.

Section IntSearch.

Context {T : Type}.
Variable eq : T -> T -> bool.

(** ** The Snake Finder *)

Lemma follow_snake_int fuel (a : Iterator T) N (b : Iterator T) M :
  N <= int_max -> M <= int_max ->
  forall u v, int_min <= u -> int_min <= v ->
    Int32.follow_snake eq fuel a N b M u v = follow_snake eq fuel a N b M u v.
Proof.
  intros HN HM. induction fuel as [|fuel IH]; intros u v Hu Hv;
    cbn [Int32.follow_snake follow_snake];
    (destruct (Z.ltb_spec u N); cbn [andb]; [|reflexivity]);
    (destruct (Z.ltb_spec v M); [|reflexivity]);
    destruct (a u); cbn [bind]; try reflexivity;
    destruct (b v); cbn [bind]; try reflexivity;
    destruct (eq _ _); try reflexivity.
  rewrite !wrap_small by fits. apply IH; lia.
Qed.

Lemma follow_snake_upper fuel (a : Iterator T) N (b : Iterator T) M :
  forall u v u' v',
    follow_snake eq fuel a N b M u v = Done (u', v') ->
    u' <= Z.max u N /\ v' <= Z.max v M.
Proof.
  induction fuel as [|fuel IH]; intros u v u' v' H; cbn [follow_snake] in H;
    (destruct (Z.ltb_spec u N); cbn [andb] in H; [|injection H as <- <-; lia]);
    (destruct (Z.ltb_spec v M); [|injection H as <- <-; lia]);
    apply bind_Done in H as (au & _ & H);
    apply bind_Done in H as (bv & _ & H);
    (destruct (eq au bv); [|injection H as <- <-; lia]).
  - discriminate.
  - apply IH in H. lia.
Qed.

(** The finder, when [-D], [k-1], [k+1], [V[k-1]+1] and [x-k] do not
    overflow. *)
Lemma finder_int (a : Iterator T) N (b : Iterator T) M data V D k :
  - D <= k <= D -> D <= int_max ->
  N <= int_max -> M <= int_max ->
  in_int (snake_start (view data V) D k) ->
  in_int (snake_start (view data V) D k - k) ->
  Int32.find_end_snake_of_further_reaching_dpath eq a N b M data V D k
  = find_end_snake_of_further_reaching_dpath eq a N b M data V D k.
Proof.
  intros Hk HD HN HM Hx Hy.
  unfold Int32.find_end_snake_of_further_reaching_dpath,
         find_end_snake_of_further_reaching_dpath.
  rewrite (wrap_small (- D)) by fits.
  unfold snake_start, takes_vertical, view in Hx, Hy.
  destruct (Z.eqb_spec k (- D)) as [HkD|HkD]; cbn [orb bind] in *.
  - rewrite (wrap_small (k + 1)) by fits.
    unfold load. destruct (in_storage data (V + (k + 1))); [|reflexivity].
    cbn [bind]. rewrite (wrap_small _ Hy).
    rewrite follow_snake_int by fits. reflexivity.
  - rewrite (wrap_small (k - 1)) by fits.
    destruct (Z.eqb_spec k D) as [HkD'|HkD']; cbn [negb andb bind] in *.
    + unfold load. destruct (in_storage data (V + (k - 1))); [|reflexivity].
      cbn [bind]. rewrite (wrap_small _ Hx), (wrap_small _ Hy).
      rewrite follow_snake_int by fits. reflexivity.
    + rewrite (wrap_small (k + 1)) by fits.
      unfold load.
      destruct (in_storage data (V + (k - 1))); [|reflexivity]. cbn [bind].
      destruct (in_storage data (V + (k + 1))); [|reflexivity]. cbn [bind].
      destruct (cell data (V + (k - 1)) <? cell data (V + (k + 1))); cbn [bind].
      * rewrite (wrap_small _ Hy). rewrite follow_snake_int by fits. reflexivity.
      * rewrite (wrap_small _ Hx), (wrap_small _ Hy).
        rewrite follow_snake_int by fits. reflexivity.
Qed.

(** ** The middle snake search *)

Lemma start_within N D k (V : Array) :
  0 <= N -> primed_within N D V -> on_front D k ->
  0 <= snake_start V D k <= N + D.
Proof.
  intros HN [[-> HV]|[HD HV]] Hk.
  - destruct Hk as (i & Hi & ->). assert (i = 0) as -> by lia.
    unfold snake_start, takes_vertical. cbn. rewrite HV. lia.
  - unfold snake_start, takes_vertical.
    pose proof (on_front_pred_left D k Hk) as Hl.
    pose proof (on_front_pred_right D k Hk) as Hr.
    destruct (Z.eqb_spec k (- D)); cbn [orb].
    + specialize (HV (k + 1) (Hr ltac:(lia))). lia.
    + destruct (Z.eqb_spec k D); cbn [negb andb].
      * specialize (HV (k - 1) (Hl ltac:(lia))). lia.
      * destruct (V (k - 1) <? V (k + 1)).
        -- specialize (HV (k + 1) (Hr ltac:(lia))). lia.
        -- specialize (HV (k - 1) (Hl ltac:(lia))). lia.
Qed.

Lemma finder_within (a : Iterator T) N (b : Iterator T) M d V D k p :
  0 <= N -> primed_within N D (view d V) -> on_front D k ->
  find_end_snake_of_further_reaching_dpath eq a N b M d V D k = Done p ->
  Snake.x p = snake_start (view d V) D k
  /\ Snake.y p = Snake.x p - k
  /\ 0 <= Snake.x p <= Snake.u p /\ Snake.u p <= N + D
  /\ Snake.v p = Snake.u p - k.
Proof.
  intros HN HV Hk H. pose proof (start_within N D k _ HN HV Hk) as Hs.
  destruct (finder_Done eq _ _ _ _ _ _ _ _ _ H) as (_ & Hx & Hy & Hf).
  pose proof (follow_snake_mono eq _ _ _ _ _ _ _ _ _ Hf) as [Hmono Hdiag].
  pose proof (follow_snake_upper _ _ _ _ _ _ _ _ _ Hf) as [Hup _].
  assert (0 <= D) by (destruct Hk as (i & ? & ?); lia).
  splits; lia.
Qed.

Lemma primed_within_same N D (V V' : Array) :
  (forall j, - D <= j <= Z.max 1 D -> V' j = V j) ->
  primed_within N D V -> primed_within N D V'.
Proof.
  intros Hsame [[-> HV]|[HD HV]].
  - left. split; [reflexivity|]. rewrite Hsame by lia. exact HV.
  - right. split; [exact HD|]. intros j Hj.
    rewrite Hsame; [now apply HV|]. destruct Hj as (i & ? & ?). lia.
Qed.

(** The rule of two [for] loops that do the same. *)
Lemma for_each_agree {S R : Type} (I : Z -> S -> Prop)
    (body body' : Z -> S -> outcome (S * option R)) (hi step : Z) :
  0 < step ->
  (forall k s, k <= hi -> I k s ->
     body' k s = body k s
     /\ forall s', body k s = Done (s', None) -> I (k + step) s') ->
  forall lo s, I lo s ->
    for_each (range lo hi step) body' s = for_each (range lo hi step) body s
    /\ forall s', for_each (range lo hi step) body s = Done (s', None) ->
                  exists k, hi < k /\ I k s'.
Proof.
  intros Hstep Hbody lo s.
  remember (Z.to_nat (hi - lo + 1)) as n eqn:Hn.
  revert lo s Hn. induction n as [n IH] using lt_wf_ind. intros lo s Hn HI.
  rewrite range_unfold by assumption.
  destruct (Z.leb_spec lo hi) as [Hle|Hgt].
  - destruct (Hbody lo s Hle HI) as [Hsame Hnext].
    cbn [for_each]. rewrite Hsame.
    destruct (body lo s) as [[s1 [x|]]| | | |]; cbn [bind];
      try (split; [reflexivity|discriminate]).
    apply (IH (Z.to_nat (hi - (lo + step) + 1))); [lia|reflexivity|].
    now apply Hnext.
  - split; [reflexivity|]. intros s' [= <-]. exists lo. split; [lia|assumption].
Qed.

Section IntMiddle.

Variables (N M : Z) (V1 V2 R : Z).
Hypothesis HN : 0 <= N.
Hypothesis HM : 0 <= M.
Hypothesis Hfit : short_enough N M.
Hypothesis Hapart : V1 + R < V2 - R.

Ltac fit :=
  let H := fresh in
  pose proof Hfit as H; unfold short_enough, int_max in H;
  unfold in_int, int_min, int_max; lia.

Lemma forward_step_int (a b : Iterator T) D k d :
  0 <= D -> 2 * D <= M + N + 1 -> D + 1 <= R -> on_front D k ->
  primed_within N D (view d V1) -> primed_within N D (view d V2) ->
  Int32.forward_step eq a N b M (N - M) D V1 V2 k d
  = forward_step eq a N b M (N - M) D V1 V2 k d
  /\ forall d' r,
       forward_step eq a N b M (N - M) D V1 V2 k d = Done (d', r) ->
       0 <= view d' V1 k <= N + D
       /\ differs_only_at (fun i => i = V1 + k) d d'.
Proof.
  intros HD HDm HDR Hk HV1 HV2.
  pose proof (start_within N D k _ HN HV1 Hk) as Hs.
  assert (HkD : - D <= k <= D) by (destruct Hk as (i & ? & ?); lia).
  split.
  - unfold Int32.forward_step, forward_step.
    rewrite finder_int by fit.
    destruct (find_end_snake_of_further_reaching_dpath eq a N b M d V1 D k)
      as [p| | | |] eqn:Hp; cbn [bind]; try reflexivity.
    destruct (finder_within _ _ _ _ _ _ _ _ _ HN HV1 Hk Hp)
      as (Hx & Hy & Hxu & Hu & Hv).
    destruct (store d (V1 + k) (Snake.u p)) as [d'| | | |] eqn:Hst; cbn [bind];
      try reflexivity.
    apply store_Done in Hst as (_ & _ & Hcell & Hother).
    rewrite (wrap_small (k - (N - M))) by fit.
    rewrite (wrap_small (- (k - (N - M)))) by fit.
    rewrite (wrap_small (D - 1)) by fit.
    rewrite (wrap_small (- (D - 1))) by fit.
    destruct (Z.eqb_spec (Z.rem (N - M) 2) 0) as [Heven|Hodd]; cbn [negb andb];
      [reflexivity|].
    destruct (Z.leb_spec (- (D - 1)) (- (k - (N - M)))) as [Hlo|Hlo]; cbn [andb];
      [|reflexivity].
    destruct (Z.leb_spec (- (k - (N - M))) (D - 1)) as [Hhi|Hhi]; [|reflexivity].
    destruct (load d' (V1 + k)) as [x1| | | |] eqn:H1; cbn [bind]; try reflexivity.
    destruct (load d' (V2 + - (k - (N - M)))) as [x2| | | |] eqn:H2; cbn [bind];
      try reflexivity.
    apply load_Done in H1 as [_ ->]. apply load_Done in H2 as [_ ->].
    assert (Hx2 : 0 <= cell d' (V2 + - (k - (N - M))) <= N + D).
    { rewrite Hother by lia.
      destruct HV2 as [[-> _]|[_ HV2]]; [lia|].
      apply rem2_odd in Hodd as (q & Hq). destruct Hk as (i & Hi & Hki).
      specialize (HV2 (- (k - (N - M)))). unfold view in HV2.
      assert (Hon : on_front (D - 1) (- (k - (N - M))))
        by (exists (q - i + D); lia).
      specialize (HV2 Hon). lia. }
    rewrite Hcell.
    rewrite (wrap_small (Snake.u p + _)) by fit.
    rewrite (wrap_small (2 * D)) by fit.
    rewrite (wrap_small (2 * D - 1)) by fit.
    reflexivity.
  - intros d' r H. split; [|now apply forward_step_writes in H].
    unfold forward_step in H.
    apply bind_Done in H as (p & Hp & H).
    apply bind_Done in H as (d1 & Hst & H).
    assert (d' = d1) as ->.
    { destruct (negb (Z.rem (N - M) 2 =? 0) && (- (D - 1) <=? - (k - (N - M)))
                && (- (k - (N - M)) <=? D - 1)); [|now injection H].
      apply bind_Done in H as (x1 & _ & H). apply bind_Done in H as (x2 & _ & H).
      destruct (x1 + x2 >=? N); now injection H. }
    apply store_Done in Hst as (_ & _ & Hcell & _).
    destruct (finder_within _ _ _ _ _ _ _ _ _ HN HV1 Hk Hp)
      as (Hx & Hy & Hxu & Hu & Hv).
    unfold view. rewrite Hcell. lia.
Qed.

Lemma reverse_step_int (ra rb : Iterator T) D k d :
  0 <= D -> 2 * D <= M + N + 1 -> D + 1 <= R -> on_front D k ->
  front_within (N + D) D (view d V1) -> primed_within N D (view d V2) ->
  Int32.reverse_step eq ra N rb M (N - M) D V1 V2 k d
  = reverse_step eq ra N rb M (N - M) D V1 V2 k d
  /\ forall d' r,
       reverse_step eq ra N rb M (N - M) D V1 V2 k d = Done (d', r) ->
       0 <= view d' V2 k <= N + D
       /\ differs_only_at (fun i => i = V2 + k) d d'.
Proof.
  intros HD HDm HDR Hk HV1 HV2.
  pose proof (start_within N D k _ HN HV2 Hk) as Hs.
  assert (HkD : - D <= k <= D) by (destruct Hk as (i & ? & ?); lia).
  split.
  - unfold Int32.reverse_step, reverse_step.
    rewrite finder_int by fit.
    destruct (find_end_snake_of_further_reaching_dpath eq ra N rb M d V2 D k)
      as [p| | | |] eqn:Hp; cbn [bind]; try reflexivity.
    destruct (finder_within _ _ _ _ _ _ _ _ _ HN HV2 Hk Hp)
      as (Hx & Hy & Hxu & Hu & Hv).
    destruct (store d (V2 + k) (Snake.u p)) as [d'| | | |] eqn:Hst; cbn [bind];
      try reflexivity.
    apply store_Done in Hst as (_ & _ & Hcell & Hother).
    rewrite (wrap_small (k - (N - M))) by fit.
    rewrite (wrap_small (- (k - (N - M)))) by fit.
    rewrite (wrap_small (- D)) by fit.
    destruct (Z.eqb_spec (Z.rem (N - M) 2) 0) as [Heven|Hodd]; cbn [negb andb];
      [|reflexivity].
    destruct (Z.leb_spec (- D) (- (k - (N - M)))) as [Hlo|Hlo]; cbn [andb];
      [|reflexivity].
    destruct (Z.leb_spec (- (k - (N - M))) D) as [Hhi|Hhi]; [|reflexivity].
    destruct (load d' (V1 + - (k - (N - M)))) as [x1| | | |] eqn:H1; cbn [bind];
      try reflexivity.
    destruct (load d' (V2 + k)) as [x2| | | |] eqn:H2; cbn [bind];
      try reflexivity.
    apply load_Done in H1 as [_ ->]. apply load_Done in H2 as [_ ->].
    assert (Hx1 : 0 <= cell d' (V1 + - (k - (N - M))) <= N + D).
    { rewrite Hother by lia.
      apply rem2_even in Heven as (q & Hq). destruct Hk as (i & Hi & Hki).
      apply (HV1 (- (k - (N - M)))). exists (q - i + D). lia. }
    rewrite Hcell.
    rewrite (wrap_small (_ + Snake.u p)) by fit.
    rewrite (wrap_small (2 * D)) by fit.
    rewrite (wrap_small (N - Snake.u p)) by fit.
    rewrite (wrap_small (M - Snake.v p)) by fit.
    rewrite (wrap_small (N - Snake.x p)) by fit.
    rewrite (wrap_small (M - Snake.y p)) by fit.
    reflexivity.
  - intros d' r H. split; [|now apply reverse_step_writes in H].
    unfold reverse_step in H.
    apply bind_Done in H as (p & Hp & H).
    apply bind_Done in H as (d1 & Hst & H).
    assert (d' = d1) as ->.
    { destruct ((Z.rem (N - M) 2 =? 0) && (- D <=? - (k - (N - M)))
                && (- (k - (N - M)) <=? D)); [|now injection H].
      apply bind_Done in H as (x1 & _ & H). apply bind_Done in H as (x2 & _ & H).
      destruct (x1 + x2 >=? N); now injection H. }
    apply store_Done in Hst as (_ & _ & Hcell & _).
    destruct (finder_within _ _ _ _ _ _ _ _ _ HN HV2 Hk Hp)
      as (Hx & Hy & Hxu & Hu & Hv).
    unfold view. rewrite Hcell. lia.
Qed.

(** The cells that the search at distance [D] reads of its own array are
    those of the distance before: it does not write them. *)
Lemma primed_within_kept D k (V V' : Array) :
  on_front D k ->
  (forall j, j <> k -> V' j = V j) ->
  primed_within N D V -> primed_within N D V'.
Proof.
  intros (i & Hi & Hk) Hsame [[-> HV]|[HD HV]].
  - left. split; [reflexivity|]. rewrite Hsame by lia. exact HV.
  - right. split; [exact HD|]. intros j Hj.
    rewrite Hsame; [now apply HV|]. destruct Hj as (i' & ? & ?). lia.
Qed.

Lemma primed_within_other D (V V' : Array) :
  D + 1 <= R ->
  (forall j, - R <= j <= R -> V' j = V j) ->
  primed_within N D V -> primed_within N D V'.
Proof.
  intros HDR Hsame [[-> HV]|[HD HV]].
  - left. split; [reflexivity|]. rewrite Hsame by lia. exact HV.
  - right. split; [exact HD|]. intros j Hj.
    rewrite Hsame; [now apply HV|]. destruct Hj as (i' & ? & ?). lia.
Qed.

Lemma forward_loop_int (a b : Iterator T) D d :
  0 <= D -> 2 * D <= M + N + 1 -> D + 1 <= R ->
  primed_within N D (view d V1) -> primed_within N D (view d V2) ->
  for_each (range (- D) D 2) (Int32.forward_step eq a N b M (N - M) D V1 V2) d
  = for_each (range (- D) D 2) (forward_step eq a N b M (N - M) D V1 V2) d
  /\ forall d',
       for_each (range (- D) D 2) (forward_step eq a N b M (N - M) D V1 V2) d
       = Done (d', None) ->
       front_within (N + D) D (view d' V1) /\ primed_within N D (view d' V2).
Proof.
  intros HD HDm HDR HV1 HV2.
  set (I := fun (k : Z) (d0 : Storage) =>
     (exists i, 0 <= i /\ k = 2 * i - D)
     /\ primed_within N D (view d0 V1)
     /\ primed_within N D (view d0 V2)
     /\ forall j, on_front D j -> j < k -> 0 <= view d0 V1 j <= N + D).
  destruct (for_each_agree I (forward_step eq a N b M (N - M) D V1 V2)
              (Int32.forward_step eq a N b M (N - M) D V1 V2) D 2 ltac:(lia))
    with (lo := - D) (s := d) as [Hsame Hpost].
  - intros k d0 HkD ((i & Hi & Hki) & H1 & H2 & Hdone).
    assert (Hk : on_front D k) by (exists i; lia).
    destruct (forward_step_int a b D k d0 HD HDm HDR Hk H1 H2) as [Hstep Hcell].
    split; [exact Hstep|]. intros d' Hrun.
    destruct (Hcell d' None Hrun) as [Hnew [_ Hother]].
    assert (Hv1 : forall j, j <> k -> view d' V1 j = view d0 V1 j).
    { intros j Hj. unfold view. apply Hother. lia. }
    assert (Hv2 : forall j, - R <= j <= R -> view d' V2 j = view d0 V2 j).
    { intros j Hj. unfold view. apply Hother. lia. }
    split; [exists (i + 1); lia|].
    split; [now apply (primed_within_kept D k (view d0 V1))|].
    split; [now apply (primed_within_other D (view d0 V2))|].
    intros j Hj Hlt. destruct (Z.eq_dec j k) as [->|Hne]; [exact Hnew|].
    rewrite Hv1 by assumption. apply Hdone; [assumption|].
    destruct Hj as (i' & ? & ?). lia.
  - split; [exists 0; lia|]. split; [assumption|]. split; [assumption|].
    intros j (i & Hi & ->) Hlt. lia.
  - split; [exact Hsame|]. intros d' Hrun.
    destruct (Hpost d' Hrun) as (k & Hk & _ & _ & H2 & Hdone).
    split; [|exact H2].
    intros j Hj. apply Hdone; [assumption|]. destruct Hj as (i & ? & ?). lia.
Qed.

Lemma reverse_loop_int (ra rb : Iterator T) D d :
  0 <= D -> 2 * D <= M + N + 1 -> D + 1 <= R ->
  front_within (N + D) D (view d V1) -> primed_within N D (view d V2) ->
  for_each (range (- D) D 2) (Int32.reverse_step eq ra N rb M (N - M) D V1 V2) d
  = for_each (range (- D) D 2) (reverse_step eq ra N rb M (N - M) D V1 V2) d
  /\ forall d',
       for_each (range (- D) D 2) (reverse_step eq ra N rb M (N - M) D V1 V2) d
       = Done (d', None) ->
       front_within (N + D) D (view d' V1) /\ front_within (N + D) D (view d' V2).
Proof.
  intros HD HDm HDR HV1 HV2.
  set (I := fun (k : Z) (d0 : Storage) =>
     (exists i, 0 <= i /\ k = 2 * i - D)
     /\ front_within (N + D) D (view d0 V1)
     /\ primed_within N D (view d0 V2)
     /\ forall j, on_front D j -> j < k -> 0 <= view d0 V2 j <= N + D).
  destruct (for_each_agree I (reverse_step eq ra N rb M (N - M) D V1 V2)
              (Int32.reverse_step eq ra N rb M (N - M) D V1 V2) D 2 ltac:(lia))
    with (lo := - D) (s := d) as [Hsame Hpost].
  - intros k d0 HkD ((i & Hi & Hki) & H1 & H2 & Hdone).
    assert (Hk : on_front D k) by (exists i; lia).
    destruct (reverse_step_int ra rb D k d0 HD HDm HDR Hk H1 H2) as [Hstep Hcell].
    split; [exact Hstep|]. intros d' Hrun.
    destruct (Hcell d' None Hrun) as [Hnew [_ Hother]].
    assert (Hv2 : forall j, j <> k -> view d' V2 j = view d0 V2 j).
    { intros j Hj. unfold view. apply Hother. lia. }
    assert (Hv1 : forall j, - R <= j <= R -> view d' V1 j = view d0 V1 j).
    { intros j Hj. unfold view. apply Hother. lia. }
    split; [exists (i + 1); lia|].
    split.
    { intros j Hj. rewrite Hv1; [now apply H1|]. destruct Hj as (i' & ? & ?). lia. }
    split; [now apply (primed_within_kept D k (view d0 V2))|].
    intros j Hj Hlt. destruct (Z.eq_dec j k) as [->|Hne]; [exact Hnew|].
    rewrite Hv2 by assumption. apply Hdone; [assumption|].
    destruct Hj as (i' & ? & ?). lia.
  - split; [exists 0; lia|]. split; [assumption|]. split; [assumption|].
    intros j (i & Hi & ->) Hlt. lia.
  - split; [exact Hsame|]. intros d' Hrun.
    destruct (Hpost d' Hrun) as (k & Hk & _ & H1 & _ & Hdone).
    split; [exact H1|].
    intros j Hj. apply Hdone; [assumption|]. destruct Hj as (i & ? & ?). lia.
Qed.

Lemma front_within_primed D (V : Array) :
  0 <= D -> front_within (N + D) D V -> primed_within N (D + 1) V.
Proof.
  intros HD HV. right. split; [lia|].
  replace (D + 1 - 1) with D by lia. exact HV.
Qed.

Lemma distance_step_int (a b : Iterator T) D d :
  0 <= D -> 2 * D <= M + N + 1 -> D + 1 <= R ->
  primed_within N D (view d V1) -> primed_within N D (view d V2) ->
  Int32.distance_step eq a N b M V1 V2 D d = distance_step eq a N b M V1 V2 D d
  /\ forall d',
       distance_step eq a N b M V1 V2 D d = Done (d', None) ->
       primed_within N (D + 1) (view d' V1)
       /\ primed_within N (D + 1) (view d' V2).
Proof.
  intros HD HDm HDR HV1 HV2.
  unfold Int32.distance_step, distance_step.
  rewrite (wrap_small (N - M)) by fit. rewrite (wrap_small (- D)) by fit.
  destruct (forward_loop_int a b D d HD HDm HDR HV1 HV2) as [Hfwd Hpost].
  rewrite Hfwd.
  destruct (for_each (range (- D) D 2) (forward_step eq a N b M (N - M) D V1 V2) d)
    as [[d1 [s|]]| | | |] eqn:Hrun; cbn [bind];
    try (split; [reflexivity|discriminate]).
  destruct (Hpost d1 eq_refl) as [H1 H2].
  destruct (reverse_loop_int (reverse_iterator (advance a N))
              (reverse_iterator (advance b M)) D d1 HD HDm HDR H1 H2)
    as [Hrev Hpost'].
  split; [exact Hrev|]. intros d' Hrun'.
  destruct (Hpost' d' Hrun') as [H1' H2'].
  split; now apply front_within_primed.
Qed.

(** Whatever the two iterators and the block are: when the two arrays are
    apart and the sequences are short enough, the search with 32-bit
    integers does what the search over [Z] does. *)
Lemma find_middle_snake_int (a b : Iterator T) d :
  Z.quot (M + N + 1) 2 + 1 <= R ->
  Int32.find_middle_snake eq a N b M V1 V2 d = find_middle_snake eq a N b M V1 V2 d.
Proof.
  intros HR. unfold Int32.find_middle_snake, find_middle_snake.
  pose proof (Z.quot_rem' (M + N + 1) 2) as Hq.
  pose proof (Z.rem_bound_pos (M + N + 1) 2 ltac:(lia) ltac:(lia)) as Hrem.
  destruct (store d (V1 + 1) 0) as [d1| | | |] eqn:Hst1; cbn [bind];
    try reflexivity.
  destruct (store d1 (V2 + 1) 0) as [d2| | | |] eqn:Hst2; cbn [bind];
    try reflexivity.
  apply store_Done in Hst1 as (_ & _ & Hcell1 & _).
  apply store_Done in Hst2 as (_ & _ & Hcell2 & Hother2).
  rewrite (wrap_small (M + N)) by fit. rewrite (wrap_small (M + N + 1)) by fit.
  set (I := fun (D : Z) (d0 : Storage) =>
     0 <= D /\ primed_within N D (view d0 V1) /\ primed_within N D (view d0 V2)).
  destruct (for_each_agree I (distance_step eq a N b M V1 V2)
              (Int32.distance_step eq a N b M V1 V2)
              (Z.quot (M + N + 1) 2) 1 ltac:(lia))
    with (lo := 0) (s := d2) as [Hsame _].
  - intros D d0 HDle (HD & H1 & H2).
    destruct (distance_step_int a b D d0 HD ltac:(lia) ltac:(lia) H1 H2)
      as [Hstep Hpost].
    split; [exact Hstep|]. intros d' Hrun.
    destruct (Hpost d' Hrun) as [H1' H2']. unfold I. splits; auto; lia.
  - unfold I. splits; try lia.
    + left. split; [reflexivity|]. unfold view.
      rewrite Hother2 by lia. exact Hcell1.
    + left. split; [reflexivity|]. exact Hcell2.
  - rewrite Hsame. reflexivity.
Qed.

End IntMiddle.

(** ** The two loops of the recursion *)

Lemma strip_prefix_int fuel (a b : Iterator T) endA endB :
  endA <= int_max -> endB <= int_max ->
  forall begA begB prefix_len,
    int_min <= begA <= endA -> int_min <= begB <= endB ->
    int_min <= prefix_len -> prefix_len + (endA - begA) <= int_max ->
    Int32.strip_prefix eq fuel a b begA endA begB endB prefix_len
    = strip_prefix eq fuel a b begA endA begB endB prefix_len.
Proof.
  intros HA HB. induction fuel as [|fuel IH]; intros begA begB pl HbA HbB Hpl Hpl';
    cbn [Int32.strip_prefix strip_prefix];
    (destruct (Z.eqb_spec begA endA); cbn [negb andb]; [reflexivity|]);
    (destruct (Z.eqb_spec begB endB); cbn [negb]; [reflexivity|]);
    destruct (a begA); cbn [bind]; try reflexivity;
    destruct (b begB); cbn [bind]; try reflexivity;
    destruct (eq _ _); try reflexivity.
  rewrite !wrap_small by fits. apply IH; lia.
Qed.

Lemma strip_suffix_int fuel (a b : Iterator T) begA begB :
  int_min <= begA -> int_min <= begB ->
  forall endA endB suffix_len,
    begA <= endA <= int_max -> begB <= endB <= int_max ->
    int_min <= suffix_len -> suffix_len + (endA - begA) <= int_max ->
    Int32.strip_suffix eq fuel a b begA endA begB endB suffix_len
    = strip_suffix eq fuel a b begA endA begB endB suffix_len.
Proof.
  intros HA HB. induction fuel as [|fuel IH]; intros endA endB sl HeA HeB Hsl Hsl';
    cbn [Int32.strip_suffix strip_suffix];
    (destruct (Z.eqb_spec begA endA); cbn [negb andb]; [reflexivity|]);
    (destruct (Z.eqb_spec begB endB); cbn [negb]; [reflexivity|]);
    rewrite (wrap_small (endA - 1)), (wrap_small (endB - 1)) by fits;
    destruct (a (endA - 1)); cbn [bind]; try reflexivity;
    destruct (b (endB - 1)); cbn [bind]; try reflexivity;
    destruct (eq _ _); try reflexivity.
  rewrite !wrap_small by fits. apply IH; lia.
Qed.

End IntSearch.

(** ** The recursion *)

Section IntRecursion.

Context {T : Type}.
Variable eq : T -> T -> bool.
Variables (a b : Iterator T) (NA NB : Z).
Hypothesis Ha : readable a NA.
Hypothesis Hb : readable b NB.
Hypothesis Hfit : short_enough NA NB.

Ltac fit :=
  let H := fresh in
  pose proof Hfit as H; unfold short_enough, int_max in H;
  unfold in_int, int_min, int_max; lia.

(** The sums that [append_diff] computes from the last record of a
    well-formed script are small. *)
Lemma script_ok_sums_fit s r pa pb :
  script_ok eq a b s pa pb -> pa <= NA -> pb <= NB ->
  0 <= len r <= NA + NB ->
  sums_fit s r.
Proof.
  intros Hok HpA HpB Hr. unfold sums_fit.
  destruct s as [|back s _] using rev_ind; [exact I|].
  rewrite rev_app_distr. cbn [rev app].
  apply script_ok_snoc_inv in Hok as (pa0 & pb0 & Hok & Hlen & _ & Hrec).
  apply script_ok_pos in Hok as [Hpa0 Hpb0].
  intros Hmode. unfold record_ok in Hrec.
  split; [intros Hadd; rewrite Hmode, Hadd in Hrec|destruct (mode back)]; fit.
Qed.

(** What a call that returns has made of the script and of the block. *)
Lemma find_diff_rec_Done V1 V2 R fuel begA endA begB endB st st' :
  0 <= begA <= endA -> endA <= NA -> 0 <= begB <= endB -> endB <= NB ->
  (endA - begA) + (endB - begB) < Z.of_nat fuel ->
  (endA - begA) + (endB - begB) <= R ->
  room (size (st_data st)) V1 V2 R ->
  script_ok eq a b (st_diffs st) begA begB ->
  find_diff_rec eq fuel a begA endA b begB endB V1 V2 st = Done st' ->
  size (st_data st') = size (st_data st)
  /\ script_ok eq a b (st_diffs st') endA endB.
Proof.
  intros HA HA' HB HB' Hfuel HR Hroom Hst Hrun.
  destruct (find_diff_rec_spec eq a b NA NB Ha Hb V1 V2 (size (st_data st)) R fuel
              Hroom begA endA begB endB st HA HA' HB HB' Hfuel HR eq_refl Hst)
    as (st'' & c & Hrun' & Hsz & Hok & _).
  rewrite Hrun in Hrun'. injection Hrun' as <-. auto.
Qed.

(** On valid ranges of sequences that are short enough, the recursion with
    32-bit integers does what the recursion over [Z] does. *)
Lemma find_diff_rec_int V1 V2 R fuel :
  forall begA endA begB endB st st',
    0 <= begA <= endA -> endA <= NA -> 0 <= begB <= endB -> endB <= NB ->
    (endA - begA) + (endB - begB) < Z.of_nat fuel ->
    (endA - begA) + (endB - begB) <= R ->
    room (size (st_data st)) V1 V2 R ->
    script_ok eq a b (st_diffs st) begA begB ->
    find_diff_rec eq fuel a begA endA b begB endB V1 V2 st = Done st' ->
    Int32.find_diff_rec eq fuel a begA endA b begB endB V1 V2 st = Done st'.
Proof.
  induction fuel as [|fuel IH];
    intros begA endA begB endB st st' HA HA' HB HB' Hfuel HR Hroom Hst H; [lia|].
  pose proof H as Hwhole.
  apply (find_diff_rec_Done V1 V2 R) in Hwhole as [_ Hend]; auto.
  apply (find_diff_rec_valid_steps eq a b NA NB Ha Hb fuel _ _ _ _ V1 V2 R) in H;
    try lia; auto.
  destruct H as (n & k & st1 & Hn & Hk & HnA & HnB & Hpre & Hsuf & Hprefix & Hfirst
                 & Hsuffix & -> & Hmid).
  cbn [Int32.find_diff_rec].
  rewrite strip_prefix_int by fit. rewrite Hpre. cbn [bind].
  rewrite strip_suffix_int by fit. rewrite Hsuf. cbn [bind].
  cbv zeta in Hmid.
  set (bA := begA + n) in *. set (bB := begB + n) in *.
  set (eA := endA - k) in *. set (eB := endB - k) in *.
  assert (Hs0 : script_ok eq a b (append_diff (st_diffs st) (mkDiff Keep n 0)) bA bB).
  { eapply script_ok_append; [exact Hst|cbn; lia|].
    unfold record_ok. cbn. splits; try reflexivity. exact Hprefix. }
  rewrite (append_diff_int (st_diffs st))
    by (apply (script_ok_sums_fit _ _ _ _ Hst); cbn [len]; lia).
  set (ds0 := append_diff (st_diffs st) (mkDiff Keep n 0)) in *.
  rewrite (wrap_small (eA - bA)), (wrap_small (eB - bB)) by fit.
  (* the record of the suffix *)
  assert (Hlast : forall ds,
            script_ok eq a b ds eA eB ->
            Int32.append_diff ds (mkDiff Keep k 0)
            = append_diff ds (mkDiff Keep k 0)).
  { intros ds Hok. apply append_diff_int.
    apply (script_ok_sums_fit _ _ _ _ Hok); cbn [len]; unfold eA, eB; lia. }
  destruct Hmid as [(HlenA & ->)|[(HlenA & HlenB & ->)
                    |(HlenA & HlenB & data1 & s & st2 & Hsnake & Hsz1 & Hms & _
                      & Hsub1 & Hsub2)]].
  - destruct (Z.eqb_spec (eA - bA) 0); [|lia]. cbn [bind st_diffs st_data].
    rewrite (append_diff_int ds0)
      by (apply (script_ok_sums_fit _ _ _ _ Hs0); cbn [len]; unfold bA, bB, eA, eB; lia).
    rewrite Hlast; [reflexivity|].
    eapply script_ok_append; [exact Hs0|cbn; lia|].
    unfold record_ok. cbn. lia.
  - destruct (Z.eqb_spec (eA - bA) 0); [lia|].
    destruct (Z.eqb_spec (eB - bB) 0); [|lia]. cbn [bind st_diffs st_data].
    rewrite (append_diff_int ds0)
      by (apply (script_ok_sums_fit _ _ _ _ Hs0); cbn [len]; unfold bA, bB, eA, eB; lia).
    rewrite Hlast; [reflexivity|].
    eapply script_ok_append; [exact Hs0|cbn; lia|].
    unfold record_ok. cbn. lia.
  - destruct (Z.eqb_spec (eA - bA) 0); [lia|].
    destruct (Z.eqb_spec (eB - bB) 0); [lia|].
    set (N := eA - bA) in *. set (M := eB - bB) in *.
    set (m := grid eq (advance a bA) N (advance b bB) M) in *.
    assert (Hm0 : ~ m 0 0).
    { intros (_ & _ & Hm). apply Hfirst; [lia|lia|].
      unfold matches, advance in Hm. rewrite !Z.add_0_r in Hm. exact Hm. }
    assert (Hhalf : Z.quot (M + N + 1) 2 + 1 <= R).
    { pose proof (Z.quot_rem' (M + N + 1) 2) as Hq.
      pose proof (Z.rem_bound_pos (M + N + 1) 2 ltac:(lia) ltac:(lia)).
      unfold bA, bB, eA, eB, N, M in *. lia. }
    pose proof Hroom as (Hr1 & Hr2 & Hr3).
    rewrite (find_middle_snake_int eq N M V1 V2 R);
      [|lia|lia|unfold short_enough, N, M, bA, bB, eA, eB; fit|exact Hr2
       |exact Hhalf].
    rewrite Hsnake. cbn [bind].
    destruct (inner_ranges eq _ _ _ _ _ _ _ Hms) as (Hx & Hx' & Hy & Hy' & Hstep).
    unfold snake_diffs in Hsub2.
    destruct Hms as (Hdist & Hd & Hxr & HuN & Hyr & HvM & Hdiag & Hrun & c1 & c2
                     & Hsum & Hsplit).
    destruct s as [[x y u v add] reverse d].
    unfold before_snake, after_snake in *.
    cbn [fst snd SnakeLen.x SnakeLen.y SnakeLen.u SnakeLen.v SnakeLen.add
         SnakeLen.reverse SnakeLen.d SnakeLen.snake
         Snake.x Snake.y Snake.u Snake.v Snake.add] in *.
    assert (Hassert : (d >? 0) && (u <=? N) && (v <=? M) = true).
    { rewrite !andb_true_iff, Z.gtb_ltb, Z.ltb_lt, !Z.leb_le. lia. }
    rewrite Hassert. cbn [kak_assert bind].
    rewrite (wrap_small (bA + x)), (wrap_small (bB + y)),
            (wrap_small (bA + u)), (wrap_small (bB + v)) by fit.
    rewrite (wrap_small (bB + y - 1)), (wrap_small (u - x)) by fit.
    set (sx := bA + (x - (if reverse then 0 else if add then 0 else 1))) in *.
    set (sy := bB + (y - (if reverse then 0 else if add then 1 else 0))) in *.
    set (tx := bA + (u + (if reverse then if add then 0 else 1 else 0))) in *.
    set (ty := bB + (v + (if reverse then if add then 1 else 0 else 0))) in *.
    replace (bA + x - (if reverse then 0 else if add then 0 else 1)) with sx
      by (unfold sx; lia).
    replace (bB + y - (if reverse then 0 else if add then 1 else 0)) with sy
      by (unfold sy; lia).
    replace (bA + u + (if reverse then if add then 0 else 1 else 0)) with tx
      by (unfold tx; lia).
    replace (bB + v + (if reverse then if add then 1 else 0 else 0)) with ty
      by (unfold ty; lia).
    rewrite !(wrap_small sx), !(wrap_small sy), !(wrap_small tx), !(wrap_small ty)
      by fit.
    (* without recursion, the snake spans the whole range but for one edit *)
    assert (Hone : (d >? 1) = false ->
                   sx = bA /\ sy = bB /\ tx = eA /\ ty = eB).
    { intros Hle. rewrite Z.gtb_ltb, Z.ltb_ge in Hle.
      destruct reverse; [lia|]. destruct Hsplit as (Hp1 & Hp2 & Hstop).
      destruct (path_bounds _ _ _ _ _ _ Hp1) as (h1 & v1 & j1 & ?).
      destruct (path_bounds _ _ _ _ _ _ Hp2) as (h2 & v2 & j2 & ?).
      assert (c1 = 0) by lia. assert (c2 = 0) by lia. subst c1 c2.
      destruct (path_zero_inv _ _ _ _ _ _ Hp1 eq_refl) as (m1 & Hm1 & ? & ? & Hr1').
      destruct (path_zero_inv _ _ _ _ _ _ Hp2 eq_refl) as (m2 & Hm2 & ? & ? & Hr2').
      assert (m1 = 0).
      { destruct (Z.eq_dec m1 0); [assumption|]. exfalso. apply Hm0.
        specialize (Hr1' 0 ltac:(lia)). now rewrite !Z.add_0_r in Hr1'. }
      assert (m2 = 0).
      { destruct (Z.eq_dec m2 0); [assumption|]. exfalso. apply Hstop.
        specialize (Hr2' 0 ltac:(lia)). now rewrite !Z.add_0_r in Hr2'. }
      unfold sx, sy, tx, ty, N, M in *. destruct add; lia. }
    assert (Hkeep : forall i, 0 <= i < u - x ->
              matches eq a b (bA + x + i) (bB + y + i)).
    { intros i Hi. destruct (Hrun i Hi) as (_ & _ & Hmi).
      unfold matches, advance in Hmi.
      replace (bA + x + i) with (bA + (x + i)) by lia.
      replace (bB + y + i) with (bB + (y + i)) by lia. exact Hmi. }
    (* before the snake *)
    assert (H1 : (if d >? 1
                  then Int32.find_diff_rec eq fuel a bA sx b bB sy V1 V2
                         (mkState data1 ds0)
                  else Done (mkState data1 ds0)) = Done st2
                 /\ size (st_data st2) = size (st_data st)
                 /\ script_ok eq a b (st_diffs st2) sx sy).
    { destruct (d >? 1).
      - assert (Hroom1 : room (size (st_data (mkState data1 ds0))) V1 V2 R)
          by (cbn [st_data]; now rewrite Hsz1).
        split.
        + apply IH; auto; try (unfold N, M, bA, bB, eA, eB in *; lia).
        + apply (find_diff_rec_Done V1 V2 R) in Hsub1; auto;
            try (unfold N, M, bA, bB, eA, eB in *; lia).
          cbn [st_data] in Hsub1. destruct Hsub1 as [Hsz Hok].
          split; [congruence|exact Hok].
      - subst st2. cbn [st_data st_diffs]. destruct (Hone eq_refl) as (-> & -> & _).
        auto. }
    destruct H1 as (H1 & Hsz2 & Hs1). rewrite H1. cbn [bind].
    destruct st2 as [W' ds1]. cbn [st_data st_diffs] in *.
    (* after the snake *)
    assert (Htail : forall ds2,
              script_ok eq a b ds2 tx ty ->
              (if d >? 1
               then find_diff_rec eq fuel a tx eA b ty eB V1 V2 (mkState W' ds2)
                    = Done st1
               else st1 = mkState W' ds2) ->
              (st0 <- (if d >? 1
                       then Int32.find_diff_rec eq fuel a tx eA b ty eB V1 V2
                              (mkState W' ds2)
                       else Done (mkState W' ds2)) ;;
               Done (mkState (st_data st0)
                       (Int32.append_diff (st_diffs st0) (mkDiff Keep k 0))))
              = Done (mkState (st_data st1)
                        (append_diff (st_diffs st1) (mkDiff Keep k 0)))).
    { intros ds2 Hs2 Hsub. destruct (d >? 1).
      - assert (Hroom2 : room (size (st_data (mkState W' ds2))) V1 V2 R)
          by (cbn [st_data]; now rewrite Hsz2).
        rewrite (IH tx eA ty eB (mkState W' ds2) st1); auto;
          try (unfold N, M, bA, bB, eA, eB in *; lia).
        cbn [bind]. rewrite Hlast; [reflexivity|].
        apply (find_diff_rec_Done V1 V2 R) in Hsub; auto;
          try (unfold N, M, bA, bB, eA, eB in *; lia).
        destruct Hsub as [_ Hok]. exact Hok.
      - rewrite Hsub. cbn [bind st_data st_diffs]. rewrite Hlast; [reflexivity|].
        destruct (Hone eq_refl) as (_ & _ & <- & <-). exact Hs2. }
    (* the snake and its edit *)
    destruct reverse, add; cbn [negb] in Hsub2 |- *;
      unfold sx, sy, tx, ty in Hs1, Htail, Hsub2 |- *; cbv iota in Hs1, Htail, Hsub2 |- *.
    + assert (Ha1 : script_ok eq a b (append_diff ds1 (mkDiff Keep (u - x) 0))
                              (bA + u) (bB + v)).
      { eapply script_ok_append; [exact Hs1|cbn [len]; lia|].
        unfold record_ok; cbn [mode len posB]. splits; try lia.
        intros i Hi. specialize (Hkeep i Hi). matches_from Hkeep. }
      rewrite (append_diff_int ds1)
        by (apply (script_ok_sums_fit _ _ _ _ Hs1); cbn [len]; lia).
      rewrite (append_diff_int (append_diff ds1 _))
        by (apply (script_ok_sums_fit _ _ _ _ Ha1); cbn [len]; lia).
      apply Htail; [|exact Hsub2].
      eapply script_ok_append; [exact Ha1|cbn [len]; lia|].
      unfold record_ok; cbn [mode len posB]. lia.
    + assert (Ha1 : script_ok eq a b (append_diff ds1 (mkDiff Keep (u - x) 0))
                              (bA + u) (bB + v)).
      { eapply script_ok_append; [exact Hs1|cbn [len]; lia|].
        unfold record_ok; cbn [mode len posB]. splits; try lia.
        intros i Hi. specialize (Hkeep i Hi). matches_from Hkeep. }
      rewrite (append_diff_int ds1)
        by (apply (script_ok_sums_fit _ _ _ _ Hs1); cbn [len]; lia).
      rewrite (append_diff_int (append_diff ds1 _))
        by (apply (script_ok_sums_fit _ _ _ _ Ha1); cbn [len]; lia).
      apply Htail; [|exact Hsub2].
      eapply script_ok_append; [exact Ha1|cbn [len]; lia|].
      unfold record_ok; cbn [mode len posB]. lia.
    + assert (Ha1 : script_ok eq a b (append_diff ds1 (mkDiff Add 1 (bB + y - 1)))
                              (bA + x) (bB + y)).
      { eapply script_ok_append; [exact Hs1|cbn [len]; lia|].
        unfold record_ok; cbn [mode len posB]. lia. }
      rewrite (append_diff_int ds1)
        by (apply (script_ok_sums_fit _ _ _ _ Hs1); cbn [len]; lia).
      rewrite (append_diff_int (append_diff ds1 _))
        by (apply (script_ok_sums_fit _ _ _ _ Ha1); cbn [len]; lia).
      apply Htail; [|exact Hsub2].
      eapply script_ok_append; [exact Ha1|cbn [len]; lia|].
      unfold record_ok; cbn [mode len posB]. splits; try lia.
      intros i Hi. specialize (Hkeep i Hi). matches_from Hkeep.
    + assert (Ha1 : script_ok eq a b (append_diff ds1 (mkDiff Remove 1 0))
                              (bA + x) (bB + y)).
      { eapply script_ok_append; [exact Hs1|cbn [len]; lia|].
        unfold record_ok; cbn [mode len posB]. lia. }
      rewrite (append_diff_int ds1)
        by (apply (script_ok_sums_fit _ _ _ _ Hs1); cbn [len]; lia).
      rewrite (append_diff_int (append_diff ds1 _))
        by (apply (script_ok_sums_fit _ _ _ _ Ha1); cbn [len]; lia).
      apply Htail; [|exact Hsub2].
      eapply script_ok_append; [exact Ha1|cbn [len]; lia|].
      unfold record_ok; cbn [mode len posB]. splits; try lia.
      intros i Hi. specialize (Hkeep i Hi). matches_from Hkeep.
Qed.

End IntRecursion.

(** * Sequences that are short enough, and sequences that are not *)

Lemma wrap_high z :
  int_max < z <= int_max + 4294967296 -> Int32.wrap z = z - 4294967296.
Proof.
  unfold int_max, Int32.wrap. intros H.
  replace (z + 2147483648) with (z - 2147483648 + 1 * 4294967296) by lia.
  rewrite Z.mod_add by lia. rewrite Z.mod_small by lia. lia.
Qed.

Section IntDriver.

Context {T : Type}.
Variable eq : T -> T -> bool.

(** X28.  For sequences that are short enough ([2 * (2 * (N + M) + 1)] is
    an [int]), no operation of [find_diff] and of the functions that it
    calls overflows: with 32-bit integers, where every result of an
    operation on [int]s is wrapped, [find_diff] returns what it returns
    over [Z]. *)
Theorem find_diff_needs_no_more_than_int (A B : list T) :
  short_enough (Z.of_nat (length A)) (Z.of_nat (length B)) ->
  Int32.find_diff eq A B = find_diff eq A B.
Proof.
  intros Hfit.
  destruct (find_diff_run eq A B) as (st & Hrec & Hrun & _).
  cbv zeta in Hrec. rewrite Hrun. unfold Int32.find_diff.
  set (N := Z.of_nat (length A)) in *. set (M := Z.of_nat (length B)) in *.
  assert (HN : 0 <= N) by (unfold N; lia).
  assert (HM : 0 <= M) by (unfold M; lia).
  pose proof Hfit as Hfit'. unfold short_enough, int_max in Hfit'.
  rewrite (wrap_small (N + M)) by fits.
  rewrite (wrap_small (2 * (N + M))) by fits.
  rewrite (wrap_small (2 * (N + M) + 1)) by fits.
  rewrite (wrap_small (2 * (2 * (N + M) + 1))) by fits.
  rewrite (wrap_small (2 * (N + M) + 1 + N)) by fits.
  rewrite (wrap_small (2 * (N + M) + 1 + N + M)) by fits.
  unfold Int32.allocate.
  destruct (Z.ltb_spec (2 * (2 * (N + M) + 1)) 0); [lia|]. cbn [bind].
  change (mkStorage (2 * (2 * (N + M) + 1)) (fun _ => 0))
    with (allocate (2 * (2 * (N + M) + 1))).
  replace (2 * (N + M) + 1 + N + M) with (2 * (N + M) + 1 + (N + M)) by lia.
  rewrite (find_diff_rec_int eq (begin A) (begin B) N M
             (readable_begin A) (readable_begin B) Hfit
             (N + M) (2 * (N + M) + 1 + (N + M)) (N + M) _ _ _ _ _ _ st);
    try lia; try reflexivity.
  - unfold room. cbn [st_data allocate size]. lia.
  - apply script_ok_nil.
  - exact Hrec.
Qed.

(** X29.  For any two iterators, lengths that are short enough
    ([2 * (2 * (N + M) + 1)] is an [int]) and any block in which the two
    arrays have room for the diagonals, no operation of
    [find_middle_snake] overflows: with 32-bit integers it does what it
    does over [Z], whether it returns a snake or fails. *)
Theorem find_middle_snake_needs_no_more_than_int (a b : Iterator T) N M V1 V2 data :
  0 <= N -> 0 <= M -> short_enough N M ->
  room (size data) V1 V2 (Z.quot (M + N + 1) 2 + 1) ->
  Int32.find_middle_snake eq a N b M V1 V2 data
  = find_middle_snake eq a N b M V1 V2 data.
Proof.
  intros HN HM Hfit (_ & Hapart & _).
  now apply (find_middle_snake_int eq N M V1 V2 (Z.quot (M + N + 1) 2 + 1)).
Qed.

(** X30.  For sequences that are too long for the size of the block to be an
    [int], but for which [2 * (N + M) + 1], half of it, still is one, the
    size that [find_diff] computes with 32-bit integers is negative, and
    [find_diff] fails with [std::length_error] when it constructs the
    block. *)
Theorem find_diff_of_long_sequences (A B : list T) :
  ~ short_enough (Z.of_nat (length A)) (Z.of_nat (length B)) ->
  2 * (Z.of_nat (length A) + Z.of_nat (length B)) + 1 <= int_max ->
  Int32.find_diff eq A B = LengthError.
Proof.
  unfold short_enough. intros Hlong Hhalf. unfold Int32.find_diff.
  set (N := Z.of_nat (length A)) in *. set (M := Z.of_nat (length B)) in *.
  assert (HN : 0 <= N) by (unfold N; lia).
  assert (HM : 0 <= M) by (unfold M; lia).
  unfold int_max in Hlong, Hhalf.
  rewrite (wrap_small (N + M)) by fits.
  rewrite (wrap_small (2 * (N + M))) by fits.
  rewrite (wrap_small (2 * (N + M) + 1)) by fits.
  rewrite (wrap_high (2 * (2 * (N + M) + 1))) by (unfold int_max; lia).
  unfold Int32.allocate.
  destruct (Z.ltb_spec (2 * (2 * (N + M) + 1) - 4294967296) 0); [|lia].
  reflexivity.
Qed.

End IntDriver.

(** * The integers of the code on concrete sequences *)

Lemma find_diff_needs_no_more_than_int_witness :
  short_enough 3 3
  /\ Int32.find_diff Nat.eqb [1; 2; 3]%nat [1; 4; 3]%nat
     = find_diff Nat.eqb [1; 2; 3]%nat [1; 4; 3]%nat.
Proof.
  assert (H : short_enough 3 3) by (unfold short_enough, int_max; lia).
  split; [exact H|].
  exact (find_diff_needs_no_more_than_int Nat.eqb [1; 2; 3]%nat [1; 4; 3]%nat H).
Defined.

Lemma find_middle_snake_needs_no_more_than_int_witness :
  0 <= 2 /\ 0 <= 1 /\ short_enough 2 1
  /\ room (size (allocate 14)) 3 10 (Z.quot (1 + 2 + 1) 2 + 1)
  /\ Int32.find_middle_snake Nat.eqb (begin [1; 2]%nat) 2 (begin [3]%nat) 1
                             3 10 (allocate 14)
     = find_middle_snake Nat.eqb (begin [1; 2]%nat) 2 (begin [3]%nat) 1
                         3 10 (allocate 14).
Proof.
  assert (HN : 0 <= 2) by lia. assert (HM : 0 <= 1) by lia.
  assert (H : short_enough 2 1) by (unfold short_enough, int_max; lia).
  assert (Hroom : room (size (allocate 14)) 3 10 (Z.quot (1 + 2 + 1) 2 + 1))
    by (unfold room; simpl; lia).
  split; [exact HN|]. split; [exact HM|]. split; [exact H|]. split; [exact Hroom|].
  exact (find_middle_snake_needs_no_more_than_int Nat.eqb (begin [1; 2]%nat)
           (begin [3]%nat) 2 1 3 10 (allocate 14) HN HM H Hroom).
Defined.

(** A sequence of [2^29] elements against the empty sequence. *)
Lemma find_diff_of_long_sequences_witness :
  ~ short_enough (Z.of_nat (length (repeat tt (Z.to_nat 536870912))))
                 (Z.of_nat (length (@nil unit)))
  /\ 2 * (Z.of_nat (length (repeat tt (Z.to_nat 536870912)))
          + Z.of_nat (length (@nil unit))) + 1 <= int_max
  /\ Int32.find_diff (fun _ _ : unit => true)
                     (repeat tt (Z.to_nat 536870912)) []
     = LengthError.
Proof.
  assert (Hlen : Z.of_nat (length (repeat tt (Z.to_nat 536870912))) = 536870912)
    by (rewrite repeat_length; apply Z2Nat.id; discriminate).
  assert (H1 : ~ short_enough (Z.of_nat (length (repeat tt (Z.to_nat 536870912))))
                              (Z.of_nat (length (@nil unit))))
    by (rewrite Hlen; unfold short_enough, int_max; cbn [length Z.of_nat]; lia).
  assert (H2 : 2 * (Z.of_nat (length (repeat tt (Z.to_nat 536870912)))
                    + Z.of_nat (length (@nil unit))) + 1 <= int_max)
    by (rewrite Hlen; unfold int_max; cbn [length Z.of_nat]; lia).
  split; [exact H1|]. split; [exact H2|].
  exact (find_diff_of_long_sequences (fun _ _ : unit => true)
           (repeat tt (Z.to_nat 536870912)) [] H1 H2).
Defined.
